(** * Framing engine of [src/services/ffmpeg.ts] (framingService)

    A shallow embedding of the crop/framing engine: the multi-object
    tracker, anchor selection, the trajectory optimiser, the zoom solver,
    the post-processing chain, the static global crop and the builder of
    FFmpeg crop expressions, followed by the properties of the
    specification that concern them.  The subtitle writers, the escaping
    of filter arguments and the retry, chunking and segmentation helpers
    of the transcription are embedded as well, with their own properties
    after those of the specification; a subtitle writer is modelled by
    the text it writes.

    Numbers.  A JavaScript [number] is modelled as an exact rational in
    lowest terms ([Qc]): arithmetic is exact, equality is Leibniz equality,
    and [NaN], the infinities and binary rounding are outside the model.
    [Math.hypot] (a square root) is not rational and is a parameter.
    The timestamps of the subtitle files are the exception: there the
    numbers are binary64 numbers and the rounding of [/] and [*] is a
    parameter [fl] of the functions that print them.

    Effects.  Decoding frames and running the detector are the engine's
    only I/O; their outcomes are inputs of the model.  A JavaScript
    exception is the [Thrown] case of [outcome]. *)

From Stdlib Require Import QArith Qcanon Qround Qabs ZArith List Lia Lqa Bool.
From Stdlib Require Import String Ascii DecimalString.
From Stdlib Require Import Permutation Sorted Qpower.
Import ListNotations.

Local Open Scope Qc_scope.

(* ================================================================== *)
(** ** JavaScript numbers *)

Module JS.

Definition ofZ (z : Z) : Qc := Q2Qc (inject_Z z).
Definition ofNat (n : nat) : Qc := ofZ (Z.of_nat n).

(** Decimal literals: [dec 88 100] is [0.88]. *)
Definition dec (n : Z) (d : positive) : Qc := Q2Qc (n # d).

Definition ltb (x y : Qc) : bool :=
  match x ?= y with Lt => true | _ => false end.
Definition leb (x y : Qc) : bool :=
  match x ?= y with Gt => false | _ => true end.
Definition gtb (x y : Qc) : bool := ltb y x.
Definition geb (x y : Qc) : bool := leb y x.
Definition eqb (x y : Qc) : bool :=
  match x ?= y with Eq => true | _ => false end.

Definition Math_max (a b : Qc) : Qc := if ltb a b then b else a.
Definition Math_min (a b : Qc) : Qc := if ltb b a then b else a.
Definition Math_abs (a : Qc) : Qc := if ltb a 0 then - a else a.
Definition Math_floor (a : Qc) : Qc := ofZ (Qfloor a).
Definition Math_ceil (a : Qc) : Qc := ofZ (Qceiling a).
(** [Math.round] rounds halves towards +infinity. *)
Definition roundZ (a : Qc) : Z := Qfloor (a + dec 1 2).
Definition Math_round (a : Qc) : Qc := ofZ (roundZ a).
Definition Math_sign (a : Qc) : Qc :=
  if ltb 0 a then 1 else if ltb a 0 then - (1) else 0.
Definition Math_pow2 (a : Qc) : Qc := a * a.

End JS.
Import JS.

Infix "<?" := ltb (at level 70, no associativity) : Qc_scope.
Infix "<=?" := leb (at level 70, no associativity) : Qc_scope.
Infix ">?" := gtb (at level 70, no associativity) : Qc_scope.
Infix ">=?" := geb (at level 70, no associativity) : Qc_scope.

(** [clamp] and [stepToward] (ffmpeg.ts 3397-3412). *)
Definition clamp (value min max : Qc) : Qc :=
  if value <? min then min
  else if value >? max then max
  else value.

Definition stepToward (current target maxDelta : Qc) : Qc :=
  if Math_abs (target - current) <=? maxDelta then target
  else if target >? current then current + maxDelta
  else current - maxDelta.

(* ================================================================== *)
(** ** Exceptions *)

Inductive outcome (A : Type) : Type :=
| Returned (a : A)
| Thrown (msg : string).
Arguments Returned {A} a.
Arguments Thrown {A} msg.

Definition bind {A B} (m : outcome A) (k : A -> outcome B) : outcome B :=
  match m with
  | Returned a => k a
  | Thrown e => Thrown e
  end.

(** [try { body } catch (err) { handler }]. *)
Definition try_catch {A} (body : outcome A) (handler : string -> outcome A)
  : outcome A :=
  match body with
  | Returned a => Returned a
  | Thrown e => handler e
  end.

Notation "x <- m ;; k" := (bind m (fun x => k))
  (at level 61, m at next level, right associativity).

(* ================================================================== *)
(** ** Data model (ffmpeg.ts 894-1006) *)

Record TranscriptWord := mkWord {
  word_t : Qc;
  word_end : Qc;
  word_text : string;
  word_speaker : option string
}.

Record ComputeInput := mkInput {
  baseW : Qc;
  baseH : Qc;
  segStart : Qc;
  segEnd : Qc;
  transcript : list TranscriptWord
}.

Record Constraints := mkConstraints {
  margin : Qc;
  maxPan : Qc;
  easeMs : Qc;
  centerBiasX : Qc;
  centerBiasY : Qc;
  safeTop : Qc;
  safeBottom : Qc
}.

Record CropKF := mkKF {
  kf_t : Qc;
  kf_x : Qc;
  kf_y : Qc;
  kf_w : Qc;
  kf_h : Qc;
  kf_z : Qc;
  kf_xs : Qc;
  kf_ys : Qc
}.

(** [detectorType] only feeds log lines and is left out. *)
Record PersonDet := mkDet {
  det_x : Qc;
  det_y : Qc;
  det_w : Qc;
  det_h : Qc;
  det_score : Qc;
  det_id : option Z
}.

Record PersonSnapshot := mkSnap {
  snap_t : Qc;
  snap_dets : list PersonDet
}.

Record Track := mkTrack {
  tr_id : Z;
  tr_x : Qc;
  tr_y : Qc;
  tr_w : Qc;
  tr_h : Qc;
  tr_score : Qc;
  tr_vx : Qc;
  tr_vy : Qc;
  tr_lastT : Qc;
  tr_age : Qc;
  tr_hits : Z;
  tr_miss : Qc
}.

Record SpeakerTurn := mkTurn {
  turn_start : Qc;
  turn_end : Qc;
  turn_label : string
}.

Record FaceDetection := mkFace {
  face_x : Qc;
  face_y : Qc;
  face_width : Qc;
  face_height : Qc;
  face_centerX : Qc;
  face_centerY : Qc;
  face_score : Qc;
  face_area : Qc
}.

Record WeightedValue := mkWV { wv_value : Qc; wv_weight : Qc }.

Record FrameDetections := mkFrame {
  frame_index : nat;
  frame_time : Qc;
  frame_detections : list FaceDetection
}.

Record CropInfo := mkCropInfo {
  cropX : Qc;
  cropY : Qc;
  cropWidth : Qc;
  cropHeight : Qc;
  videoWidth : Qc;
  videoHeight : Qc
}.

Record GlobalCrop := mkGlobalCrop {
  gc_cropX : Qc;
  gc_cropY : Qc;
  gc_cropW : Qc;
  gc_cropH : Qc;
  gc_zMin : Qc
}.

(* ================================================================== *)
(** ** Tunables read from the environment (ffmpeg.ts 1371-1412)

    A field of [Env] is the value of [Number(process.env.X || default)];
    the constants of the module are the clamped values below. *)

Record Env := mkEnv {
  env_PERSON_DETECT_EVERY : Qc;
  env_FRAMING_SAMPLE_FPS : Qc;
  env_TRACK_IOU_THRESH : Qc;
  env_TRACK_MAX_AGE_S : Qc;
  env_TRACK_MIN_HITS : Qc;
  env_TRACK_MIN_AREA : Qc;
  env_MIN_DET_AREA : Qc;
  env_FRAMING_SMOOTH_ALPHA : Qc;
  env_FRAMING_DEADZONE_X : Qc;
  env_FRAMING_DEADZONE_Y : Qc;
  env_FRAMING_MAX_ACCEL : Qc;
  env_FRAMING_GLOB_LAMBDA_V : Qc;
  env_FRAMING_GLOB_LAMBDA_A : Qc;
  env_FRAMING_GLOB_ITERS : Qc;
  env_FRAMING_GLOB_LR : Qc;
  env_FRAMING_Z_MIN : Qc;
  env_FRAMING_Z_DECAY : Qc
}.

Definition default_env : Env :=
  {| env_PERSON_DETECT_EVERY := ofZ 3;
     env_FRAMING_SAMPLE_FPS := ofZ 12;
     env_TRACK_IOU_THRESH := dec 35 100;
     env_TRACK_MAX_AGE_S := dec 8 10;
     env_TRACK_MIN_HITS := ofZ 2;
     env_TRACK_MIN_AREA := ofZ 300;
     env_MIN_DET_AREA := ofZ 100;
     env_FRAMING_SMOOTH_ALPHA := dec 2 10;
     env_FRAMING_DEADZONE_X := ofZ 70;
     env_FRAMING_DEADZONE_Y := ofZ 50;
     env_FRAMING_MAX_ACCEL := ofZ 900;
     env_FRAMING_GLOB_LAMBDA_V := ofZ 80;
     env_FRAMING_GLOB_LAMBDA_A := ofZ 500;
     env_FRAMING_GLOB_ITERS := ofZ 80;
     env_FRAMING_GLOB_LR := dec 15 100;
     env_FRAMING_Z_MIN := dec 88 100;
     env_FRAMING_Z_DECAY := dec 2 10 |}.

Section Tunables.
Variable env : Env.

Definition DETECT_EVERY := Math_max 1 (env_PERSON_DETECT_EVERY env).
Definition DEFAULT_SAMPLE_FPS := Math_max 1 (env_FRAMING_SAMPLE_FPS env).
Definition TRACK_IOU_THRESH :=
  Math_max 0 (Math_min 1 (env_TRACK_IOU_THRESH env)).
Definition TRACK_MAX_AGE_S := Math_max (dec 1 10) (env_TRACK_MAX_AGE_S env).
Definition TRACK_MIN_HITS := Math_max 1 (env_TRACK_MIN_HITS env).
Definition MIN_TRACK_AREA := Math_max 1 (env_TRACK_MIN_AREA env).
Definition MIN_DET_AREA := Math_max 1 (env_MIN_DET_AREA env).
Definition SMOOTH_ALPHA :=
  Math_max (dec 1 100) (Math_min 1 (env_FRAMING_SMOOTH_ALPHA env)).
Definition DEADZONE_X := Math_max 0 (env_FRAMING_DEADZONE_X env).
Definition DEADZONE_Y := Math_max 0 (env_FRAMING_DEADZONE_Y env).
Definition MAX_ACCEL := Math_max 0 (env_FRAMING_MAX_ACCEL env).
Definition GLOB_LAMBDA_V := Math_max 0 (env_FRAMING_GLOB_LAMBDA_V env).
Definition GLOB_LAMBDA_A := Math_max 0 (env_FRAMING_GLOB_LAMBDA_A env).
Definition GLOB_ITERS := Math_max 1 (env_FRAMING_GLOB_ITERS env).
Definition GLOB_LR := Math_max (dec 1 1000) (env_FRAMING_GLOB_LR env).
Definition Z_MIN := Math_max (dec 8 10) (Math_min 1 (env_FRAMING_Z_MIN env)).
Definition Z_DECAY :=
  Math_max (dec 1 100) (Math_min 1 (env_FRAMING_Z_DECAY env)).
End Tunables.


(* ================================================================== *)
(** ** Multi-object tracker (ffmpeg.ts 2482-2681) *)

Section Tracker.
Variable env : Env.

Definition iouTrackDet (tr : Track) (d : PersonDet) : Qc :=
  let ax1 := tr_x tr in
  let ay1 := tr_y tr in
  let ax2 := tr_x tr + tr_w tr in
  let ay2 := tr_y tr + tr_h tr in
  let bx1 := det_x d in
  let by1 := det_y d in
  let bx2 := det_x d + det_w d in
  let by2 := det_y d + det_h d in
  let xx1 := Math_max ax1 bx1 in
  let yy1 := Math_max ay1 by1 in
  let xx2 := Math_min ax2 bx2 in
  let yy2 := Math_min ay2 by2 in
  if (xx2 <=? xx1) || (yy2 <=? yy1) then 0
  else
    let inter := (xx2 - xx1) * (yy2 - yy1) in
    let ra := tr_w tr * tr_h tr in
    let rb := det_w d * det_h d in
    let uni := ra + rb - inter in
    if uni <=? 0 then 0 else inter / uni.

(** [{ ...tr, x: nx, y: ny }] and the other object spreads of the tracker. *)
Definition with_xy (tr : Track) (nx ny : Qc) : Track :=
  {| tr_id := tr_id tr; tr_x := nx; tr_y := ny; tr_w := tr_w tr;
     tr_h := tr_h tr; tr_score := tr_score tr; tr_vx := tr_vx tr;
     tr_vy := tr_vy tr; tr_lastT := tr_lastT tr; tr_age := tr_age tr;
     tr_hits := tr_hits tr; tr_miss := tr_miss tr |}.

Definition with_time (tr : Track) (lastT age miss : Qc) : Track :=
  {| tr_id := tr_id tr; tr_x := tr_x tr; tr_y := tr_y tr; tr_w := tr_w tr;
     tr_h := tr_h tr; tr_score := tr_score tr; tr_vx := tr_vx tr;
     tr_vy := tr_vy tr; tr_lastT := lastT; tr_age := age;
     tr_hits := tr_hits tr; tr_miss := miss |}.

(** The [prev.map] at the head of [associateAndUpdate]. *)
Definition predictTrack (t bW bH : Qc) (tr : Track) : Track :=
  let dt := Math_max (dec 1 1000) (t - tr_lastT tr) in
  let nx := clamp (Math_round (tr_x tr + tr_vx tr * dt)) 0 (bW - tr_w tr) in
  let ny := clamp (Math_round (tr_y tr + tr_vy tr * dt)) 0 (bH - tr_h tr) in
  with_xy tr nx ny.

Record Match := mkMatch { m_ti : nat; m_di : nat; m_iou : Qc }.

(** [Set<number>.has]. *)
Definition has (s : list nat) (i : nat) : bool := existsb (Nat.eqb i) s.

(** The inner loop over [di]: the best unused detection for one predicted
    track.  [bestIdx = -1] is [None]. *)
Fixpoint bestDetection (tr : Track) (dets : list PersonDet) (di : nat)
    (usedD : list nat) (bestIdx : option nat) (bestIou : Qc)
  : option nat * Qc :=
  match dets with
  | [] => (bestIdx, bestIou)
  | d :: rest =>
      if has usedD di then
        bestDetection tr rest (S di) usedD bestIdx bestIou
      else
        let iv := iouTrackDet tr d in
        if iv >? bestIou then bestDetection tr rest (S di) usedD (Some di) iv
        else bestDetection tr rest (S di) usedD bestIdx bestIou
  end.

Record MatchState := mkMatchState {
  ms_matches : list Match;
  ms_usedD : list nat;
  ms_usedT : list nat
}.

(** The outer loop over [ti]. *)
Fixpoint matchTracks (predicted : list Track) (ti : nat)
    (dets : list PersonDet) (st : MatchState) : MatchState :=
  match predicted with
  | [] => st
  | tr :: rest =>
      let '(bestIdx, bestIou) :=
        bestDetection tr dets 0 (ms_usedD st) None 0 in
      let st' :=
        match bestIdx with
        | Some di =>
            if bestIou >=? TRACK_IOU_THRESH env then
              {| ms_matches := ms_matches st ++ [mkMatch ti di bestIou];
                 ms_usedD := di :: ms_usedD st;
                 ms_usedT := ti :: ms_usedT st |}
            else st
        | None => st
        end in
      matchTracks rest (S ti) dets st'
  end.

(** The track pushed for one match. *)
Definition updateMatched (t : Qc) (tr : Track) (det : PersonDet) : Track :=
  let dt := Math_max (dec 1 1000) (t - tr_lastT tr) in
  let pcx := tr_x tr + tr_w tr / ofZ 2 in
  let pcy := tr_y tr + tr_h tr / ofZ 2 in
  let dcx := det_x det + det_w det / ofZ 2 in
  let dcy := det_y det + det_h det / ofZ 2 in
  let vx := (dcx - pcx) / dt in
  let vy := (dcy - pcy) / dt in
  {| tr_id := tr_id tr; tr_x := det_x det; tr_y := det_y det;
     tr_w := det_w det; tr_h := det_h det; tr_score := det_score det;
     tr_vx := vx; tr_vy := vy; tr_lastT := t; tr_age := tr_age tr + dt;
     tr_hits := (tr_hits tr + 1)%Z; tr_miss := 0 |}.

(** [predicted[m.ti]] and [dets[m.di]] are in range for every match the
    loop above records (lemma [matchTracks_in_range]). *)
Definition matchedTracks (t : Qc) (predicted : list Track)
    (dets : list PersonDet) (matches : list Match) : list Track :=
  flat_map (fun m =>
    match nth_error predicted (m_ti m), nth_error dets (m_di m) with
    | Some tr, Some det => [updateMatched t tr det]
    | _, _ => []
    end) matches.

(** The second loop: unmatched tracks coast on their prediction. *)
Fixpoint unmatchedTracks (t : Qc) (predicted : list Track) (ti : nat)
    (usedT : list nat) : list Track :=
  match predicted with
  | [] => []
  | tr :: rest =>
      if has usedT ti then unmatchedTracks t rest (S ti) usedT
      else
        let dt := Math_max (dec 1 1000) (t - tr_lastT tr) in
        let newAge := tr_age tr + dt in
        let newMiss := tr_miss tr + dt in
        if newMiss <=? TRACK_MAX_AGE_S env then
          with_time tr t newAge newMiss
            :: unmatchedTracks t rest (S ti) usedT
        else unmatchedTracks t rest (S ti) usedT
  end.

Definition newTrack (t : Qc) (id : Z) (det : PersonDet) : Track :=
  {| tr_id := id; tr_x := det_x det; tr_y := det_y det;
     tr_w := det_w det; tr_h := det_h det; tr_score := det_score det;
     tr_vx := 0; tr_vy := 0; tr_lastT := t; tr_age := 0;
     tr_hits := 1%Z; tr_miss := 0 |}.

(** The third loop: unmatched detections spawn tracks, [id: nextId++]. *)
Fixpoint spawnTracks (t : Qc) (dets : list PersonDet) (di : nat)
    (usedD : list nat) (nextId : Z) : list Track :=
  match dets with
  | [] => []
  | det :: rest =>
      if has usedD di then spawnTracks t rest (S di) usedD nextId
      else newTrack t nextId det
             :: spawnTracks t rest (S di) usedD (nextId + 1)%Z
  end.

Definition associateAndUpdate (prev : list Track) (dets : list PersonDet)
    (t bW bH : Qc) (nextId : Z) : list Track :=
  let predicted := map (predictTrack t bW bH) prev in
  let st := matchTracks predicted 0 dets (mkMatchState [] [] []) in
  matchedTracks t predicted dets (ms_matches st)
    ++ unmatchedTracks t predicted 0 (ms_usedT st)
    ++ spawnTracks t dets 0 (ms_usedD st) nextId.

(** [t - tr.lastT || dtDefault]. *)
Definition or_default (a dflt : Qc) : Qc := if eqb a 0 then dflt else a.

Fixpoint predictOnly (prev : list Track) (t dtDefault bW bH : Qc)
  : list Track :=
  match prev with
  | [] => []
  | tr :: rest =>
      let dt := Math_max (dec 1 1000) (or_default (t - tr_lastT tr) dtDefault) in
      let nx := clamp (Math_round (tr_x tr + tr_vx tr * dt)) 0 (bW - tr_w tr) in
      let ny := clamp (Math_round (tr_y tr + tr_vy tr * dt)) 0 (bH - tr_h tr) in
      let miss := tr_miss tr + dt in
      if miss <=? TRACK_MAX_AGE_S env then
        with_time (with_xy tr nx ny) t (tr_age tr + dt) miss
          :: predictOnly rest t dtDefault bW bH
      else predictOnly rest t dtDefault bW bH
  end.

(** [tracks.reduce((m, tr) => Math.max(m, tr.id), nextId)] followed by
    [nextId = Math.max(nextId, maxId + 1)]. *)
Definition bumpNextId (tracks : list Track) (nextId : Z) : Z :=
  let maxId := fold_left (fun m tr => Z.max m (tr_id tr)) tracks nextId in
  Z.max nextId (maxId + 1).

Definition detLike (tr : Track) : PersonDet :=
  {| det_x := tr_x tr; det_y := tr_y tr; det_w := tr_w tr; det_h := tr_h tr;
     det_score := tr_score tr; det_id := Some (tr_id tr) |}.

Definition aliveInBuildTracks (tr : Track) : bool :=
  (ofZ (tr_hits tr) >=? TRACK_MIN_HITS env)
  && (tr_miss tr <=? TRACK_MAX_AGE_S env)
  && (tr_w tr * tr_h tr >=? MIN_TRACK_AREA env).

Fixpoint buildTracks_loop (snaps : list PersonSnapshot) (bW bH : Qc)
    (tracks : list Track) (nextId : Z) : list PersonSnapshot :=
  match snaps with
  | [] => []
  | s :: rest =>
      let tracks' :=
        associateAndUpdate tracks (snap_dets s) (snap_t s) bW bH nextId in
      let nextId' := bumpNextId tracks' nextId in
      let alive := filter aliveInBuildTracks tracks' in
      mkSnap (snap_t s) (map detLike alive)
        :: buildTracks_loop rest bW bH tracks' nextId'
  end.

Definition buildTracks (snaps : list PersonSnapshot) (bW bH : Qc)
  : list PersonSnapshot :=
  buildTracks_loop snaps bW bH [] 1%Z.

(* ------------------------------------------------------------------ *)
(** *** Sampling a segment (ffmpeg.ts 2322-2453)

    [frames] is what the decoder and the detector deliver: [Thrown] when
    extraction, listing, reading or decoding fails, otherwise one entry per
    extracted frame, the outcome of [detectPersons] on it (consulted only
    on the frames where the detector runs). *)

Definition aliveInTimeline (tr : Track) : bool :=
  (ofZ (tr_hits tr) >=? TRACK_MIN_HITS env)
  && (tr_w tr * tr_h tr >=? MIN_TRACK_AREA env).

(** [a % b === 0] for [a >= 0] and [b > 0]. *)
Definition divides (b a : Qc) : bool :=
  eqb (a - b * ofZ (Qfloor (a / b))) 0.

Fixpoint sampleLoop (frames : list (outcome (list PersonDet)))
    (i : nat) (segStart frameInterval bW bH : Qc)
    (frameIdx : nat) (tracks : list Track) (nextTrackId : Z)
  : outcome (list PersonSnapshot) :=
  match frames with
  | [] => Returned []
  | frame :: rest =>
      let t := segStart + ofNat i * frameInterval in
      let doDetect :=
        divides (DETECT_EVERY env) (ofNat frameIdx)
        || Nat.eqb (List.length tracks) 0 in
      st <- (if doDetect then
               dets <- frame ;;
               let dets := filter (fun d =>
                 det_w d * det_h d >=? MIN_DET_AREA env) dets in
               let tracks' :=
                 associateAndUpdate tracks dets t bW bH nextTrackId in
               Returned (tracks', bumpNextId tracks' nextTrackId)
             else
               Returned (predictOnly tracks t frameInterval bW bH,
                         nextTrackId)) ;;
      let '(tracks', nextTrackId') := st in
      let alive := filter aliveInTimeline tracks' in
      out <- sampleLoop rest (S i) segStart frameInterval bW bH
               (S frameIdx) tracks' nextTrackId' ;;
      Returned (mkSnap t (map detLike alive) :: out)
  end.

(** [mkdir] is the outcome of [fs.mkdirSync], which runs outside the
    [try]; everything after it is caught and turned into []. *)
Definition detectPersonsTimeline (mkdir : outcome unit)
    (frames : outcome (list (outcome (list PersonDet))))
    (segStart segEnd bW bH : Qc) : outcome (list PersonSnapshot) :=
  let duration := Math_max 0 (segEnd - segStart) in
  if eqb duration 0 then Returned []
  else
    let fps := DEFAULT_SAMPLE_FPS env in
    let frameInterval := 1 / fps in
    let expectedFrames := Z.to_nat (Qceiling (duration * fps)) in
    _ <- mkdir ;;
    try_catch
      (frameFiles <- frames ;;
       sampleLoop (firstn expectedFrames frameFiles) 0 segStart
         frameInterval bW bH 0 [] 1%Z)
      (fun _ => Returned []).

End Tracker.


(* ================================================================== *)
(** ** Speaker turns (ffmpeg.ts 3131-3190) *)

(** A string is truthy when it is not empty. *)
Definition truthy (o : option string) : option string :=
  match o with
  | Some s => if String.eqb s EmptyString then None else Some s
  | None => None
  end.

(** [Array.prototype.sort] is stable: insertion after the equal keys. *)
Fixpoint insertWord (w : TranscriptWord) (l : list TranscriptWord)
  : list TranscriptWord :=
  match l with
  | [] => [w]
  | v :: rest =>
      if word_t w <? word_t v then w :: l else v :: insertWord w rest
  end.

Definition sortWords (l : list TranscriptWord) : list TranscriptWord :=
  fold_left (fun acc w => insertWord w acc) l [].

Definition newTurn (segStart segEnd : Qc) (w : TranscriptWord) (label : string)
  : SpeakerTurn :=
  {| turn_start := Math_max segStart (word_t w);
     turn_end := Math_min segEnd (word_end w);
     turn_label := label |}.

Fixpoint turnsLoop (segStart segEnd : Qc) (ws : list TranscriptWord)
    (cur : option SpeakerTurn) (turns : list SpeakerTurn)
  : list SpeakerTurn :=
  match ws with
  | [] => match cur with Some c => turns ++ [c] | None => turns end
  | w :: rest =>
      let label := match word_speaker w with Some s => s | None => EmptyString end in
      match cur with
      | None =>
          turnsLoop segStart segEnd rest (Some (newTurn segStart segEnd w label)) turns
      | Some c =>
          if String.eqb label (turn_label c)
             && (word_t w - turn_end c <=? dec 6 10)
          then
            let c' := {| turn_start := turn_start c;
                         turn_end := Math_min segEnd
                                       (Math_max (turn_end c) (word_end w));
                         turn_label := turn_label c |} in
            turnsLoop segStart segEnd rest (Some c') turns
          else
            turnsLoop segStart segEnd rest
              (Some (newTurn segStart segEnd w label)) (turns ++ [c])
      end
  end.

Definition buildSpeakerTurns (words : list TranscriptWord)
    (segStart segEnd : Qc) : list SpeakerTurn :=
  let filtered := sortWords (filter (fun w =>
    match truthy (word_speaker w) with
    | Some _ => (word_end w >=? segStart) && (word_t w <=? segEnd)
    | None => false
    end) words) in
  turnsLoop segStart segEnd filtered None [].

Fixpoint activeSpeakerLoop (a b : Qc) (turns : list SpeakerTurn)
    (best : option string) (bestOverlap : Qc) : option string :=
  match turns with
  | [] => best
  | u0 :: rest =>
      let u := Math_max a (turn_start u0) in
      let v := Math_min b (turn_end u0) in
      let ov := Math_max 0 (v - u) in
      if ov >? bestOverlap then
        activeSpeakerLoop a b rest (Some (turn_label u0)) ov
      else activeSpeakerLoop a b rest best bestOverlap
  end.

Definition activeSpeakerAt (t : Qc) (turns : list SpeakerTurn)
  : option string :=
  activeSpeakerLoop (t - dec 6 10) (t + dec 2 10) turns None 0.

(* ================================================================== *)
(** ** Anchor selection and feasible regions (ffmpeg.ts 2903-3129) *)

Section Anchors.
Variable env : Env.
Variable Math_hypot : Qc -> Qc -> Qc.

Definition anchorScore (d : PersonDet) (bW bH : Qc) : Qc :=
  let area := det_w d * det_h d in
  let cx := det_x d + det_w d / ofZ 2 in
  let cy := det_y d + det_h d / ofZ 2 in
  let dx := Math_abs (cx - bW / ofZ 2) / (bW / ofZ 2) in
  let dy := Math_abs (cy - bH / ofZ 2) / (bH / ofZ 2) in
  let centr := 1 - Math_min 1 (Math_hypot dx dy) in
  area * det_score d * (dec 5 10 + dec 5 10 * centr).

(** [chooseAnchor] on the non-empty array [d0 :: rest]; both call sites
    skip empty detection lists. *)
Definition chooseAnchor (d0 : PersonDet) (rest : list PersonDet)
    (bW bH : Qc) : PersonDet :=
  fst (fold_left (fun '(best, bestScore) d =>
         let s := anchorScore d bW bH in
         if s >? bestScore then (d, s) else (best, bestScore))
       rest (d0, anchorScore d0 bW bH)).

Record Bounds := mkBounds {
  b_minX : Qc; b_maxX : Qc; b_minY : Qc; b_maxY : Qc
}.

(** [computeBounds] on a non-empty array: the infinite seeds are replaced
    by the first detection. *)
Definition computeBounds (d0 : PersonDet) (rest : list PersonDet) : Bounds :=
  fold_left (fun b d =>
      {| b_minX := Math_min (b_minX b) (det_x d);
         b_maxX := Math_max (b_maxX b) (det_x d + det_w d);
         b_minY := Math_min (b_minY b) (det_y d);
         b_maxY := Math_max (b_maxY b) (det_y d + det_h d) |})
    rest
    {| b_minX := det_x d0; b_maxX := det_x d0 + det_w d0;
       b_minY := det_y d0; b_maxY := det_y d0 + det_h d0 |}.

Record Group := mkGroup {
  g_groupW : Qc; g_groupH : Qc;
  g_minX : Qc; g_maxX : Qc; g_minY : Qc; g_maxY : Qc
}.

Definition boundsToGroup (b : Bounds) : Group :=
  {| g_groupW := b_maxX b - b_minX b;
     g_groupH := b_maxY b - b_minY b;
     g_minX := b_minX b; g_maxX := b_maxX b;
     g_minY := b_minY b; g_maxY := b_maxY b |}.

Record SmoothingState := mkSmoothing {
  smoothedX : option Qc;
  smoothedY : option Qc
}.

(** Returns the smoothed point and the mutated state. *)
Definition applyTemporalSmoothing (rawX rawY : Qc) (st : SmoothingState)
  : (Qc * Qc) * SmoothingState :=
  match smoothedX st, smoothedY st with
  | Some sX, Some sY =>
      let deltaX := rawX - sX in
      let deltaY := rawY - sY in
      let targetX := if Math_abs deltaX <=? DEADZONE_X env then sX else rawX in
      let targetY := if Math_abs deltaY <=? DEADZONE_Y env then sY else rawY in
      let newX := sX + SMOOTH_ALPHA env * (targetX - sX) in
      let newY := sY + SMOOTH_ALPHA env * (targetY - sY) in
      ((newX, newY), mkSmoothing (Some newX) (Some newY))
  | _, _ => ((rawX, rawY), mkSmoothing (Some rawX) (Some rawY))
  end.

Record Feasible := mkFeasible {
  f_xL : Qc; f_xU : Qc; f_yL : Qc; f_yU : Qc;
  f_xDes : Qc; f_yDes : Qc;
  f_groupW : Qc; f_groupH : Qc;
  f_insetX : Qc; f_insetY : Qc
}.

Definition buildFeasible (group : Group) (anchor : PersonDet)
    (targetW targetH bW bH : Qc) (constraints : Constraints)
    (smoothedPosition : Qc * Qc) : Feasible :=
  let marginX := Math_max 0 (margin constraints) * targetW in
  let minMarginY := targetH * dec 1 10 in
  let adaptiveMarginY := Math_max minMarginY (g_groupH group * dec 6 10) in
  let topPad := Math_max minMarginY (adaptiveMarginY * dec 6 10) in
  let bottomPad := adaptiveMarginY in
  let paddedMinX := clamp (g_minX group - marginX) 0 bW in
  let paddedMaxX := clamp (g_maxX group + marginX) 0 bW in
  let paddedMinY := clamp (g_minY group - topPad) 0 bH in
  let paddedMaxY := clamp (g_maxY group + bottomPad) 0 bH in
  let frameCenterX := bW / ofZ 2 in
  let blend := Math_max 0 (Math_min 1 (centerBiasX constraints)) in
  let desiredCenterX :=
    fst smoothedPosition * blend + frameCenterX * (1 - blend) in
  let torsoBias := Math_min (targetH * dec 18 100) (g_groupH group * dec 6 10) in
  let desiredCenterY :=
    (paddedMinY + paddedMaxY) / ofZ 2 + torsoBias
      - targetH * centerBiasY constraints in
  let insetX := Math_max (ofZ 8) (Math_floor (targetW * dec 6 100)) in
  let insetY := Math_max (ofZ 8) (Math_floor (targetH * dec 8 100)) in
  let xL0 := clamp (paddedMaxX + insetX - targetW) 0 (Math_max 0 (bW - targetW)) in
  let xU0 := clamp (paddedMinX - insetX) 0 (Math_max 0 (bW - targetW)) in
  let '(xL, xU) :=
    if xL0 >? xU0 then
      let m := clamp ((paddedMinX + paddedMaxX) / ofZ 2 - targetW / ofZ 2)
                 0 (Math_max 0 (bW - targetW)) in
      (m, m)
    else (xL0, xU0) in
  let safeTopPx := - Math_round (targetH * safeTop constraints) in
  let safeBottomPx := Math_round (targetH * safeBottom constraints) in
  let minY := safeTopPx in
  let maxY := bH - targetH + safeBottomPx in
  let yL0 := clamp (paddedMaxY + insetY - targetH) minY maxY in
  let yU0 := clamp (paddedMinY - insetY) minY maxY in
  let '(yL, yU) :=
    if yL0 >? yU0 then
      let m := clamp ((paddedMinY + paddedMaxY) / ofZ 2 - targetH / ofZ 2)
                 minY maxY in
      (m, m)
    else (yL0, yU0) in
  let xDes := clamp (desiredCenterX - targetW / ofZ 2) xL xU in
  let yDes := clamp (desiredCenterY - targetH / ofZ 2) yL yU in
  {| f_xL := xL; f_xU := xU; f_yL := yL; f_yU := yU;
     f_xDes := xDes; f_yDes := yDes;
     f_groupW := paddedMaxX - paddedMinX;
     f_groupH := paddedMaxY - paddedMinY;
     f_insetX := insetX; f_insetY := insetY |}.

End Anchors.


(* ================================================================== *)
(** ** Trajectory optimiser and zoom solver (ffmpeg.ts 3054-3082, 3414-3457) *)

(** Arrays of numbers, read and written by index.  Every index used below
    is within the array it addresses. *)
Definition get (l : list Qc) (i : nat) : Qc := nth i l 0.

Fixpoint set (l : list Qc) (i : nat) (v : Qc) : list Qc :=
  match l, i with
  | [], _ => []
  | _ :: rest, O => v :: rest
  | a :: rest, S j => a :: set rest j v
  end.

(** [g[i] += v]. *)
Definition addAt (g : list Qc) (i : nat) (v : Qc) : list Qc :=
  set g i (get g i + v).

Definition gradient (n : nat) (x des ww : list Qc) (lambdaV lambdaA : Qc)
  : list Qc :=
  let g0 := repeat (0 : Qc) n in
  let g1 := fold_left (fun g i =>
      addAt g i (ofZ 2 * get ww i * (get x i - get des i)))
    (seq 0 n) g0 in
  let g2 := fold_left (fun g i =>
      let dv := get x i - get x (i - 1) in
      let g := addAt g i (ofZ 2 * lambdaV * dv) in
      addAt g (i - 1) (- (ofZ 2 * lambdaV * dv)))
    (seq 1 (n - 1)) g1 in
  fold_left (fun g i =>
      let da := get x (i + 1) - ofZ 2 * get x i + get x (i - 1) in
      let g := addAt g (i + 1) (ofZ 2 * lambdaA * da) in
      let g := addAt g i (ofZ (-4) * lambdaA * da) in
      addAt g (i - 1) (ofZ 2 * lambdaA * da))
    (seq 1 (n - 2)) g2.

(** The last inner loop: one descent step, then the clamp to [L[i], U[i]]. *)
Definition descend (n : nat) (x g L U : list Qc) (lr : Qc) : list Qc :=
  fold_left (fun x i =>
      let xi := get x i - lr * get g i in
      let xi := if xi <? get L i then get L i else xi in
      let xi := if xi >? get U i then get U i else xi in
      set x i xi)
    (seq 0 n) x.

Fixpoint iterate (k : nat) (step : list Qc -> list Qc) (x : list Qc)
  : list Qc :=
  match k with
  | O => x
  | S k' => iterate k' step (step x)
  end.

(** The parameter [t] of the source is not read by the function. *)
Definition globalOptimize1D (t des L U w : list Qc)
    (lambdaV lambdaA iters lr : Qc) : list Qc :=
  let n := List.length des in
  let ww := map (fun s => Math_max (dec 2 10) (Math_min 1 s)) w in
  iterate (Z.to_nat (Qceiling iters))
    (fun x => descend n x (gradient n x des ww lambdaV lambdaA) L U lr)
    des.

Record ZoomGroup := mkZoomGroup {
  zg_w : Qc; zg_h : Qc; zg_insetX : Qc; zg_insetY : Qc
}.

Definition zoomNeed (g : ZoomGroup) (targetW targetH zMin : Qc) : Qc :=
  let gw := zg_w g in
  let gh := zg_h g in
  let needX := (gw + ofZ 2 * zg_insetX g) / targetW in
  let needY := (gh + ofZ 2 * zg_insetY g) / targetH in
  if (needX >? 1) || (needY >? 1) then
    let need := Math_max needX needY in
    Math_max zMin (1 / need)
  else 1.

(** The loop of [solveZoomSeries]; [prev] is [z[z.length - 1]], absent on
    the first sample.  [groups[i]] exists for every [i < xs.length] at the
    only call site, where both arrays are filled by the same loop. *)
Fixpoint solveZoomLoop (env : Env) (xs : list Qc) (groups : list ZoomGroup)
    (targetW targetH zMin : Qc) (prev : option Qc) : list Qc :=
  match xs, groups with
  | _ :: xs', g :: groups' =>
      let zr := zoomNeed g targetW targetH zMin in
      let z :=
        match prev with
        | None => zr
        | Some p =>
            let blended := p + Z_DECAY env * (zr - p) in
            Math_max zMin blended
        end in
      z :: solveZoomLoop env xs' groups' targetW targetH zMin (Some z)
  | _, _ => []
  end.

Definition solveZoomSeries (env : Env) (xs ys : list Qc)
    (groups : list ZoomGroup) (targetW targetH zMin : Qc) : list Qc :=
  solveZoomLoop env xs groups targetW targetH zMin None.

(* ================================================================== *)
(** ** Raw keyframes of the dynamic path (ffmpeg.ts 2683-2855) *)

Section Dynamic.
Variable env : Env.
Variable Math_hypot : Qc -> Qc -> Qc.

(** [Record<string, number>] with [map[spk]] and [map[spk] = id]. *)
Definition SpeakerMap := list (string * Z).

Fixpoint lookup (m : SpeakerMap) (k : string) : option Z :=
  match m with
  | [] => None
  | (k', v) :: rest => if String.eqb k k' then Some v else lookup rest k
  end.

Definition assign (m : SpeakerMap) (k : string) (v : Z) : SpeakerMap :=
  (k, v) :: m.

Definition hasId (mapped : Z) (d : PersonDet) : bool :=
  match det_id d with
  | Some i => Z.eqb i mapped
  | None => false
  end.

Record Sample := mkSample {
  s_anchor : PersonDet;
  s_group : Group;
  s_time : Qc
}.

(** The body of the first loop for a frame with detections [d0 :: rest]:
    the anchor and the updated speaker map. *)
Definition pickAnchor (turns : list SpeakerTurn) (m : SpeakerMap)
    (t : Qc) (d0 : PersonDet) (rest : list PersonDet) (bW bH : Qc)
  : PersonDet * SpeakerMap :=
  match truthy (activeSpeakerAt t turns) with
  | Some spk =>
      let found :=
        match lookup m spk with
        | Some mapped => find (hasId mapped) (d0 :: rest)
        | None => None
        end in
      match found with
      | Some anchor => (anchor, m)
      | None =>
          let pick := chooseAnchor Math_hypot d0 rest bW bH in
          match det_id pick with
          | Some id => (pick, assign m spk id)
          | None => (pick, m)
          end
      end
  | None => (chooseAnchor Math_hypot d0 rest bW bH, m)
  end.

Fixpoint collectSamples (timeline : list PersonSnapshot)
    (turns : list SpeakerTurn) (bW bH : Qc) (m : SpeakerMap)
  : list Sample :=
  match timeline with
  | [] => []
  | snap :: rest =>
      match snap_dets snap with
      | [] => collectSamples rest turns bW bH m
      | d0 :: ds =>
          let '(anchor, m') := pickAnchor turns m (snap_t snap) d0 ds bW bH in
          let b := computeBounds d0 ds in
          mkSample anchor (boundsToGroup b) (snap_t snap)
            :: collectSamples rest turns bW bH m'
      end
  end.

(** The second loop: the smoothing state is threaded through the anchors. *)
Fixpoint smoothAnchors (anchors : list PersonDet) (st : SmoothingState)
  : list (Qc * Qc) :=
  match anchors with
  | [] => []
  | anchor :: rest =>
      let rawX := det_x anchor + det_w anchor / ofZ 2 in
      let rawY := det_y anchor + det_h anchor / ofZ 2 in
      let '(smoothed, st') := applyTemporalSmoothing env rawX rawY st in
      smoothed :: smoothAnchors rest st'
  end.

Definition rawKeyframe (bW bH targetW : Qc) (t x y z : Qc) : CropKF :=
  let cropW := Math_round (targetW / z) in
  let cropH := Math_round (bH / z) in
  let maxX := bW - cropW in
  let maxY := bH - cropH in
  let x := Math_max 0 (Math_min (Math_round x) maxX) in
  let y := Math_max 0 (Math_min (Math_round y) maxY) in
  {| kf_t := t; kf_x := x; kf_y := y; kf_w := targetW; kf_h := bH;
     kf_z := z; kf_xs := 0; kf_ys := 0 |}.

Definition dynamicZMin (bW bH : Qc) : Qc :=
  let targetW := Math_floor (bH * ofZ 9 / ofZ 16) in
  let zMinWidth := targetW / bW in
  let zMinHeight := 1 in
  Math_max (Math_max zMinWidth zMinHeight) (Z_MIN env).

Definition computeGlobalCropKeyframesFromTracksWithSpeechAndZoom
    (timeline : list PersonSnapshot) (turns : list SpeakerTurn)
    (bW bH : Qc) (constraints : Constraints) : list CropKF :=
  let targetW := Math_floor (bH * ofZ 9 / ofZ 16) in
  let samples := collectSamples timeline turns bW bH [] in
  let anchors := map s_anchor samples in
  let bounds := map s_group samples in
  let times := map s_time samples in
  match anchors with
  | [] => []
  | _ :: _ =>
      let smoothedAnchors := smoothAnchors anchors (mkSmoothing None None) in
      let feas := map (fun '(s, smoothed) =>
          buildFeasible (s_group s) (s_anchor s) targetW bH bW bH
            constraints smoothed)
        (combine samples smoothedAnchors) in
      let feasT := times in
      let xL := map f_xL feas in
      let xU := map f_xU feas in
      let yL := map f_yL feas in
      let yU := map f_yU feas in
      let xDes := map f_xDes feas in
      let yDes := map f_yDes feas in
      let wts := map det_score anchors in
      let groups := map (fun f =>
          mkZoomGroup (f_groupW f) (f_groupH f) (f_insetX f) (f_insetY f))
        feas in
      let xs := globalOptimize1D feasT xDes xL xU wts
                  (GLOB_LAMBDA_V env) (GLOB_LAMBDA_A env)
                  (GLOB_ITERS env) (GLOB_LR env) in
      let ys := globalOptimize1D feasT yDes yL yU wts
                  (GLOB_LAMBDA_V env) (GLOB_LAMBDA_A env)
                  (GLOB_ITERS env) (GLOB_LR env) in
      let zMin := dynamicZMin bW bH in
      let zs := solveZoomSeries env xs ys groups targetW bH zMin in
      map (fun i =>
          rawKeyframe bW bH targetW (get feasT i) (get xs i) (get ys i)
            (get zs i))
        (seq 0 (List.length feasT))
  end.

End Dynamic.


(* ================================================================== *)
(** ** Post-processing chain (ffmpeg.ts 2857-2901, 3192-3395) *)

Section PostProcessing.
Variable env : Env.

Definition withXYZ (k : CropKF) (x y z : Qc) : CropKF :=
  {| kf_t := kf_t k; kf_x := x; kf_y := y; kf_w := kf_w k; kf_h := kf_h k;
     kf_z := z; kf_xs := 0; kf_ys := 0 |}.

Fixpoint smoothLoop (sx sy sz : Qc) (kf : list CropKF) : list CropKF :=
  match kf with
  | [] => []
  | k :: rest =>
      let sx := sx + SMOOTH_ALPHA env * (kf_x k - sx) in
      let sy := sy + SMOOTH_ALPHA env * (kf_y k - sy) in
      let sz := sz + SMOOTH_ALPHA env * (kf_z k - sz) in
      withXYZ k (Math_round sx) (Math_round sy) sz :: smoothLoop sx sy sz rest
  end.

Definition smoothKeyframes (kf : list CropKF) : list CropKF :=
  match kf with
  | k0 :: (_ :: _) as rest =>
      let sx := kf_x k0 in
      let sy := kf_y k0 in
      let sz := kf_z k0 in
      withXYZ k0 (Math_round sx) (Math_round sy) sz :: smoothLoop sx sy sz rest
  | _ => kf
  end.

(** In the loops below [prev] is [out[out.length - 1]]. *)
Fixpoint deadzoneLoop (dzx dzy : Qc) (prev : CropKF) (kf : list CropKF)
  : list CropKF :=
  match kf with
  | [] => []
  | cur :: rest =>
      let nx := if Math_abs (kf_x cur - kf_x prev) <? dzx
                then kf_x prev else kf_x cur in
      let ny := if Math_abs (kf_y cur - kf_y prev) <? dzy
                then kf_y prev else kf_y cur in
      let nz := if Math_abs (kf_z cur - kf_z prev) <? dec 1 100
                then kf_z prev else kf_z cur in
      let k := withXYZ cur nx ny nz in
      k :: deadzoneLoop dzx dzy k rest
  end.

Definition applyDeadzone (kf : list CropKF) (dzx dzy : Qc) : list CropKF :=
  match kf with
  | k0 :: (_ :: _) as rest => k0 :: deadzoneLoop dzx dzy k0 rest
  | _ => kf
  end.

Fixpoint panLoop (maxPanPerSecond : Qc) (prev : CropKF) (kf : list CropKF)
  : list CropKF :=
  match kf with
  | [] => []
  | cur :: rest =>
      let dt := Math_max (dec 1 1000) (kf_t cur - kf_t prev) in
      let maxDelta := Math_max 0 maxPanPerSecond * dt in
      let nextX := stepToward (kf_x prev) (kf_x cur) maxDelta in
      let nextY := stepToward (kf_y prev) (kf_y cur) maxDelta in
      let k := withXYZ cur nextX nextY (kf_z cur) in
      k :: panLoop maxPanPerSecond k rest
  end.

Definition applyPanLimits (kf : list CropKF) (maxPanPerSecond : Qc)
  : list CropKF :=
  match kf with
  | k0 :: (_ :: _) as rest => k0 :: panLoop maxPanPerSecond k0 rest
  | _ => kf
  end.

Fixpoint accelLoop (maxAccelPerSecond vx vy : Qc) (prev : CropKF)
    (kf : list CropKF) : list CropKF :=
  match kf with
  | [] => []
  | cur :: rest =>
      let dt := Math_max (dec 1 1000) (kf_t cur - kf_t prev) in
      let tx := (kf_x cur - kf_x prev) / dt in
      let ty := (kf_y cur - kf_y prev) / dt in
      let ax := stepToward vx tx (maxAccelPerSecond * dt) - vx in
      let ay := stepToward vy ty (maxAccelPerSecond * dt) - vy in
      let vx := vx + ax in
      let vy := vy + ay in
      let nx := Math_round (kf_x prev + vx * dt) in
      let ny := Math_round (kf_y prev + vy * dt) in
      let k := withXYZ cur nx ny (kf_z cur) in
      k :: accelLoop maxAccelPerSecond vx vy k rest
  end.

Definition applyAccelLimits (kf : list CropKF) (maxAccelPerSecond : Qc)
  : list CropKF :=
  match kf with
  | k0 :: (_ :: _ :: _) as rest => k0 :: accelLoop maxAccelPerSecond 0 0 k0 rest
  | _ => kf
  end.

Fixpoint easeLoop (segStart segEnd easeSeconds : Qc) (prev : CropKF)
    (kf : list CropKF) : list CropKF :=
  match kf with
  | [] => []
  | frame :: rest =>
      let fromStart :=
        Math_min 1 (Math_max 0 ((kf_t frame - segStart) / easeSeconds)) in
      let fromEnd :=
        Math_min 1 (Math_max 0 ((segEnd - kf_t frame) / easeSeconds)) in
      let influence := Math_min fromStart fromEnd in
      let x := Math_round (kf_x prev + (kf_x frame - kf_x prev) * influence) in
      let y := Math_round (kf_y prev + (kf_y frame - kf_y prev) * influence) in
      let z := kf_z prev + (kf_z frame - kf_z prev) * influence in
      let k := withXYZ frame x y z in
      k :: easeLoop segStart segEnd easeSeconds k rest
  end.

Definition easeSegmentEdges (kf : list CropKF)
    (segStart segEnd easeSeconds : Qc) : list CropKF :=
  match kf with
  | [] => kf
  | k0 :: rest =>
      if easeSeconds <=? 0 then kf
      else k0 :: easeLoop segStart segEnd easeSeconds k0 rest
  end.

Definition scaledKeyframe (targetW bW bH : Qc) (k : CropKF) : CropKF :=
  let z := kf_z k in
  let cropW := Math_round (targetW / z) in
  let cropH := Math_round (bH / z) in
  let maxX := Math_max 0 (bW - cropW) in
  let maxY := Math_max 0 (bH - cropH) in
  let clampedX := clamp (kf_x k) 0 maxX in
  let clampedY := clamp (kf_y k) 0 maxY in
  {| kf_t := kf_t k; kf_x := clampedX; kf_y := clampedY;
     kf_w := cropW; kf_h := cropH; kf_z := z; kf_xs := 0; kf_ys := 0 |}.

Definition applyScaledCoords (kf : list CropKF) (bW bH : Qc) : list CropKF :=
  let targetW := Math_min (Math_floor (bH * ofZ 9 / ofZ 16)) bW in
  map (scaledKeyframe targetW bW bH) kf.

Fixpoint dedupeLoop (minDelta : Qc) (prev : CropKF) (kf : list CropKF)
  : list CropKF :=
  match kf with
  | [] => []
  | k :: rest =>
      if kf_t k - kf_t prev >=? minDelta
      then k :: dedupeLoop minDelta k rest
      else dedupeLoop minDelta prev rest
  end.

Definition dedupeByTime (kf : list CropKF) (minDelta : Qc) : list CropKF :=
  match kf with
  | [] => kf
  | k0 :: rest => k0 :: dedupeLoop minDelta k0 rest
  end.

(** The loop of the filtering branch over [kf[1] .. kf[n-2]]; [prev] is
    [filtered[filtered.length - 1]].  [Math.sqrt(s) < 1] is [s < 1]. *)
Fixpoint filterLoop (prev : CropKF) (mid : list CropKF) : list CropKF :=
  match mid with
  | [] => []
  | curr :: rest =>
      let timeDelta := kf_t curr - kf_t prev in
      if timeDelta <? dec 15 100 then filterLoop prev rest
      else
        let positionDeltaSq :=
          Math_pow2 (kf_x curr - kf_x prev)
          + Math_pow2 (kf_y curr - kf_y prev) in
        let zoomDelta := Math_abs (kf_z curr - kf_z prev) in
        if (positionDeltaSq <? 1) && (zoomDelta <? dec 5 1000)
        then filterLoop prev rest
        else curr :: filterLoop curr rest
  end.

(** The index read by step [i] of the decimation loop. *)
Definition decimateIdx (n maxKeyframes i : nat) : nat :=
  let step := ofNat n / ofZ (Z.of_nat maxKeyframes - 1) in
  Z.to_nat (roundZ (ofNat i * step)).

(** [maxKeyframes] defaults to 120, which is also what the only caller
    passes.  In the decimation branch [kf[idx]] is within the array
    (lemma [decimateIdx_in_range]). *)
Definition compressCropMap (kf : list CropKF) (maxKeyframes : nat)
  : list CropKF :=
  let n := List.length kf in
  match kf with
  | [] => kf
  | k0 :: _ =>
      if (n <=? 2)%nat then kf
      else if (n <=? maxKeyframes)%nat then
        k0 :: filterLoop k0 (firstn (n - 2) (skipn 1 kf))
          ++ [nth (n - 1) kf k0]
      else
        k0 :: map (fun i => nth (decimateIdx n maxKeyframes i) kf k0)
                (seq 1 (maxKeyframes - 2))
          ++ [nth (n - 1) kf k0]
  end.

End PostProcessing.

(* ================================================================== *)
(** ** The dynamic path (ffmpeg.ts 2041-2102) *)

Section DynamicPath.
Variable env : Env.
Variable Math_hypot : Qc -> Qc -> Qc.

(** [snaps] is the outcome of [await detectPersonsTimeline(...)];
    [null] is [None]. *)
Definition computeCropMapPerson (snaps : outcome (list PersonSnapshot))
    (input : ComputeInput) (constraints : Constraints)
  : outcome (option (list CropKF)) :=
  snaps <- snaps ;;
  match snaps with
  | [] => Returned None
  | _ :: _ =>
      let tracksTimeline := buildTracks env snaps (baseW input) (baseH input) in
      match tracksTimeline with
      | [] => Returned None
      | _ :: _ =>
          let turns := buildSpeakerTurns (transcript input)
                         (segStart input) (segEnd input) in
          let raw := computeGlobalCropKeyframesFromTracksWithSpeechAndZoom
                       env Math_hypot tracksTimeline turns
                       (baseW input) (baseH input) constraints in
          match raw with
          | [] => Returned None
          | _ :: _ =>
              let smoothed := smoothKeyframes env raw in
              let deadzoned :=
                applyDeadzone smoothed (DEADZONE_X env) (DEADZONE_Y env) in
              let limited := applyPanLimits deadzoned (maxPan constraints) in
              let accelLimited := applyAccelLimits limited (MAX_ACCEL env) in
              let eased := easeSegmentEdges accelLimited (segStart input)
                             (segEnd input) (easeMs constraints / ofZ 1000) in
              let withScaled :=
                applyScaledCoords eased (baseW input) (baseH input) in
              let deduped :=
                match withScaled with
                | [] => []
                | _ :: _ => dedupeByTime withScaled (dec 1 10)
                end in
              match deduped with
              | [] => Returned None
              | _ :: _ => Returned (Some (compressCropMap deduped 120))
              end
          end
      end
  end.

End DynamicPath.


(* ================================================================== *)
(** ** Static crop of one segment (ffmpeg.ts 1525-1683) *)

Fixpoint insertNum (a : Qc) (l : list Qc) : list Qc :=
  match l with
  | [] => [a]
  | b :: rest => if a <? b then a :: l else b :: insertNum a rest
  end.

(** [arr.sort((a, b) => a - b)]. *)
Definition sortNums (l : list Qc) : list Qc :=
  fold_left (fun acc a => insertNum a acc) l [].

Definition percentile (sortedValues : list Qc) (p : Qc) : Qc :=
  match sortedValues with
  | [] => 0
  | _ :: _ =>
      let len := List.length sortedValues in
      let index := (Qceiling (ofNat len * p / ofZ 100) - 1)%Z in
      get sortedValues
        (Z.to_nat (Z.max 0 (Z.min index (Z.of_nat len - 1))))
  end.

Definition median (sortedValues : list Qc) : Qc :=
  match sortedValues with
  | [] => 0
  | _ :: _ =>
      let len := List.length sortedValues in
      if Nat.even len then
        (get sortedValues (len / 2 - 1) + get sortedValues (len / 2)) / ofZ 2
      else get sortedValues (len / 2)
  end.

(** [targetW] of the static paths: [Math.floor(rawTargetW / 2) * 2]. *)
Definition staticTargetW (bW bH : Qc) : Qc :=
  let rawTargetW := Math_min (Math_floor (bH * ofZ 9 / ofZ 16)) bW in
  Math_floor (rawTargetW / ofZ 2) * ofZ 2.

Definition staticZMin (cropW bW : Qc) : Qc :=
  let zMinWidth := cropW / bW in
  let zMinHeight := 1 in
  Math_max (Math_max zMinWidth zMinHeight) (dec 88 100).

Section StaticSegment.
Variable Math_hypot : Qc -> Qc -> Qc.

(** The anchors of the frames that carry detections, one per frame. *)
Fixpoint staticAnchors (snaps : list PersonSnapshot) (bW bH : Qc)
  : list PersonDet :=
  match snaps with
  | [] => []
  | snap :: rest =>
      match snap_dets snap with
      | [] => staticAnchors rest bW bH
      | d0 :: ds =>
          chooseAnchor Math_hypot d0 ds bW bH :: staticAnchors rest bW bH
      end
  end.

(** [snaps] is the outcome of [await detectPersonsTimeline(...)], which is
    only awaited when no global crop is supplied.  The medians and
    percentiles of the heights, widths and vertical centres that the
    source computes do not reach the result. *)
Definition computeCropMapPersonStatic (snaps : outcome (list PersonSnapshot))
    (input : ComputeInput) (constraints : Constraints)
    (globalCrop : option GlobalCrop) : outcome (option (list CropKF)) :=
  match globalCrop with
  | Some gc =>
      Returned (Some [ {| kf_t := segStart input; kf_x := gc_cropX gc;
                          kf_y := gc_cropY gc; kf_w := gc_cropW gc;
                          kf_h := gc_cropH gc; kf_z := gc_zMin gc;
                          kf_xs := 0; kf_ys := 0 |} ])
  | None =>
      snaps <- snaps ;;
      match snaps with
      | [] => Returned None
      | _ :: _ =>
          let evenTargetW := staticTargetW (baseW input) (baseH input) in
          let anchors := staticAnchors snaps (baseW input) (baseH input) in
          match anchors with
          | [] => Returned None
          | _ :: _ =>
              let anchorCentersX := sortNums
                (map (fun a => det_x a + det_w a / ofZ 2) anchors) in
              let medianCx := median anchorCentersX in
              let zMin := staticZMin evenTargetW (baseW input) in
              let frameCenterX := baseW input / ofZ 2 in
              let direction := Math_sign (medianCx - frameCenterX) in
              let bias := evenTargetW * dec 35 100 in
              let biasedCenterX :=
                if eqb direction 0 then medianCx
                else medianCx - direction * bias in
              let cropXFinal :=
                Math_round (biasedCenterX - evenTargetW / ofZ 2) in
              let maxX := baseW input - evenTargetW in
              let cropXFinal := if cropXFinal <? 0 then 0 else cropXFinal in
              let cropXFinal :=
                if cropXFinal >? maxX then maxX else cropXFinal in
              Returned (Some [ {| kf_t := segStart input; kf_x := cropXFinal;
                                  kf_y := 0; kf_w := evenTargetW;
                                  kf_h := baseH input; kf_z := zMin;
                                  kf_xs := 0; kf_ys := 0 |} ])
          end
      end
  end.

End StaticSegment.

(* ================================================================== *)
(** ** Static global crop (ffmpeg.ts 1113-1140, 1215-1369, 1781-1922) *)

Fixpoint insertWV (a : WeightedValue) (l : list WeightedValue)
  : list WeightedValue :=
  match l with
  | [] => [a]
  | b :: rest =>
      if wv_value a <? wv_value b then a :: l else b :: insertWV a rest
  end.

Definition sumWeights (l : list WeightedValue) : Qc :=
  fold_left (fun sum item => sum + wv_weight item) l 0.

Fixpoint medianLoop (sorted : list WeightedValue) (acc half : Qc)
  : option Qc :=
  match sorted with
  | [] => None
  | item :: rest =>
      let acc := acc + wv_weight item in
      if acc >=? half then Some (wv_value item) else medianLoop rest acc half
  end.

Definition weightedMedian (values : list WeightedValue) : Qc :=
  match values with
  | [] => 0
  | v0 :: _ =>
      let sorted := fold_left (fun acc a => insertWV a acc) values [] in
      let totalWeight := sumWeights sorted in
      let half := totalWeight / ofZ 2 in
      match medianLoop sorted 0 half with
      | Some v => v
      | None => wv_value (last sorted v0)
      end
  end.

Record FaceBox := mkFaceBox {
  facesLeft : Qc; facesRight : Qc; facesTop : Qc; facesBottom : Qc
}.

(** The running box of the loop over [usedDetections]; the infinite
    seeds are replaced by the first detection. *)
Definition facesBox (d0 : FaceDetection) (rest : list FaceDetection)
  : FaceBox :=
  fold_left (fun b d =>
      let right := face_x d + face_width d in
      let bottom := face_y d + face_height d in
      {| facesLeft := if face_x d <? facesLeft b then face_x d else facesLeft b;
         facesRight := if right >? facesRight b then right else facesRight b;
         facesTop := if face_y d <? facesTop b then face_y d else facesTop b;
         facesBottom :=
           if bottom >? facesBottom b then bottom else facesBottom b |})
    rest
    {| facesLeft := face_x d0; facesRight := face_x d0 + face_width d0;
       facesTop := face_y d0; facesBottom := face_y d0 + face_height d0 |}.

Definition STRONG_MIN_AREA_RATIO := dec 8 1000.
Definition STRONG_MIN_SCORE := dec 25 100.
Definition TWO_SPEAKERS_MIN_SIDE_RATIO := dec 18 100.
Definition VIDEO_CENTER_BLEND := dec 1 10.
Definition MAX_SHIFT_FROM_CENTER_RATIO := dec 22 100.

(** The horizontal centre chosen from a non-empty detection pool. *)
Definition cropCenterX (vW vH : Qc) (d0 : FaceDetection)
    (rest : list FaceDetection) : Qc :=
  let detections := d0 :: rest in
  let frameArea := vW * vH in
  let strongDetections := filter (fun d =>
      (face_score d >=? STRONG_MIN_SCORE)
      && (face_area d >=? STRONG_MIN_AREA_RATIO * frameArea)) detections in
  let usedDetections :=
    if (8 <=? List.length strongDetections)%nat
    then strongDetections else detections in
  let box :=
    match usedDetections with
    | u0 :: us => facesBox u0 us
    | [] => facesBox d0 []
    end in
  let centerXValues := map (fun d =>
      mkWV (face_centerX d) (Math_max (face_area d) 1)) usedDetections in
  let totalWeight := sumWeights centerXValues in
  let groupCenterX := (facesLeft box + facesRight box) / ofZ 2 in
  let medianCenterX := weightedMedian centerXValues in
  let leftCluster :=
    filter (fun v => wv_value v <=? groupCenterX) centerXValues in
  let rightCluster :=
    filter (fun v => wv_value v >? groupCenterX) centerXValues in
  let leftWeight := sumWeights leftCluster in
  let rightWeight := sumWeights rightCluster in
  let hasTwoSides :=
    (totalWeight >? 0)
    && (leftWeight / totalWeight >=? TWO_SPEAKERS_MIN_SIDE_RATIO)
    && (rightWeight / totalWeight >=? TWO_SPEAKERS_MIN_SIDE_RATIO) in
  let centerFromFaces :=
    if hasTwoSides
       && (0 <? List.length leftCluster)%nat
       && (0 <? List.length rightCluster)%nat
    then
      let leftMedian := weightedMedian leftCluster in
      let rightMedian := weightedMedian rightCluster in
      let anchorsCenterX := (leftMedian + rightMedian) / ofZ 2 in
      anchorsCenterX * dec 8 10 + medianCenterX * dec 2 10
    else groupCenterX * dec 6 10 + medianCenterX * dec 4 10 in
  let videoCenterX := vW / ofZ 2 in
  let centerX :=
    centerFromFaces * (1 - VIDEO_CENTER_BLEND)
    + videoCenterX * VIDEO_CENTER_BLEND in
  let maxShift := vW * MAX_SHIFT_FROM_CENTER_RATIO in
  let minCenter := videoCenterX - maxShift in
  let maxCenter := videoCenterX + maxShift in
  let centerX := if centerX <? minCenter then minCenter else centerX in
  if centerX >? maxCenter then maxCenter else centerX.

Definition calculateCrop (vW vH : Qc) (detections : list FaceDetection)
  : CropInfo :=
  let maxCropHeight := vH in
  let maxCropWidth := Math_round (maxCropHeight * ofZ 9 / ofZ 16) in
  let maxCropWidth := if maxCropWidth >? vW then vW else maxCropWidth in
  match detections with
  | [] =>
      let centerCropX :=
        Math_max 0 (Math_floor ((vW - maxCropWidth) / ofZ 2)) in
      {| cropX := centerCropX; cropY := 0; cropWidth := maxCropWidth;
         cropHeight := maxCropHeight; videoWidth := vW; videoHeight := vH |}
  | d0 :: rest =>
      let centerX := cropCenterX vW vH d0 rest in
      let cropHeight := maxCropHeight in
      let cropWidth := maxCropWidth in
      let cropX := Math_round (centerX - cropWidth / ofZ 2) in
      let cropY := 0 in
      let cropX := if cropX <? 0 then 0 else cropX in
      let cropX := if cropX + cropWidth >? vW then vW - cropWidth else cropX in
      let cropY := if cropY <? 0 then 0 else cropY in
      let cropY :=
        if cropY + cropHeight >? vH then vH - cropHeight else cropY in
      {| cropX := cropX; cropY := cropY; cropWidth := cropWidth;
         cropHeight := cropHeight; videoWidth := vW; videoHeight := vH |}
  end.

Definition sampleDurationSec : Qc := ofZ 15.
Definition maxSamples : Qc := ofZ 6.
Definition minDetectionsRequired : nat := 50.

Record Sampling := mkSampling {
  usableStart : Qc;
  usableDuration : Qc;
  numSamples : nat
}.

Definition planSampling (videoDurationSec : Qc) (skipUntilSec : option Qc)
  : Sampling :=
  let skipUntil :=
    Math_max 0 (match skipUntilSec with Some s => s | None => 0 end) in
  let defaultStart := videoDurationSec * dec 1 10 in
  let defaultEnd := videoDurationSec * dec 9 10 in
  let usableStart := Math_max skipUntil defaultStart in
  let usableEnd := defaultEnd in
  let usableStart :=
    if usableStart >? videoDurationSec - sampleDurationSec
    then Math_max 0 (videoDurationSec - sampleDurationSec)
    else usableStart in
  let usableEnd :=
    if usableEnd <? usableStart + sampleDurationSec
    then Math_min videoDurationSec (usableStart + sampleDurationSec)
    else usableEnd in
  let usableDuration := Math_max sampleDurationSec (usableEnd - usableStart) in
  let numSamples :=
    Math_min maxSamples
      (Math_max (ofZ 3) (Math_floor (usableDuration / sampleDurationSec))) in
  {| usableStart := usableStart; usableDuration := usableDuration;
     numSamples := Z.to_nat (Qfloor numSamples) |}.

(** The start and length of window [i]. *)
Definition sampleWindow (videoDurationSec : Qc) (p : Sampling) (i : nat)
  : Qc * Qc :=
  let t :=
    if Nat.eqb (numSamples p) 1 then
      usableStart p + (usableDuration p - sampleDurationSec) / ofZ 2
    else
      usableStart p
      + ofNat i * (usableDuration p - sampleDurationSec)
        / ofNat (numSamples p - 1) in
  let sampleStart :=
    Math_max 0 (Math_min t (videoDurationSec - sampleDurationSec)) in
  let sampleEnd :=
    Math_min (sampleStart + sampleDurationSec) videoDurationSec in
  (sampleStart, Math_min (sampleEnd - sampleStart) sampleDurationSec).

(** [detectFacesTimeline i start duration] is the outcome of the [i]-th
    call of [detectFacesTimeline]: the frames of that window, or the
    exception it raised, which the [catch] of the loop body swallows.  The
    detections of a window are pushed only after the call has returned. *)
Fixpoint sampleWindows
    (detectFacesTimeline : nat -> Qc -> Qc -> outcome (list FrameDetections))
    (videoDurationSec : Qc) (p : Sampling) (todo i : nat)
    (allDetections : list FaceDetection) : list FaceDetection :=
  match todo with
  | O => allDetections
  | S todo' =>
      let '(sampleStart, duration) := sampleWindow videoDurationSec p i in
      let allDetections :=
        match detectFacesTimeline i sampleStart duration with
        | Returned frames =>
            allDetections ++ flat_map frame_detections frames
        | Thrown _ => allDetections
        end in
      sampleWindows detectFacesTimeline videoDurationSec p todo' (S i)
        allDetections
  end.

(** [init] is the outcome of [await initializeFaceDetection()]. *)
Definition computeGlobalStaticCrop (init : outcome unit)
    (detectFacesTimeline : nat -> Qc -> Qc -> outcome (list FrameDetections))
    (videoDurationSec bW bH : Qc) (skipUntilSec : option Qc)
  : outcome (option GlobalCrop) :=
  _ <- init ;;
  let p := planSampling videoDurationSec skipUntilSec in
  let allDetections :=
    sampleWindows detectFacesTimeline videoDurationSec p (numSamples p) 0 [] in
  if (List.length allDetections <? minDetectionsRequired)%nat then
    Returned None
  else
    let cropResult := calculateCrop bW bH allDetections in
    let finalCropW := Math_floor (cropWidth cropResult / ofZ 2) * ofZ 2 in
    Returned (Some {| gc_cropX := cropX cropResult;
                      gc_cropY := cropY cropResult;
                      gc_cropW := finalCropW;
                      gc_cropH := cropHeight cropResult;
                      gc_zMin := staticZMin finalCropW bW |}).

(* ================================================================== *)
(** ** Top level (ffmpeg.ts 3459-3495) *)

Section TopLevel.
Variable env : Env.
Variable Math_hypot : Qc -> Qc -> Qc.

Definition nonEmpty (r : option (list CropKF)) : option (list CropKF) :=
  match r with
  | Some (k :: l) => Some (k :: l)
  | _ => None
  end.

(** [dynSnaps] and [staticSnaps] are the outcomes of the two calls of
    [detectPersonsTimeline]; the second is awaited only when the dynamic
    attempt yields nothing. *)
Definition computeCropMap (dynSnaps staticSnaps : outcome (list PersonSnapshot))
    (input : ComputeInput) (constraints : Constraints)
  : outcome (option (list CropKF)) :=
  first <- try_catch
    (dynamicKf <- computeCropMapPerson env Math_hypot dynSnaps input
                    constraints ;;
     Returned (nonEmpty dynamicKf))
    (fun _ => Returned None) ;;
  match first with
  | Some kf => Returned (Some kf)
  | None =>
      second <- try_catch
        (staticKf <- computeCropMapPersonStatic Math_hypot staticSnaps input
                       constraints None ;;
         Returned (nonEmpty staticKf))
        (fun _ => Returned None) ;;
      match second with
      | Some kf => Returned (Some kf)
      | None => Returned None
      end
  end.

End TopLevel.


(* ================================================================== *)
(** ** Expression builder (ffmpeg.ts 2104-2320) *)

Module Expr.

Local Open Scope string_scope.
Local Open Scope Qc_scope.

(** [String(n)] for an integer [n]. *)
Definition string_of_Z (z : Z) : string := NilZero.string_of_int (Z.to_int z).

(** The last [d] decimal digits of [m], zero padded. *)
Fixpoint digits (d : nat) (m : Z) : string :=
  match d with
  | O => ""
  | S d' =>
      digits d' (m / 10)
        ++ String (ascii_of_nat (48 + Z.to_nat (m mod 10))) ""
  end.

(** [x.toFixed(d)]: the sign, then the integer [fx_units] nearest to
    [|x| * 10^d] (the larger one on a tie), written with [d] decimals. *)
Record Fixed := mkFixed { fx_neg : bool; fx_units : Z; fx_digits : nat }.

Definition pow10 (d : nat) : Z := 10 ^ Z.of_nat d.

Definition toFixed (x : Qc) (d : nat) : Fixed :=
  {| fx_neg := x <? 0;
     fx_units := roundZ (Math_abs x * ofZ (pow10 d));
     fx_digits := d |}.

Definition Fixed_value (f : Fixed) : Qc :=
  let v := ofZ (fx_units f) / ofZ (pow10 (fx_digits f)) in
  if fx_neg f then - v else v.

Definition Fixed_string (f : Fixed) : string :=
  (if fx_neg f then "-" else "")
    ++ string_of_Z (fx_units f / pow10 (fx_digits f))
    ++ match fx_digits f with
       | O => ""
       | S _ => "." ++ digits (fx_digits f) (fx_units f)
       end.

(** The fragment of the FFmpeg expression language that the builder
    emits.  [EInt] is an interpolated integer, [EFixed] an interpolated
    [toFixed], [ETime] the variable [t]. *)
Inductive fexpr : Type :=
| EInt (z : Z)
| EFixed (f : Fixed)
| ETime
| ELt (a b : fexpr)
| EGte (a b : fexpr)
| EBetween (x lo hi : fexpr)
| EAdd (a b : fexpr)
| ESub (a b : fexpr)
| EMul (a b : fexpr)
| EParen (e : fexpr).

Fixpoint render (e : fexpr) : string :=
  match e with
  | EInt z => string_of_Z z
  | EFixed f => Fixed_string f
  | ETime => "t"
  | ELt a b => "lt(" ++ render a ++ "," ++ render b ++ ")"
  | EGte a b => "gte(" ++ render a ++ "," ++ render b ++ ")"
  | EBetween x lo hi =>
      "between(" ++ render x ++ "," ++ render lo ++ "," ++ render hi ++ ")"
  | EAdd a b => render a ++ "+" ++ render b
  | ESub a b => render a ++ "-" ++ render b
  | EMul a b => render a ++ "*" ++ render b
  | EParen e => "(" ++ render e ++ ")"
  end.

Definition indicator (b : bool) : Qc := if b then 1 else 0.

(** FFmpeg's evaluation: [lt(x,y)] is 1 when [x < y], [gte(x,y)] is 1
    when [x >= y], [between(x,lo,hi)] is 1 when [lo <= x <= hi], and 0
    otherwise. *)
Fixpoint eval (e : fexpr) (t : Qc) : Qc :=
  match e with
  | EInt z => ofZ z
  | EFixed f => Fixed_value f
  | ETime => t
  | ELt a b => indicator (eval a t <? eval b t)
  | EGte a b => indicator (eval a t >=? eval b t)
  | EBetween x lo hi =>
      indicator ((eval lo t <=? eval x t) && (eval x t <=? eval hi t))
  | EAdd a b => eval a t + eval b t
  | ESub a b => eval a t - eval b t
  | EMul a b => eval a t * eval b t
  | EParen e => eval e t
  end.

Inductive Key := KeyX | KeyY | KeyXs | KeyYs.

Definition keyValue (key : Key) (k : CropKF) : Qc :=
  match key with
  | KeyX => kf_x k
  | KeyY => kf_y k
  | KeyXs => kf_xs k
  | KeyYs => kf_ys k
  end.

(** [Math.min(...values)] and [Math.max(...values)] of a non-empty array. *)
Definition minOf (v0 : Qc) (rest : list Qc) : Qc := fold_left Math_min rest v0.
Definition maxOf (v0 : Qc) (rest : list Qc) : Qc := fold_left Math_max rest v0.

(** [lt(t,T)*V] and [gte(t,T)*V]. *)
Definition holdBefore (t0 : Qc) (v : Z) : fexpr :=
  EMul (ELt ETime (EFixed (toFixed t0 3))) (EInt v).
Definition holdAfter (tn : Qc) (v : Z) : fexpr :=
  EMul (EGte ETime (EFixed (toFixed tn 3))) (EInt v).

(** [between(t,TA,TB)*(VA+(SLOPE)*(t-TA))], where [va] is the start value
    and [vb] the end value of the piece. *)
Definition piece (ta tb va vb : Qc) : fexpr :=
  let slope := (vb - va) / Math_max (dec 1 1000) (tb - ta) in
  EMul (EBetween ETime (EFixed (toFixed ta 3)) (EFixed (toFixed tb 3)))
       (EParen (EAdd (EInt (roundZ va))
                     (EMul (EParen (EFixed (toFixed slope 6)))
                           (EParen (ESub ETime (EFixed (toFixed ta 3))))))).

(** The loop over adjacent keyframes; [value] reads a keyframe. *)
Fixpoint pieces (value : CropKF -> Qc) (a : CropKF) (kf : list CropKF)
  : list fexpr :=
  match kf with
  | [] => []
  | b :: rest =>
      piece (kf_t a) (kf_t b) (value a) (value b) :: pieces value b rest
  end.

(** [parts.join("+")] of a non-empty array. *)
Definition joinPlus (p0 : fexpr) (parts : list fexpr) : fexpr :=
  fold_left EAdd parts p0.

(** The expression of [buildPiecewiseExpr] before it is printed. *)
Definition buildPiecewiseAst (kf : list CropKF) (key : Key) : fexpr :=
  match kf with
  | [] => EInt 0
  | k0 :: rest =>
      let values := map (keyValue key) kf in
      let minVal := minOf (keyValue key k0) (map (keyValue key) rest) in
      let maxVal := maxOf (keyValue key k0) (map (keyValue key) rest) in
      let isConstant := maxVal - minVal <? 1 in
      if isConstant then EInt (roundZ (keyValue key k0))
      else
        let first := keyValue key k0 in
        let last := keyValue key (List.last kf k0) in
        joinPlus (holdBefore (kf_t k0) (roundZ first))
          (pieces (keyValue key) k0 rest
             ++ [holdAfter (kf_t (List.last kf k0)) (roundZ last)])
  end.

Definition buildPiecewiseExpr (kf : list CropKF) (key : Key) : string :=
  render (buildPiecewiseAst kf key).

(** [baseDim] is an integer number of pixels. *)
Definition buildCropDimensionAst (kf : list CropKF) (baseDim : Z) : fexpr :=
  match kf with
  | [] => EInt baseDim
  | k0 :: rest =>
      let dimension := fun k => Math_round (ofZ baseDim / kf_z k) in
      let minDim := minOf (dimension k0) (map dimension rest) in
      let maxDim := maxOf (dimension k0) (map dimension rest) in
      let isConstant := maxDim - minDim <? 1 in
      if isConstant then EInt (roundZ (ofZ baseDim / kf_z k0))
      else
        let firstDim := roundZ (ofZ baseDim / kf_z k0) in
        let lastDim := roundZ (ofZ baseDim / kf_z (List.last kf k0)) in
        joinPlus (holdBefore (kf_t k0) firstDim)
          (pieces (fun k => ofZ baseDim / kf_z k) k0 rest
             ++ [holdAfter (kf_t (List.last kf k0)) lastDim])
  end.

Definition buildCropDimensionExpr (kf : list CropKF) (baseDim : Z) : string :=
  render (buildCropDimensionAst kf baseDim).

(** The two tests of the validation loop for one keyframe. *)
Definition dimensionsExceed (bW bH evenTargetW : Z) (k : CropKF) : bool :=
  let cropW := Math_round (ofZ evenTargetW / kf_z k) in
  let cropH := Math_round (ofZ bH / kf_z k) in
  (cropW >? ofZ bW) || (cropH >? ofZ bH).

Definition positionInvalid (bW bH evenTargetW : Z) (k : CropKF) : bool :=
  let cropW := Math_round (ofZ evenTargetW / kf_z k) in
  let cropH := Math_round (ofZ bH / kf_z k) in
  (kf_x k <? 0) || (kf_y k <? 0)
  || (kf_x k + cropW >? ofZ bW) || (kf_y k + cropH >? ofZ bH).

(** [hasInvalidCrop] after the loop [for (i = 0; i < Math.min(5, kf.length); i++)]. *)
Definition hasInvalidCrop (bW bH evenTargetW : Z) (kf : list CropKF) : bool :=
  existsb (fun k => dimensionsExceed bW bH evenTargetW k
                    || positionInvalid bW bH evenTargetW k)
    (firstn 5 kf).

Definition evenTargetWidth (bH : Z) : Z :=
  let targetW := (bH * 9 / 16)%Z in
  (targetW / 2 * 2)%Z.

(** [baseW] and [baseH] are the integer pixel sizes of the source. *)
Definition buildFFmpegFilter (bW bH : Z) (kf : list CropKF) : outcome string :=
  let evenTargetW := evenTargetWidth bH in
  if hasInvalidCrop bW bH evenTargetW kf then
    Thrown "[Framing] Invalid crop parameters detected. This indicates a bug in the zoom calculation."
  else
    let xExpr := buildPiecewiseExpr kf KeyX in
    let yExpr := buildPiecewiseExpr kf KeyY in
    let cropWExpr := buildCropDimensionExpr kf evenTargetW in
    let cropHExpr := buildCropDimensionExpr kf bH in
    let crop := "crop='" ++ cropWExpr ++ "':'" ++ cropHExpr ++ "':'"
                  ++ xExpr ++ "':'" ++ yExpr ++ "'" in
    let scale := "scale=" ++ string_of_Z evenTargetW ++ ":" ++ string_of_Z bH
                   ++ ":eval=frame" in
    let fmt := "format=yuv420p" in
    let fullFilter := crop ++ "," ++ scale ++ "," ++ fmt in
    let filterLength := Z.of_nat (String.length fullFilter) in
    if (65536 <? filterLength)%Z then
      Thrown "[Framing] Filter expression exceeds FFmpeg limits (64KB). This indicates keyframe compression failed."
    else Returned fullFilter.

End Expr.

(* ================================================================== *)
(** ** JavaScript strings *)

(** A JavaScript string is the sequence of its UTF-16 code units. *)
Definition jstring := list N.

(** An ASCII literal. *)
Definition lit (s : string) : jstring :=
  map N_of_ascii (list_ascii_of_string s).

(** The units U+0020 and U+000A. *)
Definition SPACE : N := 32.

Definition NEWLINE : jstring := [10%N].

(** The class [\s] of regular expressions, which is also what [trim]
    removes: white space and line terminators. *)
Definition isSpace (c : N) : bool :=
  existsb (N.eqb c)
    [9; 10; 11; 12; 13; 32; 160; 5760; 8232; 8233; 8239; 8287; 12288; 65279]%N
  || ((8192 <=? c)%N && (c <=? 8202)%N).

(** [s.replace(/\s+/g, " ")]; [inRun] tells that the previous unit was
    white space. *)
Fixpoint collapseSpaces (inRun : bool) (s : jstring) : jstring :=
  match s with
  | [] => []
  | c :: rest =>
      if isSpace c then
        if inRun then collapseSpaces true rest
        else SPACE :: collapseSpaces true rest
      else c :: collapseSpaces false rest
  end.

(** [trimStart] and [trim]. *)
Fixpoint trimStart (s : jstring) : jstring :=
  match s with
  | [] => []
  | c :: rest => if isSpace c then trimStart rest else s
  end.

Definition trim (s : jstring) : jstring :=
  rev (trimStart (rev (trimStart s))).

(** [parts.join(sep)]. *)
Definition join (sep : jstring) (parts : list jstring) : jstring :=
  match parts with
  | [] => []
  | p :: rest => p ++ flat_map (fun q => sep ++ q) rest
  end.

(** [s.replace(/c/g, by)] for a pattern of one code unit. *)
Definition replaceAll (c : N) (by_ : jstring) (s : jstring) : jstring :=
  flat_map (fun u => if (u =? c)%N then by_ else [u]) s.

(** [text.split(/\s+/).filter(Boolean)]: the maximal runs without white
    space; [cur] is the run being read. *)
Fixpoint tokensFrom (cur : jstring) (s : jstring) : list jstring :=
  match s with
  | [] => match cur with [] => [] | _ :: _ => [cur] end
  | c :: rest =>
      if isSpace c then
        match cur with
        | [] => tokensFrom [] rest
        | _ :: _ => cur :: tokensFrom [] rest
        end
      else tokensFrom (cur ++ [c]) rest
  end.

Definition tokens (text : jstring) : list jstring := tokensFrom [] text.

(* ================================================================== *)
(** ** Escaping of filter arguments (ffmpeg.ts 70-86) *)

(** The units that are escaped. *)
Definition BACKSLASH : N := 92.

Definition QUOTE : N := 39.
Definition COLON : N := 58.
Definition LEFT_BRACKET : N := 91.
Definition RIGHT_BRACKET : N := 93.

(** The five [replace] calls, the one of the backslash first. *)
Definition escapeDrawtext (text : jstring) : jstring :=
  replaceAll RIGHT_BRACKET [BACKSLASH; RIGHT_BRACKET]
    (replaceAll LEFT_BRACKET [BACKSLASH; LEFT_BRACKET]
       (replaceAll COLON [BACKSLASH; COLON]
          (replaceAll QUOTE [BACKSLASH; QUOTE]
             (replaceAll BACKSLASH [BACKSLASH; BACKSLASH] text)))).

(** The same five calls. *)
Definition escapeSubtitlesPath (p : jstring) : jstring :=
  replaceAll RIGHT_BRACKET [BACKSLASH; RIGHT_BRACKET]
    (replaceAll LEFT_BRACKET [BACKSLASH; LEFT_BRACKET]
       (replaceAll COLON [BACKSLASH; COLON]
          (replaceAll QUOTE [BACKSLASH; QUOTE]
             (replaceAll BACKSLASH [BACKSLASH; BACKSLASH] p)))).

(* ================================================================== *)
(** ** Binary64 numbers *)

(** The numbers of the timestamps, with the rounding of their operations. *)

(** [2^e] for an integer [e] of either sign. *)
Definition pow2 (e : Z) : Qc := Q2Qc (2 ^ e)%Q.

(** The finite binary64 numbers: [m * 2^e] with a significand of at most
    53 bits and the exponent range of the format. *)
Definition isDouble (x : Qc) : Prop :=
  exists m e : Z,
    (Z.abs m < 2 ^ 53)%Z /\ (-1074 <= e <= 971)%Z /\ x = ofZ m * pow2 e.

(** [q] is a binary64 number nearest to [x]: what an arithmetic operation
    whose exact result is [x] returns, whichever way ties are broken,
    when it does not overflow. *)
Definition nearestDouble (x q : Qc) : Prop :=
  isDouble q
  /\ forall d, isDouble d -> Math_abs (q - x) <= Math_abs (d - x).

(* ================================================================== *)
(** ** Subtitle files (ffmpeg.ts 314-595) *)

(** A word with its times, in seconds. *)
Record TimedWord := mkTimed {
  tw_word : jstring;
  tw_start : Qc;
  tw_end : Qc
}.


Definition MAX_LINE_LENGTH : nat := 42.
Definition MAX_LINES_PER_CUE : nat := 2.



Definition isCuePunctuation (c : N) : bool :=
  existsb (N.eqb c) [44; 46; 59; 33; 63; 8230; 58; 8212; 8211]%N.

(** [word.replace(/\s+/g, " ").trim()]. *)
Definition sanitizeWord (word : jstring) : jstring :=
  trim (collapseSpaces false word).

(** [words.map(w => ({ ...w, word: sanitizeWord(w.word) }))
         .filter(w => w.word.length > 0)]. *)
Definition sanitizeWords (words : list TimedWord) : list TimedWord :=
  filter (fun w => (0 <? List.length (tw_word w))%nat)
    (map (fun w => mkTimed (sanitizeWord (tw_word w)) (tw_start w) (tw_end w))
       words).


(** [s.replace(/\s+(p)/g, "$1")] for the class [p] of [isCuePunctuation];
    [pending] is the run of white space read and not yet emitted. *)
Fixpoint dropSpaceBeforePunctuation (pending s : jstring) : jstring :=
  match s with
  | [] => pending
  | c :: rest =>
      if isSpace c then dropSpaceBeforePunctuation (pending ++ [c]) rest
      else if isCuePunctuation c then c :: dropSpaceBeforePunctuation [] rest
      else pending ++ c :: dropSpaceBeforePunctuation [] rest
  end.

(** The text of a cue: its words joined, no space before punctuation. *)
Definition buildCueText (words : list TimedWord) : jstring :=
  let joined := join [SPACE] (map tw_word words) in
  trim (collapseSpaces false (dropSpaceBeforePunctuation [] joined)).


(** The loop of [wrapText] over the tokens. *)
Fixpoint wrapLoop (toks : list jstring) (current : jstring) (maxLen : nat)
  : list jstring :=
  match toks with
  | [] => if (0 <? List.length current)%nat then [current] else []
  | token :: rest =>
      let candidate :=
        if (0 <? List.length current)%nat then current ++ [SPACE] ++ token
        else token in
      if (List.length candidate <=? maxLen)%nat
         || (List.length current =? 0)%nat
      then wrapLoop rest candidate maxLen
      else current :: wrapLoop rest token maxLen
  end.

Definition wrapText (text : jstring) (maxLen : nat) : list jstring :=
  wrapLoop (tokens text) [] maxLen.

(** [Math.max(...bestLines.map(l => l.length))] of two lines. *)
Definition scoreOf (left right : jstring) : nat :=
  Nat.max (List.length left) (List.length right).

(** The loop over the split points [i = 1 .. n-1] of [rebalanceLines]. *)
Fixpoint bestSplitLoop (toks : list jstring) (todo i : nat)
    (bestLines : jstring * jstring) (bestScore : nat) : jstring * jstring :=
  match todo with
  | O => bestLines
  | S todo' =>
      let left := join [SPACE] (firstn i toks) in
      let right := join [SPACE] (skipn i toks) in
      let score := scoreOf left right in
      if (List.length left <=? MAX_LINE_LENGTH)%nat
         && (List.length right <=? MAX_LINE_LENGTH)%nat
         && (score <? bestScore)%nat
      then bestSplitLoop toks todo' (S i) (left, right) score
      else bestSplitLoop toks todo' (S i) bestLines bestScore
  end.

(** [Math.ceil(n / 2)] is [(n + 1) / 2] on natural numbers. *)
Definition rebalanceLines (words : list TimedWord) : list jstring :=
  let toks := tokens (buildCueText words) in
  match toks with
  | [] => [[]]
  | _ :: _ =>
      let n := List.length toks in
      let bestSplit := ((n + 1) / 2)%nat in
      let bestLines := (join [SPACE] (firstn bestSplit toks),
                        join [SPACE] (skipn bestSplit toks)) in
      let bestScore := scoreOf (fst bestLines) (snd bestLines) in
      let bestLines := bestSplitLoop toks (n - 1) 1 bestLines bestScore in
      if (List.length (fst bestLines) <=? MAX_LINE_LENGTH)%nat
         && (List.length (snd bestLines) <=? MAX_LINE_LENGTH)%nat
      then [fst bestLines; snd bestLines]
      else
        let wrapped := wrapText (join [SPACE] toks) MAX_LINE_LENGTH in
        if (List.length wrapped <=? MAX_LINES_PER_CUE)%nat then wrapped
        else
          let firstLines := firstn (MAX_LINES_PER_CUE - 1) wrapped in
          let remaining :=
            join [SPACE] (skipn (MAX_LINES_PER_CUE - 1) wrapped) in
          filter (fun line => (0 <? List.length line)%nat)
            (firstLines ++ [trim remaining])
  end.

(** One or two lines of at most [MAX_LINE_LENGTH] units where the words
    allow it. *)
Definition formatCueLines (words : list TimedWord) : list jstring :=
  let text := buildCueText words in
  if (List.length text =? 0)%nat then [[]]
  else
    let lines := wrapText text MAX_LINE_LENGTH in
    if (MAX_LINES_PER_CUE <? List.length lines)%nat then rebalanceLines words
    else lines.

(** [String(n)] and [n.toString()] for an integer [n]. *)
Definition numToString (n : Z) : jstring := lit (Expr.string_of_Z n).

(** The loop [while (s.length < size) s = "0" + s]; it runs at most
    [size] times. *)
Fixpoint padLoop (fuel : nat) (s : jstring) (size : nat) : jstring :=
  match fuel with
  | O => s
  | S fuel' =>
      if (List.length s <? size)%nat then padLoop fuel' (48%N :: s) size
      else s
  end.

(** [pad(num, size)] for an integer [num]. *)
Definition pad (num : Z) (size : nat) : jstring :=
  padLoop size (numToString num) size.

(** [a % b]: the remainder has the sign of [a]. *)
Definition truncZ (a : Qc) : Z := if a <? 0 then Qceiling a else Qfloor a.

Definition Math_rem (a b : Qc) : Qc := a - b * ofZ (truncZ (a / b)).

(** [HH:MM:SS,mmm].  The numbers are binary64: [/] and [*] return [fl] of
    their exact result, the double nearest to it; [%] and [Math.floor]
    are exact. *)
Definition formatSrtTime (fl : Qc -> Qc) (seconds : Qc) : jstring :=
  let hours := Qfloor (fl (seconds / ofZ 3600)%Qc) in
  let minutes := Qfloor (fl (Math_rem seconds (ofZ 3600) / ofZ 60)%Qc) in
  let secs := Qfloor (Math_rem seconds (ofZ 60)) in
  let ms := Qfloor (fl (Math_rem seconds 1 * ofZ 1000)%Qc) in
  pad hours 2 ++ lit ":" ++ pad minutes 2 ++ lit ":" ++ pad secs 2
    ++ lit "," ++ pad ms 3.

(** [H:MM:SS.cc]; the centiseconds are a rounded quotient of a rounded
    product. *)
Definition formatAssTime (fl : Qc -> Qc) (seconds : Qc) : jstring :=
  let hours := Qfloor (fl (seconds / ofZ 3600)%Qc) in
  let minutes := Qfloor (fl (Math_rem seconds (ofZ 3600) / ofZ 60)%Qc) in
  let secs := Qfloor (Math_rem seconds (ofZ 60)) in
  let cs := Qfloor (fl (fl (Math_rem seconds 1 * ofZ 1000) / ofZ 10)%Qc) in
  pad hours 1 ++ lit ":" ++ pad minutes 2 ++ lit ":" ++ pad secs 2
    ++ lit "." ++ pad cs 2.






(** [ws[ws.length - 1]]. *)
Definition lastWord (ws : list TimedWord) : option TimedWord :=
  match rev ws with
  | [] => None
  | w :: _ => Some w
  end.







(** What [createWordByWordSrtFile] writes. *)
Definition createWordByWordSrtFile (fl : Qc -> Qc) (words : list TimedWord)
  : jstring :=
  match sanitizeWords words with
  | [] => []
  | sanitized =>
      join (NEWLINE ++ NEWLINE)
        (map (fun '(idx, word) =>
                join NEWLINE
                  [numToString (Z.of_nat idx);
                   formatSrtTime fl (tw_start word) ++ lit " --> "
                     ++ formatSrtTime fl (tw_end word);
                   tw_word word])
           (combine (seq 1 (List.length sanitized)) sanitized))
      ++ NEWLINE
  end.

(** The lines of the header. *)
Definition assHeader : list jstring :=
  [lit "[Script Info]";
   lit "ScriptType: v4.00+";
   lit "PlayResX: 1080";
   lit "PlayResY: 1920";
   lit "[V4+ Styles]";
   lit "Format: Name,Fontname,Fontsize,PrimaryColour,SecondaryColour,OutlineColour,BackColour,Bold,Italic,Underline,StrikeOut,ScaleX,ScaleY,Spacing,Angle,BorderStyle,Outline,Shadow,Alignment,MarginL,MarginR,MarginV,Encoding";
   lit "Style: Default,Forever Freedom Regular Font Regular,160,&H00FFFFFF,&H00FFFFFF,&H00000000,&H00000000,1,0,0,0,100,100,3,0,1,0,2,5,40,40,0,0";
   lit "[Events]";
   lit "Format: Layer,Start,End,Style,Name,MarginL,MarginR,MarginV,Effect,Text"].

(** The braces and their full-width forms. *)
Definition LEFT_BRACE : N := 123.

Definition RIGHT_BRACE : N := 125.
Definition FULLWIDTH_LEFT_BRACE : N := 65371.
Definition FULLWIDTH_RIGHT_BRACE : N := 65373.

(** The text of a dialogue line. *)
Definition assText (group : list TimedWord) : jstring :=
  replaceAll RIGHT_BRACE [FULLWIDTH_RIGHT_BRACE]
    (replaceAll LEFT_BRACE [FULLWIDTH_LEFT_BRACE]
       (join [SPACE] (map tw_word group))).

(** The line pushed for a group. *)
Definition assDialogue (fl : Qc -> Qc) (group : list TimedWord) : jstring :=
  let start :=
    formatAssTime fl (match group with w :: _ => tw_start w | [] => 0 end) in
  let end_ :=
    formatAssTime fl (match lastWord group with
                      | Some w => tw_end w
                      | None => 0
                      end) in
  lit "Dialogue: 0," ++ start ++ lit "," ++ end_ ++ lit ",Default,,0,0,0,,"
    ++ assText group.

(** [sanitized.slice(i, i + n)] for natural numbers. *)
Definition slice (i n : nat) (l : list TimedWord) : list TimedWord :=
  firstn n (skipn i l).

(** The loop [for (let i = 0; i < sanitized.length; i += wordsPerSubtitle)],
    which runs for as long as it has [fuel]. *)
Fixpoint assLoop (fl : Qc -> Qc) (fuel : nat) (sanitized : list TimedWord)
    (wordsPerSubtitle i : nat) (lines : list jstring)
  : option (list jstring) :=
  match fuel with
  | O => None
  | S fuel =>
      if (i <? List.length sanitized)%nat then
        match slice i wordsPerSubtitle sanitized with
        | [] => assLoop fl fuel sanitized wordsPerSubtitle
                  (i + wordsPerSubtitle) lines
        | group =>
            assLoop fl fuel sanitized wordsPerSubtitle (i + wordsPerSubtitle)
              (lines ++ [assDialogue fl group])
        end
      else Some lines
  end.

(** What [createAssWordByWordFile] writes, for a number of words per
    subtitle that is a natural number; [None] when the loop is still
    running after [fuel] rounds. *)
Definition createAssWordByWordFile (fl : Qc -> Qc) (fuel : nat)
    (words : list TimedWord) (wordsPerSubtitle : nat) : option jstring :=
  match assLoop fl fuel (sanitizeWords words) wordsPerSubtitle 0 [] with
  | Some lines => Some (join NEWLINE (assHeader ++ lines) ++ NEWLINE)
  | None => None
  end.

(* ================================================================== *)
(** ** Transcription: retries, chunk plan and segments (ffmpeg.ts 3602-3669, 3946-3987) *)

(** The values of [err.status] and [err.code] that the loop looks at. *)
Inductive JsValue : Type :=
| VUndefined
| VNumber (n : Z)
| VString (s : string).

(** An error as [withRetries] reads it. *)
Record JsError := mkError { err_status : JsValue; err_code : JsValue }.

(** Truthiness: [undefined], [0] and the empty string are falsy. *)
Definition isTruthy (v : JsValue) : bool :=
  match v with
  | VUndefined => false
  | VNumber n => negb (Z.eqb n 0)
  | VString s => negb (String.eqb s EmptyString)
  end.

(** [a || b]. *)
Definition orElse (a b : JsValue) : JsValue := if isTruthy a then a else b.

(** [code === n]. *)
Definition strictEq (v : JsValue) (n : Z) : bool :=
  match v with
  | VNumber m => Z.eqb m n
  | _ => false
  end.

(** The test [transient] on [err?.status || err?.code || 0]. *)
Definition isTransient (err : JsError) : bool :=
  let code := orElse (orElse (err_status err) (err_code err)) (VNumber 0) in
  strictEq code 429 || strictEq code 408 || strictEq code 500
  || strictEq code 502 || strictEq code 503 || strictEq code 504.

(** What a run of [withRetries] does: the value returned or the error
    rethrown, the number of calls of [fn], and the delays slept. *)
Record RetryRun (T : Type) := mkRun {
  run_result : T + JsError;
  run_calls : nat;
  run_sleeps : list Z
}.
Arguments mkRun {T}.
Arguments run_result {T}.
Arguments run_calls {T}.
Arguments run_sleeps {T}.

(** The loop [for (;;)].  [fn k] is the outcome of the call number [k] of
    [fn]; [fuel] bounds the iterations of the model. *)
Fixpoint retryLoop {T} (fuel : nat) (MAX_RETRIES : Z)
    (fn : nat -> T + JsError) (calls : nat) (attempt delay : Z)
    (sleeps : list Z) : option (RetryRun T) :=
  match fuel with
  | O => None
  | S fuel' =>
      match fn calls with
      | inl res => Some (mkRun (inl res) (S calls) sleeps)
      | inr err =>
          let attempt := (attempt + 1)%Z in
          if (attempt >? MAX_RETRIES)%Z then
            Some (mkRun (inr err) (S calls) sleeps)
          else if negb (isTransient err) then
            Some (mkRun (inr err) (S calls) sleeps)
          else
            retryLoop fuel' MAX_RETRIES fn (S calls) attempt (delay * 2)%Z
              (sleeps ++ [delay])
      end
  end.

(** [MAX_RETRIES] is the module constant parsed from the environment;
    the fuel is the number of calls the loop can make. *)
Definition withRetries {T} (MAX_RETRIES : Z) (fn : nat -> T + JsError)
  : option (RetryRun T) :=
  retryLoop (S (Z.to_nat MAX_RETRIES)) MAX_RETRIES fn 0 0 1000 [].

(** An entry of the plan. *)
Record AudioChunk := mkChunk { chunk_start : Qc; chunk_duration : Qc }.

(** The loop [for (i = 0; i < chunks; i++)]; [todo] counts the iterations
    that remain. *)
Fixpoint planLoop (todo i : nat) (base rem cursor : Qc) : list AudioChunk :=
  match todo with
  | O => []
  | S todo' =>
      let d := base in
      let d := if ofNat i <? rem then d + 1 else d in
      mkChunk cursor d :: planLoop todo' (S i) base rem (cursor + d)
  end.

(** [TARGET_BYTES] is the positive module constant read from the
    environment; [sizeBytes] is what [getFileSizeBytes] returns. *)
Definition planAudioChunksBySize (TARGET_BYTES sizeBytes : Z)
    (durationSec : Qc) : list AudioChunk :=
  let chunks := Qceiling (ofZ sizeBytes / ofZ TARGET_BYTES) in
  let chunks := if (chunks <? 1)%Z then 1%Z else chunks in
  let base := Math_floor (durationSec / ofZ chunks) in
  let rem := durationSec - base * ofZ chunks in
  planLoop (Z.to_nat chunks) 0 base rem 0.






(* ================================================================== *)
(** ** Notions used by the statements *)

(** The crop rectangle of a keyframe lies inside the source. *)
Definition inFrame (bW bH : Qc) (k : CropKF) : Prop :=
  0 <= kf_x k /\ 0 <= kf_y k
  /\ kf_x k + kf_w k <= bW /\ kf_y k + kf_h k <= bH.

(** A keyframe that does not zoom. *)
Definition unitZoom (k : CropKF) : Prop := kf_z k = 1.

(** A keyframe that does not zoom out. *)
Definition zoomAtLeast1 (k : CropKF) : Prop := 1 <= kf_z k.

(** The keyframes before deduplication, as [computeCropMapPerson] builds
    them from the raw ones. *)
Definition scaledChain (env : Env) (raw : list CropKF) (input : ComputeInput)
    (constraints : Constraints) : list CropKF :=
  applyScaledCoords
    (easeSegmentEdges
       (applyAccelLimits
          (applyPanLimits
             (applyDeadzone (smoothKeyframes env raw)
                (DEADZONE_X env) (DEADZONE_Y env))
             (maxPan constraints))
          (MAX_ACCEL env))
       (segStart input) (segEnd input) (easeMs constraints / ofZ 1000))
    (baseW input) (baseH input).

(** Consecutive keyframes are at least [minDelta] apart in time. *)
Fixpoint spaced (minDelta : Qc) (kf : list CropKF) : Prop :=
  match kf with
  | a :: (b :: _) as rest => minDelta <= kf_t b - kf_t a /\ spaced minDelta rest
  | _ => True
  end.

(** The detections contributed by window [i] of the global sampling: those
    of its frames when the window was sampled, none when sampling it
    raised. *)
Definition windowDetections
    (detectFacesTimeline : nat -> Qc -> Qc -> outcome (list FrameDetections))
    (videoDurationSec : Qc) (p : Sampling) (i : nat) : list FaceDetection :=
  match detectFacesTimeline i (fst (sampleWindow videoDurationSec p i))
          (snd (sampleWindow videoDurationSec p i)) with
  | Returned frames => flat_map frame_detections frames
  | Thrown _ => []
  end.

(** The pool aggregated over all the windows. *)
Definition aggregatedPool
    (detectFacesTimeline : nat -> Qc -> Qc -> outcome (list FrameDetections))
    (videoDurationSec : Qc) (skipUntilSec : option Qc) : list FaceDetection :=
  let p := planSampling videoDurationSec skipUntilSec in
  flat_map (windowDetections detectFacesTimeline videoDurationSec p)
    (seq 0 (numSamples p)).

(** The rectangle built from a pool that is large enough. *)
Definition globalCropOf (bW bH : Qc) (pool : list FaceDetection) : GlobalCrop :=
  let c := calculateCrop bW bH pool in
  let finalCropW := Math_floor (cropWidth c / ofZ 2) * ofZ 2 in
  {| gc_cropX := cropX c; gc_cropY := cropY c; gc_cropW := finalCropW;
     gc_cropH := cropHeight c; gc_zMin := staticZMin finalCropW bW |}.

(** The crop of a keyframe, as the builder sizes it, leaves the source:
    it is larger than the source or its origin plus size is outside. *)
Definition outOfBounds (bW bH : Z) (k : CropKF) : Prop :=
  let cropW := Math_round (ofZ (Expr.evenTargetWidth bH) / kf_z k) in
  let cropH := Math_round (ofZ bH / kf_z k) in
  ofZ bW < cropW \/ ofZ bH < cropH
  \/ kf_x k < 0 \/ kf_y k < 0
  \/ ofZ bW < kf_x k + cropW \/ ofZ bH < kf_y k + cropH.

(** The time of a keyframe and the slope of a piece as the builder prints
    them. *)
Definition printedTime (k : CropKF) : Qc :=
  Expr.Fixed_value (Expr.toFixed (kf_t k) 3).

Definition printedSlope (value : CropKF -> Qc) (a b : CropKF) : Qc :=
  Expr.Fixed_value
    (Expr.toFixed
       ((value b - value a) / Math_max (dec 1 1000) (kf_t b - kf_t a)) 6).

(** The printed times increase strictly. *)
Fixpoint increasing (l : list Qc) : Prop :=
  match l with
  | a :: (b :: _) as rest => a < b /\ increasing rest
  | _ => True
  end.

(** Hold-and-interpolate through the printed knots, for a time after the
    knot of [a]: on the piece from [a] to [b] the line through the rounded
    value of [a] with the printed slope, after the last knot its rounded
    value. *)
Fixpoint interpolateFrom (value : CropKF -> Qc) (a : CropKF)
    (kf : list CropKF) (t : Qc) : Qc :=
  match kf with
  | [] => Math_round (value a)
  | b :: rest =>
      if t <? printedTime b then
        Math_round (value a) + printedSlope value a b * (t - printedTime a)
      else interpolateFrom value b rest t
  end.

Definition holdInterpolate (value : CropKF -> Qc) (kf : list CropKF) (t : Qc)
  : Qc :=
  match kf with
  | [] => 0
  | k0 :: rest =>
      if t <? printedTime k0 then Math_round (value k0)
      else interpolateFrom value k0 rest t
  end.

(** The builders print a constant when the values spread by less than 1. *)
Definition spreadBelow1 (value : CropKF -> Qc) (kf : list CropKF) : bool :=
  match kf with
  | [] => true
  | k0 :: rest =>
      Expr.maxOf (value k0) (map value rest)
      - Expr.minOf (value k0) (map value rest) <? 1
  end.

(** What an emitted expression is meant to evaluate to: the rounded first
    value when the builder chose the constant form ([spreadOf] is the
    quantity whose spread it tests), hold-and-interpolate otherwise. *)
Definition builtValue (spreadOf value : CropKF -> Qc) (kf : list CropKF)
    (t : Qc) : Qc :=
  match kf with
  | [] => 0
  | k0 :: _ =>
      if spreadBelow1 spreadOf kf then Math_round (value k0)
      else holdInterpolate value kf t
  end.

(** The sum of the values of a list of expressions. *)
Definition sumAt (parts : list Expr.fexpr) (t : Qc) : Qc :=
  fold_right (fun p acc => Expr.eval p t + acc) 0 parts.

(** The pieces after [a] and the final hold, summed. *)
Definition tailParts (value : CropKF -> Qc) (a : CropKF) (rest : list CropKF)
    (d : CropKF) : list Expr.fexpr :=
  Expr.pieces value a rest
    ++ [Expr.holdAfter (kf_t (last (a :: rest) d))
          (roundZ (value (last (a :: rest) d)))].

(** The time step the tracker charges to a track at time [t]. *)
Definition elapsed (t : Qc) (tr : Track) : Qc :=
  Math_max (dec 1 1000) (t - tr_lastT tr).

(** A predicted track that coasts: its position is kept, its age and its
    miss duration grow by the time step. *)
Definition coasted (t : Qc) (tr : Track) : Track :=
  with_time tr t (tr_age tr + elapsed t tr) (tr_miss tr + elapsed t tr).

(** The matches recorded by [associateAndUpdate]. *)
Definition matchesOf (env : Env) (prev : list Track) (dets : list PersonDet)
    (t bW bH : Qc) : list Match :=
  ms_matches (matchTracks env (map (predictTrack t bW bH) prev) 0 dets
                (mkMatchState [] [] [])).

(** Detection [dj] was taken by a track that comes before track [ti]. *)
Definition takenBefore (matches : list Match) (ti dj : nat) : Prop :=
  exists m, In m matches /\ (m_ti m < ti)%nat /\ m_di m = dj.

(** What the scan of one track has found so far: nothing, with a best
    overlap of 0, or an unused detection with a positive overlap. *)
Definition bestSoFar (tr : Track) (seen : list PersonDet) (usedD : list nat)
    (bestIdx : option nat) (bestIou : Qc) : Prop :=
  match bestIdx with
  | None => bestIou = 0
  | Some i =>
      exists det, nth_error seen i = Some det /\ has usedD i = false
                  /\ bestIou = iouTrackDet tr det /\ 0 < bestIou
  end
  /\ forall dj det, nth_error seen dj = Some det -> has usedD dj = false ->
                    iouTrackDet tr det <= bestIou.

(** A recorded match is sound: it pairs a track with a detection whose
    overlap reaches the threshold and which is the best among the
    detections that no earlier track has taken. *)
Definition matchSound (env : Env) (dets : list PersonDet)
    (seen : list Track) (matches : list Match) (m : Match) : Prop :=
  exists tr det,
    nth_error seen (m_ti m) = Some tr
    /\ nth_error dets (m_di m) = Some det
    /\ m_iou m = iouTrackDet tr det
    /\ TRACK_IOU_THRESH env <= m_iou m
    /\ 0 < m_iou m
    /\ forall dj det',
         nth_error dets dj = Some det' ->
         ~ takenBefore matches (m_ti m) dj ->
         iouTrackDet tr det' <= m_iou m.

(** A track is matched as soon as a detection that no earlier track has
    taken overlaps it positively and up to the threshold. *)
Definition matchComplete (env : Env) (dets : list PersonDet)
    (seen : list Track) (matches : list Match) : Prop :=
  forall ti tr dj det,
    nth_error seen ti = Some tr ->
    nth_error dets dj = Some det ->
    ~ takenBefore matches ti dj ->
    TRACK_IOU_THRESH env <= iouTrackDet tr det ->
    0 < iouTrackDet tr det ->
    exists m, In m matches /\ m_ti m = ti.

(** The invariant of the loop over the tracks, after the tracks [seen]. *)
Record goodState (env : Env) (dets : list PersonDet) (seen : list Track)
    (st : MatchState) : Prop := mkGoodState {
  gs_usedD : ms_usedD st = rev (map m_di (ms_matches st));
  gs_usedT : ms_usedT st = rev (map m_ti (ms_matches st));
  gs_nodupD : NoDup (map m_di (ms_matches st));
  gs_nodupT : NoDup (map m_ti (ms_matches st));
  gs_before : forall m, In m (ms_matches st) ->
                        (m_ti m < List.length seen)%nat;
  gs_sound : forall m, In m (ms_matches st) ->
                       matchSound env dets seen (ms_matches st) m;
  gs_complete : matchComplete env dets seen (ms_matches st)
}.

(** What the piece that ends at the printed time [t] contributes there:
    the line from the keyframe before, taken at its end; nothing when [t]
    is not the printed time of a keyframe after [a]. *)
Fixpoint pieceEndingAt (value : CropKF -> Qc) (a : CropKF)
    (kf : list CropKF) (t : Qc) : Qc :=
  match kf with
  | [] => 0
  | b :: rest =>
      (if eqb t (printedTime b)
       then Math_round (value a) + printedSlope value a b * (t - printedTime a)
       else 0)
      + pieceEndingAt value b rest t
  end.

(** What an emitted expression evaluates to: [builtValue], and on top of
    it, in the interpolating form, the end of the piece that stops at
    [t]. *)
Definition emittedValue (spreadOf value : CropKF -> Qc) (kf : list CropKF)
    (empty : Qc) (t : Qc) : Qc :=
  match kf with
  | [] => empty
  | k0 :: rest =>
      if spreadBelow1 spreadOf kf then Math_round (value k0)
      else holdInterpolate value kf t + pieceEndingAt value k0 rest t
  end.

(* ================================================================== *)
(** ** Sample inputs *)

(** The constraints of the framing test script. *)
Definition testConstraints : Constraints :=
  {| margin := dec 5 100; maxPan := ofZ 150; easeMs := ofZ 500;
     centerBiasX := dec 5 10; centerBiasY := dec 4 10;
     safeTop := dec 15 100; safeBottom := dec 1 10 |}.

(** A person standing still in front of the camera: every sampled frame
    yields the same detection. *)
Definition person (x y w h : Z) : PersonDet :=
  {| det_x := ofZ x; det_y := ofZ y; det_w := ofZ w; det_h := ofZ h;
     det_score := dec 9 10; det_id := None |}.

Definition steadyFrames (d : PersonDet) (n : nat)
  : outcome (list (outcome (list PersonDet))) :=
  Returned (repeat (Returned [d]) n).

(** The snapshots that sampling the segment of [input] delivers. *)
Definition sampled (frames : outcome (list (outcome (list PersonDet))))
    (input : ComputeInput) : outcome (list PersonSnapshot) :=
  detectPersonsTimeline default_env (Returned tt) frames
    (segStart input) (segEnd input) (baseW input) (baseH input).

(** One second of a 1080x2400 portrait source. *)
Definition portraitInput : ComputeInput :=
  {| baseW := ofZ 1080; baseH := ofZ 2400; segStart := 0; segEnd := 1;
     transcript := [] |}.
Definition portraitFrames := steadyFrames (person 440 1000 200 200) 12.

(** Twenty-one seconds of a 1920x1080 source. *)
Definition longInput : ComputeInput :=
  {| baseW := ofZ 1920; baseH := ofZ 1080; segStart := 0; segEnd := ofZ 21;
     transcript := [] |}.
Definition longFrames := steadyFrames (person 860 400 200 200) 252.

(** A quarter of a second in which the detector finds nobody. *)
Definition emptySnaps : list PersonSnapshot :=
  [mkSnap 0 []; mkSnap (dec 1 12) []; mkSnap (dec 2 12) []].

(** 121 keyframes, one every 0.2 s, of a camera that does not move. *)
Definition stillKeyframe (i : nat) : CropKF :=
  {| kf_t := ofNat i * dec 2 10; kf_x := ofZ 657; kf_y := 0;
     kf_w := ofZ 607; kf_h := ofZ 1080; kf_z := 1; kf_xs := 0; kf_ys := 0 |}.
Definition manyKeyframes : list CropKF := map stillKeyframe (seq 0 121).

(** Five keyframes inside a 1920x1080 source followed by one far outside. *)
Definition insideKeyframe (i : nat) : CropKF :=
  {| kf_t := ofNat i; kf_x := ofNat (100 * i); kf_y := 0; kf_w := ofZ 606;
     kf_h := ofZ 1080; kf_z := 1; kf_xs := 0; kf_ys := 0 |}.
Definition outsideKeyframe : CropKF :=
  {| kf_t := ofZ 5; kf_x := ofZ 5000; kf_y := 0; kf_w := ofZ 606;
     kf_h := ofZ 1080; kf_z := 1; kf_xs := 0; kf_ys := 0 |}.
Definition sixKeyframes : list CropKF :=
  map insideKeyframe (seq 0 5) ++ [outsideKeyframe].
Definition threeKeyframes : list CropKF := map insideKeyframe (seq 0 3).

(** Two keyframes of a 1080x1920 source that zooms from 1 to 2 in one
    second. *)
Definition zoomingOut : list CropKF :=
  [ mkKF 0 0 0 (ofZ 1080) (ofZ 1920) 1 0 0;
    mkKF 1 0 0 (ofZ 540) (ofZ 960) (ofZ 2) 0 0 ].

(** A face centred at x = 1600 that dominates the pool, and a small one
    far to the left. *)
Definition dominantFace : FaceDetection :=
  {| face_x := ofZ 1500; face_y := ofZ 400; face_width := ofZ 200;
     face_height := ofZ 200; face_centerX := ofZ 1600;
     face_centerY := ofZ 500; face_score := dec 9 10;
     face_area := ofZ 40000 |}.
Definition smallFace : FaceDetection :=
  {| face_x := ofZ 300; face_y := ofZ 500; face_width := ofZ 40;
     face_height := ofZ 40; face_centerX := ofZ 320;
     face_centerY := ofZ 520; face_score := dec 4 10;
     face_area := ofZ 1600 |}.
Definition dominantPool : list FaceDetection :=
  repeat dominantFace 50 ++ repeat smallFace 4.

(** Two tracks over one detection: the first overlaps it by 19/21, the
    second sits exactly on it and has been coasting for 0.75 s. *)
Definition freshTrack : Track :=
  {| tr_id := 1; tr_x := ofZ 100; tr_y := ofZ 100; tr_w := ofZ 200;
     tr_h := ofZ 200; tr_score := dec 9 10; tr_vx := 0; tr_vy := 0;
     tr_lastT := dec 9 10; tr_age := 1; tr_hits := 5; tr_miss := 0 |}.
Definition exactTrack : Track :=
  {| tr_id := 2; tr_x := ofZ 110; tr_y := ofZ 100; tr_w := ofZ 200;
     tr_h := ofZ 200; tr_score := dec 9 10; tr_vx := 0; tr_vy := 0;
     tr_lastT := dec 9 10; tr_age := ofZ 2; tr_hits := 5;
     tr_miss := dec 75 100 |}.
Definition sharedDetection : PersonDet := person 110 100 200 200.

(* ================================================================== *)
(** ** Notions used by the further statements *)


(** Between consecutive keyframes a coordinate either rests or moves by
    at least its dead zone. *)
Fixpoint settled (dzx dzy : Qc) (kf : list CropKF) : Prop :=
  match kf with
  | a :: (b :: _) as rest =>
      (kf_x b = kf_x a \/ dzx <= Math_abs (kf_x b - kf_x a))
      /\ (kf_y b = kf_y a \/ dzy <= Math_abs (kf_y b - kf_y a))
      /\ (kf_z b = kf_z a \/ dec 1 100 <= Math_abs (kf_z b - kf_z a))
      /\ settled dzx dzy rest
  | _ => True
  end.

(** The value the last loop of an iteration writes at index [i]. *)
Definition projected (x g L U : list Qc) (lr : Qc) (i : nat) : Qc :=
  let xi := get x i - lr * get g i in
  let xi := if xi <? get L i then get L i else xi in
  if xi >? get U i then get U i else xi.

(** The box of [d] lies within the bounds [b]. *)
Definition encloses (b : Bounds) (d : PersonDet) : Prop :=
  b_minX b <= det_x d /\ det_x d + det_w d <= b_maxX b
  /\ b_minY b <= det_y d /\ det_y d + det_h d <= b_maxY b.

(** One round of the loop of [computeBounds]. *)
Definition boundsStep (b : Bounds) (d : PersonDet) : Bounds :=
  {| b_minX := Math_min (b_minX b) (det_x d);
     b_maxX := Math_max (b_maxX b) (det_x d + det_w d);
     b_minY := Math_min (b_minY b) (det_y d);
     b_maxY := Math_max (b_maxY b) (det_y d + det_h d) |}.

(** The detections of [dets] from index [di] on whose index is not in
    [usedD]. *)
Fixpoint unusedCount (n di : nat) (usedD : list nat) : nat :=
  match n with
  | O => O
  | S n' => (if has usedD di then 0 else 1) + unusedCount n' (S di) usedD
  end.

(** The weight of the values below and above a threshold. *)
Definition weightBelow (m : Qc) (values : list WeightedValue) : Qc :=
  sumWeights (filter (fun v => wv_value v <? m) values).

Definition weightAbove (m : Qc) (values : list WeightedValue) : Qc :=
  sumWeights (filter (fun v => wv_value v >? m) values).

(** The sum of the weights, by recursion on the list. *)
Fixpoint wsum (l : list WeightedValue) : Qc :=
  match l with
  | [] => 0
  | v :: l => wv_weight v + wsum l
  end.

(** The order of the sorted array. *)
Definition byValue (a b : WeightedValue) : Prop := wv_value a <= wv_value b.

(** Consecutive turns differ in speaker or are more than 0.6 s apart. *)
Fixpoint turnsSeparated (turns : list SpeakerTurn) : Prop :=
  match turns with
  | a :: (b :: _) as rest =>
      (turn_label a <> turn_label b
       \/ dec 6 10 < turn_start b - turn_end a)
      /\ turnsSeparated rest
  | _ => True
  end.


(** What holds of a turn built from the words [ws]. *)
Definition turnFrom (segStart segEnd : Qc) (ws : list TranscriptWord)
    (u : SpeakerTurn) : Prop :=
  segStart <= turn_start u /\ turn_end u <= segEnd
  /\ exists w, In w ws /\ word_speaker w = Some (turn_label u).

(** The first five keyframes pass the validation of the builder. *)
Definition passesValidation (bW bH : Z) (kf : list CropKF) : Prop :=
  Expr.hasInvalidCrop bW bH (Expr.evenTargetWidth bH) kf = false.

(** Each chunk starts where the previous one ends. *)
Fixpoint contiguous (cursor : Qc) (plan : list AudioChunk) : Prop :=
  match plan with
  | [] => True
  | c :: rest =>
      chunk_start c = cursor
      /\ contiguous (chunk_start c + chunk_duration c) rest
  end.

(** The total duration of a plan. *)
Definition planned (plan : list AudioChunk) : Qc :=
  fold_right (fun c acc => chunk_duration c + acc) 0 plan.

(** The steps among [i .. i + todo - 1] that get the extra second. *)
Fixpoint extras (todo i : nat) (rem : Qc) : nat :=
  match todo with
  | O => O
  | S todo' => (if ofNat i <? rem then 1 else 0) + extras todo' (S i) rem
  end.

(** The delays of a run that slept [n] times: 1000, 2000, 4000, ... *)
Definition backoff (n : nat) : list Z :=
  map (fun k => (1000 * 2 ^ Z.of_nat k)%Z) (seq 0 n).

(** A call that threw an error the loop retries. *)
Definition failedTransiently {T} (r : T + JsError) : Prop :=
  match r with
  | inl _ => False
  | inr err => isTransient err = true
  end.

(** What a completed run looks like. *)
Definition retryOutcome {T} (MAX_RETRIES : Z) (fn : nat -> T + JsError)
    (run : RetryRun T) : Prop :=
  (1 <= run_calls run)%nat
  /\ (Z.of_nat (run_calls run) <= Z.max 0 MAX_RETRIES + 1)%Z
  /\ run_result run = fn (run_calls run - 1)%nat
  /\ (forall k, (k < run_calls run - 1)%nat -> failedTransiently (fn k))
  /\ run_sleeps run = backoff (run_calls run - 1)
  /\ (failedTransiently (run_result run) ->
      Z.of_nat (run_calls run) = (Z.max 0 MAX_RETRIES + 1)%Z).

(** A word in the sense of [split]: not empty, no white space. *)
Definition isToken (t : jstring) : Prop :=
  t <> [] /\ Forall (fun c => isSpace c = false) t.

(** A line of [wrapText]: a group of words that fits the length, or one
    word alone. *)
Definition lineGroup (maxLen : nat) (g : list jstring) : Prop :=
  g <> [] /\ Forall isToken g
  /\ ((List.length (join [SPACE] g) <= maxLen)%nat \/ exists t, g = [t]).

(** The number a string of decimal digits denotes. *)
Definition digitsValue (s : jstring) : Z :=
  fold_left (fun acc c => (acc * 10 + (Z.of_N c - 48))%Z) s 0%Z.

(** A decimal digit. *)
Definition isDigit (c : N) : bool := ((48 <=? c) && (c <=? 57))%N.

(** A field of [size] digits that reads back as [n]. *)
Definition fieldOf (n : Z) (size : nat) (s : jstring) : Prop :=
  List.length s = size /\ forallb isDigit s = true /\ digitsValue s = n.

(** The same as a test, for the numbers below a bound. *)
Definition fieldOk (size : nat) (n : Z) : bool :=
  (List.length (pad n size) =? size)%nat
  && forallb isDigit (pad n size)
  && (digitsValue (pad n size) =? n)%Z.

(** [fl] returns a nearest double at the four results that the two
    functions round for [seconds]. *)
Definition roundsTimeOf (fl : Qc -> Qc) (seconds : Qc) : Prop :=
  nearestDouble (seconds / ofZ 3600) (fl (seconds / ofZ 3600))
  /\ nearestDouble (Math_rem seconds (ofZ 3600) / ofZ 60)
                   (fl (Math_rem seconds (ofZ 3600) / ofZ 60))
  /\ nearestDouble (Math_rem seconds 1 * ofZ 1000)
                   (fl (Math_rem seconds 1 * ofZ 1000))
  /\ nearestDouble (fl (Math_rem seconds 1 * ofZ 1000) / ofZ 10)
                   (fl (fl (Math_rem seconds 1 * ofZ 1000) / ofZ 10)).

(** The binary orders [c] of [k] and [p] of [y * k] leave room for the
    divisor [y]: [2^p < y * k], [k <= 2^c] and [y < 2^(p + 2 - c)]. *)
Definition quotientOrders (y k : Z) : bool :=
  let c := Z.log2_up k in
  let p := Z.log2 (y * k - 1) in
  ((0 <=? c) && (c <=? 53) && (0 <=? p) && (p <=? 52) && (1 <=? k)
   && (k <=? 2 ^ c) && (2 ^ p <? y * k) && (c <=? p + 2)
   && (y <? 2 ^ (p + 2 - c)))%Z.











(** White space only as plain spaces. *)
Definition plainSpaces (s : jstring) : Prop :=
  Forall (fun u => isSpace u = true -> u = SPACE) s.

(** What a text may hold inside a dialogue line: no brace, which would
    open an override block, and no white space but the plain space. *)
Definition plainText (s : jstring) : Prop :=
  Forall (fun u => u <> LEFT_BRACE /\ u <> RIGHT_BRACE
                   /\ (isSpace u = true -> u = SPACE)) s.

(** The escaping of one code unit. *)
Definition escapeUnit (u : N) : jstring :=
  if existsb (N.eqb u) [BACKSLASH; QUOTE; COLON; LEFT_BRACKET; RIGHT_BRACKET]
  then [BACKSLASH; u] else [u].

(** Reading an escaped text: a backslash makes the next unit literal. *)
Fixpoint unescapeFrom (escaped : bool) (s : jstring) : jstring :=
  match s with
  | [] => []
  | c :: rest =>
      if escaped then c :: unescapeFrom false rest
      else if (c =? BACKSLASH)%N then unescapeFrom true rest
      else c :: unescapeFrom false rest
  end.

Definition unescape (s : jstring) : jstring := unescapeFrom false s.

(* ================================================================== *)
(** ** Further sample inputs *)

(** Three keyframes one second apart. *)
Definition threeSpaced : list CropKF :=
  [ mkKF 0 0 0 (ofZ 606) (ofZ 1080) 1 0 0;
    mkKF 1 (ofZ 50) 0 (ofZ 606) (ofZ 1080) 1 0 0;
    mkKF (ofZ 2) (ofZ 100) 0 (ofZ 606) (ofZ 1080) 1 0 0 ].

(** The double nearest to 0.623, and the rounding of the four results at
    it. *)
Definition time623 : Qc := ofZ 5611485135703638 * pow2 (-53).

Definition fl623 (x : Qc) : Qc :=
  if eqb x (time623 / ofZ 3600) then ofZ 6384623087733917 * pow2 (-65)
  else if eqb x (Math_rem time623 (ofZ 3600) / ofZ 60)
  then ofZ 5985584144750547 * pow2 (-59)
  else if eqb x (Math_rem time623 1 * ofZ 1000)
  then ofZ 5479965952835584 * pow2 (-43)
  else if eqb x (ofZ 623 / ofZ 10) then ofZ 8767945524536934 * pow2 (-47)
  else x.

(* ================================================================== *)
(** * Properties *)

(** ** Arithmetic on [Qc] *)

(** Moves a goal or hypothesis over [Qc] to [Q], where [lra] and [nra]
    apply. *)
Ltac qc2q :=
  repeat (progress (unfold Qclt, Qcle, Qcdiv, Qcminus, Qcplus, Qcmult,
                      Qcopp, Qcinv, ofNat, ofZ, dec, Q2Qc in *;
                    cbn [this] in *));
  rewrite ?Qred_correct in *.

(** Integer constants become literals of [Q]. *)
Ltac qconst :=
  repeat match goal with
  | |- context [inject_Z (Zpos ?p)] =>
      change (inject_Z (Zpos p)) with (Zpos p # 1)%Q
  | |- context [inject_Z (Zneg ?p)] =>
      change (inject_Z (Zneg p)) with (Zneg p # 1)%Q
  | |- context [inject_Z Z0] => change (inject_Z Z0) with (0 # 1)%Q
  | H : context [inject_Z (Zpos ?p)] |- _ =>
      change (inject_Z (Zpos p)) with (Zpos p # 1)%Q in H
  | H : context [inject_Z (Zneg ?p)] |- _ =>
      change (inject_Z (Zneg p)) with (Zneg p # 1)%Q in H
  | H : context [inject_Z Z0] |- _ =>
      change (inject_Z Z0) with (0 # 1)%Q in H
  end.

Ltac qc2q' := qc2q; qconst.

Lemma ltb_spec (x y : Qc) : BoolSpec (x < y) (y <= x) (x <? y).
Proof.
  unfold ltb. destruct (x ?= y) eqn:E; constructor.
  - apply Qceq_alt in E. subst. apply Qcle_refl.
  - apply Qclt_alt. exact E.
  - apply Qclt_le_weak. apply Qcgt_alt. exact E.
Qed.

Lemma leb_spec (x y : Qc) : BoolSpec (x <= y) (y < x) (x <=? y).
Proof.
  unfold leb. destruct (x ?= y) eqn:E; constructor.
  - apply Qceq_alt in E. subst. apply Qcle_refl.
  - apply Qclt_le_weak. apply Qclt_alt. exact E.
  - apply Qcgt_alt. exact E.
Qed.

Lemma eqb_spec (x y : Qc) : BoolSpec (x = y) (x <> y) (eqb x y).
Proof.
  unfold eqb. destruct (x ?= y) eqn:E; constructor.
  - apply Qceq_alt. exact E.
  - intros ->. rewrite (proj1 (Qceq_alt y y) eq_refl) in E. discriminate.
  - intros ->. rewrite (proj1 (Qceq_alt y y) eq_refl) in E. discriminate.
Qed.

(** Case analysis on the comparisons of a goal. *)
Ltac cases_cmp :=
  unfold gtb, geb in *;
  repeat match goal with
  | |- context [ltb ?a ?b] => destruct (ltb_spec a b)
  | |- context [leb ?a ?b] => destruct (leb_spec a b)
  end.

Lemma Math_max_l (a b : Qc) : a <= Math_max a b.
Proof. unfold Math_max. cases_cmp; qc2q; lra. Qed.

Lemma Math_max_r (a b : Qc) : b <= Math_max a b.
Proof. unfold Math_max. cases_cmp; qc2q; lra. Qed.

Lemma Math_max_eq_l (a b : Qc) : b <= a -> Math_max a b = a.
Proof.
  intros H. unfold Math_max. cases_cmp; [|reflexivity].
  apply Qc_is_canon. qc2q. lra.
Qed.

Lemma Math_max_eq_r (a b : Qc) : a <= b -> Math_max a b = b.
Proof.
  intros H. unfold Math_max. cases_cmp; [reflexivity|].
  apply Qc_is_canon. qc2q. lra.
Qed.

Lemma Math_min_l (a b : Qc) : Math_min a b <= a.
Proof. unfold Math_min. cases_cmp; qc2q; lra. Qed.

Lemma Math_min_r (a b : Qc) : Math_min a b <= b.
Proof. unfold Math_min. cases_cmp; qc2q; lra. Qed.

Lemma Math_min_glb (a b c : Qc) : c <= a -> c <= b -> c <= Math_min a b.
Proof. intros. unfold Math_min. cases_cmp; assumption. Qed.

Lemma Math_max_lub (a b c : Qc) : a <= c -> b <= c -> Math_max a b <= c.
Proof. intros. unfold Math_max. cases_cmp; assumption. Qed.

Lemma clamp_bounds (v lo hi : Qc) : lo <= hi -> lo <= clamp v lo hi <= hi.
Proof.
  intros H. unfold clamp. cases_cmp; split; qc2q; lra.
Qed.

Lemma ofZ_le (a b : Z) : (a <= b)%Z -> ofZ a <= ofZ b.
Proof. intros H. qc2q. rewrite <- Zle_Qle. exact H. Qed.

Lemma ofZ_lt (a b : Z) : (a < b)%Z -> ofZ a < ofZ b.
Proof. intros H. qc2q. rewrite <- Zlt_Qlt. exact H. Qed.

Lemma ofZ_inj (a b : Z) : ofZ a = ofZ b -> a = b.
Proof.
  intros H. apply (f_equal this) in H. unfold ofZ, Q2Qc in H. cbn [this] in H.
  apply (f_equal Qfloor) in H.
  rewrite !(Qfloor_comp _ _ (Qred_correct _)), !Qfloor_Z in H. exact H.
Qed.

Lemma roundZ_ofZ (z : Z) : roundZ (ofZ z) = z.
Proof.
  unfold roundZ. apply Z.le_antisymm.
  - apply Z.lt_succ_r. rewrite Zlt_Qlt. eapply Qle_lt_trans; [apply Qfloor_le|].
    qc2q. unfold Z.succ. rewrite inject_Z_plus.
    change (inject_Z 1) with 1%Q. lra.
  - rewrite <- (Qfloor_Z z) at 1. apply Qfloor_resp_le. qc2q. lra.
Qed.

Lemma Math_round_ofZ (z : Z) : Math_round (ofZ z) = ofZ z.
Proof. unfold Math_round. rewrite roundZ_ofZ. reflexivity. Qed.

Lemma roundZ_mono (a b : Qc) : a <= b -> (roundZ a <= roundZ b)%Z.
Proof. intros H. unfold roundZ. apply Qfloor_resp_le. qc2q. lra. Qed.

Lemma Math_round_mono (a b : Qc) : a <= b -> Math_round a <= Math_round b.
Proof. intros H. apply ofZ_le, roundZ_mono, H. Qed.

Lemma Qc_div_1 (a : Qc) : a / 1 = a.
Proof. apply Qc_is_canon. qc2q. field. Qed.

(* ------------------------------------------------------------------ *)
(** ** Keyframe compression *)

Lemma nth_length_cons_last {A} (l : list A) (a d e : A) :
  nth (List.length l) (a :: l) d = last (a :: l) e.
Proof.
  revert a. induction l as [|b l IH]; intros a; [reflexivity|].
  change (nth (List.length l) (b :: l) d = last (b :: l) e). apply IH.
Qed.

Lemma nth_pred_length_last {A} (l : list A) (d e : A) :
  l <> [] -> nth (List.length l - 1) l d = last l e.
Proof.
  destruct l as [|a l]; [congruence|]. intros _.
  cbn [List.length]. rewrite Nat.sub_1_r, Nat.pred_succ.
  apply nth_length_cons_last.
Qed.

Lemma last_cons_app_single {A} (a : A) (l : list A) (x d : A) :
  last (a :: l ++ [x]) d = x.
Proof. change (a :: l ++ [x]) with ((a :: l) ++ [x]). apply last_last. Qed.

(** Every index read by the decimation loop lies inside the array. *)
Lemma decimateIdx_in_range (n i : nat) :
  (120 < n)%nat -> (1 <= i <= 118)%nat -> (decimateIdx n 120 i < n)%nat.
Proof.
  intros Hn Hi. unfold decimateIdx.
  change (Z.of_nat 120 - 1)%Z with 119%Z.
  set (r := roundZ (ofNat i * (ofNat n / ofZ 119))).
  assert (Hi0 : (0 <= inject_Z (Z.of_nat i))%Q).
  { change 0%Q with (inject_Z 0). rewrite <- Zle_Qle. lia. }
  assert (Hi1 : (inject_Z (Z.of_nat i) <= 118)%Q).
  { change 118%Q with (inject_Z 118). rewrite <- Zle_Qle. lia. }
  assert (Hn1 : (120 < inject_Z (Z.of_nat n))%Q).
  { change 120%Q with (inject_Z 120). rewrite <- Zlt_Qlt. lia. }
  assert (Hlt : (r < Z.of_nat n)%Z).
  { subst r. unfold roundZ. rewrite Zlt_Qlt.
    eapply Qle_lt_trans; [apply Qfloor_le|]. qc2q.
    revert Hi0 Hi1 Hn1.
    generalize (inject_Z (Z.of_nat i)) (inject_Z (Z.of_nat n)).
    intros a b Ha0 Ha1 Hb.
    assert (a * b <= 118 * b)%Q by nra.
    unfold Qdiv. change (/ inject_Z 119)%Q with (1 # 119)%Q. nra. }
  assert (Hge : (0 <= r)%Z).
  { subst r. unfold roundZ. change 0%Z with (Qfloor 0).
    apply Qfloor_resp_le. qc2q.
    revert Hi0 Hi1 Hn1.
    generalize (inject_Z (Z.of_nat i)) (inject_Z (Z.of_nat n)).
    intros a b Ha0 Ha1 Hb.
    unfold Qdiv. change (/ inject_Z 119)%Q with (1 # 119)%Q. nra. }
  apply Nat2Z.inj_lt. rewrite Z2Nat.id by exact Hge. exact Hlt.
Qed.

(** C5.  A keyframe list longer than the ceiling of 120 is compressed to
    at most 120 keyframes (exactly 120), whose first element is the
    original first keyframe and whose last element is the original last
    keyframe. *)
Theorem compressCropMap_over_ceiling (kf : list CropKF) (d : CropKF) :
  (120 < List.length kf)%nat ->
  (List.length (compressCropMap kf 120) <= 120)%nat
  /\ List.length (compressCropMap kf 120) = 120%nat
  /\ hd_error (compressCropMap kf 120) = hd_error kf
  /\ last (compressCropMap kf 120) d = last kf d
  /\ In (hd d kf) (compressCropMap kf 120)
  /\ In (last kf d) (compressCropMap kf 120).
Proof.
  intros Hlen. unfold compressCropMap.
  destruct kf as [|k0 rest]; [simpl in Hlen; lia|].
  set (n := List.length (k0 :: rest)) in *.
  destruct (Nat.leb_spec n 2) as [H2|H2]; [lia|].
  destruct (Nat.leb_spec n 120) as [H120|H120]; [lia|].
  set (mid := map _ (seq 1 (120 - 2))).
  assert (Hmid : List.length mid = 118%nat).
  { subst mid. rewrite length_map, length_seq. reflexivity. }
  assert (Hlast : nth (n - 1) (k0 :: rest) k0 = last (k0 :: rest) d).
  { subst n. apply nth_pred_length_last. congruence. }
  assert (Hout : List.length (k0 :: mid ++ [nth (n - 1) (k0 :: rest) k0])
                 = 120%nat).
  { cbn [List.length]. rewrite length_app, Hmid. reflexivity. }
  split; [rewrite Hout; lia|].
  split; [exact Hout|].
  split; [reflexivity|].
  split; [rewrite last_cons_app_single; exact Hlast|].
  split; [left; reflexivity|].
  right. apply in_or_app. right. left. exact Hlast.
Qed.

Lemma compressCropMap_over_ceiling_witness :
  (120 < List.length manyKeyframes)%nat
  /\ (List.length (compressCropMap manyKeyframes 120) <= 120)%nat
  /\ hd_error (compressCropMap manyKeyframes 120) = hd_error manyKeyframes
  /\ last (compressCropMap manyKeyframes 120) (stillKeyframe 0)
     = last manyKeyframes (stillKeyframe 0).
Proof.
  assert (H : (120 < List.length manyKeyframes)%nat) by (vm_compute; lia).
  split; [exact H|].
  pose proof (compressCropMap_over_ceiling manyKeyframes (stillKeyframe 0) H)
    as [Hle [_ [Hhd [Hlast _]]]].
  split; [exact Hle|]. split; [exact Hhd|exact Hlast].
Defined.

(* ------------------------------------------------------------------ *)
(** ** Structural facts about the post-processing chain *)

Lemma dedupeLoop_incl (minDelta : Qc) (prev : CropKF) (kf : list CropKF) :
  incl (dedupeLoop minDelta prev kf) kf.
Proof.
  revert prev. induction kf as [|k rest IH]; intros prev; cbn [dedupeLoop].
  - apply incl_refl.
  - destruct (kf_t k - kf_t prev >=? minDelta).
    + apply incl_cons; [left; reflexivity|].
      apply incl_tl, IH.
    + apply incl_tl, IH.
Qed.

Lemma dedupeByTime_incl (kf : list CropKF) (minDelta : Qc) :
  incl (dedupeByTime kf minDelta) kf.
Proof.
  destruct kf as [|k0 rest]; [apply incl_refl|]. cbn [dedupeByTime].
  apply incl_cons; [left; reflexivity|]. apply incl_tl, dedupeLoop_incl.
Qed.

Lemma filterLoop_incl (prev : CropKF) (mid : list CropKF) :
  incl (filterLoop prev mid) mid.
Proof.
  revert prev. induction mid as [|c rest IH]; intros prev; cbn [filterLoop].
  - apply incl_refl.
  - destruct (kf_t c - kf_t prev <? dec 15 100); [apply incl_tl, IH|].
    destruct ((Math_pow2 (kf_x c - kf_x prev)
               + Math_pow2 (kf_y c - kf_y prev) <? 1)
              && (Math_abs (kf_z c - kf_z prev) <? dec 5 1000)).
    + apply incl_tl, IH.
    + apply incl_cons; [left; reflexivity|]. apply incl_tl, IH.
Qed.

Lemma firstn_incl {A} (n : nat) (l : list A) : incl (firstn n l) l.
Proof.
  revert l. induction n as [|n IH]; intros l.
  - intros x [].
  - destruct l as [|a l]; [apply incl_refl|]. cbn [firstn].
    apply incl_cons; [left; reflexivity|]. apply incl_tl, IH.
Qed.

Lemma skipn_incl {A} (n : nat) (l : list A) : incl (skipn n l) l.
Proof.
  revert l. induction n as [|n IH]; intros l.
  - apply incl_refl.
  - destruct l as [|a l]; [apply incl_refl|]. cbn [skipn].
    apply incl_tl, IH.
Qed.

Lemma nth_head_default_In {A} (l : list A) (a : A) (i : nat) :
  In (nth i (a :: l) a) (a :: l).
Proof.
  destruct (Nat.lt_ge_cases i (List.length (a :: l))) as [H|H].
  - apply nth_In, H.
  - rewrite nth_overflow by exact H. left. reflexivity.
Qed.

Lemma compressCropMap_incl (kf : list CropKF) (maxKeyframes : nat) :
  incl (compressCropMap kf maxKeyframes) kf.
Proof.
  unfold compressCropMap. destruct kf as [|k0 rest]; [apply incl_refl|].
  set (kf := k0 :: rest). set (n := List.length kf).
  destruct (n <=? 2)%nat; [apply incl_refl|].
  destruct (n <=? maxKeyframes)%nat.
  - apply incl_cons; [left; reflexivity|]. apply incl_app.
    + intros k Hk. apply filterLoop_incl in Hk.
      apply firstn_incl in Hk. apply (skipn_incl 1 kf) in Hk. exact Hk.
    + intros k [<-|[]]. apply nth_head_default_In.
  - apply incl_cons; [left; reflexivity|]. apply incl_app.
    + intros k Hk. apply in_map_iff in Hk. destruct Hk as [i [<- _]].
      apply nth_head_default_In.
    + intros k [<-|[]]. apply nth_head_default_In.
Qed.

Lemma Forall_incl {A} (P : A -> Prop) (l l' : list A) :
  incl l' l -> Forall P l -> Forall P l'.
Proof.
  intros Hincl HP. apply Forall_forall. intros x Hx.
  exact (proj1 (Forall_forall P l) HP x (Hincl x Hx)).
Qed.

(* ------------------------------------------------------------------ *)
(** ** The zoom floor and the zoom solver *)

Lemma Z_MIN_le_1 (env : Env) : Z_MIN env <= 1.
Proof.
  unfold Z_MIN. apply Math_max_lub; [qc2q; lra|apply Math_min_l].
Qed.

Lemma Math_floor_ratio (h : Z) :
  Math_floor (ofZ h * ofZ 9 / ofZ 16) = ofZ (h * 9 / 16).
Proof.
  unfold Math_floor. f_equal. rewrite Zdiv_Qdiv. apply Qfloor_comp.
  qc2q. rewrite inject_Z_mult. reflexivity.
Qed.

Lemma dynamicZMin_ge_1 (env : Env) (bW bH : Qc) : 1 <= dynamicZMin env bW bH.
Proof.
  unfold dynamicZMin. eapply Qcle_trans; [|apply Math_max_l].
  apply Math_max_r.
Qed.

Lemma dynamicZMin_landscape (env : Env) (w h : Z) :
  (0 < w)%Z -> (h * 9 / 16 <= w)%Z -> dynamicZMin env (ofZ w) (ofZ h) = 1.
Proof.
  intros Hw Hland. unfold dynamicZMin. rewrite Math_floor_ratio.
  rewrite (Math_max_eq_r (ofZ (h * 9 / 16) / ofZ w) 1).
  - apply Math_max_eq_l, Z_MIN_le_1.
  - qc2q. apply Qle_shift_div_r.
    + change 0%Q with (inject_Z 0). rewrite <- Zlt_Qlt. exact Hw.
    + rewrite Qmult_1_l, <- Zle_Qle. exact Hland.
Qed.

(** With a floor of 1 the instantaneous zoom requirement is 1, whatever
    the group. *)
Lemma zoomNeed_floor_1 (g : ZoomGroup) (targetW targetH : Qc) :
  zoomNeed g targetW targetH 1 = 1.
Proof.
  unfold zoomNeed.
  set (needX := (zg_w g + ofZ 2 * zg_insetX g) / targetW).
  set (needY := (zg_h g + ofZ 2 * zg_insetY g) / targetH).
  destruct ((needX >? 1) || (needY >? 1)) eqn:E; [|reflexivity].
  assert (Hneed : 1 < Math_max needX needY).
  { apply orb_true_iff in E. unfold gtb in E. destruct E as [E|E].
    - destruct (ltb_spec 1 needX) as [H|H]; [|discriminate].
      eapply Qclt_le_trans; [exact H|apply Math_max_l].
    - destruct (ltb_spec 1 needY) as [H|H]; [|discriminate].
      eapply Qclt_le_trans; [exact H|apply Math_max_r]. }
  apply Math_max_eq_l. revert Hneed. generalize (Math_max needX needY).
  intros need Hneed. qc2q. apply Qle_shift_div_r; lra.
Qed.

Lemma solveZoomLoop_floor_1 (env : Env) (xs : list Qc)
    (groups : list ZoomGroup) (targetW targetH : Qc) (prev : option Qc) :
  (prev = None \/ prev = Some 1) ->
  Forall (eq 1) (solveZoomLoop env xs groups targetW targetH 1 prev).
Proof.
  revert groups prev. induction xs as [|x xs IH]; intros groups prev Hprev.
  - constructor.
  - destruct groups as [|g groups]; [constructor|]. cbn [solveZoomLoop].
    rewrite zoomNeed_floor_1.
    assert (Hz : match prev with
                 | Some p => Math_max 1 (p + Z_DECAY env * (1 - p))
                 | None => 1
                 end = 1).
    { destruct Hprev as [->| ->]; [reflexivity|].
      replace (1 + Z_DECAY env * (1 - 1)) with (1 : Qc) by ring.
      apply Math_max_eq_l, Qcle_refl. }
    rewrite Hz. constructor; [reflexivity|]. apply IH. right. reflexivity.
Qed.

Lemma solveZoomLoop_length (env : Env) (xs : list Qc)
    (groups : list ZoomGroup) (targetW targetH zMin : Qc) (prev : option Qc) :
  List.length xs = List.length groups ->
  List.length (solveZoomLoop env xs groups targetW targetH zMin prev)
  = List.length xs.
Proof.
  revert groups prev. induction xs as [|x xs IH]; intros groups prev Hlen.
  - reflexivity.
  - destruct groups as [|g groups]; [discriminate|]. cbn [solveZoomLoop].
    cbn [List.length]. f_equal. apply IH. injection Hlen as Hlen. exact Hlen.
Qed.

(** Every zoom sample is at least the floor, except possibly the first. *)
Lemma solveZoomLoop_ge_floor (env : Env) (xs : list Qc)
    (groups : list ZoomGroup) (targetW targetH zMin p : Qc) :
  Forall (fun z => zMin <= z)
    (solveZoomLoop env xs groups targetW targetH zMin (Some p)).
Proof.
  revert groups p. induction xs as [|x xs IH]; intros groups p.
  - constructor.
  - destruct groups as [|g groups]; [constructor|]. cbn [solveZoomLoop].
    constructor; [apply Math_max_l|apply IH].
Qed.

(* ------------------------------------------------------------------ *)
(** ** Lengths of the arrays of the optimiser *)

Lemma set_length (l : list Qc) (i : nat) (v : Qc) :
  List.length (set l i v) = List.length l.
Proof.
  revert i. induction l as [|a l IH]; intros i; [reflexivity|].
  destruct i; cbn [set List.length]; [reflexivity|]. f_equal. apply IH.
Qed.

Lemma descend_length (n : nat) (x g L U : list Qc) (lr : Qc) :
  List.length (descend n x g L U lr) = List.length x.
Proof.
  unfold descend. generalize (seq 0 n). intros idx. revert x.
  induction idx as [|i idx IH]; intros x; [reflexivity|].
  cbn [fold_left]. rewrite IH. apply set_length.
Qed.

Lemma iterate_length (k : nat) (step : list Qc -> list Qc) (x : list Qc) :
  (forall y, List.length (step y) = List.length y) ->
  List.length (iterate k step x) = List.length x.
Proof.
  intros Hstep. revert x. induction k as [|k IH]; intros x; [reflexivity|].
  cbn [iterate]. rewrite IH. apply Hstep.
Qed.

Lemma globalOptimize1D_length (t des L U w : list Qc)
    (lambdaV lambdaA iters lr : Qc) :
  List.length (globalOptimize1D t des L U w lambdaV lambdaA iters lr)
  = List.length des.
Proof.
  unfold globalOptimize1D. apply iterate_length.
  intros y. apply descend_length.
Qed.

Lemma smoothAnchors_length (env : Env) (anchors : list PersonDet)
    (st : SmoothingState) :
  List.length (smoothAnchors env anchors st) = List.length anchors.
Proof.
  revert st. induction anchors as [|a anchors IH]; intros st; [reflexivity|].
  cbn [smoothAnchors].
  destruct (applyTemporalSmoothing env _ _ st) as [smoothed st'].
  cbn [List.length]. f_equal. apply IH.
Qed.

(* ------------------------------------------------------------------ *)
(** ** A zoom of 1 survives the whole chain *)

Lemma smoothLoop_unitZoom (env : Env) (sx sy : Qc) (kf : list CropKF) :
  Forall unitZoom kf -> Forall unitZoom (smoothLoop env sx sy 1 kf).
Proof.
  revert sx sy. induction kf as [|k rest IH]; intros sx sy H; [constructor|].
  inversion H as [|? ? Hk Hrest]; subst. cbn [smoothLoop].
  unfold unitZoom in Hk. rewrite Hk.
  replace (1 + SMOOTH_ALPHA env * (1 - 1)) with (1 : Qc) by ring.
  constructor; [reflexivity|]. apply IH, Hrest.
Qed.

Lemma smoothKeyframes_unitZoom (env : Env) (kf : list CropKF) :
  Forall unitZoom kf -> Forall unitZoom (smoothKeyframes env kf).
Proof.
  intros H. unfold smoothKeyframes.
  destruct kf as [|k0 [|k1 rest]]; try exact H.
  inversion H as [|? ? Hk0 Hrest]; subst. unfold unitZoom in Hk0.
  rewrite Hk0. constructor; [reflexivity|].
  apply smoothLoop_unitZoom, Hrest.
Qed.

Lemma deadzoneLoop_unitZoom (dzx dzy : Qc) (prev : CropKF)
    (kf : list CropKF) :
  unitZoom prev -> Forall unitZoom kf ->
  Forall unitZoom (deadzoneLoop dzx dzy prev kf).
Proof.
  revert prev. induction kf as [|k rest IH]; intros prev Hp H; [constructor|].
  inversion H as [|? ? Hk Hrest]; subst. cbn [deadzoneLoop].
  unfold unitZoom in Hp, Hk. rewrite Hp, Hk.
  assert (E : (if Math_abs (1 - 1) <? dec 1 100 then 1 else 1) = (1 : Qc))
    by (destruct (Math_abs (1 - 1) <? dec 1 100); reflexivity).
  rewrite E. constructor; [reflexivity|].
  apply IH; [reflexivity|exact Hrest].
Qed.

Lemma applyDeadzone_unitZoom (kf : list CropKF) (dzx dzy : Qc) :
  Forall unitZoom kf -> Forall unitZoom (applyDeadzone kf dzx dzy).
Proof.
  intros H. unfold applyDeadzone.
  destruct kf as [|k0 [|k1 rest]]; try exact H.
  inversion H as [|? ? Hk0 Hrest]; subst.
  constructor; [exact Hk0|]. apply deadzoneLoop_unitZoom; assumption.
Qed.

Lemma panLoop_unitZoom (maxPanPerSecond : Qc) (prev : CropKF)
    (kf : list CropKF) :
  Forall unitZoom kf -> Forall unitZoom (panLoop maxPanPerSecond prev kf).
Proof.
  revert prev. induction kf as [|k rest IH]; intros prev H; [constructor|].
  inversion H as [|? ? Hk Hrest]; subst. cbn [panLoop].
  constructor; [exact Hk|]. apply IH, Hrest.
Qed.

Lemma applyPanLimits_unitZoom (kf : list CropKF) (maxPanPerSecond : Qc) :
  Forall unitZoom kf -> Forall unitZoom (applyPanLimits kf maxPanPerSecond).
Proof.
  intros H. unfold applyPanLimits.
  destruct kf as [|k0 [|k1 rest]]; try exact H.
  inversion H as [|? ? Hk0 Hrest]; subst.
  constructor; [exact Hk0|]. apply panLoop_unitZoom, Hrest.
Qed.

Lemma accelLoop_unitZoom (maxAccelPerSecond vx vy : Qc) (prev : CropKF)
    (kf : list CropKF) :
  Forall unitZoom kf ->
  Forall unitZoom (accelLoop maxAccelPerSecond vx vy prev kf).
Proof.
  revert vx vy prev.
  induction kf as [|k rest IH]; intros vx vy prev H; [constructor|].
  inversion H as [|? ? Hk Hrest]; subst. cbn [accelLoop].
  constructor; [exact Hk|]. apply IH, Hrest.
Qed.

Lemma applyAccelLimits_unitZoom (kf : list CropKF) (maxAccelPerSecond : Qc) :
  Forall unitZoom kf ->
  Forall unitZoom (applyAccelLimits kf maxAccelPerSecond).
Proof.
  intros H. unfold applyAccelLimits.
  destruct kf as [|k0 [|k1 [|k2 rest]]]; try exact H.
  inversion H as [|? ? Hk0 Hrest]; subst.
  constructor; [exact Hk0|]. apply accelLoop_unitZoom, Hrest.
Qed.

Lemma easeLoop_unitZoom (segStart segEnd easeSeconds : Qc) (prev : CropKF)
    (kf : list CropKF) :
  unitZoom prev -> Forall unitZoom kf ->
  Forall unitZoom (easeLoop segStart segEnd easeSeconds prev kf).
Proof.
  revert prev. induction kf as [|k rest IH]; intros prev Hp H; [constructor|].
  inversion H as [|? ? Hk Hrest]; subst. cbn [easeLoop].
  unfold unitZoom in Hp, Hk. rewrite Hp, Hk.
  set (influence := Math_min _ _).
  replace (1 + (1 - 1) * influence) with (1 : Qc) by ring.
  constructor; [reflexivity|]. apply IH; [reflexivity|exact Hrest].
Qed.

Lemma easeSegmentEdges_unitZoom (kf : list CropKF)
    (segStart segEnd easeSeconds : Qc) :
  Forall unitZoom kf ->
  Forall unitZoom (easeSegmentEdges kf segStart segEnd easeSeconds).
Proof.
  intros H. unfold easeSegmentEdges. destruct kf as [|k0 rest]; [exact H|].
  destruct (easeSeconds <=? 0); [exact H|].
  inversion H as [|? ? Hk0 Hrest]; subst.
  constructor; [exact Hk0|]. apply easeLoop_unitZoom; assumption.
Qed.

(** The raw keyframes carry the solver's zoom, the target width and the
    source height. *)
Lemma raw_keyframes_landscape (env : Env) (Math_hypot : Qc -> Qc -> Qc)
    (timeline : list PersonSnapshot) (turns : list SpeakerTurn)
    (w h : Z) (constraints : Constraints) :
  (0 < w)%Z -> (h * 9 / 16 <= w)%Z ->
  Forall (fun k => kf_z k = 1 /\ kf_w k = ofZ (h * 9 / 16) /\ kf_h k = ofZ h)
    (computeGlobalCropKeyframesFromTracksWithSpeechAndZoom env Math_hypot
       timeline turns (ofZ w) (ofZ h) constraints).
Proof.
  intros Hw Hland.
  unfold computeGlobalCropKeyframesFromTracksWithSpeechAndZoom.
  rewrite Math_floor_ratio, dynamicZMin_landscape by assumption.
  set (samples := collectSamples Math_hypot timeline turns (ofZ w) (ofZ h) []).
  destruct (map s_anchor samples) as [|a0 anchors] eqn:Eanchors;
    [constructor|].
  rewrite <- Eanchors. clear Eanchors a0 anchors.
  set (feas := map _ (combine samples _)).
  set (groups := map (fun f => mkZoomGroup _ _ _ _) feas).
  set (xs := globalOptimize1D _ (map f_xDes feas) _ _ _ _ _ _ _).
  set (ys := globalOptimize1D _ (map f_yDes feas) _ _ _ _ _ _ _).
  set (zs := solveZoomSeries env xs ys groups _ _ 1).
  assert (Hfeas : List.length feas = List.length samples).
  { subst feas. rewrite length_map, length_combine, smoothAnchors_length,
      length_map. apply Nat.min_id. }
  assert (Hxs : List.length xs = List.length groups).
  { subst xs groups. rewrite globalOptimize1D_length, !length_map.
    reflexivity. }
  assert (Hzs : List.length zs = List.length samples).
  { subst zs. unfold solveZoomSeries.
    rewrite solveZoomLoop_length by exact Hxs.
    rewrite Hxs. subst groups. rewrite length_map. exact Hfeas. }
  assert (Hone : Forall (eq 1) zs).
  { subst zs. apply solveZoomLoop_floor_1. left. reflexivity. }
  apply Forall_forall. intros k Hk. apply in_map_iff in Hk.
  destruct Hk as [i [<- Hi]]. apply in_seq in Hi. rewrite length_map in Hi.
  cbn [rawKeyframe kf_z kf_w kf_h]. split; [|split; reflexivity].
  symmetry. unfold get.
  apply (proj1 (Forall_nth (eq 1) zs) Hone). rewrite Hzs. lia.
Qed.

Lemma applyScaledCoords_landscape (kf : list CropKF) (w h : Z) :
  (h * 9 / 16 <= w)%Z ->
  Forall unitZoom kf ->
  Forall (fun k => kf_z k = 1 /\ kf_w k = ofZ (h * 9 / 16) /\ kf_h k = ofZ h)
    (applyScaledCoords kf (ofZ w) (ofZ h)).
Proof.
  intros Hland H. unfold applyScaledCoords. rewrite Math_floor_ratio.
  assert (Hmin : Math_min (ofZ (h * 9 / 16)) (ofZ w) = ofZ (h * 9 / 16)).
  { unfold Math_min. destruct (ltb_spec (ofZ w) (ofZ (h * 9 / 16))) as [C|C];
      [|reflexivity].
    apply ofZ_le in Hland. exfalso. revert C Hland.
    generalize (ofZ (h * 9 / 16)) (ofZ w). intros a b C Hland.
    qc2q. lra. }
  rewrite Hmin. apply Forall_forall. intros k Hk. apply in_map_iff in Hk.
  destruct Hk as [k' [<- Hk']].
  pose proof (proj1 (Forall_forall unitZoom kf) H k' Hk') as Hz.
  unfold unitZoom in Hz. unfold scaledKeyframe. cbn [kf_z kf_w kf_h].
  rewrite Hz, !Qc_div_1, !Math_round_ofZ. repeat split; reflexivity.
Qed.

(* ------------------------------------------------------------------ *)
(** ** Shape of the dynamic path's result *)

Lemma computeCropMapPerson_Some (env : Env) (Math_hypot : Qc -> Qc -> Qc)
    (snaps : outcome (list PersonSnapshot)) (input : ComputeInput)
    (constraints : Constraints) (kfs : list CropKF) :
  computeCropMapPerson env Math_hypot snaps input constraints
  = Returned (Some kfs) ->
  exists ss,
    snaps = Returned ss
    /\ kfs = compressCropMap
               (dedupeByTime
                  (scaledChain env
                     (computeGlobalCropKeyframesFromTracksWithSpeechAndZoom
                        env Math_hypot
                        (buildTracks env ss (baseW input) (baseH input))
                        (buildSpeakerTurns (transcript input)
                           (segStart input) (segEnd input))
                        (baseW input) (baseH input) constraints)
                     input constraints)
                  (dec 1 10))
               120.
Proof.
  unfold computeCropMapPerson.
  destruct snaps as [ss|e]; cbn [bind]; [|discriminate].
  intros H. exists ss. split; [reflexivity|].
  destruct ss as [|s0 ss]; [discriminate|].
  remember (buildTracks env (s0 :: ss) (baseW input) (baseH input))
    as timeline eqn:Etl.
  destruct timeline as [|t0 tl]; [discriminate|].
  remember (computeGlobalCropKeyframesFromTracksWithSpeechAndZoom env
              Math_hypot (t0 :: tl)
              (buildSpeakerTurns (transcript input) (segStart input)
                 (segEnd input))
              (baseW input) (baseH input) constraints) as raw eqn:Eraw.
  destruct raw as [|r0 raw]; [discriminate|].
  fold (scaledChain env (r0 :: raw) input constraints) in H.
  remember (scaledChain env (r0 :: raw) input constraints)
    as withScaled eqn:Esc.
  destruct withScaled as [|w0 withScaled]; [discriminate|].
  remember (dedupeByTime (w0 :: withScaled) (dec 1 10)) as deduped eqn:Ede.
  destruct deduped as [|d0 deduped]; [discriminate|].
  congruence.
Qed.

(** C10.  For a source at least as wide as the 9:16 target
    ([floor(baseH*9/16) <= baseW], landscape or wider) the zoom floor of
    the dynamic path is exactly 1, [solveZoomSeries] returns 1 for every
    sample whatever the groups are, and every keyframe of the dynamic
    path, raw or final, has zoom 1 and the constant crop size
    [targetW x baseH]: zoom-to-contain is inert. *)
Theorem landscape_zoom_is_inert (env : Env) (Math_hypot : Qc -> Qc -> Qc)
    (w h : Z) :
  (0 < w)%Z -> (h * 9 / 16 <= w)%Z ->
  dynamicZMin env (ofZ w) (ofZ h) = 1
  /\ (forall xs ys groups targetW targetH,
        Forall (eq 1)
          (solveZoomSeries env xs ys groups targetW targetH
             (dynamicZMin env (ofZ w) (ofZ h))))
  /\ (forall timeline turns constraints,
        Forall (fun k => kf_z k = 1 /\ kf_w k = ofZ (h * 9 / 16)
                         /\ kf_h k = ofZ h)
          (computeGlobalCropKeyframesFromTracksWithSpeechAndZoom env
             Math_hypot timeline turns (ofZ w) (ofZ h) constraints))
  /\ (forall snaps segStart segEnd transcript constraints kfs,
        computeCropMapPerson env Math_hypot snaps
          (mkInput (ofZ w) (ofZ h) segStart segEnd transcript) constraints
        = Returned (Some kfs) ->
        Forall (fun k => kf_z k = 1 /\ kf_w k = ofZ (h * 9 / 16)
                         /\ kf_h k = ofZ h) kfs).
Proof.
  intros Hw Hland.
  split; [apply dynamicZMin_landscape; assumption|].
  split.
  { intros xs ys groups targetW targetH.
    rewrite dynamicZMin_landscape by assumption.
    apply solveZoomLoop_floor_1. left. reflexivity. }
  split; [intros; apply raw_keyframes_landscape; assumption|].
  intros snaps segStart segEnd transcript constraints kfs H.
  apply computeCropMapPerson_Some in H. destruct H as [ss [_ ->]].
  cbn [baseW baseH].
  eapply Forall_incl; [apply compressCropMap_incl|].
  eapply Forall_incl; [apply dedupeByTime_incl|].
  unfold scaledChain. cbn [baseW baseH].
  apply applyScaledCoords_landscape; [exact Hland|].
  apply easeSegmentEdges_unitZoom, applyAccelLimits_unitZoom,
    applyPanLimits_unitZoom, applyDeadzone_unitZoom, smoothKeyframes_unitZoom.
  eapply Forall_impl; [|apply raw_keyframes_landscape; eassumption].
  intros k [Hz _]. exact Hz.
Qed.

Lemma landscape_zoom_is_inert_witness :
  (0 < 1920)%Z /\ (1080 * 9 / 16 <= 1920)%Z
  /\ dynamicZMin default_env (ofZ 1920) (ofZ 1080) = 1
  /\ forall xs ys groups targetW targetH,
       Forall (eq 1)
         (solveZoomSeries default_env xs ys groups targetW targetH
            (dynamicZMin default_env (ofZ 1920) (ofZ 1080))).
Proof.
  assert (Hw : (0 < 1920)%Z) by lia.
  assert (Hland : (1080 * 9 / 16 <= 1920)%Z) by (vm_compute; discriminate).
  split; [exact Hw|]. split; [exact Hland|].
  pose proof (landscape_zoom_is_inert default_env (fun _ _ => 0) 1920 1080
                Hw Hland) as [Hz [Hs _]].
  split; [exact Hz|exact Hs].
Defined.

(* ------------------------------------------------------------------ *)
(** ** Spacing of the keyframes in time *)

Lemma dedupeLoop_spaced (minDelta : Qc) (prev : CropKF) (kf : list CropKF) :
  spaced minDelta (prev :: dedupeLoop minDelta prev kf).
Proof.
  revert prev. induction kf as [|k rest IH]; intros prev; cbn [dedupeLoop].
  - exact I.
  - unfold geb. destruct (leb_spec minDelta (kf_t k - kf_t prev)) as [H|H].
    + split; [exact H|apply IH].
    + apply IH.
Qed.

(** Deduplication alone does space the keyframes. *)
Lemma dedupeByTime_spaced (kf : list CropKF) (minDelta : Qc) :
  spaced minDelta (dedupeByTime kf minDelta).
Proof.
  destruct kf as [|k0 rest]; [exact I|]. apply dedupeLoop_spaced.
Qed.

Lemma Qfloor_unique (x : Q) (z : Z) :
  (inject_Z z <= x)%Q -> (x < inject_Z (z + 1))%Q -> Qfloor x = z.
Proof.
  intros Hlo Hhi. apply Z.le_antisymm.
  - apply Z.lt_succ_r. rewrite Zlt_Qlt.
    eapply Qle_lt_trans; [apply Qfloor_le|exact Hhi].
  - rewrite <- (Qfloor_Z z). apply Qfloor_resp_le, Hlo.
Qed.

(** For 121 to 178 keyframes the last step of the decimation loop already
    reads the last keyframe. *)
Lemma decimateIdx_last_step (n : nat) :
  (120 < n <= 178)%nat -> decimateIdx n 120 118 = (n - 1)%nat.
Proof.
  intros Hn. unfold decimateIdx.
  change (Z.of_nat 120 - 1)%Z with 119%Z.
  assert (Hr : roundZ (ofNat 118 * (ofNat n / ofZ 119)) = (Z.of_nat n - 1)%Z).
  { unfold roundZ.
    assert (Hlo : (120 < inject_Z (Z.of_nat n))%Q).
    { change 120%Q with (inject_Z 120). rewrite <- Zlt_Qlt. lia. }
    assert (Hhi : (inject_Z (Z.of_nat n) <= 178)%Q).
    { change 178%Q with (inject_Z 178). rewrite <- Zle_Qle. lia. }
    apply Qfloor_unique.
    - unfold Z.sub. rewrite inject_Z_plus.
      change (inject_Z (- (1))) with (-1 # 1)%Q.
      qc2q. change (inject_Z (Z.of_nat 118)) with 118%Q.
      revert Hlo Hhi. generalize (inject_Z (Z.of_nat n)). intros b Hlo Hhi.
      unfold Qdiv. change (/ inject_Z 119)%Q with (1 # 119)%Q. lra.
    - replace (Z.of_nat n - 1 + 1)%Z with (Z.of_nat n) by lia.
      qc2q. change (inject_Z (Z.of_nat 118)) with 118%Q.
      revert Hlo Hhi. generalize (inject_Z (Z.of_nat n)). intros b Hlo Hhi.
      unfold Qdiv. change (/ inject_Z 119)%Q with (1 # 119)%Q. lra. }
  rewrite Hr. lia.
Qed.

(** Hence the decimated list ends with the last keyframe twice, and its
    last two times are equal. *)
Lemma compressCropMap_repeats_last (kf : list CropKF) (d : CropKF) :
  (120 < List.length kf <= 178)%nat ->
  exists front,
    compressCropMap kf 120 = front ++ [last kf d; last kf d].
Proof.
  intros Hlen. unfold compressCropMap.
  destruct kf as [|k0 rest]; [simpl in Hlen; lia|].
  set (kf := k0 :: rest) in *. set (n := List.length kf) in *.
  destruct (Nat.leb_spec n 2) as [H2|H2]; [lia|].
  destruct (Nat.leb_spec n 120) as [H120|H120]; [lia|].
  assert (Hlast : nth (n - 1) kf k0 = last kf d).
  { subst n. apply nth_pred_length_last. subst kf. congruence. }
  change (120 - 2)%nat with (117 + 1)%nat.
  rewrite seq_app, map_app.
  change (seq (1 + 117) 1) with [118%nat]. cbn [map].
  rewrite decimateIdx_last_step by lia. rewrite Hlast.
  eexists (k0 :: map _ (seq 1 117)).
  cbn [app]. f_equal. rewrite <- app_assoc. reflexivity.
Qed.

(** C4.  The returned keyframes are not always strictly increasing in
    time.  A person standing still for a 21 s segment of a 1920x1080
    source, sampled at 12 fps, leaves 124 keyframes after deduplication;
    [computeCropMapPerson] returns 120 keyframes of which the last two
    carry the same time, so their spacing is 0, below the minimum delta
    of 0.1 s. *)
Theorem long_segment_repeats_last_time (Math_hypot : Qc -> Qc -> Qc) :
  exists kfs a b,
    computeCropMapPerson default_env Math_hypot
      (sampled longFrames longInput) longInput testConstraints
    = Returned (Some kfs)
    /\ List.length kfs = 120%nat
    /\ nth_error kfs 118 = Some a
    /\ nth_error kfs 119 = Some b
    /\ kf_t a = kf_t b
    /\ ~ kf_t a < kf_t b
    /\ kf_t b - kf_t a < dec 1 10.
Proof.
  eexists. eexists. eexists.
  split; [vm_compute; reflexivity|].
  split; [reflexivity|].
  split; [reflexivity|].
  split; [reflexivity|].
  split; [apply Qc_is_canon; reflexivity|].
  split; [intros H; vm_compute in H; discriminate H|].
  vm_compute. reflexivity.
Qed.

(* ------------------------------------------------------------------ *)
(** ** The crop rectangles stay inside the source *)

Lemma SMOOTH_ALPHA_range (env : Env) :
  0 <= SMOOTH_ALPHA env /\ SMOOTH_ALPHA env <= 1.
Proof.
  unfold SMOOTH_ALPHA. split.
  - eapply Qcle_trans; [|apply Math_max_l]. qc2q'. lra.
  - apply Math_max_lub; [qc2q'; lra|apply Math_min_l].
Qed.

(** A blend of two zooms that are at least 1 is at least 1. *)
Lemma blend_ge_1 (p z a : Qc) :
  1 <= p -> 1 <= z -> 0 <= a -> a <= 1 -> 1 <= p + a * (z - p).
Proof. intros Hp Hz Ha0 Ha1. qc2q. nra. Qed.

Lemma blend_ge_1' (p z a : Qc) :
  1 <= p -> 1 <= z -> 0 <= a -> a <= 1 -> 1 <= p + (z - p) * a.
Proof. intros Hp Hz Ha0 Ha1. qc2q. nra. Qed.

Lemma zoomNeed_ge_1 (g : ZoomGroup) (targetW targetH zMin : Qc) :
  1 <= zMin -> 1 <= zoomNeed g targetW targetH zMin.
Proof.
  intros H. unfold zoomNeed.
  destruct ((_ >? 1) || (_ >? 1)); [|apply Qcle_refl].
  eapply Qcle_trans; [exact H|apply Math_max_l].
Qed.

Lemma solveZoomLoop_ge_1 (env : Env) (xs : list Qc)
    (groups : list ZoomGroup) (targetW targetH zMin : Qc) (prev : option Qc) :
  1 <= zMin ->
  Forall (fun z => 1 <= z)
    (solveZoomLoop env xs groups targetW targetH zMin prev).
Proof.
  intros H. revert groups prev.
  induction xs as [|x xs IH]; intros groups prev; [constructor|].
  destruct groups as [|g groups]; [constructor|]. cbn [solveZoomLoop].
  constructor; [|apply IH].
  destruct prev as [p|]; [|apply zoomNeed_ge_1, H].
  eapply Qcle_trans; [exact H|apply Math_max_l].
Qed.

Lemma raw_keyframes_zoom (env : Env) (Math_hypot : Qc -> Qc -> Qc)
    (timeline : list PersonSnapshot) (turns : list SpeakerTurn)
    (bW bH : Qc) (constraints : Constraints) :
  Forall zoomAtLeast1
    (computeGlobalCropKeyframesFromTracksWithSpeechAndZoom env Math_hypot
       timeline turns bW bH constraints).
Proof.
  unfold computeGlobalCropKeyframesFromTracksWithSpeechAndZoom.
  set (targetW := Math_floor (bH * ofZ 9 / ofZ 16)).
  set (samples := collectSamples Math_hypot timeline turns bW bH []).
  destruct (map s_anchor samples) as [|a0 anchors] eqn:Eanchors;
    [constructor|].
  rewrite <- Eanchors. clear Eanchors a0 anchors.
  set (feas := map _ (combine samples _)).
  set (groups := map (fun f => mkZoomGroup _ _ _ _) feas).
  set (xs := globalOptimize1D _ (map f_xDes feas) _ _ _ _ _ _ _).
  set (ys := globalOptimize1D _ (map f_yDes feas) _ _ _ _ _ _ _).
  set (zs := solveZoomSeries env xs ys groups _ _ _).
  assert (Hfeas : List.length feas = List.length samples).
  { subst feas. rewrite length_map, length_combine, smoothAnchors_length,
      length_map. apply Nat.min_id. }
  assert (Hxs : List.length xs = List.length groups).
  { subst xs groups. rewrite globalOptimize1D_length, !length_map.
    reflexivity. }
  assert (Hzs : List.length zs = List.length samples).
  { subst zs. unfold solveZoomSeries.
    rewrite solveZoomLoop_length by exact Hxs.
    rewrite Hxs. subst groups. rewrite length_map. exact Hfeas. }
  assert (Hone : Forall (fun z => 1 <= z) zs).
  { subst zs. apply solveZoomLoop_ge_1, dynamicZMin_ge_1. }
  apply Forall_forall. intros k Hk. apply in_map_iff in Hk.
  destruct Hk as [i [<- Hi]]. apply in_seq in Hi. rewrite length_map in Hi.
  unfold zoomAtLeast1. cbn [rawKeyframe kf_z]. unfold get.
  apply (proj1 (Forall_nth (fun z => 1 <= z) zs) Hone). rewrite Hzs. lia.
Qed.

Lemma smoothLoop_zoom (env : Env) (sx sy sz : Qc) (kf : list CropKF) :
  1 <= sz -> Forall zoomAtLeast1 kf ->
  Forall zoomAtLeast1 (smoothLoop env sx sy sz kf).
Proof.
  revert sx sy sz.
  induction kf as [|k rest IH]; intros sx sy sz Hsz H; [constructor|].
  inversion H as [|? ? Hk Hrest]; subst. cbn [smoothLoop].
  destruct (SMOOTH_ALPHA_range env) as [Ha0 Ha1].
  assert (Hz : 1 <= sz + SMOOTH_ALPHA env * (kf_z k - sz))
    by (apply blend_ge_1; assumption).
  constructor; [exact Hz|]. apply IH; assumption.
Qed.

Lemma smoothKeyframes_zoom (env : Env) (kf : list CropKF) :
  Forall zoomAtLeast1 kf -> Forall zoomAtLeast1 (smoothKeyframes env kf).
Proof.
  intros H. unfold smoothKeyframes.
  destruct kf as [|k0 [|k1 rest]]; try exact H.
  inversion H as [|? ? Hk0 Hrest]; subst.
  constructor; [exact Hk0|]. apply smoothLoop_zoom; assumption.
Qed.

Lemma deadzoneLoop_zoom (dzx dzy : Qc) (prev : CropKF) (kf : list CropKF) :
  zoomAtLeast1 prev -> Forall zoomAtLeast1 kf ->
  Forall zoomAtLeast1 (deadzoneLoop dzx dzy prev kf).
Proof.
  revert prev. induction kf as [|k rest IH]; intros prev Hp H; [constructor|].
  inversion H as [|? ? Hk Hrest]; subst. cbn [deadzoneLoop].
  assert (Hz : 1 <= (if Math_abs (kf_z k - kf_z prev) <? dec 1 100
                     then kf_z prev else kf_z k))
    by (destruct (Math_abs (kf_z k - kf_z prev) <? dec 1 100); assumption).
  constructor; [exact Hz|]. apply IH; [exact Hz|exact Hrest].
Qed.

Lemma applyDeadzone_zoom (kf : list CropKF) (dzx dzy : Qc) :
  Forall zoomAtLeast1 kf -> Forall zoomAtLeast1 (applyDeadzone kf dzx dzy).
Proof.
  intros H. unfold applyDeadzone.
  destruct kf as [|k0 [|k1 rest]]; try exact H.
  inversion H as [|? ? Hk0 Hrest]; subst.
  constructor; [exact Hk0|]. apply deadzoneLoop_zoom; assumption.
Qed.

Lemma panLoop_zoom (maxPanPerSecond : Qc) (prev : CropKF) (kf : list CropKF) :
  Forall zoomAtLeast1 kf ->
  Forall zoomAtLeast1 (panLoop maxPanPerSecond prev kf).
Proof.
  revert prev. induction kf as [|k rest IH]; intros prev H; [constructor|].
  inversion H as [|? ? Hk Hrest]; subst. cbn [panLoop].
  constructor; [exact Hk|]. apply IH, Hrest.
Qed.

Lemma applyPanLimits_zoom (kf : list CropKF) (maxPanPerSecond : Qc) :
  Forall zoomAtLeast1 kf ->
  Forall zoomAtLeast1 (applyPanLimits kf maxPanPerSecond).
Proof.
  intros H. unfold applyPanLimits.
  destruct kf as [|k0 [|k1 rest]]; try exact H.
  inversion H as [|? ? Hk0 Hrest]; subst.
  constructor; [exact Hk0|]. apply panLoop_zoom, Hrest.
Qed.

Lemma accelLoop_zoom (maxAccelPerSecond vx vy : Qc) (prev : CropKF)
    (kf : list CropKF) :
  Forall zoomAtLeast1 kf ->
  Forall zoomAtLeast1 (accelLoop maxAccelPerSecond vx vy prev kf).
Proof.
  revert vx vy prev.
  induction kf as [|k rest IH]; intros vx vy prev H; [constructor|].
  inversion H as [|? ? Hk Hrest]; subst. cbn [accelLoop].
  constructor; [exact Hk|]. apply IH, Hrest.
Qed.

Lemma applyAccelLimits_zoom (kf : list CropKF) (maxAccelPerSecond : Qc) :
  Forall zoomAtLeast1 kf ->
  Forall zoomAtLeast1 (applyAccelLimits kf maxAccelPerSecond).
Proof.
  intros H. unfold applyAccelLimits.
  destruct kf as [|k0 [|k1 [|k2 rest]]]; try exact H.
  inversion H as [|? ? Hk0 Hrest]; subst.
  constructor; [exact Hk0|]. apply accelLoop_zoom, Hrest.
Qed.

Lemma influence_range (a b : Qc) :
  0 <= Math_min (Math_min 1 (Math_max 0 a)) (Math_min 1 (Math_max 0 b))
  /\ Math_min (Math_min 1 (Math_max 0 a)) (Math_min 1 (Math_max 0 b)) <= 1.
Proof.
  split.
  - apply Math_min_glb; apply Math_min_glb;
      try apply Math_max_l; qc2q; lra.
  - eapply Qcle_trans; [apply Math_min_l|apply Math_min_l].
Qed.

Lemma easeLoop_zoom (segStart segEnd easeSeconds : Qc) (prev : CropKF)
    (kf : list CropKF) :
  zoomAtLeast1 prev -> Forall zoomAtLeast1 kf ->
  Forall zoomAtLeast1 (easeLoop segStart segEnd easeSeconds prev kf).
Proof.
  revert prev. induction kf as [|k rest IH]; intros prev Hp H; [constructor|].
  inversion H as [|? ? Hk Hrest]; subst. cbn [easeLoop].
  destruct (influence_range ((kf_t k - segStart) / easeSeconds)
              ((segEnd - kf_t k) / easeSeconds)) as [H0 H1].
  assert (Hz : 1 <= kf_z prev
                    + (kf_z k - kf_z prev)
                      * Math_min
                          (Math_min 1
                             (Math_max 0 ((kf_t k - segStart) / easeSeconds)))
                          (Math_min 1
                             (Math_max 0 ((segEnd - kf_t k) / easeSeconds))))
    by (apply blend_ge_1'; assumption).
  constructor; [exact Hz|]. apply IH; [exact Hz|exact Hrest].
Qed.

Lemma easeSegmentEdges_zoom (kf : list CropKF)
    (segStart segEnd easeSeconds : Qc) :
  Forall zoomAtLeast1 kf ->
  Forall zoomAtLeast1 (easeSegmentEdges kf segStart segEnd easeSeconds).
Proof.
  intros H. unfold easeSegmentEdges. destruct kf as [|k0 rest]; [exact H|].
  destruct (easeSeconds <=? 0); [exact H|].
  inversion H as [|? ? Hk0 Hrest]; subst.
  constructor; [exact Hk0|]. apply easeLoop_zoom; assumption.
Qed.

(** A crop side [round(side / z)] with [z >= 1] fits in an integer
    extent that bounds [side >= 0]. *)
Lemma scaled_side_fits (side z : Qc) (extent : Z) :
  0 <= side -> side <= ofZ extent -> 1 <= z ->
  Math_round (side / z) <= ofZ extent.
Proof.
  intros H0 Hle Hz. rewrite <- (Math_round_ofZ extent).
  apply Math_round_mono. eapply Qcle_trans; [|exact Hle].
  qc2q. apply Qle_shift_div_r; [lra|]. nra.
Qed.

Lemma scaledKeyframe_inFrame (targetW : Qc) (w h : Z) (k : CropKF) :
  0 <= targetW -> targetW <= ofZ w -> (0 <= h)%Z -> zoomAtLeast1 k ->
  inFrame (ofZ w) (ofZ h) (scaledKeyframe targetW (ofZ w) (ofZ h) k)
  /\ zoomAtLeast1 (scaledKeyframe targetW (ofZ w) (ofZ h) k).
Proof.
  intros Ht0 Htw Hh Hz. unfold zoomAtLeast1 in Hz.
  pose proof (scaled_side_fits targetW (kf_z k) w Ht0 Htw Hz) as HW.
  assert (Hh0 : 0 <= ofZ h) by (apply (ofZ_le 0 h), Hh).
  pose proof (scaled_side_fits (ofZ h) (kf_z k) h Hh0 (Qcle_refl _) Hz) as HH.
  unfold scaledKeyframe, inFrame, zoomAtLeast1. cbn [kf_x kf_y kf_w kf_h kf_z].
  revert HW HH.
  generalize (Math_round (targetW / kf_z k)) (Math_round (ofZ h / kf_z k)).
  intros cw ch HW HH.
  assert (HmaxX : Math_max 0 (ofZ w - cw) = ofZ w - cw).
  { apply Math_max_eq_r. qc2q. lra. }
  assert (HmaxY : Math_max 0 (ofZ h - ch) = ofZ h - ch).
  { apply Math_max_eq_r. qc2q. lra. }
  rewrite HmaxX, HmaxY.
  destruct (clamp_bounds (kf_x k) 0 (ofZ w - cw)) as [Hx0 Hx1];
    [qc2q; lra|].
  destruct (clamp_bounds (kf_y k) 0 (ofZ h - ch)) as [Hy0 Hy1];
    [qc2q; lra|].
  revert Hx0 Hx1 Hy0 Hy1.
  generalize (clamp (kf_x k) 0 (ofZ w - cw)) (clamp (kf_y k) 0 (ofZ h - ch)).
  intros x y Hx0 Hx1 Hy0 Hy1.
  split; [|exact Hz]. repeat split; qc2q; lra.
Qed.

(** Every keyframe that the dynamic path returns lies inside the source
    and has a zoom of at least 1, for every source of integer size. *)
Lemma dynamic_keyframes_inFrame (env : Env) (Math_hypot : Qc -> Qc -> Qc)
    (snaps : outcome (list PersonSnapshot)) (w h : Z)
    (segStart segEnd : Qc) (transcript : list TranscriptWord)
    (constraints : Constraints) (kfs : list CropKF) :
  (0 <= w)%Z -> (0 <= h)%Z ->
  computeCropMapPerson env Math_hypot snaps
    (mkInput (ofZ w) (ofZ h) segStart segEnd transcript) constraints
  = Returned (Some kfs) ->
  Forall (fun k => inFrame (ofZ w) (ofZ h) k /\ zoomAtLeast1 k) kfs.
Proof.
  intros Hw Hh H. apply computeCropMapPerson_Some in H.
  destruct H as [ss [_ ->]]. cbn [baseW baseH].
  eapply Forall_incl; [apply compressCropMap_incl|].
  eapply Forall_incl; [apply dedupeByTime_incl|].
  unfold scaledChain, applyScaledCoords. cbn [baseW baseH].
  rewrite Math_floor_ratio.
  set (eased := easeSegmentEdges _ _ _ _).
  assert (Hz : Forall zoomAtLeast1 eased).
  { subst eased.
    apply easeSegmentEdges_zoom, applyAccelLimits_zoom, applyPanLimits_zoom,
      applyDeadzone_zoom, smoothKeyframes_zoom, raw_keyframes_zoom. }
  assert (Ht0 : 0 <= Math_min (ofZ (h * 9 / 16)) (ofZ w)).
  { apply Math_min_glb; [|apply (ofZ_le 0 w), Hw].
    apply (ofZ_le 0 (h * 9 / 16)). apply Z.div_pos; lia. }
  apply Forall_forall. intros k Hk. apply in_map_iff in Hk.
  destruct Hk as [k' [<- Hk']].
  apply scaledKeyframe_inFrame;
    [exact Ht0|apply Math_min_r|exact Hh|].
  exact (proj1 (Forall_forall zoomAtLeast1 eased) Hz k' Hk').
Qed.

(* ------------------------------------------------------------------ *)
(** ** The zoom floor on sources narrower than the target *)

(** C1.  The crop rectangles of the keyframes lie inside the source on
    every path ([dynamic_keyframes_inFrame], [static_segment_keyframe],
    [global_keyframe_inFrame]), but the zoom of a returned keyframe can
    lie below the zoom floor.  On a 1080x2400 portrait source
    [floor(2400*9/16) = 1350] exceeds the width, the floor is
    [1350/1080 = 1.25], and for a person standing still the first sample
    of [solveZoomSeries] is 1: the first returned keyframe has zoom 1.
    The expression builder then rejects the sequence. *)
Theorem portrait_zoom_below_floor (Math_hypot : Qc -> Qc -> Qc) :
  exists k rest,
    computeCropMapPerson default_env Math_hypot
      (sampled portraitFrames portraitInput) portraitInput testConstraints
    = Returned (Some (k :: rest))
    /\ kf_z k = 1
    /\ dynamicZMin default_env (baseW portraitInput) (baseH portraitInput)
       = dec 5 4
    /\ kf_z k
       < dynamicZMin default_env (baseW portraitInput) (baseH portraitInput)
    /\ (0 <= kf_x k /\ 0 <= kf_y k
        /\ kf_x k + kf_w k <= baseW portraitInput
        /\ kf_y k + kf_h k <= baseH portraitInput)
    /\ exists msg,
         Expr.buildFFmpegFilter 1080 2400 (k :: rest) = Thrown msg.
Proof.
  eexists. eexists.
  split; [vm_compute; reflexivity|].
  split; [apply Qc_is_canon; reflexivity|].
  split; [apply Qc_is_canon; reflexivity|].
  split; [vm_compute; reflexivity|].
  split; [repeat split; vm_compute; discriminate|].
  eexists. vm_compute. reflexivity.
Qed.

(* ------------------------------------------------------------------ *)
(** ** Segments without detections *)

Lemma associateAndUpdate_nil (env : Env) (t bW bH : Qc) (nextId : Z) :
  associateAndUpdate env [] [] t bW bH nextId = [].
Proof. reflexivity. Qed.

Lemma buildTracks_loop_no_detections (env : Env)
    (snaps : list PersonSnapshot) (bW bH : Qc) (nextId : Z) :
  Forall (fun s => snap_dets s = []) snaps ->
  Forall (fun s => snap_dets s = [])
    (buildTracks_loop env snaps bW bH [] nextId).
Proof.
  revert nextId. induction snaps as [|s snaps IH]; intros nextId H;
    [constructor|].
  inversion H as [|? ? Hs Hrest]; subst. cbn [buildTracks_loop].
  rewrite Hs, associateAndUpdate_nil. cbn [filter map].
  constructor; [reflexivity|]. apply IH, Hrest.
Qed.

(** Without detections the tracker never confirms a track. *)
Lemma buildTracks_no_detections (env : Env) (snaps : list PersonSnapshot)
    (bW bH : Qc) :
  Forall (fun s => snap_dets s = []) snaps ->
  Forall (fun s => snap_dets s = []) (buildTracks env snaps bW bH).
Proof. apply buildTracks_loop_no_detections. Qed.

Lemma collectSamples_no_detections (Math_hypot : Qc -> Qc -> Qc)
    (timeline : list PersonSnapshot) (turns : list SpeakerTurn)
    (bW bH : Qc) (m : SpeakerMap) :
  Forall (fun s => snap_dets s = []) timeline ->
  collectSamples Math_hypot timeline turns bW bH m = [].
Proof.
  induction timeline as [|s timeline IH]; intros H; [reflexivity|].
  inversion H as [|? ? Hs Hrest]; subst. cbn [collectSamples].
  rewrite Hs. apply IH, Hrest.
Qed.

(** When the detector finds nothing in any frame, sampling returns
    snapshots without detections. *)
Lemma sampleLoop_no_detections (env : Env)
    (frames : list (outcome (list PersonDet))) (i : nat)
    (segStart frameInterval bW bH : Qc) (frameIdx : nat) (nextTrackId : Z) :
  Forall (fun f => f = Returned []) frames ->
  exists snaps,
    sampleLoop env frames i segStart frameInterval bW bH frameIdx []
      nextTrackId = Returned snaps
    /\ Forall (fun s => snap_dets s = []) snaps.
Proof.
  revert i frameIdx nextTrackId.
  induction frames as [|f frames IH]; intros i frameIdx nextTrackId H.
  - exists []. split; [reflexivity|constructor].
  - inversion H as [|? ? Hf Hrest]; subst. cbn [sampleLoop List.length].
    rewrite Nat.eqb_refl, orb_true_r. cbn [bind filter].
    rewrite associateAndUpdate_nil. cbn [filter map].
    destruct (IH (S i) (S frameIdx) (bumpNextId [] nextTrackId) Hrest)
      as [snaps [E Hsnaps]].
    rewrite E. cbn [bind]. eexists. split; [reflexivity|].
    constructor; [reflexivity|exact Hsnaps].
Qed.

Lemma firstn_Forall {A} (P : A -> Prop) (n : nat) (l : list A) :
  Forall P l -> Forall P (firstn n l).
Proof. apply Forall_incl, firstn_incl. Qed.

Lemma detectPersonsTimeline_no_detections (env : Env)
    (frames : list (outcome (list PersonDet))) (segStart segEnd bW bH : Qc) :
  Forall (fun f => f = Returned []) frames ->
  exists snaps,
    detectPersonsTimeline env (Returned tt) (Returned frames)
      segStart segEnd bW bH = Returned snaps
    /\ Forall (fun s => snap_dets s = []) snaps.
Proof.
  intros H. unfold detectPersonsTimeline.
  destruct (eqb (Math_max 0 (segEnd - segStart)) 0).
  - exists []. split; [reflexivity|constructor].
  - cbn [bind].
    destruct (sampleLoop_no_detections env
                (firstn (Z.to_nat (Qceiling (Math_max 0 (segEnd - segStart)
                                             * DEFAULT_SAMPLE_FPS env)))
                   frames)
                0 segStart (1 / DEFAULT_SAMPLE_FPS env) bW bH 0 1%Z
                (firstn_Forall _ _ _ H)) as [snaps [E Hsnaps]].
    exists snaps. split; [|exact Hsnaps].
    unfold try_catch. rewrite E. reflexivity.
Qed.

(** [computeCropMap] never raises, whatever the two sampling passes do. *)
Lemma computeCropMap_total (env : Env) (Math_hypot : Qc -> Qc -> Qc)
    (dynSnaps staticSnaps : outcome (list PersonSnapshot))
    (input : ComputeInput) (constraints : Constraints) :
  exists r,
    computeCropMap env Math_hypot dynSnaps staticSnaps input constraints
    = Returned r.
Proof.
  unfold computeCropMap.
  destruct (computeCropMapPerson env Math_hypot dynSnaps input constraints)
    as [dyn|e]; cbn [bind try_catch].
  - destruct (nonEmpty dyn) as [kf|]; [eexists; reflexivity|].
    destruct (computeCropMapPersonStatic Math_hypot staticSnaps input
                constraints None) as [st|e]; cbn [bind try_catch].
    + destruct (nonEmpty st); eexists; reflexivity.
    + eexists; reflexivity.
  - destruct (computeCropMapPersonStatic Math_hypot staticSnaps input
                constraints None) as [st|e']; cbn [bind try_catch].
    + destruct (nonEmpty st); eexists; reflexivity.
    + eexists; reflexivity.
Qed.

(** C7.  When no anchor can be chosen in any frame of the segment (the
    tracked timeline carries no detection, as it does when no sampled
    frame yields one), the dynamic computation returns null instead of
    raising, and [computeCropMap] returns what the static path yields or
    null, without raising; an exception of either path is swallowed. *)
Theorem no_anchor_no_crop (env : Env) (Math_hypot : Qc -> Qc -> Qc)
    (snaps : list PersonSnapshot) (input : ComputeInput)
    (constraints : Constraints) :
  Forall (fun s => snap_dets s = [])
    (buildTracks env snaps (baseW input) (baseH input)) ->
  computeCropMapPerson env Math_hypot (Returned snaps) input constraints
  = Returned None
  /\ (forall staticSnaps,
        computeCropMap env Math_hypot (Returned snaps) staticSnaps input
          constraints
        = Returned
            match computeCropMapPersonStatic Math_hypot staticSnaps input
                    constraints None with
            | Returned r => nonEmpty r
            | Thrown _ => None
            end)
  /\ (forall dynSnaps staticSnaps, exists r,
        computeCropMap env Math_hypot dynSnaps staticSnaps input constraints
        = Returned r).
Proof.
  intros H.
  assert (Hdyn : computeCropMapPerson env Math_hypot (Returned snaps) input
                   constraints = Returned None).
  { unfold computeCropMapPerson. cbn [bind].
    destruct snaps as [|s0 snaps]; [reflexivity|].
    destruct (buildTracks env (s0 :: snaps) (baseW input) (baseH input))
      as [|t0 timeline] eqn:E; [reflexivity|].
    unfold computeGlobalCropKeyframesFromTracksWithSpeechAndZoom.
    rewrite collectSamples_no_detections by exact H. reflexivity. }
  split; [exact Hdyn|]. split.
  - intros staticSnaps. unfold computeCropMap. rewrite Hdyn.
    cbn [bind try_catch nonEmpty].
    destruct (computeCropMapPersonStatic Math_hypot staticSnaps input
                constraints None) as [st|e]; cbn [bind try_catch].
    + destruct (nonEmpty st); reflexivity.
    + reflexivity.
  - intros. apply computeCropMap_total.
Qed.

Lemma no_anchor_no_crop_witness :
  Forall (fun s => snap_dets s = [])
    (buildTracks default_env emptySnaps (baseW portraitInput)
       (baseH portraitInput))
  /\ computeCropMapPerson default_env (fun _ _ => 0) (Returned emptySnaps)
       portraitInput testConstraints = Returned None.
Proof.
  assert (H : Forall (fun s => snap_dets s = [])
                (buildTracks default_env emptySnaps (baseW portraitInput)
                   (baseH portraitInput)))
    by (vm_compute; repeat constructor).
  split; [exact H|].
  exact (proj1 (no_anchor_no_crop default_env (fun _ _ => 0) emptySnaps
                  portraitInput testConstraints H)).
Defined.

(* ------------------------------------------------------------------ *)
(** ** Static global crop: sampling and the detection threshold *)

Lemma sampleWindows_pool
    (detectFacesTimeline : nat -> Qc -> Qc -> outcome (list FrameDetections))
    (videoDurationSec : Qc) (p : Sampling) (todo i : nat)
    (allDetections : list FaceDetection) :
  sampleWindows detectFacesTimeline videoDurationSec p todo i allDetections
  = allDetections
      ++ flat_map (windowDetections detectFacesTimeline videoDurationSec p)
           (seq i todo).
Proof.
  revert i allDetections.
  induction todo as [|todo IH]; intros i allDetections.
  - cbn [sampleWindows seq flat_map]. rewrite app_nil_r. reflexivity.
  - cbn [sampleWindows seq flat_map].
    set (rest := flat_map _ (seq (S i) todo)).
    unfold windowDetections.
    destruct (sampleWindow videoDurationSec p i) as [sampleStart duration].
    cbn [fst snd]. rewrite IH. fold rest.
    destruct (detectFacesTimeline i sampleStart duration) as [frames|e].
    + rewrite <- app_assoc. reflexivity.
    + reflexivity.
Qed.

(** A window whose sampling raises contributes nothing and leaves the
    detections of the other windows in the pool. *)
Lemma failed_window_keeps_others
    (detectFacesTimeline : nat -> Qc -> Qc -> outcome (list FrameDetections))
    (videoDurationSec : Qc) (p : Sampling) (before after : nat) (msg : string) :
  detectFacesTimeline before
    (fst (sampleWindow videoDurationSec p before))
    (snd (sampleWindow videoDurationSec p before)) = Thrown msg ->
  sampleWindows detectFacesTimeline videoDurationSec p (before + S after) 0 []
  = flat_map (windowDetections detectFacesTimeline videoDurationSec p)
      (seq 0 before)
    ++ flat_map (windowDetections detectFacesTimeline videoDurationSec p)
         (seq (S before) after).
Proof.
  intros Hfail. rewrite sampleWindows_pool. cbn [app].
  rewrite seq_app, flat_map_app. cbn [seq flat_map Nat.add].
  set (others := flat_map _ (seq (S before) after)).
  set (first := flat_map _ (seq 0 before)).
  unfold windowDetections. rewrite Hfail. reflexivity.
Qed.

(** The result of [computeGlobalStaticCrop] in terms of the pool. *)
Lemma computeGlobalStaticCrop_result
    (detectFacesTimeline : nat -> Qc -> Qc -> outcome (list FrameDetections))
    (videoDurationSec bW bH : Qc) (skipUntilSec : option Qc) :
  computeGlobalStaticCrop (Returned tt) detectFacesTimeline
    videoDurationSec bW bH skipUntilSec
  = Returned
      (if (List.length (aggregatedPool detectFacesTimeline videoDurationSec
                          skipUntilSec) <? 50)%nat
       then None
       else Some (globalCropOf bW bH
                    (aggregatedPool detectFacesTimeline videoDurationSec
                       skipUntilSec))).
Proof.
  unfold computeGlobalStaticCrop, aggregatedPool, globalCropOf,
    minDetectionsRequired.
  cbn [bind].
  generalize (planSampling videoDurationSec skipUntilSec). intros p.
  rewrite sampleWindows_pool. cbn [app].
  generalize (flat_map
                (windowDetections detectFacesTimeline videoDurationSec p)
                (seq 0 (numSamples p))).
  intros pool. destruct (List.length pool <? 50)%nat; reflexivity.
Qed.

(** C8.  [computeGlobalStaticCrop] aggregates the detections of every
    window that could be sampled, a window whose sampling raises being
    skipped without aborting; it returns null exactly when that pool
    holds fewer than 50 detections and the crop rectangle computed from
    the pool otherwise.  It does not raise once the detector is
    initialised. *)
Theorem global_crop_null_iff_small_pool
    (detectFacesTimeline : nat -> Qc -> Qc -> outcome (list FrameDetections))
    (videoDurationSec bW bH : Qc) (skipUntilSec : option Qc) :
  exists r,
    computeGlobalStaticCrop (Returned tt) detectFacesTimeline
      videoDurationSec bW bH skipUntilSec = Returned r
    /\ (r = None
        <-> (List.length (aggregatedPool detectFacesTimeline
                            videoDurationSec skipUntilSec) < 50)%nat)
    /\ ((50 <= List.length (aggregatedPool detectFacesTimeline
                              videoDurationSec skipUntilSec))%nat ->
        r = Some (globalCropOf bW bH
                    (aggregatedPool detectFacesTimeline videoDurationSec
                       skipUntilSec))).
Proof.
  rewrite computeGlobalStaticCrop_result.
  generalize (aggregatedPool detectFacesTimeline videoDurationSec
                skipUntilSec).
  intros pool.
  destruct (Nat.ltb_spec (List.length pool) 50) as [Hlt|Hge].
  - exists None. split; [reflexivity|]. split.
    + split; [intros _; exact Hlt|reflexivity].
    + intros Hge. lia.
  - eexists. split; [reflexivity|]. split.
    + split; [discriminate|intros Hlt; lia].
    + intros _. reflexivity.
Qed.

(* ------------------------------------------------------------------ *)
(** ** The static crop stays inside the frame *)

Lemma ltb_irrefl (a : Qc) : (a <? a) = false.
Proof.
  destruct (ltb_spec a a) as [H|H]; [|reflexivity].
  exfalso. qc2q. lra.
Qed.

Lemma Math_floor_le (a : Qc) : Math_floor a <= a.
Proof.
  unfold Math_floor. pose proof (Qfloor_le (this a)) as H.
  revert H. generalize (Qfloor (this a)). intros z H. qc2q. exact H.
Qed.

(** The crop of [calculateCrop] lies inside the frame, is as tall as the
    frame and starts at its top, whatever the detections. *)
Lemma calculateCrop_in_frame (vW vH : Qc) (detections : list FaceDetection) :
  0 <= cropX (calculateCrop vW vH detections)
  /\ cropX (calculateCrop vW vH detections)
     + cropWidth (calculateCrop vW vH detections) <= vW
  /\ cropWidth (calculateCrop vW vH detections)
     = (if Math_round (vH * ofZ 9 / ofZ 16) >? vW then vW
        else Math_round (vH * ofZ 9 / ofZ 16))
  /\ cropY (calculateCrop vW vH detections) = 0
  /\ cropHeight (calculateCrop vW vH detections) = vH.
Proof.
  unfold calculateCrop.
  set (mcw0 := Math_round (vH * ofZ 9 / ofZ 16)).
  set (mcw := if mcw0 >? vW then vW else mcw0).
  assert (Hmcw : mcw <= vW).
  { subst mcw. unfold gtb.
    destruct (ltb_spec vW mcw0); [apply Qcle_refl|assumption]. }
  clearbody mcw. clear mcw0.
  destruct detections as [|d0 rest]; cbn [cropX cropY cropWidth cropHeight].
  - split; [apply Math_max_l|].
    split; [|split; [reflexivity|split; reflexivity]].
    pose proof (Math_floor_le ((vW - mcw) / ofZ 2)) as Hf.
    unfold Math_max.
    destruct (ltb_spec 0 (Math_floor ((vW - mcw) / ofZ 2))) as [H|H].
    + revert H Hf. generalize (Math_floor ((vW - mcw) / ofZ 2)).
      intros f H Hf. qc2q'. unfold Qdiv in Hf.
      change (/ 2)%Q with (1 # 2)%Q in Hf. lra.
    + qc2q'. lra.
  - set (c0 := Math_round (cropCenterX vW vH d0 rest - mcw / ofZ 2)).
    clearbody c0.
    set (c1 := if c0 <? 0 then 0 else c0).
    assert (H1 : 0 <= c1).
    { subst c1. destruct (ltb_spec c0 0); [apply Qcle_refl|assumption]. }
    clearbody c1. unfold gtb.
    rewrite !ltb_irrefl.
    replace (0 + vH) with vH by ring. rewrite ltb_irrefl.
    split; [|split; [|split; [reflexivity|split; reflexivity]]].
    + destruct (ltb_spec vW (c1 + mcw)); [|exact H1]. qc2q'. lra.
    + destruct (ltb_spec vW (c1 + mcw)); qc2q'; lra.
Qed.

Lemma floor_half_twice_le (a : Qc) : Math_floor (a / ofZ 2) * ofZ 2 <= a.
Proof.
  pose proof (Math_floor_le (a / ofZ 2)) as H. revert H.
  generalize (Math_floor (a / ofZ 2)). intros f H. qc2q'.
  unfold Qdiv in H. change (/ 2)%Q with (1 # 2)%Q in H. lra.
Qed.

(** A global crop that [computeGlobalStaticCrop] returns lies inside the
    frame and carries the zoom floor of the static paths. *)
Lemma globalCropOf_in_frame (bW bH : Qc) (pool : list FaceDetection) :
  0 <= gc_cropX (globalCropOf bW bH pool)
  /\ gc_cropY (globalCropOf bW bH pool) = 0
  /\ gc_cropX (globalCropOf bW bH pool) + gc_cropW (globalCropOf bW bH pool)
     <= bW
  /\ gc_cropH (globalCropOf bW bH pool) = bH
  /\ gc_zMin (globalCropOf bW bH pool)
     = staticZMin (gc_cropW (globalCropOf bW bH pool)) bW.
Proof.
  unfold globalCropOf. cbn [gc_cropX gc_cropY gc_cropW gc_cropH gc_zMin].
  destruct (calculateCrop_in_frame bW bH pool) as [Hx [Hxw [_ [Hy Hh]]]].
  pose proof (floor_half_twice_le (cropWidth (calculateCrop bW bH pool)))
    as Hhalf.
  split; [exact Hx|]. split; [exact Hy|].
  split; [|split; [exact Hh|reflexivity]].
  revert Hxw Hhalf.
  generalize (Math_floor (cropWidth (calculateCrop bW bH pool) / ofZ 2)
              * ofZ 2).
  generalize (cropWidth (calculateCrop bW bH pool)).
  generalize (cropX (calculateCrop bW bH pool)).
  intros x cw f Hxw Hhalf. qc2q. lra.
Qed.

Lemma staticTargetW_le (bW bH : Qc) : staticTargetW bW bH <= bW.
Proof.
  unfold staticTargetW.
  eapply Qcle_trans; [apply floor_half_twice_le|apply Math_min_r].
Qed.

(** The keyframe of the per-segment static path lies inside the frame. *)
Lemma static_segment_keyframe (Math_hypot : Qc -> Qc -> Qc)
    (snaps : outcome (list PersonSnapshot)) (input : ComputeInput)
    (constraints : Constraints) (kfs : list CropKF) :
  computeCropMapPersonStatic Math_hypot snaps input constraints None
  = Returned (Some kfs) ->
  exists k,
    kfs = [k]
    /\ 0 <= kf_x k
    /\ kf_x k + kf_w k <= baseW input
    /\ kf_y k = 0
    /\ kf_h k = baseH input
    /\ kf_w k = staticTargetW (baseW input) (baseH input)
    /\ kf_z k = staticZMin (kf_w k) (baseW input).
Proof.
  unfold computeCropMapPersonStatic.
  destruct snaps as [ss|e]; cbn [bind]; [|discriminate].
  destruct ss as [|s0 ss]; [discriminate|].
  destruct (staticAnchors Math_hypot (s0 :: ss) (baseW input) (baseH input))
    as [|a0 anchors]; [discriminate|].
  pose proof (staticTargetW_le (baseW input) (baseH input)) as Hle.
  set (evenTargetW := staticTargetW (baseW input) (baseH input)) in *.
  set (c0 := Math_round _). clearbody c0.
  set (c1 := if c0 <? 0 then 0 else c0).
  assert (H1 : 0 <= c1).
  { subst c1. destruct (ltb_spec c0 0); [apply Qcle_refl|assumption]. }
  clearbody c1. clearbody evenTargetW.
  intros H. injection H as <-. eexists. split; [reflexivity|].
  cbn [kf_x kf_y kf_w kf_h kf_z]. unfold gtb.
  split; [|split; [|repeat split; reflexivity]].
  - destruct (ltb_spec (baseW input - evenTargetW) c1); [|exact H1].
    revert Hle. generalize (baseW input). intros bW Hle. qc2q. lra.
  - revert Hle. generalize (baseW input). intros bW Hle.
    destruct (ltb_spec (bW - evenTargetW) c1); qc2q; lra.
Qed.

(** The keyframe built from a global crop lies inside the source and
    carries the zoom floor of the static paths. *)
Lemma global_keyframe_inFrame (Math_hypot : Qc -> Qc -> Qc)
    (snaps : outcome (list PersonSnapshot)) (input : ComputeInput)
    (constraints : Constraints) (pool : list FaceDetection) :
  exists k,
    computeCropMapPersonStatic Math_hypot snaps input constraints
      (Some (globalCropOf (baseW input) (baseH input) pool))
    = Returned (Some [k])
    /\ inFrame (baseW input) (baseH input) k
    /\ kf_z k = staticZMin (kf_w k) (baseW input).
Proof.
  eexists. split; [reflexivity|].
  destruct (globalCropOf_in_frame (baseW input) (baseH input) pool)
    as [Hx [Hy [Hxw [Hh Hz]]]].
  unfold inFrame. cbn [kf_x kf_y kf_w kf_h kf_z].
  rewrite Hy, Hh. split; [|exact Hz].
  split; [exact Hx|]. split; [apply Qcle_refl|]. split; [exact Hxw|].
  replace (0 + baseH input) with (baseH input) by ring. apply Qcle_refl.
Qed.

(** C9.  For a 1920x1080 source the target width of the static paths is
    [floor(1080*9/16) = 607] made even, 606, and the static crop is
    clamped into the frame for every detection pool: its left edge is at
    least 0 and [x <= 1920 - 606], both for the global crop (whose own
    width, rounded up by [calculateCrop], is 608) and for the per-segment
    static crop.  With a pool dominated by a detection centred at
    x = 1600 the global crop starts at x = 1078. *)
Theorem static_crop_1920x1080 :
  Math_floor (ofZ 1080 * ofZ 9 / ofZ 16) = ofZ 607
  /\ staticTargetW (ofZ 1920) (ofZ 1080) = ofZ 606
  /\ (forall detections,
        0 <= cropX (calculateCrop (ofZ 1920) (ofZ 1080) detections)
        /\ cropX (calculateCrop (ofZ 1920) (ofZ 1080) detections)
           <= ofZ 1920 - ofZ 606
        /\ cropX (calculateCrop (ofZ 1920) (ofZ 1080) detections) + ofZ 606
           <= ofZ 1920
        /\ cropX (calculateCrop (ofZ 1920) (ofZ 1080) detections)
           + cropWidth (calculateCrop (ofZ 1920) (ofZ 1080) detections)
           <= ofZ 1920)
  /\ (forall detectFacesTimeline videoDurationSec skipUntilSec gc,
        computeGlobalStaticCrop (Returned tt) detectFacesTimeline
          videoDurationSec (ofZ 1920) (ofZ 1080) skipUntilSec
        = Returned (Some gc) ->
        0 <= gc_cropX gc
        /\ gc_cropX gc <= ofZ 1920 - ofZ 606
        /\ gc_cropX gc + gc_cropW gc <= ofZ 1920)
  /\ (forall Math_hypot snaps segStart segEnd transcript constraints kfs,
        computeCropMapPersonStatic Math_hypot snaps
          (mkInput (ofZ 1920) (ofZ 1080) segStart segEnd transcript)
          constraints None = Returned (Some kfs) ->
        Forall (fun k => 0 <= kf_x k /\ kf_x k <= ofZ 1920 - ofZ 606
                         /\ kf_w k = ofZ 606) kfs)
  /\ cropX (calculateCrop (ofZ 1920) (ofZ 1080) dominantPool) = ofZ 1078.
Proof.
  assert (Hcw : forall detections,
             cropWidth (calculateCrop (ofZ 1920) (ofZ 1080) detections)
             = ofZ 608).
  { intros detections.
    destruct (calculateCrop_in_frame (ofZ 1920) (ofZ 1080) detections)
      as [_ [_ [-> _]]].
    apply Qc_is_canon. reflexivity. }
  assert (Hcrop : forall detections,
             0 <= cropX (calculateCrop (ofZ 1920) (ofZ 1080) detections)
             /\ cropX (calculateCrop (ofZ 1920) (ofZ 1080) detections)
                + ofZ 608 <= ofZ 1920).
  { intros detections.
    destruct (calculateCrop_in_frame (ofZ 1920) (ofZ 1080) detections)
      as [H0 [H1 _]].
    rewrite Hcw in H1. split; assumption. }
  assert (Htw : staticTargetW (ofZ 1920) (ofZ 1080) = ofZ 606)
    by (apply Qc_is_canon; reflexivity).
  split; [apply Qc_is_canon; reflexivity|].
  split; [exact Htw|].
  split.
  { intros detections. destruct (Hcrop detections) as [H0 H1].
    rewrite Hcw. revert H0 H1.
    generalize (cropX (calculateCrop (ofZ 1920) (ofZ 1080) detections)).
    intros x H0 H1. repeat split; qc2q'; lra. }
  split.
  { intros detect dur skip gc H.
    rewrite computeGlobalStaticCrop_result in H.
    destruct (List.length (aggregatedPool detect dur skip) <? 50)%nat.
    - discriminate H.
    - injection H as <-.
      unfold globalCropOf. cbn [gc_cropX gc_cropW]. rewrite Hcw.
      destruct (Hcrop (aggregatedPool detect dur skip)) as [H0 H1].
      replace (Math_floor (ofZ 608 / ofZ 2) * ofZ 2) with (ofZ 608)
        by (apply Qc_is_canon; reflexivity).
      revert H0 H1.
      generalize (cropX (calculateCrop (ofZ 1920) (ofZ 1080)
                           (aggregatedPool detect dur skip))).
      intros x H0 H1. repeat split; qc2q'; lra. }
  split.
  { intros Math_hypot snaps segStart segEnd transcript constraints kfs H.
    apply static_segment_keyframe in H.
    destruct H as [k [-> [H0 [H1 [_ [_ [Hw _]]]]]]].
    cbn [baseW baseH] in H1, Hw. rewrite Htw in Hw.
    constructor; [|constructor]. rewrite Hw in H1.
    split; [exact H0|]. split; [|exact Hw].
    revert H1. generalize (kf_x k). intros x H1. qc2q'. lra. }
  apply Qc_is_canon. reflexivity.
Qed.

(* ------------------------------------------------------------------ *)
(** ** Validation in the expression builder *)

Lemma ltb_true_iff (a b : Qc) : (a <? b) = true <-> a < b.
Proof.
  destruct (ltb_spec a b) as [H|H]; split; intros H'; try assumption;
    try reflexivity; try discriminate.
  exfalso. qc2q. lra.
Qed.

Lemma invalid_outOfBounds (bW bH : Z) (k : CropKF) :
  Expr.dimensionsExceed bW bH (Expr.evenTargetWidth bH) k
  || Expr.positionInvalid bW bH (Expr.evenTargetWidth bH) k = true
  <-> outOfBounds bW bH k.
Proof.
  unfold Expr.dimensionsExceed, Expr.positionInvalid, outOfBounds, gtb.
  rewrite !orb_true_iff, !ltb_true_iff. tauto.
Qed.

Lemma hasInvalidCrop_iff (bW bH : Z) (kf : list CropKF) :
  Expr.hasInvalidCrop bW bH (Expr.evenTargetWidth bH) kf = true
  <-> exists i k, (i < 5)%nat /\ nth_error kf i = Some k
                  /\ outOfBounds bW bH k.
Proof.
  unfold Expr.hasInvalidCrop. rewrite existsb_exists. split.
  - intros [k [Hin Hbad]]. apply In_nth_error in Hin. destruct Hin as [i Hi].
    assert (Hlt : (i < List.length (firstn 5 kf))%nat).
    { apply nth_error_Some. rewrite Hi. discriminate. }
    rewrite length_firstn in Hlt.
    exists i, k. split; [lia|]. split; [|apply invalid_outOfBounds, Hbad].
    rewrite nth_error_firstn in Hi.
    destruct (Nat.ltb_spec i 5); [exact Hi|lia].
  - intros [i [k [Hi [Hnth Hbad]]]]. exists k.
    split; [|apply invalid_outOfBounds, Hbad].
    apply nth_error_In with i. rewrite nth_error_firstn.
    destruct (Nat.ltb_spec i 5); [exact Hnth|lia].
Qed.

(** Keyframes past the fifth are not inspected: the builder emits a
    filter for five valid keyframes followed by one far outside the
    source, so the claim as stated fails. *)
Lemma buildFFmpegFilter_accepts_bad_sixth :
  ~ (forall bW bH kf,
       (exists k, In k kf /\ outOfBounds bW bH k) ->
       exists msg, Expr.buildFFmpegFilter bW bH kf = Thrown msg).
Proof.
  intros H.
  destruct (H 1920%Z 1080%Z sixKeyframes) as [msg E].
  - exists outsideKeyframe. split.
    + unfold sixKeyframes. apply in_or_app. right. left. reflexivity.
    + unfold outOfBounds. do 4 right. left. vm_compute. reflexivity.
  - vm_compute in E. discriminate E.
Qed.

(** C2 (amended).  [buildFFmpegFilter] validates the first five keyframes
    of its input: when one of them has a crop larger than the source or
    reaching outside it, the builder throws and emits nothing. *)
Theorem buildFFmpegFilter_rejects_first_five (bW bH : Z) (kf : list CropKF) :
  (exists i k, (i < 5)%nat /\ nth_error kf i = Some k
               /\ outOfBounds bW bH k) ->
  exists msg, Expr.buildFFmpegFilter bW bH kf = Thrown msg.
Proof.
  intros H. apply hasInvalidCrop_iff in H. unfold Expr.buildFFmpegFilter.
  rewrite H. eexists. reflexivity.
Qed.

Lemma buildFFmpegFilter_rejects_first_five_witness :
  (exists i k, (i < 5)%nat /\ nth_error [outsideKeyframe] i = Some k
               /\ outOfBounds 1920 1080 k)
  /\ exists msg, Expr.buildFFmpegFilter 1920 1080 [outsideKeyframe] = Thrown msg.
Proof.
  assert (H : exists i k, (i < 5)%nat /\ nth_error [outsideKeyframe] i = Some k
                          /\ outOfBounds 1920 1080 k).
  { exists 0%nat, outsideKeyframe. split; [lia|]. split; [reflexivity|].
    unfold outOfBounds. do 4 right. left. vm_compute. reflexivity. }
  split; [exact H|].
  exact (buildFFmpegFilter_rejects_first_five 1920 1080 [outsideKeyframe] H).
Defined.

(** When the first five keyframes are within the source, the validation
    lets the sequence through, whatever follows. *)
Lemma buildFFmpegFilter_validation_passes (bW bH : Z) (kf : list CropKF) :
  (forall i k, (i < 5)%nat -> nth_error kf i = Some k ->
               ~ outOfBounds bW bH k) ->
  Expr.hasInvalidCrop bW bH (Expr.evenTargetWidth bH) kf = false.
Proof.
  intros H.
  destruct (Expr.hasInvalidCrop bW bH (Expr.evenTargetWidth bH) kf) eqn:E;
    [|reflexivity].
  apply hasInvalidCrop_iff in E. destruct E as [i [k [Hi [Hnth Hbad]]]].
  exfalso. exact (H i k Hi Hnth Hbad).
Qed.

(* ------------------------------------------------------------------ *)
(** ** Evaluation of the emitted expressions *)

Lemma ltb_true (a b : Qc) : a < b -> (a <? b) = true.
Proof. apply ltb_true_iff. Qed.

Lemma ltb_false (a b : Qc) : b <= a -> (a <? b) = false.
Proof.
  intros H. destruct (ltb_spec a b) as [H'|H']; [|reflexivity].
  exfalso. qc2q. lra.
Qed.

Lemma leb_true (a b : Qc) : a <= b -> (a <=? b) = true.
Proof.
  intros H. destruct (leb_spec a b) as [H'|H']; [reflexivity|].
  exfalso. qc2q. lra.
Qed.

Lemma leb_false (a b : Qc) : b < a -> (a <=? b) = false.
Proof.
  intros H. destruct (leb_spec a b) as [H'|H']; [|reflexivity].
  exfalso. qc2q. lra.
Qed.

Lemma eval_joinPlus (p0 : Expr.fexpr) (parts : list Expr.fexpr) (t : Qc) :
  Expr.eval (Expr.joinPlus p0 parts) t = Expr.eval p0 t + sumAt parts t.
Proof.
  unfold Expr.joinPlus. revert p0.
  induction parts as [|p parts IH]; intros p0; cbn [fold_left sumAt fold_right].
  - ring.
  - rewrite IH. cbn [Expr.eval]. unfold sumAt. ring.
Qed.

Lemma sumAt_cons (p : Expr.fexpr) (parts : list Expr.fexpr) (t : Qc) :
  sumAt (p :: parts) t = Expr.eval p t + sumAt parts t.
Proof. reflexivity. Qed.

Lemma eval_holdBefore (k : CropKF) (v : Z) (t : Qc) :
  Expr.eval (Expr.holdBefore (kf_t k) v) t
  = Expr.indicator (t <? printedTime k) * ofZ v.
Proof. reflexivity. Qed.

Lemma eval_holdAfter (k : CropKF) (v : Z) (t : Qc) :
  Expr.eval (Expr.holdAfter (kf_t k) v) t
  = Expr.indicator (printedTime k <=? t) * ofZ v.
Proof. reflexivity. Qed.

Lemma eval_piece (value : CropKF -> Qc) (a b : CropKF) (t : Qc) :
  Expr.eval (Expr.piece (kf_t a) (kf_t b) (value a) (value b)) t
  = Expr.indicator ((printedTime a <=? t) && (t <=? printedTime b))
    * (Math_round (value a) + printedSlope value a b * (t - printedTime a)).
Proof. reflexivity. Qed.

Lemma tailParts_cons (value : CropKF -> Qc) (a b : CropKF)
    (rest : list CropKF) (d : CropKF) :
  tailParts value a (b :: rest) d
  = Expr.piece (kf_t a) (kf_t b) (value a) (value b)
      :: tailParts value b rest d.
Proof. reflexivity. Qed.

(** Before the knot of [a] nothing after [a] contributes. *)
Lemma tail_before (value : CropKF -> Qc) (a : CropKF) (rest : list CropKF)
    (d : CropKF) (t : Qc) :
  increasing (map printedTime (a :: rest)) ->
  t < printedTime a ->
  sumAt (tailParts value a rest d) t = 0.
Proof.
  revert a. induction rest as [|b rest IH]; intros a Hinc Ht.
  - unfold tailParts. cbn [Expr.pieces app last]. rewrite sumAt_cons.
    rewrite eval_holdAfter, leb_false by exact Ht.
    cbn [Expr.indicator sumAt fold_right]. ring.
  - rewrite tailParts_cons, sumAt_cons, eval_piece.
    rewrite (leb_false (printedTime a) t) by exact Ht.
    cbn [andb Expr.indicator].
    destruct Hinc as [Hab Hinc].
    rewrite IH; [ring|exact Hinc|].
    eapply Qclt_trans; [exact Ht|exact Hab].
Qed.

(** After the knot of [a], and off every later knot, the sum is the
    interpolation. *)
Lemma tail_after (value : CropKF -> Qc) (a : CropKF) (rest : list CropKF)
    (d : CropKF) (t : Qc) :
  increasing (map printedTime (a :: rest)) ->
  printedTime a < t ->
  ~ In t (map printedTime rest) ->
  sumAt (tailParts value a rest d) t = interpolateFrom value a rest t.
Proof.
  revert a. induction rest as [|b rest IH]; intros a Hinc Ht Hoff.
  - unfold tailParts. cbn [Expr.pieces app last interpolateFrom].
    rewrite sumAt_cons, eval_holdAfter.
    rewrite leb_true by (apply Qclt_le_weak, Ht).
    cbn [Expr.indicator sumAt fold_right]. unfold Math_round. ring.
  - rewrite tailParts_cons, sumAt_cons, eval_piece. cbn [interpolateFrom].
    destruct Hinc as [Hab Hinc].
    rewrite (leb_true (printedTime a) t) by (apply Qclt_le_weak, Ht).
    cbn [andb].
    destruct (ltb_spec t (printedTime b)) as [Hlt|Hge].
    + rewrite leb_true by (apply Qclt_le_weak, Hlt).
      rewrite tail_before by assumption.
      cbn [Expr.indicator]. ring.
    + assert (Hbt : printedTime b < t).
      { destruct (Qc_eq_dec t (printedTime b)) as [E|E].
        - exfalso. apply Hoff. left. symmetry. exact E.
        - qc2q. apply Qle_lteq in Hge. destruct Hge as [Hge|Hge];
            [exact Hge|].
          exfalso. apply E. apply Qc_is_canon. symmetry. exact Hge. }
      rewrite leb_false by exact Hbt. cbn [Expr.indicator].
      rewrite IH; [ring|exact Hinc|exact Hbt|].
      intros Hin. apply Hoff. right. exact Hin.
Qed.

Lemma eval_held (value : CropKF -> Qc) (k0 : CropKF) (rest : list CropKF)
    (t : Qc) :
  increasing (map printedTime (k0 :: rest)) ->
  ~ In t (map printedTime (k0 :: rest)) ->
  Expr.eval
    (Expr.joinPlus (Expr.holdBefore (kf_t k0) (roundZ (value k0)))
       (tailParts value k0 rest k0)) t
  = holdInterpolate value (k0 :: rest) t.
Proof.
  intros Hinc Hoff. rewrite eval_joinPlus, eval_holdBefore.
  cbn [holdInterpolate].
  destruct (ltb_spec t (printedTime k0)) as [Hlt|Hge].
  - rewrite tail_before by assumption. cbn [Expr.indicator].
    unfold Math_round. ring.
  - assert (H0t : printedTime k0 < t).
    { destruct (Qc_eq_dec t (printedTime k0)) as [E|E].
      - exfalso. apply Hoff. left. symmetry. exact E.
      - qc2q. apply Qle_lteq in Hge. destruct Hge as [Hge|Hge];
          [exact Hge|].
        exfalso. apply E. apply Qc_is_canon. symmetry. exact Hge. }
    rewrite tail_after; [cbn [Expr.indicator]; ring|exact Hinc|exact H0t|].
    intros Hin. apply Hoff. right. exact Hin.
Qed.

(** Away from the printed keyframe times.  For a non-empty keyframe
    sequence whose printed times (3 decimals) increase strictly, and at
    every time [t] other than a printed keyframe time, the emitted
    expressions evaluate, under FFmpeg's semantics, to hold-and-interpolate
    through the printed knots: the rounded first value before the first
    keyframe, between two keyframes the line from the rounded value of the
    earlier one with the slope printed to 6 decimals, the rounded last
    value after the last keyframe; or to the rounded first value
    throughout when the builder chose the constant form.
    [buildPiecewiseExpr] and [buildCropDimensionExpr] print these
    expressions. *)
Lemma emitted_expression_interpolates (kf : list CropKF) (key : Expr.Key)
    (baseDim : Z) (t : Qc) :
  kf <> [] ->
  increasing (map printedTime kf) ->
  ~ In t (map printedTime kf) ->
  Expr.eval (Expr.buildPiecewiseAst kf key) t
  = builtValue (Expr.keyValue key) (Expr.keyValue key) kf t
  /\ Expr.eval (Expr.buildCropDimensionAst kf baseDim) t
     = builtValue (fun k => Math_round (ofZ baseDim / kf_z k))
         (fun k => ofZ baseDim / kf_z k) kf t
  /\ Expr.buildPiecewiseExpr kf key
     = Expr.render (Expr.buildPiecewiseAst kf key)
  /\ Expr.buildCropDimensionExpr kf baseDim
     = Expr.render (Expr.buildCropDimensionAst kf baseDim).
Proof.
  intros Hne Hinc Hoff. destruct kf as [|k0 rest]; [congruence|].
  split; [|split; [|split; reflexivity]].
  - unfold Expr.buildPiecewiseAst, builtValue, spreadBelow1.
    destruct (Expr.maxOf (Expr.keyValue key k0)
                (map (Expr.keyValue key) rest)
              - Expr.minOf (Expr.keyValue key k0)
                  (map (Expr.keyValue key) rest) <? 1).
    + reflexivity.
    + apply (eval_held (Expr.keyValue key) k0 rest t Hinc Hoff).
  - unfold Expr.buildCropDimensionAst, builtValue, spreadBelow1.
    destruct (Expr.maxOf (Math_round (ofZ baseDim / kf_z k0))
                (map (fun k => Math_round (ofZ baseDim / kf_z k)) rest)
              - Expr.minOf (Math_round (ofZ baseDim / kf_z k0))
                  (map (fun k => Math_round (ofZ baseDim / kf_z k)) rest)
              <? 1).
    + reflexivity.
    + apply (eval_held (fun k => ofZ baseDim / kf_z k) k0 rest t Hinc Hoff).
Qed.

Example emitted_expression_interpolates_example :
  threeKeyframes <> []
  /\ increasing (map printedTime threeKeyframes)
  /\ ~ In (dec 3 2) (map printedTime threeKeyframes)
  /\ Expr.eval (Expr.buildPiecewiseAst threeKeyframes Expr.KeyX) (dec 3 2)
     = builtValue (Expr.keyValue Expr.KeyX) (Expr.keyValue Expr.KeyX)
         threeKeyframes (dec 3 2).
Proof.
  assert (Hne : threeKeyframes <> []) by discriminate.
  assert (Hinc : increasing (map printedTime threeKeyframes))
    by (vm_compute; repeat split; reflexivity).
  assert (Hoff : ~ In (dec 3 2) (map printedTime threeKeyframes)).
  { intros Hin. cbn [threeKeyframes map seq In] in Hin.
    repeat (destruct Hin as [Hin|Hin];
            [apply (f_equal this) in Hin; vm_compute in Hin;
             discriminate Hin|]).
    exact Hin. }
  split; [exact Hne|]. split; [exact Hinc|]. split; [exact Hoff|].
  exact (proj1 (emitted_expression_interpolates threeKeyframes Expr.KeyX
                  1080 (dec 3 2) Hne Hinc Hoff)).
Qed.

(** Before the first printed keyframe time the value is the rounded first
    value, after the last one the rounded last value. *)
Lemma holdInterpolate_before (value : CropKF -> Qc) (k0 : CropKF)
    (rest : list CropKF) (t : Qc) :
  t < printedTime k0 ->
  holdInterpolate value (k0 :: rest) t = Math_round (value k0).
Proof. intros H. cbn [holdInterpolate]. rewrite ltb_true by exact H. reflexivity. Qed.

Lemma interpolateFrom_after (value : CropKF -> Qc) (a d : CropKF)
    (rest : list CropKF) (t : Qc) :
  Forall (fun k => printedTime k < t) rest ->
  interpolateFrom value a rest t = Math_round (value (last (a :: rest) d)).
Proof.
  revert a. induction rest as [|b rest IH]; intros a H; [reflexivity|].
  inversion H as [|? ? Hb Hrest]; subst. cbn [interpolateFrom].
  rewrite ltb_false by (apply Qclt_le_weak, Hb).
  rewrite IH by exact Hrest. reflexivity.
Qed.

Lemma holdInterpolate_after (value : CropKF -> Qc) (k0 : CropKF)
    (rest : list CropKF) (t : Qc) :
  Forall (fun k => printedTime k < t) (k0 :: rest) ->
  holdInterpolate value (k0 :: rest) t
  = Math_round (value (last (k0 :: rest) k0)).
Proof.
  intros H. inversion H as [|? ? H0 Hrest]; subst. cbn [holdInterpolate].
  rewrite ltb_false by (apply Qclt_le_weak, H0).
  apply interpolateFrom_after, Hrest.
Qed.

Lemma pieceEndingAt_before (value : CropKF -> Qc) (a : CropKF)
    (rest : list CropKF) (t : Qc) :
  increasing (map printedTime (a :: rest)) ->
  t <= printedTime a ->
  pieceEndingAt value a rest t = 0.
Proof.
  revert a. induction rest as [|b rest IH]; intros a Hinc Ht; [reflexivity|].
  cbn [pieceEndingAt]. destruct Hinc as [Hab Hinc].
  assert (Hlt : t < printedTime b)
    by (eapply Qcle_lt_trans; [exact Ht|exact Hab]).
  destruct (eqb_spec t (printedTime b)) as [E|_].
  - exfalso. rewrite E in Hlt. clear - Hlt. qc2q. lra.
  - rewrite IH; [ring|exact Hinc|apply Qclt_le_weak, Hlt].
Qed.

(** From the knot of [a] on, the pieces and the final hold add up to the
    interpolation plus the end of the piece that stops at [t]. *)
Lemma tail_from (value : CropKF -> Qc) (a : CropKF) (rest : list CropKF)
    (d : CropKF) (t : Qc) :
  increasing (map printedTime (a :: rest)) ->
  printedTime a <= t ->
  sumAt (tailParts value a rest d) t
  = interpolateFrom value a rest t + pieceEndingAt value a rest t.
Proof.
  revert a. induction rest as [|b rest IH]; intros a Hinc Ht.
  - unfold tailParts. cbn [Expr.pieces app last interpolateFrom pieceEndingAt].
    rewrite sumAt_cons, eval_holdAfter, leb_true by exact Ht.
    cbn [Expr.indicator sumAt fold_right]. unfold Math_round. ring.
  - rewrite tailParts_cons, sumAt_cons, eval_piece.
    cbn [interpolateFrom pieceEndingAt].
    destruct Hinc as [Hab Hinc].
    rewrite (leb_true (printedTime a) t) by exact Ht. cbn [andb].
    destruct (ltb_spec t (printedTime b)) as [Hlt|Hge].
    + rewrite leb_true by (apply Qclt_le_weak, Hlt).
      rewrite tail_before by assumption.
      destruct (eqb_spec t (printedTime b)) as [E|_].
      { exfalso. rewrite E in Hlt. clear - Hlt. qc2q. lra. }
      rewrite pieceEndingAt_before;
        [cbn [Expr.indicator]; ring|exact Hinc|apply Qclt_le_weak, Hlt].
    + rewrite IH by assumption.
      destruct (eqb_spec t (printedTime b)) as [E|E].
      * rewrite leb_true by (rewrite E; apply Qcle_refl).
        cbn [Expr.indicator]. ring.
      * rewrite leb_false; [cbn [Expr.indicator]; ring|].
        destruct (Qc_dec (printedTime b) t) as [[H|H]|H];
          [exact H| |].
        -- exfalso. clear - Hge H. qc2q. lra.
        -- exfalso. apply E. symmetry. exact H.
Qed.

(** The value of the interpolating form at every time [t], the keyframe
    times included: hold-and-interpolate through the printed knots, plus,
    at the printed time of a keyframe after the first, the end of the
    piece before it, whose gate [between] is still on there. *)
Lemma eval_held_everywhere (value : CropKF -> Qc) (k0 : CropKF)
    (rest : list CropKF) (t : Qc) :
  increasing (map printedTime (k0 :: rest)) ->
  Expr.eval
    (Expr.joinPlus (Expr.holdBefore (kf_t k0) (roundZ (value k0)))
       (tailParts value k0 rest k0)) t
  = holdInterpolate value (k0 :: rest) t
    + pieceEndingAt value k0 rest t.
Proof.
  intros Hinc. rewrite eval_joinPlus, eval_holdBefore.
  cbn [holdInterpolate].
  destruct (ltb_spec t (printedTime k0)) as [Hlt|Hge].
  - rewrite tail_before by assumption.
    rewrite pieceEndingAt_before;
      [|exact Hinc|apply Qclt_le_weak, Hlt].
    cbn [Expr.indicator]. unfold Math_round. ring.
  - rewrite tail_from by assumption. cbn [Expr.indicator]. ring.
Qed.

Lemma pieceEndingAt_next (value : CropKF -> Qc) (a b : CropKF)
    (rest : list CropKF) :
  increasing (map printedTime (a :: b :: rest)) ->
  pieceEndingAt value a (b :: rest) (printedTime b)
  = Math_round (value a)
    + printedSlope value a b * (printedTime b - printedTime a).
Proof.
  intros [_ Hinc]. cbn [pieceEndingAt].
  destruct (eqb_spec (printedTime b) (printedTime b)) as [_|E];
    [|contradiction E; reflexivity].
  rewrite pieceEndingAt_before; [ring|exact Hinc|apply Qcle_refl].
Qed.

(** What the emitted expressions evaluate to at every time [t], for
    keyframes whose printed times increase: the rounded first value in
    the constant form; otherwise hold-and-interpolate through the printed
    knots, plus, at the printed time of a keyframe after the first, the
    end of the piece before it. *)
Lemma emitted_expression_value (kf : list CropKF) (key : Expr.Key)
    (baseDim : Z) (t : Qc) :
  increasing (map printedTime kf) ->
  Expr.eval (Expr.buildPiecewiseAst kf key) t
  = emittedValue (Expr.keyValue key) (Expr.keyValue key) kf 0 t
  /\ Expr.eval (Expr.buildCropDimensionAst kf baseDim) t
     = emittedValue (fun k => Math_round (ofZ baseDim / kf_z k))
         (fun k => ofZ baseDim / kf_z k) kf (ofZ baseDim) t.
Proof.
  intros Hinc. destruct kf as [|k0 rest]; [split; reflexivity|].
  split.
  - unfold Expr.buildPiecewiseAst, emittedValue, spreadBelow1.
    destruct (Expr.maxOf (Expr.keyValue key k0)
                (map (Expr.keyValue key) rest)
              - Expr.minOf (Expr.keyValue key k0)
                  (map (Expr.keyValue key) rest) <? 1).
    + reflexivity.
    + apply (eval_held_everywhere (Expr.keyValue key) k0 rest t Hinc).
  - unfold Expr.buildCropDimensionAst, emittedValue, spreadBelow1.
    destruct (Expr.maxOf (Math_round (ofZ baseDim / kf_z k0))
                (map (fun k => Math_round (ofZ baseDim / kf_z k)) rest)
              - Expr.minOf (Math_round (ofZ baseDim / kf_z k0))
                  (map (fun k => Math_round (ofZ baseDim / kf_z k)) rest)
              <? 1).
    + reflexivity.
    + apply (eval_held_everywhere (fun k => ofZ baseDim / kf_z k) k0 rest t
               Hinc).
Qed.

(** C3 (divergence).  At a keyframe time other than the first the emitted
    expression does not evaluate to the value of the keyframe: [between]
    and [gte] include their bounds, so the piece that ends there and the
    piece, or the final hold, that starts there are both switched on, and
    their values add up.  For the keyframes (t, x) = (0, 0), (1, 100),
    (2, 200) [buildPiecewiseExpr] prints the expression below; it
    evaluates to 50 at t = 0.5 and to 150 at t = 1.5, as the
    interpolation does, but to 200 at t = 1 and to 400 at t = 2, where
    the keyframes are at 100 and 200.  For a source 1080 wide that zooms
    from 1 to 2 in one second [buildCropDimensionExpr] prints a width
    that evaluates to 1080 at t = 1, where the keyframe gives 540.  So
    the value at a keyframe time is not, in general, the value of the
    keyframe. *)
Theorem piecewise_doubles_at_keyframe :
  Expr.buildPiecewiseExpr threeKeyframes Expr.KeyX
  = "lt(t,0.000)*0+between(t,0.000,1.000)*(0+(100.000000)*(t-0.000))+between(t,1.000,2.000)*(100+(100.000000)*(t-1.000))+gte(t,2.000)*200"%string
  /\ map kf_t threeKeyframes = [0; 1; ofZ 2]
  /\ map kf_x threeKeyframes = [0; ofZ 100; ofZ 200]
  /\ Expr.eval (Expr.buildPiecewiseAst threeKeyframes Expr.KeyX) (dec 1 2)
     = ofZ 50
  /\ Expr.eval (Expr.buildPiecewiseAst threeKeyframes Expr.KeyX) 1
     = ofZ 200
  /\ Expr.eval (Expr.buildPiecewiseAst threeKeyframes Expr.KeyX) (dec 3 2)
     = ofZ 150
  /\ Expr.eval (Expr.buildPiecewiseAst threeKeyframes Expr.KeyX) (ofZ 2)
     = ofZ 400
  /\ Expr.buildCropDimensionExpr zoomingOut 1080
     = "lt(t,0.000)*1080+between(t,0.000,1.000)*(1080+(-540.000000)*(t-0.000))+gte(t,1.000)*540"%string
  /\ map (fun k => Math_round (ofZ 1080 / kf_z k)) zoomingOut
     = [ofZ 1080; ofZ 540]
  /\ Expr.eval (Expr.buildCropDimensionAst zoomingOut 1080) 1 = ofZ 1080
  /\ ~ (forall kf key k,
         In k kf ->
         Expr.eval (Expr.buildPiecewiseAst kf key) (kf_t k)
         = Expr.keyValue key k).
Proof.
  assert (L3 : forall a b c a' b' c' : Qc,
            a = a' -> b = b' -> c = c' -> [a; b; c] = [a'; b'; c'])
    by (intros; subst; reflexivity).
  assert (L2 : forall a b a' b' : Qc,
            a = a' -> b = b' -> [a; b] = [a'; b'])
    by (intros; subst; reflexivity).
  split; [vm_compute; reflexivity|].
  split; [apply L3; apply Qc_is_canon; reflexivity|].
  split; [apply L3; apply Qc_is_canon; reflexivity|].
  split; [apply Qc_is_canon; vm_compute; reflexivity|].
  split; [apply Qc_is_canon; vm_compute; reflexivity|].
  split; [apply Qc_is_canon; vm_compute; reflexivity|].
  split; [apply Qc_is_canon; vm_compute; reflexivity|].
  split; [vm_compute; reflexivity|].
  split; [apply L2; apply Qc_is_canon; reflexivity|].
  split; [apply Qc_is_canon; vm_compute; reflexivity|].
  intros H.
  specialize (H threeKeyframes Expr.KeyX (insideKeyframe 1)).
  assert (Hin : In (insideKeyframe 1) threeKeyframes)
    by (right; left; reflexivity).
  specialize (H Hin). apply (f_equal this) in H. vm_compute in H.
  discriminate H.
Qed.

(* ------------------------------------------------------------------ *)
(** ** Tracker association *)

Lemma has_true_iff (s : list nat) (i : nat) : has s i = true <-> In i s.
Proof.
  unfold has. rewrite existsb_exists. split.
  - intros [j [Hin Heq]]. apply Nat.eqb_eq in Heq. subst. exact Hin.
  - intros Hin. exists i. split; [exact Hin|apply Nat.eqb_refl].
Qed.

Lemma has_false_iff (s : list nat) (i : nat) : has s i = false <-> ~ In i s.
Proof.
  rewrite <- has_true_iff. destruct (has s i); split; intros H.
  - discriminate H.
  - exfalso. apply H. reflexivity.
  - discriminate.
  - reflexivity.
Qed.

Lemma bestDetection_scan (tr : Track) (usedD : list nat)
    (suffix seen : list PersonDet) (bestIdx : option nat) (bestIou : Qc) :
  bestSoFar tr seen usedD bestIdx bestIou ->
  bestSoFar tr (seen ++ suffix) usedD
    (fst (bestDetection tr suffix (List.length seen) usedD bestIdx bestIou))
    (snd (bestDetection tr suffix (List.length seen) usedD bestIdx bestIou)).
Proof.
  revert seen bestIdx bestIou.
  induction suffix as [|d rest IH]; intros seen bestIdx bestIou Hbest.
  - cbn [bestDetection fst snd]. rewrite app_nil_r. exact Hbest.
  - cbn [bestDetection].
    replace (seen ++ d :: rest) with ((seen ++ [d]) ++ rest)
      by (rewrite <- app_assoc; reflexivity).
    replace (S (List.length seen)) with (List.length (seen ++ [d]))
      by (rewrite length_app; cbn [List.length]; lia).
    destruct Hbest as [Hcur Hall].
    assert (Hnonneg : 0 <= bestIou).
    { destruct bestIdx as [i|].
      - destruct Hcur as [det [_ [_ [_ Hpos]]]]. apply Qclt_le_weak, Hpos.
      - rewrite Hcur. apply Qcle_refl. }
    assert (Hold : forall (i : nat) det, nth_error seen i = Some det ->
                     nth_error (seen ++ [d]) i = Some det).
    { intros i det Hi. rewrite nth_error_app1; [exact Hi|].
      apply nth_error_Some. rewrite Hi. discriminate. }
    assert (Hsplit : forall dj det, nth_error (seen ++ [d]) dj = Some det ->
                       nth_error seen dj = Some det
                       \/ (dj = List.length seen /\ det = d)).
    { intros dj det Hdj.
      destruct (Nat.lt_ge_cases dj (List.length seen)) as [Hlt|Hge].
      - left. rewrite nth_error_app1 in Hdj by exact Hlt. exact Hdj.
      - right. rewrite nth_error_app2 in Hdj by exact Hge.
        destruct (dj - List.length seen)%nat as [|k] eqn:Ek.
        + cbn in Hdj. injection Hdj as <-. split; [lia|reflexivity].
        + cbn in Hdj. destruct k; discriminate Hdj. }
    destruct (has usedD (List.length seen)) eqn:Eused.
    + apply IH. split.
      * destruct bestIdx as [i|]; [|exact Hcur].
        destruct Hcur as [det [Hi Hrest]]. exists det.
        split; [apply Hold, Hi|exact Hrest].
      * intros dj det Hdj Hfree. apply Hsplit in Hdj.
        destruct Hdj as [Hdj|[-> _]]; [exact (Hall dj det Hdj Hfree)|].
        congruence.
    + unfold gtb. destruct (ltb_spec bestIou (iouTrackDet tr d)) as [Hgt|Hle].
      * apply IH. split.
        -- exists d. split.
           ++ rewrite nth_error_app2 by lia. rewrite Nat.sub_diag. reflexivity.
           ++ split; [exact Eused|]. split; [reflexivity|].
              eapply Qcle_lt_trans; [exact Hnonneg|exact Hgt].
        -- intros dj det Hdj Hfree. apply Hsplit in Hdj.
           destruct Hdj as [Hdj|[_ ->]]; [|apply Qcle_refl].
           eapply Qcle_trans; [exact (Hall dj det Hdj Hfree)|].
           apply Qclt_le_weak, Hgt.
      * apply IH. split.
        -- destruct bestIdx as [i|]; [|exact Hcur].
           destruct Hcur as [det [Hi Hrest]]. exists det.
           split; [apply Hold, Hi|exact Hrest].
        -- intros dj det Hdj Hfree. apply Hsplit in Hdj.
           destruct Hdj as [Hdj|[_ ->]]; [exact (Hall dj det Hdj Hfree)|].
           exact Hle.
Qed.

(** The best unused detection of a track, over all the detections. *)
Lemma bestDetection_best (tr : Track) (dets : list PersonDet)
    (usedD : list nat) :
  bestSoFar tr dets usedD
    (fst (bestDetection tr dets 0 usedD None 0))
    (snd (bestDetection tr dets 0 usedD None 0)).
Proof.
  apply (bestDetection_scan tr usedD dets [] None 0). split; [reflexivity|].
  intros dj det Hdj. destruct dj; discriminate Hdj.
Qed.

Lemma unused_not_taken (env : Env) (dets : list PersonDet)
    (seen : list Track) (st : MatchState) (dj : nat) :
  goodState env dets seen st ->
  has (ms_usedD st) dj = false
  <-> ~ takenBefore (ms_matches st) (List.length seen) dj.
Proof.
  intros G. rewrite has_false_iff, (gs_usedD _ _ _ _ G), <- in_rev, in_map_iff.
  split.
  - intros H [m [Hin [_ Hdj]]]. apply H. exists m. split; assumption.
  - intros H [m [Hdj Hin]]. apply H. exists m.
    split; [exact Hin|]. split; [exact (gs_before _ _ _ _ G m Hin)|exact Hdj].
Qed.

Lemma nth_error_snoc_old {A} (l : list A) (a x : A) (i : nat) :
  nth_error l i = Some x -> nth_error (l ++ [a]) i = Some x.
Proof.
  intros H. rewrite nth_error_app1; [exact H|].
  apply nth_error_Some. rewrite H. discriminate.
Qed.

Lemma nth_error_snoc_inv {A} (l : list A) (a x : A) (i : nat) :
  nth_error (l ++ [a]) i = Some x ->
  nth_error l i = Some x \/ (i = List.length l /\ x = a).
Proof.
  intros H. destruct (Nat.lt_ge_cases i (List.length l)) as [Hlt|Hge].
  - left. rewrite nth_error_app1 in H by exact Hlt. exact H.
  - right. rewrite nth_error_app2 in H by exact Hge.
    destruct (i - List.length l)%nat as [|k] eqn:Ek.
    + cbn in H. injection H as <-. split; [lia|reflexivity].
    + cbn in H. destruct k; discriminate H.
Qed.

Lemma NoDup_snoc {A} (l : list A) (x : A) :
  ~ In x l -> NoDup l -> NoDup (l ++ [x]).
Proof.
  intros Hx Hl. rewrite <- (rev_involutive (l ++ [x])). apply NoDup_rev.
  rewrite rev_app_distr. cbn [rev app]. constructor.
  - intros Hin. apply Hx. apply in_rev. exact Hin.
  - apply NoDup_rev, Hl.
Qed.

Lemma takenBefore_snoc_old (matches : list Match) (m : Match) (ti dj : nat) :
  (ti <= m_ti m)%nat ->
  takenBefore (matches ++ [m]) ti dj <-> takenBefore matches ti dj.
Proof.
  intros Hle. unfold takenBefore. split.
  - intros [m' [Hin [Hlt Hdj]]]. apply in_app_or in Hin.
    destruct Hin as [Hin|[<-|[]]]; [|lia].
    exists m'. repeat split; assumption.
  - intros [m' [Hin [Hlt Hdj]]]. exists m'.
    split; [apply in_or_app; left; exact Hin|]. split; assumption.
Qed.

(** A track left unmatched keeps the state and the invariant. *)
Lemma goodState_skip (env : Env) (dets : list PersonDet) (seen : list Track)
    (st : MatchState) (tr : Track) :
  goodState env dets seen st ->
  (forall dj det, nth_error dets dj = Some det ->
                  has (ms_usedD st) dj = false ->
                  TRACK_IOU_THRESH env <= iouTrackDet tr det ->
                  0 < iouTrackDet tr det -> False) ->
  goodState env dets (seen ++ [tr]) st.
Proof.
  intros G Hnone. constructor.
  - exact (gs_usedD _ _ _ _ G).
  - exact (gs_usedT _ _ _ _ G).
  - exact (gs_nodupD _ _ _ _ G).
  - exact (gs_nodupT _ _ _ _ G).
  - intros m Hin. rewrite length_app. cbn [List.length].
    pose proof (gs_before _ _ _ _ G m Hin). lia.
  - intros m Hin.
    destruct (gs_sound _ _ _ _ G m Hin)
      as [tr0 [det [Htr [Hdet [Hiou [Hth [Hpos Hbest]]]]]]].
    exists tr0, det. split; [apply nth_error_snoc_old, Htr|].
    repeat split; assumption.
  - intros ti tr0 dj det Htr Hdet Hfree Hth Hpos.
    apply nth_error_snoc_inv in Htr. destruct Htr as [Htr|[-> ->]].
    + exact (gs_complete _ _ _ _ G ti tr0 dj det Htr Hdet Hfree Hth Hpos).
    + exfalso. apply (Hnone dj det Hdet); [|exact Hth|exact Hpos].
      apply (unused_not_taken env dets seen st dj G). exact Hfree.
Qed.

(** A matched track extends the state and keeps the invariant. *)
Lemma goodState_match (env : Env) (dets : list PersonDet) (seen : list Track)
    (st : MatchState) (tr : Track) (di : nat) (det : PersonDet) :
  goodState env dets seen st ->
  nth_error dets di = Some det ->
  has (ms_usedD st) di = false ->
  TRACK_IOU_THRESH env <= iouTrackDet tr det ->
  0 < iouTrackDet tr det ->
  (forall dj det', nth_error dets dj = Some det' ->
                   has (ms_usedD st) dj = false ->
                   iouTrackDet tr det' <= iouTrackDet tr det) ->
  goodState env dets (seen ++ [tr])
    {| ms_matches := ms_matches st
                       ++ [mkMatch (List.length seen) di (iouTrackDet tr det)];
       ms_usedD := di :: ms_usedD st;
       ms_usedT := List.length seen :: ms_usedT st |}.
Proof.
  intros G Hdet Hfree Hth Hpos Hbest.
  set (m0 := mkMatch (List.length seen) di (iouTrackDet tr det)).
  assert (HnotD : ~ In di (map m_di (ms_matches st))).
  { apply has_false_iff in Hfree. rewrite (gs_usedD _ _ _ _ G) in Hfree.
    intros Hin. apply Hfree. apply -> in_rev. exact Hin. }
  assert (HnotT : ~ In (List.length seen) (map m_ti (ms_matches st))).
  { intros Hin. apply in_map_iff in Hin. destruct Hin as [m [Hti Hin]].
    pose proof (gs_before _ _ _ _ G m Hin). lia. }
  constructor; cbn [ms_matches ms_usedD ms_usedT].
  - rewrite map_app, rev_app_distr. cbn [map rev app].
    f_equal. exact (gs_usedD _ _ _ _ G).
  - rewrite map_app, rev_app_distr. cbn [map rev app].
    f_equal. exact (gs_usedT _ _ _ _ G).
  - rewrite map_app. cbn [map]. apply NoDup_snoc; [exact HnotD|].
    exact (gs_nodupD _ _ _ _ G).
  - rewrite map_app. cbn [map]. apply NoDup_snoc; [exact HnotT|].
    exact (gs_nodupT _ _ _ _ G).
  - intros m Hin. rewrite length_app. cbn [List.length].
    apply in_app_or in Hin. destruct Hin as [Hin|[<-|[]]].
    + pose proof (gs_before _ _ _ _ G m Hin). lia.
    + cbn [m_ti m0]. lia.
  - intros m Hin. apply in_app_or in Hin. destruct Hin as [Hin|[<-|[]]].
    + destruct (gs_sound _ _ _ _ G m Hin)
        as [tr0 [det0 [Htr [Hdet0 [Hiou [Hth0 [Hpos0 Hbest0]]]]]]].
      exists tr0, det0. split; [apply nth_error_snoc_old, Htr|].
      split; [exact Hdet0|]. split; [exact Hiou|]. split; [exact Hth0|].
      split; [exact Hpos0|].
      intros dj det' Hdj Hnot. apply (Hbest0 dj det' Hdj).
      intros Htaken. apply Hnot.
      apply (takenBefore_snoc_old (ms_matches st) m0 (m_ti m) dj);
        [|exact Htaken].
      pose proof (gs_before _ _ _ _ G m Hin). cbn [m_ti m0]. lia.
    + exists tr, det. cbn [m_ti m_di m_iou m0].
      split; [rewrite nth_error_app2 by lia; rewrite Nat.sub_diag;
              reflexivity|].
      split; [exact Hdet|]. split; [reflexivity|]. split; [exact Hth|].
      split; [exact Hpos|].
      intros dj det' Hdj Hnot. apply (Hbest dj det' Hdj).
      apply (unused_not_taken env dets seen st dj G).
      intros Htaken. apply Hnot.
      apply (takenBefore_snoc_old (ms_matches st) m0 (List.length seen) dj);
        [cbn [m_ti m0]; lia|exact Htaken].
  - intros ti tr0 dj det0 Htr Hdet0 Hnot Hth0 Hpos0.
    apply nth_error_snoc_inv in Htr. destruct Htr as [Htr|[-> ->]].
    + assert (Hlt : (ti < List.length seen)%nat).
      { apply nth_error_Some. rewrite Htr. discriminate. }
      destruct (gs_complete _ _ _ _ G ti tr0 dj det0 Htr Hdet0) as [m [Hin Hti]];
        [|exact Hth0|exact Hpos0|].
      * intros Htaken. apply Hnot.
        apply (takenBefore_snoc_old (ms_matches st) m0 ti dj);
          [cbn [m_ti m0]; lia|exact Htaken].
      * exists m. split; [apply in_or_app; left; exact Hin|exact Hti].
    + exists m0. split; [apply in_or_app; right; left; reflexivity|].
      reflexivity.
Qed.

Lemma goodState_step (env : Env) (dets : list PersonDet) (seen : list Track)
    (st : MatchState) (tr : Track) :
  goodState env dets seen st ->
  goodState env dets (seen ++ [tr])
    (matchTracks env [tr] (List.length seen) dets st).
Proof.
  intros G. cbn [matchTracks].
  pose proof (bestDetection_best tr dets (ms_usedD st)) as [Hcur Hall].
  destruct (bestDetection tr dets 0 (ms_usedD st) None 0) as [bestIdx bestIou].
  cbn [fst snd] in Hcur, Hall.
  destruct bestIdx as [di|].
  - destruct Hcur as [det [Hdet [Hfree [Hiou Hpos]]]]. unfold geb.
    destruct (leb_spec (TRACK_IOU_THRESH env) bestIou) as [Hth|Hlow].
    + subst bestIou. apply goodState_match; assumption.
    + apply goodState_skip; [exact G|].
      intros dj det' Hdj Hfree' Hth' _.
      pose proof (Hall dj det' Hdj Hfree') as Hle.
      revert Hlow Hth' Hle.
      generalize (TRACK_IOU_THRESH env) (iouTrackDet tr det'). intros a b.
      intros. qc2q. lra.
  - apply goodState_skip; [exact G|].
    intros dj det' Hdj Hfree' _ Hpos'.
    pose proof (Hall dj det' Hdj Hfree') as Hle. rewrite Hcur in Hle.
    revert Hpos' Hle. generalize (iouTrackDet tr det'). intros b. intros.
    qc2q. lra.
Qed.

Lemma matchTracks_cons (env : Env) (tr : Track) (rest : list Track)
    (ti : nat) (dets : list PersonDet) (st : MatchState) :
  matchTracks env (tr :: rest) ti dets st
  = matchTracks env rest (S ti) dets (matchTracks env [tr] ti dets st).
Proof.
  cbn [matchTracks].
  destruct (bestDetection tr dets 0 (ms_usedD st) None 0) as [bestIdx bestIou].
  reflexivity.
Qed.

Lemma matchTracks_good (env : Env) (dets : list PersonDet)
    (suffix seen : list Track) (st : MatchState) :
  goodState env dets seen st ->
  goodState env dets (seen ++ suffix)
    (matchTracks env suffix (List.length seen) dets st).
Proof.
  revert seen st. induction suffix as [|tr rest IH]; intros seen st G.
  - cbn [matchTracks]. rewrite app_nil_r. exact G.
  - rewrite matchTracks_cons.
    replace (seen ++ tr :: rest) with ((seen ++ [tr]) ++ rest)
      by (rewrite <- app_assoc; reflexivity).
    replace (S (List.length seen)) with (List.length (seen ++ [tr]))
      by (rewrite length_app; cbn [List.length]; lia).
    apply IH, goodState_step, G.
Qed.

Lemma goodState_init (env : Env) (dets : list PersonDet) :
  goodState env dets [] (mkMatchState [] [] []).
Proof.
  constructor; cbn [ms_matches ms_usedD ms_usedT map rev].
  - reflexivity.
  - reflexivity.
  - constructor.
  - constructor.
  - intros m [].
  - intros m [].
  - intros ti tr dj det Htr. destruct ti; discriminate Htr.
Qed.

Lemma associate_goodState (env : Env) (predicted : list Track)
    (dets : list PersonDet) :
  goodState env dets predicted
    (matchTracks env predicted 0 dets (mkMatchState [] [] [])).
Proof.
  exact (matchTracks_good env dets predicted [] _ (goodState_init env dets)).
Qed.

(** The indices of a recorded match address a predicted track and a
    detection. *)
Lemma matchTracks_in_range (env : Env) (predicted : list Track)
    (dets : list PersonDet) (m : Match) :
  In m (ms_matches (matchTracks env predicted 0 dets (mkMatchState [] [] []))) ->
  (m_ti m < List.length predicted)%nat /\ (m_di m < List.length dets)%nat.
Proof.
  intros Hin.
  destruct (gs_sound _ _ _ _ (associate_goodState env predicted dets) m Hin)
    as [tr [det [Htr [Hdet _]]]].
  split; apply nth_error_Some; [rewrite Htr|rewrite Hdet]; discriminate.
Qed.

(** The three parts of the output of [associateAndUpdate]. *)
Lemma matchedTracks_In (t : Qc) (predicted : list Track)
    (dets : list PersonDet) (matches : list Match) (tr' : Track) :
  In tr' (matchedTracks t predicted dets matches)
  <-> exists m tr det,
        In m matches /\ nth_error predicted (m_ti m) = Some tr
        /\ nth_error dets (m_di m) = Some det
        /\ tr' = updateMatched t tr det.
Proof.
  unfold matchedTracks. rewrite in_flat_map. split.
  - intros [m [Hin Htr]].
    destruct (nth_error predicted (m_ti m)) as [tr|] eqn:Etr; [|destruct Htr].
    destruct (nth_error dets (m_di m)) as [det|] eqn:Edet; [|destruct Htr].
    destruct Htr as [<-|[]]. exists m, tr, det. repeat split; assumption.
  - intros [m [tr [det [Hin [Htr [Hdet ->]]]]]]. exists m.
    split; [exact Hin|]. rewrite Htr, Hdet. left. reflexivity.
Qed.

Lemma unmatchedTracks_In (env : Env) (t : Qc) (l : list Track) (k : nat)
    (usedT : list nat) (tr' : Track) :
  In tr' (unmatchedTracks env t l k usedT)
  <-> exists i tr,
        nth_error l i = Some tr /\ has usedT (k + i) = false
        /\ tr_miss tr + elapsed t tr <= TRACK_MAX_AGE_S env
        /\ tr' = coasted t tr.
Proof.
  revert k. induction l as [|a l IH]; intros k; cbn [unmatchedTracks].
  - split; [intros []|]. intros [i [tr [Hi _]]]. destruct i; discriminate Hi.
  - fold (elapsed t a). fold (coasted t a).
    assert (Hshift : (exists i tr,
                        nth_error l i = Some tr /\ has usedT (S k + i) = false
                        /\ tr_miss tr + elapsed t tr <= TRACK_MAX_AGE_S env
                        /\ tr' = coasted t tr)
                     <-> exists i tr,
                           nth_error (a :: l) (S i) = Some tr
                           /\ has usedT (k + S i) = false
                           /\ tr_miss tr + elapsed t tr <= TRACK_MAX_AGE_S env
                           /\ tr' = coasted t tr).
    { split; intros [i [tr [Hi [Hu Hrest]]]]; exists i, tr;
        (split; [exact Hi|]); (split; [|exact Hrest]).
      - rewrite Nat.add_succ_r. exact Hu.
      - rewrite Nat.add_succ_r in Hu. exact Hu. }
    assert (Hhead : forall P : Prop,
               (P <-> exists i tr,
                        nth_error (a :: l) (S i) = Some tr
                        /\ has usedT (k + S i) = false
                        /\ tr_miss tr + elapsed t tr <= TRACK_MAX_AGE_S env
                        /\ tr' = coasted t tr) ->
               ~ (has usedT k = false
                  /\ tr_miss a + elapsed t a <= TRACK_MAX_AGE_S env) ->
               (P <-> exists i tr,
                        nth_error (a :: l) i = Some tr
                        /\ has usedT (k + i) = false
                        /\ tr_miss tr + elapsed t tr <= TRACK_MAX_AGE_S env
                        /\ tr' = coasted t tr)).
    { intros P HP Hno. rewrite HP. split.
      - intros [i [tr H]]. exists (S i), tr. exact H.
      - intros [i [tr [Hi [Hu [Hm Heq]]]]]. destruct i as [|i].
        + exfalso. apply Hno. cbn in Hi. injection Hi as <-.
          rewrite Nat.add_0_r in Hu. split; assumption.
        + exists i, tr. repeat split; assumption. }
    destruct (has usedT k) eqn:Eused.
    + apply Hhead; [rewrite IH; exact Hshift|]. intros [H _]. discriminate H.
    + destruct (leb_spec (tr_miss a + elapsed t a) (TRACK_MAX_AGE_S env))
        as [Hle|Hgt].
      * cbn [In]. rewrite IH, Hshift. split.
        -- intros [<-|[i [tr H]]].
           ++ exists 0%nat, a. rewrite Nat.add_0_r.
              repeat split; try assumption; reflexivity.
           ++ exists (S i), tr. exact H.
        -- intros [i [tr [Hi [Hu [Hm Heq]]]]]. destruct i as [|i].
           ++ left. cbn in Hi. injection Hi as <-. symmetry. exact Heq.
           ++ right. exists i, tr. repeat split; assumption.
      * apply Hhead; [rewrite IH; exact Hshift|]. intros [_ H].
        revert Hgt H. generalize (tr_miss a + elapsed t a)
                                 (TRACK_MAX_AGE_S env).
        intros x y Hgt H. qc2q. lra.
Qed.

Lemma spawnTracks_In (t : Qc) (l : list PersonDet) (k : nat)
    (usedD : list nat) (nextId : Z) (tr' : Track) :
  In tr' (spawnTracks t l k usedD nextId) ->
  exists i det id,
    nth_error l i = Some det /\ has usedD (k + i) = false
    /\ (nextId <= id)%Z /\ tr' = newTrack t id det.
Proof.
  revert k nextId. induction l as [|a l IH]; intros k nextId;
    cbn [spawnTracks]; [intros []|].
  destruct (has usedD k) eqn:Eused.
  - intros H. apply IH in H. destruct H as [i [det [id [Hi [Hu Hrest]]]]].
    exists (S i), det, id. split; [exact Hi|].
    split; [rewrite Nat.add_succ_r; exact Hu|exact Hrest].
  - intros [<-|H].
    + exists 0%nat, a, nextId. rewrite Nat.add_0_r.
      split; [reflexivity|]. split; [exact Eused|].
      split; [lia|reflexivity].
    + apply IH in H. destruct H as [i [det [id [Hi [Hu [Hid Heq]]]]]].
      exists (S i), det, id. split; [exact Hi|].
      split; [rewrite Nat.add_succ_r; exact Hu|]. split; [lia|exact Heq].
Qed.

Lemma spawnTracks_spawns (t : Qc) (l : list PersonDet) (k : nat)
    (usedD : list nat) (nextId : Z) (i : nat) (det : PersonDet) :
  nth_error l i = Some det -> has usedD (k + i) = false ->
  exists id, (nextId <= id)%Z
             /\ In (newTrack t id det) (spawnTracks t l k usedD nextId).
Proof.
  revert k nextId i. induction l as [|a l IH]; intros k nextId i Hi Hu;
    [destruct i; discriminate Hi|].
  cbn [spawnTracks]. destruct i as [|i].
  - cbn in Hi. injection Hi as ->. rewrite Nat.add_0_r in Hu. rewrite Hu.
    exists nextId. split; [lia|left; reflexivity].
  - cbn in Hi. rewrite Nat.add_succ_r in Hu.
    destruct (has usedD k).
    + exact (IH (S k) nextId i Hi Hu).
    + destruct (IH (S k) (nextId + 1)%Z i Hi Hu) as [id [Hid Hin]].
      exists id. split; [lia|right; exact Hin].
Qed.

Lemma predicted_nth (t bW bH : Qc) (prev : list Track) (i : nat)
    (tr : Track) :
  nth_error (map (predictTrack t bW bH) prev) i = Some tr ->
  exists p, nth_error prev i = Some p /\ tr = predictTrack t bW bH p
            /\ tr_id tr = tr_id p.
Proof.
  rewrite nth_error_map. destruct (nth_error prev i) as [p|]; [|discriminate].
  cbn [option_map]. intros H. injection H as <-. exists p.
  repeat split; reflexivity.
Qed.

Lemma distinct_ids (prev : list Track) (i j : nat) (p q : Track) :
  NoDup (map tr_id prev) ->
  nth_error prev i = Some p -> nth_error prev j = Some q -> i <> j ->
  tr_id p <> tr_id q.
Proof.
  intros Hnd Hi Hj Hij Heq. apply Hij.
  apply (proj1 (NoDup_nth_error (map tr_id prev)) Hnd).
  - rewrite length_map. apply nth_error_Some. rewrite Hi. discriminate.
  - rewrite !nth_error_map, Hi, Hj. cbn [option_map]. f_equal. exact Heq.
Qed.

(** The matching is not by highest overlap over all pairs.  Track 2 sits
    exactly on the only detection (overlap 1) and track 1 overlaps it by
    19/21; both reach the threshold 0.35.  Listed first, track 1 takes the
    detection; track 2, 0.75 s into a miss, is left unmatched, exceeds
    the maximum age of 0.8 s and loses its id, although its pair has the
    highest overlap of all.  With the two tracks in the other order both
    ids survive. *)
Lemma weaker_track_listed_first_wins :
  iouTrackDet (predictTrack 1 (ofZ 1920) (ofZ 1080) freshTrack)
    sharedDetection = dec 19 21
  /\ iouTrackDet (predictTrack 1 (ofZ 1920) (ofZ 1080) exactTrack)
       sharedDetection = 1
  /\ TRACK_IOU_THRESH default_env = dec 35 100
  /\ map (fun m => (m_ti m, m_di m))
       (matchesOf default_env [freshTrack; exactTrack] [sharedDetection] 1
          (ofZ 1920) (ofZ 1080))
     = [(0%nat, 0%nat)]
  /\ map tr_id
       (associateAndUpdate default_env [freshTrack; exactTrack]
          [sharedDetection] 1 (ofZ 1920) (ofZ 1080) 3)
     = [1%Z]
  /\ map tr_id
       (associateAndUpdate default_env [exactTrack; freshTrack]
          [sharedDetection] 1 (ofZ 1920) (ofZ 1080) 3)
     = [2%Z; 1%Z]
  /\ ~ (forall env prev dets t bW bH nextId tr det,
          In tr prev -> In det dets ->
          TRACK_IOU_THRESH env <= iouTrackDet (predictTrack t bW bH tr) det ->
          (forall tr' det',
             In tr' prev -> In det' dets -> tr' <> tr \/ det' <> det ->
             iouTrackDet (predictTrack t bW bH tr') det'
             < iouTrackDet (predictTrack t bW bH tr) det) ->
          exists tr'',
            In tr'' (associateAndUpdate env prev dets t bW bH nextId)
            /\ tr_id tr'' = tr_id tr).
Proof.
  split; [apply Qc_is_canon; vm_compute; reflexivity|].
  split; [apply Qc_is_canon; vm_compute; reflexivity|].
  split; [apply Qc_is_canon; vm_compute; reflexivity|].
  split; [vm_compute; reflexivity|].
  split; [vm_compute; reflexivity|].
  split; [vm_compute; reflexivity|].
  intros H.
  destruct (H default_env [freshTrack; exactTrack] [sharedDetection] 1
              (ofZ 1920) (ofZ 1080) 3%Z exactTrack sharedDetection)
    as [tr'' [Hin Hid]].
  - right. left. reflexivity.
  - left. reflexivity.
  - vm_compute. discriminate.
  - intros tr' det' [<-|[<-|[]]] [<-|[]] Hne.
    + vm_compute. reflexivity.
    + exfalso. destruct Hne as [Hne|Hne]; apply Hne; reflexivity.
  - vm_compute in Hin. destruct Hin as [<-|[]]. discriminate Hid.
Qed.

(** C6 (amended).  In [associateAndUpdate] the predicted tracks are
    processed in list order; each takes the detection of largest positive
    overlap among those no earlier track has taken, and is matched when
    that overlap reaches the threshold.  No track and no detection is
    matched twice.  A track for which such a detection is still available
    is matched; a matched track keeps its id and takes the box of its
    detection.  An unmatched track is kept with its predicted position
    when its miss duration, increased by the time step, is at most the
    maximum age, and otherwise its id leaves the output (ids being
    distinct and below [nextId]).  An unmatched detection spawns a track
    with zero velocity and an id from [nextId] on. *)
Theorem associateAndUpdate_sequential_greedy (env : Env)
    (prev : list Track) (dets : list PersonDet) (t bW bH : Qc) (nextId : Z) :
  NoDup (map m_ti (matchesOf env prev dets t bW bH))
  /\ NoDup (map m_di (matchesOf env prev dets t bW bH))
  /\ (forall m, In m (matchesOf env prev dets t bW bH) ->
        matchSound env dets (map (predictTrack t bW bH) prev)
          (matchesOf env prev dets t bW bH) m)
  /\ matchComplete env dets (map (predictTrack t bW bH) prev)
       (matchesOf env prev dets t bW bH)
  /\ (forall m tr det,
        In m (matchesOf env prev dets t bW bH) ->
        nth_error (map (predictTrack t bW bH) prev) (m_ti m) = Some tr ->
        nth_error dets (m_di m) = Some det ->
        In (updateMatched t tr det)
          (associateAndUpdate env prev dets t bW bH nextId)
        /\ tr_id (updateMatched t tr det) = tr_id tr
        /\ tr_x (updateMatched t tr det) = det_x det
        /\ tr_y (updateMatched t tr det) = det_y det
        /\ tr_miss (updateMatched t tr det) = 0)
  /\ (forall ti tr,
        nth_error (map (predictTrack t bW bH) prev) ti = Some tr ->
        ~ In ti (map m_ti (matchesOf env prev dets t bW bH)) ->
        (tr_miss tr + elapsed t tr <= TRACK_MAX_AGE_S env ->
         In (coasted t tr) (associateAndUpdate env prev dets t bW bH nextId)
         /\ tr_id (coasted t tr) = tr_id tr
         /\ tr_x (coasted t tr) = tr_x tr /\ tr_y (coasted t tr) = tr_y tr)
        /\ (TRACK_MAX_AGE_S env < tr_miss tr + elapsed t tr ->
            NoDup (map tr_id prev) ->
            (forall p, In p prev -> (tr_id p < nextId)%Z) ->
            forall tr',
              In tr' (associateAndUpdate env prev dets t bW bH nextId) ->
              tr_id tr' <> tr_id tr))
  /\ (forall di det,
        nth_error dets di = Some det ->
        ~ In di (map m_di (matchesOf env prev dets t bW bH)) ->
        exists id,
          (nextId <= id)%Z
          /\ In (newTrack t id det)
               (associateAndUpdate env prev dets t bW bH nextId)
          /\ tr_vx (newTrack t id det) = 0
          /\ tr_vy (newTrack t id det) = 0).
Proof.
  unfold matchesOf, associateAndUpdate.
  set (predicted := map (predictTrack t bW bH) prev).
  pose proof (associate_goodState env predicted dets) as G.
  set (st := matchTracks env predicted 0 dets (mkMatchState [] [] [])) in *.
  assert (HusedT : forall ti, has (ms_usedT st) ti = false
                              <-> ~ In ti (map m_ti (ms_matches st))).
  { intros ti. rewrite has_false_iff, (gs_usedT _ _ _ _ G), <- in_rev.
    reflexivity. }
  assert (HusedD : forall di, has (ms_usedD st) di = false
                              <-> ~ In di (map m_di (ms_matches st))).
  { intros di. rewrite has_false_iff, (gs_usedD _ _ _ _ G), <- in_rev.
    reflexivity. }
  split; [exact (gs_nodupT _ _ _ _ G)|].
  split; [exact (gs_nodupD _ _ _ _ G)|].
  split; [exact (gs_sound _ _ _ _ G)|].
  split; [exact (gs_complete _ _ _ _ G)|].
  split.
  { intros m tr det Hin Htr Hdet.
    split; [|repeat split; reflexivity].
    apply in_or_app. left. apply matchedTracks_In.
    exists m, tr, det. repeat split; assumption. }
  split.
  { intros ti tr Htr Hun. split.
    - intros Hage. split; [|repeat split; reflexivity].
      apply in_or_app. right. apply in_or_app. left.
      apply unmatchedTracks_In. exists ti, tr.
      split; [exact Htr|]. split; [apply HusedT, Hun|].
      split; [exact Hage|reflexivity].
    - intros Hold Hnd Hbelow tr' Hin.
      destruct (predicted_nth t bW bH prev ti tr Htr) as [p [Hp [_ Hidp]]].
      rewrite Hidp.
      apply in_app_or in Hin. destruct Hin as [Hin|Hin].
      + apply matchedTracks_In in Hin.
        destruct Hin as [m [trm [det [Hm [Htrm [_ ->]]]]]].
        destruct (predicted_nth t bW bH prev (m_ti m) trm Htrm)
          as [q [Hq [_ Hidq]]].
        cbn [updateMatched tr_id]. rewrite Hidq.
        apply (distinct_ids prev (m_ti m) ti q p Hnd Hq Hp).
        intros E. apply Hun. rewrite <- E. apply in_map, Hm.
      + apply in_app_or in Hin. destruct Hin as [Hin|Hin].
        * apply unmatchedTracks_In in Hin.
          destruct Hin as [j [trj [Hj [_ [Hage ->]]]]].
          destruct (predicted_nth t bW bH prev j trj Hj) as [q [Hq [_ Hidq]]].
          change (tr_id (coasted t trj)) with (tr_id trj). rewrite Hidq.
          apply (distinct_ids prev j ti q p Hnd Hq Hp).
          intros E. subst j. rewrite Htr in Hj. injection Hj as <-.
          revert Hold Hage.
          generalize (tr_miss tr + elapsed t tr) (TRACK_MAX_AGE_S env).
          intros x y Hold Hage. qc2q. lra.
        * apply spawnTracks_In in Hin.
          destruct Hin as [i [det [id [_ [_ [Hid ->]]]]]].
          cbn [newTrack tr_id].
          assert (Hlt : (tr_id p < nextId)%Z).
          { apply Hbelow. apply nth_error_In with ti. exact Hp. }
          lia. }
  intros di det Hdet Hun.
  destruct (spawnTracks_spawns t dets 0 (ms_usedD st) nextId di det Hdet)
    as [id [Hid Hin]]; [apply HusedD, Hun|].
  exists id. split; [exact Hid|]. split; [|split; reflexivity].
  apply in_or_app. right. apply in_or_app. right. exact Hin.
Qed.

(* ------------------------------------------------------------------ *)
(** ** The post-processing steps one by one *)


Lemma stepToward_arrives (current target maxDelta : Qc) :
  Math_abs (target - current) <= maxDelta ->
  stepToward current target maxDelta = target.
Proof.
  intros H. unfold stepToward. rewrite leb_true by exact H. reflexivity.
Qed.



Lemma panLoop_times (m : Qc) (prev : CropKF) (kf : list CropKF) :
  map kf_t (panLoop m prev kf) = map kf_t kf.
Proof.
  revert prev. induction kf as [|c l IH]; intros p; cbn [panLoop map];
    [reflexivity|].
  cbn [withXYZ kf_t]. f_equal. apply IH.
Qed.

Lemma applyPanLimits_times (kf : list CropKF) (m : Qc) :
  map kf_t (applyPanLimits kf m) = map kf_t kf.
Proof.
  destruct kf as [|k0 [|k1 rest]]; cbn [applyPanLimits]; try reflexivity.
  cbn [map]. f_equal. apply (panLoop_times m k0 (k1 :: rest)).
Qed.


Lemma smoothLoop_times (env : Env) (sx sy sz : Qc) (kf : list CropKF) :
  map kf_t (smoothLoop env sx sy sz kf) = map kf_t kf.
Proof.
  revert sx sy sz. induction kf as [|c l IH]; intros; cbn [smoothLoop map];
    [reflexivity|].
  cbn [withXYZ kf_t]. f_equal. apply IH.
Qed.

Lemma smoothKeyframes_times (env : Env) (kf : list CropKF) :
  map kf_t (smoothKeyframes env kf) = map kf_t kf.
Proof.
  destruct kf as [|k0 [|k1 rest]]; cbn [smoothKeyframes]; try reflexivity.
  cbn [map withXYZ kf_t]. f_equal.
  apply (smoothLoop_times env _ _ _ (k1 :: rest)).
Qed.

Lemma deadzoneLoop_times (dzx dzy : Qc) (prev : CropKF) (kf : list CropKF) :
  map kf_t (deadzoneLoop dzx dzy prev kf) = map kf_t kf.
Proof.
  revert prev. induction kf as [|c l IH]; intros p; cbn [deadzoneLoop map];
    [reflexivity|].
  cbn [withXYZ kf_t]. f_equal. apply IH.
Qed.

Lemma applyDeadzone_times (kf : list CropKF) (dzx dzy : Qc) :
  map kf_t (applyDeadzone kf dzx dzy) = map kf_t kf.
Proof.
  destruct kf as [|k0 [|k1 rest]]; cbn [applyDeadzone]; try reflexivity.
  cbn [map]. f_equal. apply (deadzoneLoop_times dzx dzy k0 (k1 :: rest)).
Qed.

Lemma accelLoop_times (m vx vy : Qc) (prev : CropKF) (kf : list CropKF) :
  map kf_t (accelLoop m vx vy prev kf) = map kf_t kf.
Proof.
  revert vx vy prev. induction kf as [|c l IH]; intros; cbn [accelLoop map];
    [reflexivity|].
  cbn [withXYZ kf_t]. f_equal. apply IH.
Qed.

Lemma applyAccelLimits_times (kf : list CropKF) (m : Qc) :
  map kf_t (applyAccelLimits kf m) = map kf_t kf.
Proof.
  destruct kf as [|k0 [|k1 [|k2 rest]]]; cbn [applyAccelLimits];
    try reflexivity.
  cbn [map]. f_equal. apply (accelLoop_times m 0 0 k0 (k1 :: k2 :: rest)).
Qed.

Lemma easeLoop_times (a b e : Qc) (prev : CropKF) (kf : list CropKF) :
  map kf_t (easeLoop a b e prev kf) = map kf_t kf.
Proof.
  revert prev. induction kf as [|c l IH]; intros; cbn [easeLoop map];
    [reflexivity|].
  cbn [withXYZ kf_t]. f_equal. apply IH.
Qed.

Lemma easeSegmentEdges_times (kf : list CropKF) (a b e : Qc) :
  map kf_t (easeSegmentEdges kf a b e) = map kf_t kf.
Proof.
  destruct kf as [|k0 rest]; cbn [easeSegmentEdges]; [reflexivity|].
  destruct (e <=? 0); [reflexivity|].
  cbn [map]. f_equal. apply easeLoop_times.
Qed.

Lemma applyScaledCoords_times (kf : list CropKF) (bW bH : Qc) :
  map kf_t (applyScaledCoords kf bW bH) = map kf_t kf.
Proof.
  unfold applyScaledCoords. rewrite map_map. apply map_ext. reflexivity.
Qed.

(** X2.  The chain smoothKeyframes, applyDeadzone, applyPanLimits,
    applyAccelLimits, easeSegmentEdges, applyScaledCoords that
    computeCropMapPerson runs on the raw keyframes returns as many keyframes
    as it is given, with the same timestamps in the same order. *)
Theorem chain_keeps_timestamps (env : Env) (raw : list CropKF)
    (input : ComputeInput) (constraints : Constraints) :
  map kf_t (scaledChain env raw input constraints) = map kf_t raw
  /\ List.length (scaledChain env raw input constraints) = List.length raw.
Proof.
  assert (E : map kf_t (scaledChain env raw input constraints) = map kf_t raw).
  { unfold scaledChain.
    rewrite applyScaledCoords_times, easeSegmentEdges_times,
      applyAccelLimits_times, applyPanLimits_times, applyDeadzone_times,
      smoothKeyframes_times. reflexivity. }
  split; [exact E|].
  rewrite <- (length_map kf_t), E. apply length_map.
Qed.

Lemma deadzoneLoop_settled (dzx dzy : Qc) (prev : CropKF) (kf : list CropKF) :
  settled dzx dzy (prev :: deadzoneLoop dzx dzy prev kf).
Proof.
  revert prev. induction kf as [|cur rest IH]; intros prev;
    cbn [deadzoneLoop]; [exact I|].
  cbn [settled]. cbn [withXYZ kf_x kf_y kf_z].
  split; [|split; [|split; [|apply IH]]].
  - destruct (ltb_spec (Math_abs (kf_x cur - kf_x prev)) dzx);
      [left; reflexivity|right; assumption].
  - destruct (ltb_spec (Math_abs (kf_y cur - kf_y prev)) dzy);
      [left; reflexivity|right; assumption].
  - destruct (ltb_spec (Math_abs (kf_z cur - kf_z prev)) (dec 1 100));
      [left; reflexivity|right; assumption].
Qed.

(** X3.  After applyDeadzone, from each keyframe to the next x either is
    exactly the same or differs by at least dzx, y likewise with dzy, and z
    is the same or differs by at least 0.01; the timestamps and the first
    keyframe are unchanged. *)
Theorem applyDeadzone_rests_or_jumps (kf : list CropKF) (dzx dzy : Qc) :
  settled dzx dzy (applyDeadzone kf dzx dzy)
  /\ map kf_t (applyDeadzone kf dzx dzy) = map kf_t kf
  /\ hd_error (applyDeadzone kf dzx dzy) = hd_error kf.
Proof.
  split; [|split; [apply applyDeadzone_times|]].
  - destruct kf as [|k0 [|k1 rest]]; cbn [applyDeadzone]; try exact I.
    apply deadzoneLoop_settled.
  - destruct kf as [|k0 [|k1 rest]]; reflexivity.
Qed.

(** Spaced input is left alone. *)
Lemma dedupeLoop_fixed (minDelta : Qc) (prev : CropKF) (kf : list CropKF) :
  spaced minDelta (prev :: kf) -> dedupeLoop minDelta prev kf = kf.
Proof.
  revert prev. induction kf as [|k rest IH]; intros prev H;
    cbn [dedupeLoop]; [reflexivity|].
  destruct H as [H1 H2]. unfold geb. rewrite leb_true by exact H1.
  f_equal. apply IH, H2.
Qed.

Lemma dedupeLoop_length (minDelta : Qc) (prev : CropKF) (kf : list CropKF) :
  (List.length (dedupeLoop minDelta prev kf) <= List.length kf)%nat.
Proof.
  revert prev. induction kf as [|k rest IH]; intros prev; cbn [dedupeLoop];
    [apply le_n|].
  destruct (kf_t k - kf_t prev >=? minDelta); cbn [List.length].
  - apply le_n_S, IH.
  - apply le_S, IH.
Qed.

(** X4.  dedupeByTime keeps the first keyframe and returns keyframes of its
    input, no more than it was given, in which consecutive timestamps are at
    least minDelta apart; applying it a second time changes nothing. *)
Theorem dedupeByTime_spaces_and_keeps_head (kf : list CropKF) (minDelta : Qc) :
  spaced minDelta (dedupeByTime kf minDelta)
  /\ hd_error (dedupeByTime kf minDelta) = hd_error kf
  /\ incl (dedupeByTime kf minDelta) kf
  /\ (List.length (dedupeByTime kf minDelta) <= List.length kf)%nat
  /\ dedupeByTime (dedupeByTime kf minDelta) minDelta
     = dedupeByTime kf minDelta.
Proof.
  split; [apply dedupeByTime_spaced|].
  split; [destruct kf; reflexivity|].
  split; [apply dedupeByTime_incl|].
  split.
  - destruct kf as [|k0 rest]; [apply le_n|]. cbn [dedupeByTime List.length].
    apply le_n_S, dedupeLoop_length.
  - destruct kf as [|k0 rest]; [reflexivity|]. cbn [dedupeByTime].
    f_equal. apply dedupeLoop_fixed, dedupeLoop_spaced.
Qed.

(* ------------------------------------------------------------------ *)
(** ** Compression below the ceiling *)

Lemma spaced_tail (d : Qc) (a : CropKF) (l : list CropKF) :
  spaced d (a :: l) -> spaced d l.
Proof. destruct l as [|b l]; [intros; exact I|]. intros [_ H]. exact H. Qed.

Lemma spaced_reaches (d : Qc) (a : CropKF) (l : list CropKF) :
  0 <= d -> spaced d (a :: l) ->
  Forall (fun b => d <= kf_t b - kf_t a) l.
Proof.
  intros Hd. revert a. induction l as [|b l IH]; intros a H; [constructor|].
  destruct H as [H1 H2]. constructor; [exact H1|].
  specialize (IH b H2). eapply Forall_impl; [|exact IH].
  cbn beta. intros c Hc.
  generalize dependent (kf_t a). generalize dependent (kf_t b).
  generalize dependent (kf_t c). intros. qc2q. lra.
Qed.

Lemma filterLoop_spaced (d : Qc) (prev lst : CropKF) (mid : list CropKF) :
  0 <= d ->
  Forall (fun b => d <= kf_t b - kf_t prev) (mid ++ [lst]) ->
  spaced d (mid ++ [lst]) ->
  spaced d (prev :: filterLoop prev mid ++ [lst]).
Proof.
  intros Hd. revert prev. induction mid as [|curr rest IH]; intros prev HF HS.
  - cbn [filterLoop app spaced]. inversion HF; subst. split; [assumption|exact I].
  - cbn [filterLoop]. cbn [app] in HF, HS.
    inversion HF as [|? ? Hc HF']; subst.
    assert (Keep : spaced d (prev :: (curr :: filterLoop curr rest) ++ [lst])).
    { cbn [app]. split; [exact Hc|].
      apply IH; [apply spaced_reaches; assumption|].
      eapply spaced_tail, HS. }
    assert (Skip : spaced d (prev :: filterLoop prev rest ++ [lst])).
    { apply IH; [exact HF'|]. eapply spaced_tail, HS. }
    destruct (kf_t curr - kf_t prev <? dec 15 100); [exact Skip|].
    destruct ((Math_pow2 (kf_x curr - kf_x prev)
               + Math_pow2 (kf_y curr - kf_y prev) <? 1)
              && (Math_abs (kf_z curr - kf_z prev) <? dec 5 1000));
      [exact Skip|exact Keep].
Qed.

Lemma filterLoop_length (prev : CropKF) (mid : list CropKF) :
  (List.length (filterLoop prev mid) <= List.length mid)%nat.
Proof.
  revert prev. induction mid as [|c l IH]; intros p; cbn [filterLoop];
    [apply le_n|].
  destruct (kf_t c - kf_t p <? dec 15 100); [apply le_S, IH|].
  destruct ((Math_pow2 (kf_x c - kf_x p) + Math_pow2 (kf_y c - kf_y p) <? 1)
            && (Math_abs (kf_z c - kf_z p) <? dec 5 1000));
    [apply le_S, IH|cbn [List.length]; apply le_n_S, IH].
Qed.

(** The filtering branch on [k0 :: mid ++ [lst]]. *)
Lemma compressCropMap_filters (k0 lst : CropKF) (mid : list CropKF)
    (maxKeyframes : nat) :
  mid <> [] ->
  (List.length (k0 :: mid ++ [lst]) <= maxKeyframes)%nat ->
  compressCropMap (k0 :: mid ++ [lst]) maxKeyframes
  = k0 :: filterLoop k0 mid ++ [lst].
Proof.
  intros Hmid Hn. unfold compressCropMap.
  assert (L : List.length (k0 :: mid ++ [lst]) = S (S (List.length mid))).
  { cbn [List.length]. rewrite length_app. cbn [List.length]. lia. }
  rewrite L.
  destruct mid as [|m mid']; [contradiction|].
  replace (S (S (List.length (m :: mid'))) <=? 2)%nat with false
    by (symmetry; apply Nat.leb_gt; cbn [List.length]; lia).
  replace (S (S (List.length (m :: mid'))) <=? maxKeyframes)%nat with true
    by (symmetry; apply Nat.leb_le; lia).
  f_equal. f_equal.
  - replace (S (S (List.length (m :: mid'))) - 2)%nat
      with (List.length (m :: mid') + 0)%nat by lia.
    change (skipn 1 (k0 :: (m :: mid') ++ [lst])) with ((m :: mid') ++ [lst]).
    rewrite firstn_app_2. cbn [firstn]. rewrite app_nil_r. reflexivity.
  - f_equal.
    replace (S (S (List.length (m :: mid'))) - 1)%nat
      with (S (List.length (m :: mid'))) by lia.
    change (nth (S (List.length (m :: mid'))) (k0 :: (m :: mid') ++ [lst]) k0)
      with (nth (List.length (m :: mid')) ((m :: mid') ++ [lst]) k0).
    rewrite app_nth2 by apply le_n. rewrite Nat.sub_diag. reflexivity.
Qed.

(** X5.  When there are at most maxKeyframes keyframes, compressCropMap
    keeps the first and the last keyframe, returns only keyframes of its
    input and no more than it was given, and, for minDelta >= 0, leaves
    keyframes that are at least minDelta apart at least minDelta apart. *)
Theorem compressCropMap_within_ceiling (kf : list CropKF)
    (maxKeyframes : nat) (minDelta : Qc) (d : CropKF) :
  (List.length kf <= maxKeyframes)%nat ->
  hd_error (compressCropMap kf maxKeyframes) = hd_error kf
  /\ last (compressCropMap kf maxKeyframes) d = last kf d
  /\ (List.length (compressCropMap kf maxKeyframes) <= List.length kf)%nat
  /\ incl (compressCropMap kf maxKeyframes) kf
  /\ (0 <= minDelta -> spaced minDelta kf ->
      spaced minDelta (compressCropMap kf maxKeyframes)).
Proof.
  intros Hn.
  assert (Same : forall l : list CropKF,
            hd_error l = hd_error l /\ last l d = last l d
            /\ (List.length l <= List.length l)%nat /\ incl l l
            /\ (0 <= minDelta -> spaced minDelta l -> spaced minDelta l)).
  { intros l. repeat split; try apply le_n; try apply incl_refl.
    intros _ H. exact H. }
  destruct kf as [|k0 tl]; [apply Same|].
  destruct (exists_last (l := k0 :: tl)) as [body [lst E]]; [discriminate|].
  destruct body as [|k0' mid]; [cbn in E; injection E as -> ->; apply Same|].
  cbn [app] in E. injection E as <- ->.
  destruct mid as [|m mid'].
  { apply Same. }
  rewrite compressCropMap_filters by (try discriminate; exact Hn).
  split; [reflexivity|].
  split.
  { change (k0 :: filterLoop k0 (m :: mid') ++ [lst])
      with ((k0 :: filterLoop k0 (m :: mid')) ++ [lst]).
    change (k0 :: (m :: mid') ++ [lst]) with ((k0 :: m :: mid') ++ [lst]).
    rewrite !last_last. reflexivity. }
  split.
  { cbn [List.length]. rewrite !length_app. cbn [List.length].
    pose proof (filterLoop_length k0 (m :: mid')) as H.
    cbn [List.length] in H. lia. }
  split.
  { rewrite <- (compressCropMap_filters k0 lst (m :: mid') maxKeyframes)
      by (try discriminate; exact Hn).
    apply compressCropMap_incl. }
  intros Hd HS. apply filterLoop_spaced; [exact Hd| |].
  - apply spaced_reaches; assumption.
  - eapply spaced_tail, HS.
Qed.

Lemma compressCropMap_within_ceiling_witness :
  (List.length threeSpaced <= 120)%nat
  /\ spaced (dec 1 10) (compressCropMap threeSpaced 120).
Proof.
  split; [vm_compute; lia|].
  apply (compressCropMap_within_ceiling threeSpaced 120 (dec 1 10)
           (mkKF 0 0 0 0 0 0 0 0)).
  - vm_compute; lia.
  - vm_compute; discriminate.
  - vm_compute. repeat split; discriminate.
Defined.

(* ------------------------------------------------------------------ *)
(** ** Zoom solver and optimiser *)







Lemma get_set_same (l : list Qc) (i : nat) (v : Qc) :
  (i < List.length l)%nat -> get (set l i v) i = v.
Proof.
  revert i. induction l as [|a l IH]; intros i H; [cbn in H; lia|].
  destruct i; [reflexivity|]. cbn [set]. unfold get. cbn [nth].
  apply IH. cbn [List.length] in H. lia.
Qed.

Lemma get_set_other (l : list Qc) (i j : nat) (v : Qc) :
  i <> j -> get (set l i v) j = get l j.
Proof.
  revert i j. induction l as [|a l IH]; intros i j H.
  - destruct i; reflexivity.
  - destruct i, j; try reflexivity; [contradiction|].
    cbn [set]. unfold get. cbn [nth]. apply IH. congruence.
Qed.

Lemma descend_from (g L U : list Qc) (lr : Qc) (k a : nat) (x : list Qc) :
  (a + k <= List.length x)%nat ->
  forall i,
    get (fold_left (fun x i =>
           let xi := get x i - lr * get g i in
           let xi := if xi <? get L i then get L i else xi in
           let xi := if xi >? get U i then get U i else xi in
           set x i xi) (seq a k) x) i
    = if (a <=? i)%nat && (i <? a + k)%nat then projected x g L U lr i
      else get x i.
Proof.
  revert a x. induction k as [|k IH]; intros a x Hlen i.
  - cbn [seq fold_left].
    destruct (a <=? i)%nat eqn:E1; [|reflexivity].
    replace (i <? a + 0)%nat with false; [reflexivity|].
    symmetry. apply Nat.ltb_ge. apply Nat.leb_le in E1. lia.
  - cbn [seq fold_left]. rewrite IH by (rewrite set_length; lia).
    destruct (Nat.eq_dec a i) as [->|Hne].
    + replace (S i <=? i)%nat with false
        by (symmetry; apply Nat.leb_gt; lia).
      rewrite Nat.leb_refl.
      replace (i <? i + S k)%nat with true
        by (symmetry; apply Nat.ltb_lt; lia).
      cbn [andb]. rewrite get_set_same by lia. reflexivity.
    + replace ((S a <=? i)%nat && (i <? S a + k)%nat)
        with ((a <=? i)%nat && (i <? a + S k)%nat).
      2:{ destruct (a <=? i)%nat eqn:E1; destruct (S a <=? i)%nat eqn:E2;
          destruct (i <? a + S k)%nat eqn:E3;
          destruct (i <? S a + k)%nat eqn:E4; try reflexivity; exfalso;
          repeat match goal with
          | H : (_ <=? _)%nat = true |- _ => apply Nat.leb_le in H
          | H : (_ <=? _)%nat = false |- _ => apply Nat.leb_gt in H
          | H : (_ <? _)%nat = true |- _ => apply Nat.ltb_lt in H
          | H : (_ <? _)%nat = false |- _ => apply Nat.ltb_ge in H
          end; lia. }
      destruct ((a <=? i)%nat && (i <? a + S k)%nat); [|apply get_set_other, Hne].
      unfold projected. rewrite !get_set_other by exact Hne. reflexivity.
Qed.

Lemma descend_get (n : nat) (x g L U : list Qc) (lr : Qc) (i : nat) :
  List.length x = n -> (i < n)%nat ->
  get (descend n x g L U lr) i = projected x g L U lr i.
Proof.
  intros Hlen Hi. unfold descend. rewrite descend_from by lia.
  replace ((0 <=? i)%nat && (i <? 0 + n)%nat) with true; [reflexivity|].
  symmetry. apply andb_true_iff. split; [apply Nat.leb_le; lia|].
  apply Nat.ltb_lt. lia.
Qed.

Lemma projected_within (x g L U : list Qc) (lr : Qc) (i : nat) :
  projected x g L U lr i <= get U i
  /\ (get L i <= get U i -> get L i <= projected x g L U lr i).
Proof.
  unfold projected. cbv zeta. unfold gtb.
  generalize (get x i - lr * get g i), (get L i), (get U i). intros v l u.
  split; [|intros H]; cases_cmp; qc2q; lra.
Qed.

Lemma iterate_last (k : nat) (step : list Qc -> list Qc) (x : list Qc) :
  iterate (S k) step x = step (iterate k step x).
Proof.
  revert x. induction k as [|k IH]; intros x; [reflexivity|].
  change (iterate (S (S k)) step x) with (iterate (S k) step (step x)).
  rewrite IH. reflexivity.
Qed.

(** X7.  For arrays of one length and at least one iteration, every value
    globalOptimize1D returns is at most its upper bound U[i], and at least
    its lower bound L[i] whenever L[i] <= U[i]. *)
Theorem globalOptimize1D_within_bounds (t des L U w : list Qc)
    (lambdaV lambdaA iters lr : Qc) (i : nat) :
  0 < iters ->
  List.length L = List.length des ->
  List.length U = List.length des ->
  List.length w = List.length des ->
  (i < List.length des)%nat ->
  get (globalOptimize1D t des L U w lambdaV lambdaA iters lr) i <= get U i
  /\ (get L i <= get U i ->
      get L i <= get (globalOptimize1D t des L U w lambdaV lambdaA iters lr) i).
Proof.
  intros Hit _ _ _ Hi. unfold globalOptimize1D.
  assert (Hk : exists k, Z.to_nat (Qceiling iters) = S k).
  { assert (0 < Qceiling iters)%Z.
    { destruct (Z_lt_le_dec 0 (Qceiling iters)) as [H|H]; [exact H|].
      exfalso. pose proof (Qle_ceiling iters) as Hc.
      rewrite Zle_Qle in H. qc2q. change (inject_Z 0) with 0%Q in H. lra. }
    exists (Z.to_nat (Qceiling iters) - 1)%nat. lia. }
  destruct Hk as [k ->]. rewrite iterate_last.
  rewrite descend_get; [apply projected_within| |exact Hi].
  apply iterate_length. intros y. apply descend_length.
Qed.

Lemma globalOptimize1D_within_bounds_witness :
  get (globalOptimize1D [0; 1] [ofZ 5; ofZ 9] [0; ofZ 2] [ofZ 3; ofZ 4]
         [1; 1] 1 1 (ofZ 3) (dec 1 10)) 1 <= get [ofZ 3; ofZ 4] 1
  /\ (get [0; ofZ 2] 1 <= get [ofZ 3; ofZ 4] 1 ->
      get [0; ofZ 2] 1
      <= get (globalOptimize1D [0; 1] [ofZ 5; ofZ 9] [0; ofZ 2]
                [ofZ 3; ofZ 4] [1; 1] 1 1 (ofZ 3) (dec 1 10)) 1).
Proof.
  apply globalOptimize1D_within_bounds.
  - vm_compute; reflexivity.
  - reflexivity.
  - reflexivity.
  - reflexivity.
  - simpl; lia.
Defined.

(* ------------------------------------------------------------------ *)
(** ** Feasible region, group bounds, anchor and overlap *)

(** X8.  The horizontal interval that buildFeasible returns is ordered and
    lies in the frame: 0 <= xL <= xDes <= xU <= max(0, bW - targetW); both
    insets are at least 8 pixels. *)
Theorem buildFeasible_horizontal_interval (group : Group) (anchor : PersonDet)
    (targetW targetH bW bH : Qc) (constraints : Constraints)
    (smoothedPosition : Qc * Qc) :
  let f := buildFeasible group anchor targetW targetH bW bH constraints
             smoothedPosition in
  0 <= f_xL f
  /\ f_xL f <= f_xDes f
  /\ f_xDes f <= f_xU f
  /\ f_xU f <= Math_max 0 (bW - targetW)
  /\ ofZ 8 <= f_insetX f /\ ofZ 8 <= f_insetY f.
Proof.
  cbv zeta. unfold buildFeasible. cbv zeta.
  set (hi := Math_max 0 (bW - targetW)).
  assert (Hhi : 0 <= hi) by apply Math_max_l.
  set (xL0 := clamp (_ + _ - targetW) 0 hi).
  set (xU0 := clamp (clamp _ 0 bW - _) 0 hi).
  set (mid := clamp (_ / ofZ 2 - targetW / ofZ 2) 0 hi).
  assert (HL : 0 <= xL0 <= hi) by (apply clamp_bounds, Hhi).
  assert (HU : 0 <= xU0 <= hi) by (apply clamp_bounds, Hhi).
  assert (HM : 0 <= mid <= hi) by (apply clamp_bounds, Hhi).
  clearbody xL0 xU0 mid.
  assert (HX : exists xL xU,
             (if xL0 >? xU0 then (mid, mid) else (xL0, xU0)) = (xL, xU)
             /\ 0 <= xL /\ xL <= xU /\ xU <= hi).
  { unfold gtb. destruct (ltb_spec xU0 xL0) as [H|H].
    - exists mid, mid. repeat split; try apply HM. apply Qcle_refl.
    - exists xL0, xU0. repeat split; try apply HL; try apply HU. exact H. }
  destruct HX as [xL [xU [-> [H0 [H1 H2]]]]].
  match goal with
  | |- context [if ?a >? ?b then _ else (?a, ?b)] =>
      destruct (if a >? b then _ else (a, b)) as [yL yU]
  end.
  cbn [f_xL f_xU f_xDes f_insetX f_insetY].
  pose proof (clamp_bounds
    (fst smoothedPosition * Math_max 0 (Math_min 1 (centerBiasX constraints))
     + bW / ofZ 2 * (1 - Math_max 0 (Math_min 1 (centerBiasX constraints)))
     - targetW / ofZ 2) xL xU H1) as [D1 D2].
  repeat split; try assumption; apply Math_max_l.
Qed.

Lemma boundsStep_grows (b : Bounds) (d e : PersonDet) :
  encloses b e -> encloses (boundsStep b d) e.
Proof.
  intros [H1 [H2 [H3 H4]]]. unfold encloses, boundsStep.
  cbn [b_minX b_maxX b_minY b_maxY]. repeat split.
  - eapply Qcle_trans; [apply Math_min_l|exact H1].
  - eapply Qcle_trans; [exact H2|apply Math_max_l].
  - eapply Qcle_trans; [apply Math_min_l|exact H3].
  - eapply Qcle_trans; [exact H4|apply Math_max_l].
Qed.

Lemma boundsStep_self (b : Bounds) (d : PersonDet) :
  encloses (boundsStep b d) d.
Proof.
  unfold encloses, boundsStep. cbn [b_minX b_maxX b_minY b_maxY].
  repeat split; try apply Math_min_r; apply Math_max_r.
Qed.

Lemma fold_bounds_encloses (rest : list PersonDet) (b : Bounds)
    (d : PersonDet) :
  encloses b d \/ In d rest ->
  encloses (fold_left boundsStep rest b) d.
Proof.
  revert b. induction rest as [|e rest IH]; intros b H; cbn [fold_left].
  - destruct H as [H|[]]. exact H.
  - apply IH. destruct H as [H|[->|H]].
    + left. apply boundsStep_grows, H.
    + left. apply boundsStep_self.
    + right. exact H.
Qed.

(** X9.  The bounds that computeBounds returns for a non-empty list of
    detections enclose the box of every detection, so the group built from
    them by boundsToGroup is at least as wide and as high as every
    detection. *)
Theorem computeBounds_encloses (d0 : PersonDet) (rest : list PersonDet) :
  Forall (fun d =>
            encloses (computeBounds d0 rest) d
            /\ det_w d <= g_groupW (boundsToGroup (computeBounds d0 rest))
            /\ det_h d <= g_groupH (boundsToGroup (computeBounds d0 rest)))
    (d0 :: rest).
Proof.
  apply Forall_forall. intros d H.
  assert (E : encloses (computeBounds d0 rest) d).
  { unfold computeBounds. apply (fold_bounds_encloses rest _ d).
    destruct H as [<-|H]; [left|right; exact H].
    unfold encloses. cbn [b_minX b_maxX b_minY b_maxY].
    repeat split; apply Qcle_refl. }
  split; [exact E|].
  destruct E as [E1 [E2 [E3 E4]]].
  unfold boundsToGroup. cbn [g_groupW g_groupH].
  generalize dependent (computeBounds d0 rest). intros b E1 E2 E3 E4.
  split; qc2q; lra.
Qed.

Section ChooseAnchor.

Variable Math_hypot : Qc -> Qc -> Qc.

Lemma chooseAnchor_fold (rest : list PersonDet) (bW bH : Qc)
    (best : PersonDet) (seen : list PersonDet) :
  In best seen ->
  (forall d, In d seen ->
     anchorScore Math_hypot d bW bH <= anchorScore Math_hypot best bW bH) ->
  let r := fst (fold_left (fun '(best, bestScore) d =>
              let s := anchorScore Math_hypot d bW bH in
              if s >? bestScore then (d, s) else (best, bestScore))
            rest (best, anchorScore Math_hypot best bW bH)) in
  In r (seen ++ rest)
  /\ forall d, In d (seen ++ rest) ->
       anchorScore Math_hypot d bW bH <= anchorScore Math_hypot r bW bH.
Proof.
  revert best seen. induction rest as [|e rest IH]; intros best seen Hin Hmax.
  - cbn [fold_left fst]. rewrite app_nil_r. split; assumption.
  - cbn [fold_left]. cbv zeta.
    replace (seen ++ e :: rest) with ((seen ++ [e]) ++ rest)
      by (rewrite <- app_assoc; reflexivity).
    unfold gtb.
    destruct (ltb_spec (anchorScore Math_hypot best bW bH)
                (anchorScore Math_hypot e bW bH)) as [H|H].
    + apply IH.
      * apply in_or_app. right. left. reflexivity.
      * intros d Hd. apply in_app_or in Hd. destruct Hd as [Hd|[<-|[]]].
        -- eapply Qcle_trans; [apply Hmax, Hd|]. apply Qclt_le_weak, H.
        -- apply Qcle_refl.
    + apply IH.
      * apply in_or_app. left. exact Hin.
      * intros d Hd. apply in_app_or in Hd. destruct Hd as [Hd|[<-|[]]].
        -- apply Hmax, Hd.
        -- exact H.
Qed.

(** X10.  chooseAnchor returns one of the detections it is given, and no
    detection has a higher anchorScore than the one returned. *)
Theorem chooseAnchor_maximal (d0 : PersonDet) (rest : list PersonDet)
    (bW bH : Qc) :
  In (chooseAnchor Math_hypot d0 rest bW bH) (d0 :: rest)
  /\ forall d, In d (d0 :: rest) ->
       anchorScore Math_hypot d bW bH
       <= anchorScore Math_hypot (chooseAnchor Math_hypot d0 rest bW bH) bW bH.
Proof.
  unfold chooseAnchor.
  apply (chooseAnchor_fold rest bW bH d0 [d0]).
  - left. reflexivity.
  - intros d [<-|[]]. apply Qcle_refl.
Qed.

End ChooseAnchor.

Lemma Qc_ratio_le_1 (a b : Qc) : 0 < b -> 0 <= a -> a <= b -> 0 <= a / b <= 1.
Proof.
  intros Hb Ha Hab. qc2q. split.
  - apply Qle_shift_div_l; lra.
  - apply Qle_shift_div_r; lra.
Qed.

(** X11.  iouTrackDet lies between 0 and 1, and it is positive only when the
    track box and the detection box both have positive width and height and
    overlap in both directions. *)
Theorem iouTrackDet_range (tr : Track) (d : PersonDet) :
  0 <= iouTrackDet tr d <= 1
  /\ (0 < iouTrackDet tr d ->
      0 < tr_w tr /\ 0 < tr_h tr /\ 0 < det_w d /\ 0 < det_h d
      /\ tr_x tr < det_x d + det_w d /\ det_x d < tr_x tr + tr_w tr
      /\ tr_y tr < det_y d + det_h d /\ det_y d < tr_y tr + tr_h tr).
Proof.
  unfold iouTrackDet. cbv zeta.
  set (xx1 := Math_max (tr_x tr) (det_x d)).
  set (yy1 := Math_max (tr_y tr) (det_y d)).
  set (xx2 := Math_min (tr_x tr + tr_w tr) (det_x d + det_w d)).
  set (yy2 := Math_min (tr_y tr + tr_h tr) (det_y d + det_h d)).
  assert (Zero : 0 <= 0 <= 1
            /\ (0 < 0 -> 0 < tr_w tr /\ 0 < tr_h tr /\ 0 < det_w d
                /\ 0 < det_h d
                /\ tr_x tr < det_x d + det_w d /\ det_x d < tr_x tr + tr_w tr
                /\ tr_y tr < det_y d + det_h d /\ det_y d < tr_y tr + tr_h tr)).
  { split; [split; qc2q; lra|]. intros H. exfalso. qc2q. lra. }
  destruct (leb_spec xx2 xx1) as [Hx|Hx]; [exact Zero|].
  destruct (leb_spec yy2 yy1) as [Hy|Hy]; [exact Zero|]. cbn [orb].
  pose proof (Math_max_l (tr_x tr) (det_x d)) as A1.
  pose proof (Math_max_r (tr_x tr) (det_x d)) as A2.
  pose proof (Math_max_l (tr_y tr) (det_y d)) as A3.
  pose proof (Math_max_r (tr_y tr) (det_y d)) as A4.
  pose proof (Math_min_l (tr_x tr + tr_w tr) (det_x d + det_w d)) as B1.
  pose proof (Math_min_r (tr_x tr + tr_w tr) (det_x d + det_w d)) as B2.
  pose proof (Math_min_l (tr_y tr + tr_h tr) (det_y d + det_h d)) as B3.
  pose proof (Math_min_r (tr_y tr + tr_h tr) (det_y d + det_h d)) as B4.
  fold xx1 in A1, A2. fold yy1 in A3, A4. fold xx2 in B1, B2.
  fold yy2 in B3, B4.
  clearbody xx1 yy1 xx2 yy2.
  assert (Geo : 0 < tr_w tr /\ 0 < tr_h tr /\ 0 < det_w d /\ 0 < det_h d
                /\ tr_x tr < det_x d + det_w d /\ det_x d < tr_x tr + tr_w tr
                /\ tr_y tr < det_y d + det_h d /\ det_y d < tr_y tr + tr_h tr).
  { generalize dependent (tr_x tr). generalize dependent (tr_y tr).
    generalize dependent (tr_w tr). generalize dependent (tr_h tr).
    generalize dependent (det_x d). generalize dependent (det_y d).
    generalize dependent (det_w d). generalize dependent (det_h d).
    intros. clear Zero. qc2q. repeat split; lra. }
  assert (I1 : 0 < (xx2 - xx1) * (yy2 - yy1)) by (clear - Hx Hy; qc2q; nra).
  assert (I2 : (xx2 - xx1) * (yy2 - yy1) <= tr_w tr * tr_h tr).
  { generalize dependent (tr_x tr). generalize dependent (tr_y tr).
    generalize dependent (tr_w tr). generalize dependent (tr_h tr).
    intros. clear Zero Geo B2 B4 A2 A4. qc2q. nra. }
  assert (I3 : (xx2 - xx1) * (yy2 - yy1) <= det_w d * det_h d).
  { generalize dependent (det_x d). generalize dependent (det_y d).
    generalize dependent (det_w d). generalize dependent (det_h d).
    intros. clear Zero Geo B1 B3 A1 A3 I2. qc2q. nra. }
  set (inter := (xx2 - xx1) * (yy2 - yy1)) in *.
  set (uni := tr_w tr * tr_h tr + det_w d * det_h d - inter).
  assert (U : inter <= uni).
  { unfold uni. clearbody inter. generalize dependent (tr_w tr * tr_h tr).
    generalize dependent (det_w d * det_h d). intros. clear Zero Geo.
    qc2q. lra. }
  assert (Up : 0 < uni) by (eapply Qclt_le_trans; [exact I1|exact U]).
  destruct (leb_spec uni 0) as [H|H].
  { exfalso. clear - H Up. qc2q. lra. }
  split; [|intros _; exact Geo].
  apply Qc_ratio_le_1; [exact Up|apply Qclt_le_weak, I1|exact U].
Qed.

(* ------------------------------------------------------------------ *)
(** ** Identities and detections in the tracker *)

Lemma matched_ids (t : Qc) (predicted : list Track) (dets : list PersonDet)
    (matches : list Match) (id : Z) :
  In id (map tr_id (matchedTracks t predicted dets matches)) ->
  exists m tr, In m matches /\ nth_error predicted (m_ti m) = Some tr
               /\ tr_id tr = id.
Proof.
  rewrite in_map_iff. intros [tr' [<- Hin]].
  apply matchedTracks_In in Hin.
  destruct Hin as [m [tr [det [Hm [Htr [_ ->]]]]]].
  exists m, tr. repeat split; assumption.
Qed.

Lemma matchedTracks_NoDup (t : Qc) (predicted : list Track)
    (dets : list PersonDet) (matches : list Match) :
  NoDup (map tr_id predicted) -> NoDup (map m_ti matches) ->
  NoDup (map tr_id (matchedTracks t predicted dets matches)).
Proof.
  intros Hp. induction matches as [|m matches IH]; intros Hm;
    [constructor|].
  cbn [map] in Hm. inversion Hm as [|? ? Hnotin Hm']; subst.
  unfold matchedTracks. cbn [flat_map].
  fold (matchedTracks t predicted dets matches).
  destruct (nth_error predicted (m_ti m)) as [tr|] eqn:Etr; [|apply IH, Hm'].
  destruct (nth_error dets (m_di m)) as [det|]; [|apply IH, Hm'].
  cbn [app map updateMatched tr_id]. constructor; [|apply IH, Hm'].
  intros Hin. apply matched_ids in Hin.
  destruct Hin as [m' [tr' [Hm'in [Htr' Hid]]]].
  destruct (Nat.eq_dec (m_ti m') (m_ti m)) as [E|E].
  - apply Hnotin. rewrite <- E. apply in_map, Hm'in.
  - exact (distinct_ids predicted _ _ _ _ Hp Htr' Etr E Hid).
Qed.

Lemma unmatched_ids (env : Env) (t : Qc) (l : list Track) (k : nat)
    (usedT : list nat) (id : Z) :
  In id (map tr_id (unmatchedTracks env t l k usedT)) ->
  exists i tr, nth_error l i = Some tr /\ has usedT (k + i) = false
               /\ tr_id tr = id.
Proof.
  rewrite in_map_iff. intros [tr' [<- Hin]].
  apply unmatchedTracks_In in Hin.
  destruct Hin as [i [tr [Hi [Hu [_ ->]]]]].
  exists i, tr. repeat split; assumption.
Qed.

Lemma unmatchedTracks_NoDup (env : Env) (t : Qc) (l : list Track) (k : nat)
    (usedT : list nat) :
  NoDup (map tr_id l) -> NoDup (map tr_id (unmatchedTracks env t l k usedT)).
Proof.
  revert k. induction l as [|a l IH]; intros k Hl; [constructor|].
  cbn [map] in Hl. inversion Hl as [|? ? Hnotin Hl']; subst.
  cbn [unmatchedTracks].
  destruct (has usedT k); [apply IH, Hl'|].
  destruct (_ <=? TRACK_MAX_AGE_S env); [|apply IH, Hl'].
  cbn [map with_time tr_id]. constructor; [|apply IH, Hl'].
  intros Hin. apply unmatched_ids in Hin.
  destruct Hin as [i [tr [Hi [_ Hid]]]]. apply Hnotin. rewrite <- Hid.
  apply in_map. eapply nth_error_In, Hi.
Qed.

Lemma spawned_ids (t : Qc) (dets : list PersonDet) (di : nat)
    (usedD : list nat) (nextId : Z) (id : Z) :
  In id (map tr_id (spawnTracks t dets di usedD nextId)) ->
  (nextId <= id < nextId + Z.of_nat (List.length dets))%Z.
Proof.
  revert di nextId. induction dets as [|d dets IH]; intros di nextId;
    cbn [spawnTracks]; [intros []|].
  cbn [List.length]. destruct (has usedD di).
  - intros H. apply IH in H. lia.
  - cbn [map newTrack tr_id]. intros [<-|H]; [lia|]. apply IH in H. lia.
Qed.

Lemma spawnTracks_NoDup (t : Qc) (dets : list PersonDet) (di : nat)
    (usedD : list nat) (nextId : Z) :
  NoDup (map tr_id (spawnTracks t dets di usedD nextId)).
Proof.
  revert di nextId. induction dets as [|d dets IH]; intros di nextId;
    cbn [spawnTracks]; [constructor|].
  destruct (has usedD di); [apply IH|].
  cbn [map newTrack tr_id]. constructor; [|apply IH].
  intros H. apply spawned_ids in H. lia.
Qed.

Lemma predicted_ids (t bW bH : Qc) (prev : list Track) :
  map tr_id (map (predictTrack t bW bH) prev) = map tr_id prev.
Proof. rewrite map_map. apply map_ext. reflexivity. Qed.

(** The ids of the tracks returned for one frame. *)
Lemma associateAndUpdate_ids (env : Env) (prev : list Track)
    (dets : list PersonDet) (t bW bH : Qc) (nextId : Z) :
  NoDup (map tr_id prev) ->
  (forall p, In p prev -> (tr_id p < nextId)%Z) ->
  NoDup (map tr_id (associateAndUpdate env prev dets t bW bH nextId))
  /\ forall tr, In tr (associateAndUpdate env prev dets t bW bH nextId) ->
       (tr_id tr < nextId + Z.of_nat (List.length dets))%Z
       /\ (In (tr_id tr) (map tr_id prev) \/ (nextId <= tr_id tr)%Z).
Proof.
  intros Hnd Hlt. unfold associateAndUpdate.
  set (predicted := map (predictTrack t bW bH) prev).
  pose proof (associate_goodState env predicted dets) as G.
  set (st := matchTracks env predicted 0 dets (mkMatchState [] [] [])) in *.
  assert (Hp : NoDup (map tr_id predicted))
    by (unfold predicted; rewrite predicted_ids; exact Hnd).
  assert (Hold : forall i tr, nth_error predicted i = Some tr ->
                   In (tr_id tr) (map tr_id prev) /\ (tr_id tr < nextId)%Z).
  { intros i tr Hi. apply predicted_nth in Hi.
    destruct Hi as [p [Hp' [_ ->]]]. apply nth_error_In in Hp'.
    split; [apply in_map, Hp'|apply Hlt, Hp']. }
  split.
  - rewrite !map_app. apply NoDup_app; [|apply NoDup_app|].
    + apply matchedTracks_NoDup; [exact Hp|apply (gs_nodupT _ _ _ _ G)].
    + apply unmatchedTracks_NoDup, Hp.
    + apply spawnTracks_NoDup.
    + intros id Hu Hs. apply unmatched_ids in Hu.
      destruct Hu as [i [tr [Hi [_ <-]]]]. apply spawned_ids in Hs.
      destruct (Hold i tr Hi). lia.
    + intros id Hm Hrest. apply matched_ids in Hm.
      destruct Hm as [m [tr [Hmin [Htr <-]]]].
      apply in_app_or in Hrest. destruct Hrest as [Hu|Hs].
      * apply unmatched_ids in Hu. destruct Hu as [i [tr' [Hi [Hu Hid]]]].
        cbn [Nat.add] in Hu.
        destruct (Nat.eq_dec i (m_ti m)) as [->|E].
        -- apply has_false_iff in Hu. apply Hu.
           rewrite (gs_usedT _ _ _ _ G). rewrite <- in_rev.
           apply in_map, Hmin.
        -- exact (distinct_ids predicted _ _ _ _ Hp Hi Htr E Hid).
      * apply spawned_ids in Hs. destruct (Hold _ tr Htr). lia.
  - intros tr Hin. apply in_app_or in Hin. destruct Hin as [Hm|Hin].
    { assert (Hid : In (tr_id tr)
                      (map tr_id (matchedTracks t predicted dets (ms_matches st))))
        by (apply in_map, Hm).
      apply matched_ids in Hid. destruct Hid as [m [tr0 [_ [Htr0 <-]]]].
      destruct (Hold _ tr0 Htr0). split; [lia|left; assumption]. }
    apply in_app_or in Hin. destruct Hin as [Hu|Hs].
    { assert (Hid : In (tr_id tr)
                      (map tr_id (unmatchedTracks env t predicted 0 (ms_usedT st))))
        by (apply in_map, Hu).
      apply unmatched_ids in Hid. destruct Hid as [i [tr0 [Htr0 [_ <-]]]].
      destruct (Hold _ tr0 Htr0). split; [lia|left; assumption]. }
    assert (Hid : In (tr_id tr)
                    (map tr_id (spawnTracks t dets 0 (ms_usedD st) nextId)))
      by (apply in_map, Hs).
    apply spawned_ids in Hid. split; [lia|right; lia].
Qed.

Lemma fold_max_ge (tracks : list Track) (m : Z) :
  (m <= fold_left (fun m tr => Z.max m (tr_id tr)) tracks m)%Z
  /\ forall tr, In tr tracks ->
       (tr_id tr <= fold_left (fun m tr => Z.max m (tr_id tr)) tracks m)%Z.
Proof.
  revert m. induction tracks as [|a l IH]; intros m; cbn [fold_left].
  - split; [lia|intros tr []].
  - destruct (IH (Z.max m (tr_id a))) as [H1 H2]. split; [lia|].
    intros tr [<-|H]; [lia|apply H2, H].
Qed.

Lemma bumpNextId_above (tracks : list Track) (nextId : Z) :
  (nextId <= bumpNextId tracks nextId)%Z
  /\ forall tr, In tr tracks -> (tr_id tr < bumpNextId tracks nextId)%Z.
Proof.
  unfold bumpNextId. destruct (fold_max_ge tracks nextId) as [H1 H2].
  split; [lia|]. intros tr H. specialize (H2 tr H). lia.
Qed.

Lemma detLike_ids (tracks : list Track) :
  NoDup (map tr_id tracks) -> NoDup (map det_id (map detLike tracks)).
Proof.
  intros H. rewrite map_map. cbn [detLike det_id].
  induction tracks as [|a l IH]; [constructor|].
  cbn [map] in *. inversion H as [|? ? Hnotin H']; subst.
  constructor; [|apply IH, H'].
  rewrite in_map_iff. intros [tr [E Hin]]. injection E as E.
  apply Hnotin. rewrite <- E. apply in_map, Hin.
Qed.

Lemma filter_ids_NoDup (f : Track -> bool) (tracks : list Track) :
  NoDup (map tr_id tracks) -> NoDup (map tr_id (filter f tracks)).
Proof.
  induction tracks as [|a l IH]; intros H; [constructor|].
  cbn [map] in H. inversion H as [|? ? Hnotin H']; subst.
  cbn [filter]. destruct (f a); [|apply IH, H'].
  cbn [map]. constructor; [|apply IH, H'].
  rewrite in_map_iff. intros [tr [E Hin]]. apply Hnotin. rewrite <- E.
  apply in_map. apply filter_In in Hin. apply Hin.
Qed.

Lemma buildTracks_loop_ids (env : Env) (snaps : list PersonSnapshot)
    (bW bH : Qc) (tracks : list Track) (nextId : Z) :
  NoDup (map tr_id tracks) ->
  (forall p, In p tracks -> (tr_id p < nextId)%Z) ->
  Forall (fun s => NoDup (map det_id (snap_dets s))
                   /\ Forall (fun d => det_id d <> None) (snap_dets s))
    (buildTracks_loop env snaps bW bH tracks nextId).
Proof.
  revert tracks nextId. induction snaps as [|s snaps IH];
    intros tracks nextId Hnd Hlt; cbn [buildTracks_loop]; [constructor|].
  destruct (associateAndUpdate_ids env tracks (snap_dets s) (snap_t s) bW bH
              nextId Hnd Hlt) as [Hnd' _].
  constructor.
  - cbn [snap_dets]. split.
    + apply detLike_ids, filter_ids_NoDup, Hnd'.
    + apply Forall_forall. intros d Hd. apply in_map_iff in Hd.
      destruct Hd as [tr [<- _]]. discriminate.
  - apply IH; [exact Hnd'|]. apply bumpNextId_above.
Qed.

Lemma buildTracks_loop_times (env : Env) (snaps : list PersonSnapshot)
    (bW bH : Qc) (tracks : list Track) (nextId : Z) :
  map snap_t (buildTracks_loop env snaps bW bH tracks nextId)
  = map snap_t snaps.
Proof.
  revert tracks nextId. induction snaps as [|s snaps IH]; intros;
    cbn [buildTracks_loop map]; [reflexivity|].
  cbn [snap_t]. f_equal. apply IH.
Qed.

(** X12.  buildTracks returns one snapshot per input snapshot, with the same
    timestamps; in every returned snapshot each detection carries an id and
    no two detections share one. *)
Theorem buildTracks_ids_distinct (env : Env) (snaps : list PersonSnapshot)
    (bW bH : Qc) :
  Forall (fun s => NoDup (map det_id (snap_dets s))
                   /\ Forall (fun d => det_id d <> None) (snap_dets s))
    (buildTracks env snaps bW bH)
  /\ map snap_t (buildTracks env snaps bW bH) = map snap_t snaps.
Proof.
  split; [|apply buildTracks_loop_times].
  apply buildTracks_loop_ids; [constructor|intros p []].
Qed.

Lemma matchedTracks_length (t : Qc) (predicted : list Track)
    (dets : list PersonDet) (matches : list Match) :
  (forall m, In m matches ->
     (m_ti m < List.length predicted)%nat /\ (m_di m < List.length dets)%nat) ->
  List.length (matchedTracks t predicted dets matches) = List.length matches.
Proof.
  induction matches as [|m matches IH]; intros H; [reflexivity|].
  unfold matchedTracks. cbn [flat_map].
  fold (matchedTracks t predicted dets matches).
  destruct (H m (or_introl eq_refl)) as [H1 H2].
  apply nth_error_Some in H1, H2.
  destruct (nth_error predicted (m_ti m)); [|contradiction].
  destruct (nth_error dets (m_di m)); [|contradiction].
  cbn [app List.length]. f_equal. apply IH. intros m' Hm'. apply H.
  right. exact Hm'.
Qed.

Lemma spawnTracks_length (t : Qc) (dets : list PersonDet) (di : nat)
    (usedD : list nat) (nextId : Z) :
  List.length (spawnTracks t dets di usedD nextId)
  = unusedCount (List.length dets) di usedD.
Proof.
  revert di nextId. induction dets as [|d dets IH]; intros; [reflexivity|].
  cbn [spawnTracks List.length unusedCount].
  destruct (has usedD di); cbn [List.length Nat.add]; rewrite IH; reflexivity.
Qed.

Lemma unusedCount_nil (n di : nat) : unusedCount n di [] = n.
Proof.
  revert di. induction n as [|n IH]; intros; [reflexivity|].
  cbn [unusedCount has existsb Nat.add]. f_equal. apply IH.
Qed.

Lemma unusedCount_cons (n di x : nat) (usedD : list nat) :
  ~ In x usedD -> (di <= x < di + n)%nat ->
  S (unusedCount n di (x :: usedD)) = unusedCount n di usedD.
Proof.
  revert di. induction n as [|n IH]; intros di Hx Hr; [lia|].
  cbn [unusedCount]. cbn [has existsb].
  destruct (Nat.eq_dec di x) as [->|E].
  - rewrite Nat.eqb_refl. cbn [orb].
    replace (has usedD x) with false
      by (symmetry; apply has_false_iff; exact Hx).
    cbn [Nat.add]. f_equal.
    clear IH Hr. generalize (S x) (Nat.lt_succ_diag_r x).
    induction n as [|n IH]; intros k Hk; [reflexivity|].
    cbn [unusedCount has existsb].
    replace (Nat.eqb k x) with false by (symmetry; apply Nat.eqb_neq; lia).
    cbn [orb]. f_equal. apply IH. lia.
  - replace (Nat.eqb di x) with false by (symmetry; apply Nat.eqb_neq; exact E).
    cbn [orb]. fold (has usedD di).
    rewrite <- (IH (S di) Hx) by lia. lia.
Qed.

Lemma unusedCount_matches (n : nat) (l : list nat) :
  NoDup l -> (forall x, In x l -> (x < n)%nat) ->
  (unusedCount n 0 l + List.length l = n)%nat.
Proof.
  induction l as [|x l IH]; intros Hnd Hr.
  - rewrite unusedCount_nil. cbn. lia.
  - inversion Hnd as [|? ? Hnotin Hnd']; subst. cbn [List.length].
    assert (Hx : (x < n)%nat) by (apply Hr; left; reflexivity).
    pose proof (unusedCount_cons n 0 x l Hnotin ltac:(lia)) as E.
    specialize (IH Hnd' (fun y Hy => Hr y (or_intror Hy))). lia.
Qed.

Lemma unmatchedTracks_length (env : Env) (t : Qc) (l : list Track) (k : nat)
    (usedT : list nat) :
  (List.length (unmatchedTracks env t l k usedT) <= List.length l)%nat.
Proof.
  revert k. induction l as [|a l IH]; intros k; cbn [unmatchedTracks];
    [apply le_n|].
  destruct (has usedT k); [apply le_S, IH|].
  destruct (_ <=? TRACK_MAX_AGE_S env);
    [cbn [List.length]; apply le_n_S, IH|apply le_S, IH].
Qed.

Lemma TRACK_MAX_AGE_S_pos (env : Env) : 0 <= TRACK_MAX_AGE_S env.
Proof.
  unfold TRACK_MAX_AGE_S. eapply Qcle_trans; [|apply Math_max_l].
  qc2q'. lra.
Qed.

(** X13.  associateAndUpdate returns at least as many tracks as there are
    detections and at most as many as detections plus previous tracks; every
    detection's box is the box of a returned track with miss = 0; every
    returned track has lastT = t and miss <= TRACK_MAX_AGE_S. *)
Theorem associateAndUpdate_carries_detections (env : Env)
    (prev : list Track) (dets : list PersonDet) (t bW bH : Qc) (nextId : Z) :
  (List.length dets
   <= List.length (associateAndUpdate env prev dets t bW bH nextId)
   <= List.length dets + List.length prev)%nat
  /\ (forall det, In det dets ->
        exists tr, In tr (associateAndUpdate env prev dets t bW bH nextId)
                   /\ tr_x tr = det_x det /\ tr_y tr = det_y det
                   /\ tr_w tr = det_w det /\ tr_h tr = det_h det
                   /\ tr_miss tr = 0)
  /\ (forall tr, In tr (associateAndUpdate env prev dets t bW bH nextId) ->
        tr_lastT tr = t /\ tr_miss tr <= TRACK_MAX_AGE_S env).
Proof.
  unfold associateAndUpdate.
  set (predicted := map (predictTrack t bW bH) prev).
  pose proof (associate_goodState env predicted dets) as G.
  pose proof (matchTracks_in_range env predicted dets) as R.
  set (st := matchTracks env predicted 0 dets (mkMatchState [] [] [])) in *.
  split; [|split].
  - rewrite !length_app, matchedTracks_length by exact R.
    rewrite spawnTracks_length.
    pose proof (unmatchedTracks_length env t predicted 0 (ms_usedT st)) as HU.
    unfold predicted in HU at 2. rewrite length_map in HU.
    assert (E : (unusedCount (List.length dets) 0 (ms_usedD st)
                 + List.length (ms_matches st) = List.length dets)%nat).
    { rewrite <- (length_map m_di (ms_matches st)).
      rewrite <- (length_rev (map m_di (ms_matches st))).
      rewrite <- (gs_usedD _ _ _ _ G). apply unusedCount_matches.
      - rewrite (gs_usedD _ _ _ _ G). apply NoDup_rev, (gs_nodupD _ _ _ _ G).
      - intros x Hx. rewrite (gs_usedD _ _ _ _ G) in Hx.
        apply in_rev in Hx. apply in_map_iff in Hx.
        destruct Hx as [m [<- Hm]]. apply R, Hm. }
    lia.
  - intros det Hdet. apply In_nth_error in Hdet. destruct Hdet as [di Hdi].
    destruct (has (ms_usedD st) di) eqn:Eu.
    + apply has_true_iff in Eu. rewrite (gs_usedD _ _ _ _ G) in Eu.
      apply in_rev in Eu. apply in_map_iff in Eu.
      destruct Eu as [m [Em Hm]].
      destruct (R m Hm) as [R1 _]. apply nth_error_Some in R1.
      destruct (nth_error predicted (m_ti m)) as [tr|] eqn:Etr;
        [|contradiction].
      exists (updateMatched t tr det). split; [|repeat split].
      apply in_or_app. left. apply matchedTracks_In.
      exists m, tr, det. rewrite Em. repeat split; assumption.
    + destruct (spawnTracks_spawns t dets 0 (ms_usedD st) nextId di det Hdi Eu)
        as [id [_ Hin]].
      exists (newTrack t id det). split; [|repeat split].
      apply in_or_app. right. apply in_or_app. right. exact Hin.
  - intros tr Hin. apply in_app_or in Hin. destruct Hin as [Hm|Hin].
    { apply matchedTracks_In in Hm. destruct Hm as [m [tr0 [det [_ [_ [_ ->]]]]]].
      cbn [updateMatched tr_lastT tr_miss]. split; [reflexivity|].
      apply TRACK_MAX_AGE_S_pos. }
    apply in_app_or in Hin. destruct Hin as [Hu|Hs].
    { apply unmatchedTracks_In in Hu. destruct Hu as [i [tr0 [_ [_ [Hage ->]]]]].
      unfold coasted. cbn [with_time tr_lastT tr_miss].
      split; [reflexivity|exact Hage]. }
    apply spawnTracks_In in Hs. destruct Hs as [i [det [id [_ [_ [_ ->]]]]]].
    cbn [newTrack tr_lastT tr_miss]. split; [reflexivity|].
    apply TRACK_MAX_AGE_S_pos.
Qed.

(* ------------------------------------------------------------------ *)
(** ** Weighted median *)

Lemma fold_weights (l : list WeightedValue) (a : Qc) :
  fold_left (fun sum item => sum + wv_weight item) l a = a + wsum l.
Proof.
  revert a. induction l as [|v l IH]; intros a; cbn [fold_left wsum].
  - ring.
  - rewrite IH. ring.
Qed.

Lemma sumWeights_wsum (l : list WeightedValue) : sumWeights l = wsum l.
Proof. unfold sumWeights. rewrite fold_weights. ring. Qed.

Lemma wsum_perm (l l' : list WeightedValue) :
  Permutation l l' -> wsum l = wsum l'.
Proof.
  induction 1; cbn [wsum].
  - reflexivity.
  - rewrite IHPermutation. reflexivity.
  - ring.
  - congruence.
Qed.

Lemma wsum_filter_perm (f : WeightedValue -> bool)
    (l l' : list WeightedValue) :
  Permutation l l' -> wsum (filter f l) = wsum (filter f l').
Proof.
  induction 1 as [|x l l' _ IH|x y l|l l' l'' _ IH1 _ IH2]; cbn [filter].
  - reflexivity.
  - destruct (f x); cbn [wsum]; rewrite IH; reflexivity.
  - destruct (f x), (f y); cbn [wsum]; ring.
  - congruence.
Qed.

Lemma wsum_nonneg (l : list WeightedValue) :
  Forall (fun v => 0 <= wv_weight v) l -> 0 <= wsum l.
Proof.
  induction 1 as [|v l Hv _ IH]; cbn [wsum].
  - apply Qcle_refl.
  - revert Hv IH. generalize (wv_weight v) (wsum l). intros. qc2q. lra.
Qed.

Lemma wsum_filter_le (f : WeightedValue -> bool) (l : list WeightedValue) :
  Forall (fun v => 0 <= wv_weight v) l -> wsum (filter f l) <= wsum l.
Proof.
  induction 1 as [|v l Hv _ IH]; cbn [filter]; [apply Qcle_refl|].
  destruct (f v); cbn [wsum];
    revert Hv IH; generalize (wv_weight v) (wsum l) (wsum (filter f l));
    intros; qc2q; lra.
Qed.

Lemma insertWV_perm (a : WeightedValue) (l : list WeightedValue) :
  Permutation (a :: l) (insertWV a l).
Proof.
  induction l as [|b l IH]; cbn [insertWV]; [apply Permutation_refl|].
  destruct (wv_value a <? wv_value b); [apply Permutation_refl|].
  eapply perm_trans; [apply perm_swap|]. apply perm_skip, IH.
Qed.

Lemma insertWV_sorted (a : WeightedValue) (l : list WeightedValue) :
  StronglySorted byValue l -> StronglySorted byValue (insertWV a l).
Proof.
  induction 1 as [|b l Hl IH Hb]; cbn [insertWV].
  - constructor; constructor.
  - destruct (ltb_spec (wv_value a) (wv_value b)) as [H|H].
    + constructor; [constructor; assumption|].
      constructor; [apply Qclt_le_weak, H|].
      eapply Forall_impl; [|exact Hb]. cbn beta. unfold byValue.
      intros c Hc. apply Qclt_le_weak in H.
      eapply Qcle_trans; [exact H|exact Hc].
    + constructor; [exact IH|].
      eapply Permutation_Forall; [apply insertWV_perm|].
      constructor; [exact H|exact Hb].
Qed.

Lemma sortWV (values acc : list WeightedValue) :
  StronglySorted byValue acc ->
  StronglySorted byValue (fold_left (fun acc a => insertWV a acc) values acc)
  /\ Permutation (fold_left (fun acc a => insertWV a acc) values acc)
       (values ++ acc).
Proof.
  revert acc. induction values as [|v values IH]; intros acc Hacc;
    cbn [fold_left app]; [split; [exact Hacc|apply Permutation_refl]|].
  destruct (IH (insertWV v acc) (insertWV_sorted v acc Hacc)) as [H1 H2].
  split; [exact H1|]. eapply perm_trans; [exact H2|].
  eapply perm_trans; [apply Permutation_app_head, Permutation_sym, insertWV_perm|].
  apply Permutation_sym, Permutation_middle.
Qed.

Lemma filter_none (f : WeightedValue -> bool) (l : list WeightedValue) :
  Forall (fun v => f v = false) l -> filter f l = [].
Proof.
  induction 1 as [|v l Hv _ IH]; [reflexivity|]. cbn [filter].
  rewrite Hv. exact IH.
Qed.

Lemma medianLoop_splits (sorted : list WeightedValue) (acc half m : Qc) :
  StronglySorted byValue sorted ->
  Forall (fun v => 0 <= wv_weight v) sorted ->
  acc <= half ->
  medianLoop sorted acc half = Some m ->
  (exists v, In v sorted /\ wv_value v = m)
  /\ acc + wsum (filter (fun v => wv_value v <? m) sorted) <= half
  /\ wsum (filter (fun v => wv_value v >? m) sorted)
     <= acc + wsum sorted - half.
Proof.
  intros HS. revert acc. induction HS as [|item rest Hrest IH Hitem];
    intros acc HW Hacc Hm; [discriminate Hm|].
  inversion HW as [|? ? Hw HW']; subst. cbn [medianLoop] in Hm.
  unfold geb in Hm.
  destruct (leb_spec half (acc + wv_weight item)) as [Hge|Hlt].
  - injection Hm as <-. split; [exists item; split; [left|]; reflexivity|].
    cbn [filter]. unfold gtb. rewrite !ltb_irrefl.
    rewrite (filter_none (fun v => wv_value v <? wv_value item) rest).
    2:{ eapply Forall_impl; [|exact Hitem]. cbn beta. unfold byValue.
        intros c Hc. apply ltb_false, Hc. }
    pose proof (wsum_filter_le (fun v => wv_value item <? wv_value v) rest HW')
      as Hf.
    cbn [wsum].
    revert Hacc Hge Hf Hw.
    generalize (wsum (filter (fun v => wv_value item <? wv_value v) rest))
               (wsum rest) (wv_weight item).
    intros. split; qc2q; lra.
  - destruct (IH (acc + wv_weight item) HW' (Qclt_le_weak _ _ Hlt) Hm)
      as [[v [Hv Ev]] [H1 H2]].
    split; [exists v; split; [right; exact Hv|exact Ev]|].
    assert (Hle : wv_value item <= m).
    { rewrite <- Ev. exact (proj1 (Forall_forall _ _) Hitem v Hv). }
    cbn [filter]. unfold gtb in *. rewrite (ltb_false m (wv_value item) Hle).
    split.
    + destruct (wv_value item <? m); cbn [wsum].
      * revert H1.
        generalize (wsum (filter (fun v => wv_value v <? m) rest))
                   (wv_weight item). intros. qc2q. lra.
      * revert H1 Hw.
        generalize (wsum (filter (fun v => wv_value v <? m) rest))
                   (wv_weight item). intros. qc2q. lra.
    + cbn [wsum]. revert H2.
      generalize (wsum (filter (fun v => m <? wv_value v) rest))
                 (wv_weight item) (wsum rest). intros. qc2q. lra.
Qed.

Lemma medianLoop_reaches (sorted : list WeightedValue) (acc half : Qc) :
  sorted <> [] ->
  Forall (fun v => 0 <= wv_weight v) sorted ->
  half <= acc + wsum sorted ->
  exists m, medianLoop sorted acc half = Some m.
Proof.
  revert acc. induction sorted as [|item rest IH]; intros acc Hne HW Hh;
    [contradiction|].
  inversion HW as [|? ? Hw HW']; subst. cbn [medianLoop]. unfold geb.
  destruct (leb_spec half (acc + wv_weight item)) as [Hge|Hlt];
    [eexists; reflexivity|].
  cbn [wsum] in Hh.
  apply IH; [|exact HW'|].
  - intros ->. cbn [wsum] in Hh. revert Hh Hlt.
    generalize (wv_weight item). intros. qc2q. lra.
  - revert Hh. generalize (wv_weight item) (wsum rest). intros. qc2q. lra.
Qed.

Lemma half_le (a : Qc) : 0 <= a -> 0 <= a / ofZ 2 /\ a / ofZ 2 <= a.
Proof.
  intros H. assert (E : a / ofZ 2 = a * dec 1 2).
  { apply Qc_is_canon. qc2q'. field. }
  rewrite E. split; qc2q'; lra.
Qed.

(** X14.  For a non-empty list with non-negative weights, weightedMedian
    returns the value of one of the entries, and the entries strictly below
    it, like the entries strictly above it, carry at most half of the total
    weight. *)
Theorem weightedMedian_splits_weight (values : list WeightedValue) :
  values <> [] ->
  Forall (fun v => 0 <= wv_weight v) values ->
  (exists v, In v values /\ wv_value v = weightedMedian values)
  /\ weightBelow (weightedMedian values) values
     <= sumWeights values / ofZ 2
  /\ weightAbove (weightedMedian values) values
     <= sumWeights values / ofZ 2.
Proof.
  intros Hne HW. unfold weightedMedian, weightBelow, weightAbove.
  destruct values as [|v0 rest] eqn:Ev; [contradiction|]. rewrite <- Ev in *.
  destruct (sortWV values [] (SSorted_nil _)) as [HS HP].
  rewrite app_nil_r in HP.
  set (sorted := fold_left (fun acc a => insertWV a acc) values []) in *.
  assert (HWs : Forall (fun v => 0 <= wv_weight v) sorted)
    by (eapply Permutation_Forall; [apply Permutation_sym, HP|exact HW]).
  assert (Hpos : 0 <= wsum sorted) by apply wsum_nonneg, HWs.
  rewrite !sumWeights_wsum.
  destruct (half_le (wsum sorted) Hpos) as [Hh0 Hh1].
  destruct (medianLoop_reaches sorted 0 (wsum sorted / ofZ 2)) as [m Hm].
  - intros E. rewrite E in HP. apply Permutation_nil in HP.
    rewrite HP in Ev. discriminate.
  - exact HWs.
  - revert Hh1. generalize (wsum sorted / ofZ 2) (wsum sorted).
    intros. qc2q. lra.
  - rewrite Hm.
    destruct (medianLoop_splits sorted 0 _ m HS HWs Hh0 Hm)
      as [[v [Hv Evm]] [H1 H2]].
    split.
    { exists v. split; [|exact Evm].
      eapply Permutation_in; [exact HP|exact Hv]. }
    rewrite <- (wsum_perm _ _ HP).
    rewrite <- (wsum_filter_perm (fun v => wv_value v <? m) _ _ HP).
    rewrite <- (wsum_filter_perm (fun v => wv_value v >? m) _ _ HP).
    assert (E2 : wsum sorted - wsum sorted / ofZ 2 = wsum sorted / ofZ 2).
    { apply Qc_is_canon. qc2q'. field. }
    revert H1 H2 E2.
    generalize (wsum (filter (fun v => wv_value v <? m) sorted))
               (wsum (filter (fun v => wv_value v >? m) sorted))
               (wsum sorted / ofZ 2) (wsum sorted).
    intros b a h s H1 H2 E2. split; [qc2q; lra|].
    rewrite <- E2. qc2q. lra.
Qed.

Lemma weightedMedian_splits_weight_witness :
  (exists v, In v [mkWV (ofZ 3) 1; mkWV 1 (ofZ 2); mkWV (ofZ 2) 1]
             /\ wv_value v
                = weightedMedian [mkWV (ofZ 3) 1; mkWV 1 (ofZ 2);
                                  mkWV (ofZ 2) 1])
  /\ weightBelow
       (weightedMedian [mkWV (ofZ 3) 1; mkWV 1 (ofZ 2); mkWV (ofZ 2) 1])
       [mkWV (ofZ 3) 1; mkWV 1 (ofZ 2); mkWV (ofZ 2) 1]
     <= sumWeights [mkWV (ofZ 3) 1; mkWV 1 (ofZ 2); mkWV (ofZ 2) 1] / ofZ 2
  /\ weightAbove
       (weightedMedian [mkWV (ofZ 3) 1; mkWV 1 (ofZ 2); mkWV (ofZ 2) 1])
       [mkWV (ofZ 3) 1; mkWV 1 (ofZ 2); mkWV (ofZ 2) 1]
     <= sumWeights [mkWV (ofZ 3) 1; mkWV 1 (ofZ 2); mkWV (ofZ 2) 1] / ofZ 2.
Proof.
  apply weightedMedian_splits_weight.
  - discriminate.
  - repeat constructor; vm_compute; discriminate.
Defined.

(* ------------------------------------------------------------------ *)
(** ** Static crop, sampling windows and speaker turns *)



(** X16.  The crop that calculateCrop returns has y = 0, the height of the
    video and the width min(round(videoHeight * 9 / 16), videoWidth), and
    lies horizontally inside the source: 0 <= x and x + width <= videoWidth;
    with no detections x = max(0, floor((videoWidth - width) / 2)). *)
Theorem calculateCrop_inside_source (vW vH : Qc)
    (detections : list FaceDetection) :
  0 <= cropX (calculateCrop vW vH detections)
  /\ cropX (calculateCrop vW vH detections)
     + cropWidth (calculateCrop vW vH detections) <= vW
  /\ cropY (calculateCrop vW vH detections) = 0
  /\ cropHeight (calculateCrop vW vH detections) = vH
  /\ cropWidth (calculateCrop vW vH detections)
     = Math_min (Math_round (vH * ofZ 9 / ofZ 16)) vW
  /\ cropX (calculateCrop vW vH [])
     = Math_max 0
         (Math_floor ((vW - cropWidth (calculateCrop vW vH [])) / ofZ 2)).
Proof.
  destruct (calculateCrop_in_frame vW vH detections) as [H1 [H2 [H3 [H4 H5]]]].
  split; [exact H1|]. split; [exact H2|]. split; [exact H4|].
  split; [exact H5|]. split.
  - rewrite H3. unfold Math_min, gtb. reflexivity.
  - reflexivity.
Qed.

Lemma Qfloor_ofZ (z : Z) : Qfloor (ofZ z) = z.
Proof.
  unfold ofZ, Q2Qc. cbn [this].
  rewrite (Qfloor_comp _ _ (Qred_correct _)). apply Qfloor_Z.
Qed.

(** X17.  For a video of non-negative duration, computeGlobalStaticCrop
    samples between 3 and 6 windows, and every window starts at a non-
    negative time, lasts between 0 and 15 seconds and ends within the video. *)
Theorem sampling_windows_inside_video (videoDurationSec : Qc)
    (skipUntilSec : option Qc) (i : nat) :
  0 <= videoDurationSec ->
  let p := planSampling videoDurationSec skipUntilSec in
  (3 <= numSamples p <= 6)%nat
  /\ 0 <= fst (sampleWindow videoDurationSec p i)
  /\ 0 <= snd (sampleWindow videoDurationSec p i)
  /\ snd (sampleWindow videoDurationSec p i) <= sampleDurationSec
  /\ fst (sampleWindow videoDurationSec p i)
     + snd (sampleWindow videoDurationSec p i) <= videoDurationSec.
Proof.
  intros Hd. cbv zeta. split.
  - unfold planSampling. cbv zeta. cbn [numSamples].
    match goal with
    | |- context [Math_min maxSamples (Math_max (ofZ 3) (Math_floor ?x))] =>
        generalize x
    end.
    intros x. unfold Math_floor.
    assert (E : Math_min maxSamples (Math_max (ofZ 3) (ofZ (Qfloor x)))
                = ofZ (Z.min 6 (Z.max 3 (Qfloor x)))).
    { unfold Math_min, Math_max, maxSamples.
      destruct (ltb_spec (ofZ 3) (ofZ (Qfloor x))) as [H|H].
      - assert (3 < Qfloor x)%Z.
        { destruct (Z_lt_le_dec 3 (Qfloor x)) as [L|L]; [exact L|].
          apply ofZ_le in L. exfalso. clear - H L. qc2q. lra. }
        rewrite (Z.max_r 3 (Qfloor x)) by lia.
        destruct (ltb_spec (ofZ (Qfloor x)) (ofZ 6)) as [H'|H'].
        + assert (Qfloor x < 6)%Z.
          { destruct (Z_lt_le_dec (Qfloor x) 6) as [L|L]; [exact L|].
            apply ofZ_le in L. exfalso. clear - H' L. qc2q. lra. }
          rewrite Z.min_r by lia. reflexivity.
        + assert (6 <= Qfloor x)%Z.
          { destruct (Z_lt_le_dec (Qfloor x) 6) as [L|L]; [|exact L].
            apply ofZ_lt in L. exfalso. clear - H' L. qc2q. lra. }
          rewrite Z.min_l by lia. reflexivity.
      - assert (Qfloor x <= 3)%Z.
        { destruct (Z_lt_le_dec 3 (Qfloor x)) as [L|L]; [|exact L].
          apply ofZ_lt in L. exfalso. clear - H L. qc2q. lra. }
        rewrite (Z.max_l 3 (Qfloor x)) by lia.
        replace (ofZ 3 <? ofZ 6) with true by (vm_compute; reflexivity).
        rewrite Z.min_r by lia. reflexivity. }
    rewrite E, Qfloor_ofZ. lia.
  - generalize (planSampling videoDurationSec skipUntilSec). intros p.
    unfold sampleWindow. cbv zeta. cbn [fst snd].
    match goal with
    | |- context [Math_max 0 (Math_min ?t _)] => generalize t
    end.
    intros t.
    set (start := Math_max 0 (Math_min t (videoDurationSec - sampleDurationSec))).
    assert (S0 : 0 <= start) by apply Math_max_l.
    assert (S1 : start <= videoDurationSec).
    { apply Math_max_lub; [exact Hd|].
      eapply Qcle_trans; [apply Math_min_r|].
      unfold sampleDurationSec. clear. generalize videoDurationSec.
      intros. qc2q'. lra. }
    clearbody start.
    set (stop := Math_min (start + sampleDurationSec) videoDurationSec).
    assert (E0 : start <= stop).
    { apply Math_min_glb; [|exact S1]. unfold sampleDurationSec.
      clear. generalize start. intros. qc2q'. lra. }
    assert (E1 : stop <= videoDurationSec) by apply Math_min_r.
    clearbody stop.
    pose proof (Math_min_l (stop - start) sampleDurationSec) as M1.
    pose proof (Math_min_r (stop - start) sampleDurationSec) as M2.
    assert (M0 : 0 <= Math_min (stop - start) sampleDurationSec).
    { apply Math_min_glb; [clear - E0; qc2q; lra|].
      unfold sampleDurationSec. qc2q'. lra. }
    revert M0 M1 M2. generalize (Math_min (stop - start) sampleDurationSec).
    intros len M0 M1 M2. repeat split; try assumption.
    clear - M1 E1. qc2q. lra.
Qed.

Lemma sampling_windows_inside_video_witness :
  0 <= ofZ 600
  /\ (3 <= numSamples (planSampling (ofZ 600) (Some (ofZ 30))) <= 6)%nat
  /\ fst (sampleWindow (ofZ 600) (planSampling (ofZ 600) (Some (ofZ 30))) 5)
     + snd (sampleWindow (ofZ 600) (planSampling (ofZ 600) (Some (ofZ 30))) 5)
     <= ofZ 600.
Proof.
  assert (H : 0 <= ofZ 600) by (vm_compute; discriminate).
  split; [exact H|].
  pose proof (sampling_windows_inside_video (ofZ 600) (Some (ofZ 30)) 5 H)
    as [H1 [_ [_ [_ H5]]]].
  split; [exact H1|exact H5].
Defined.

Lemma insertWord_In (w v : TranscriptWord) (l : list TranscriptWord) :
  In v (insertWord w l) -> v = w \/ In v l.
Proof.
  induction l as [|a l IH]; cbn [insertWord].
  - intros [<-|[]]. left. reflexivity.
  - destruct (word_t w <? word_t a).
    + intros [<-|H]; [left; reflexivity|right; exact H].
    + intros [<-|H]; [right; left; reflexivity|].
      destruct (IH H) as [->|H']; [left; reflexivity|right; right; exact H'].
Qed.

Lemma sortWords_In (l : list TranscriptWord) (v : TranscriptWord) :
  In v (sortWords l) -> In v l.
Proof.
  unfold sortWords.
  assert (G : forall acc, In v (fold_left (fun acc w => insertWord w acc) l acc)
                          -> In v l \/ In v acc).
  { induction l as [|a l IH]; intros acc H; cbn [fold_left] in H;
      [right; exact H|].
    destruct (IH _ H) as [H'|H']; [left; right; exact H'|].
    destruct (insertWord_In _ _ _ H') as [->|H''];
      [left; left; reflexivity|right; exact H'']. }
  intros H. destruct (G [] H) as [H'|[]]. exact H'.
Qed.

Lemma turnsLoop_acc (segStart segEnd : Qc) (ws : list TranscriptWord)
    (cur : option SpeakerTurn) (turns : list SpeakerTurn) :
  turnsLoop segStart segEnd ws cur turns
  = turns ++ turnsLoop segStart segEnd ws cur [].
Proof.
  revert cur turns. induction ws as [|w ws IH]; intros cur turns;
    cbn [turnsLoop].
  - destruct cur; [reflexivity|rewrite app_nil_r; reflexivity].
  - destruct cur as [c|]; [|apply IH].
    destruct (_ && _); [apply IH|].
    rewrite (IH _ (turns ++ [c])), (IH _ ([] ++ [c])).
    rewrite <- app_assoc. reflexivity.
Qed.

Lemma turnsLoop_open (segStart segEnd : Qc) (all ws : list TranscriptWord)
    (c : SpeakerTurn) :
  (forall w, In w ws -> In w all /\ exists s, word_speaker w = Some s) ->
  turnFrom segStart segEnd all c ->
  exists c' rest,
    turnsLoop segStart segEnd ws (Some c) [] = c' :: rest
    /\ turn_start c' = turn_start c /\ turn_label c' = turn_label c
    /\ Forall (turnFrom segStart segEnd all) (c' :: rest)
    /\ turnsSeparated (c' :: rest).
Proof.
  revert c. induction ws as [|w ws IH]; intros c Hws Hc; cbn [turnsLoop].
  - exists c, []. repeat split; try reflexivity; try exact I.
    constructor; [exact Hc|constructor].
  - destruct (Hws w (or_introl eq_refl)) as [Hw [s Hs]]. rewrite Hs.
    assert (Hws' : forall v, In v ws ->
                     In v all /\ exists s, word_speaker v = Some s)
      by (intros v Hv; apply Hws; right; exact Hv).
    destruct (String.eqb s (turn_label c)
              && (word_t w - turn_end c <=? dec 6 10)) eqn:E.
    + destruct (IH {| turn_start := turn_start c;
                      turn_end := Math_min segEnd
                                    (Math_max (turn_end c) (word_end w));
                      turn_label := turn_label c |} Hws')
        as [c' [rest [E' [H1 [H2 [H3 H4]]]]]].
      { destruct Hc as [Hc1 [Hc2 Hc3]]. unfold turnFrom.
        cbn [turn_start turn_end turn_label].
        split; [exact Hc1|]. split; [apply Math_min_l|exact Hc3]. }
      exists c', rest. repeat split; assumption.
    + rewrite turnsLoop_acc.
      destruct (IH (newTurn segStart segEnd w s) Hws')
        as [c' [rest [E' [H1 [H2 [H3 H4]]]]]].
      { unfold turnFrom, newTurn. cbn [turn_start turn_end turn_label].
        split; [apply Math_max_l|]. split; [apply Math_min_l|].
        exists w. split; [exact Hw|exact Hs]. }
      rewrite E'. exists c, (c' :: rest). cbn [app].
      split; [reflexivity|]. split; [reflexivity|]. split; [reflexivity|].
      split; [constructor; [exact Hc|exact H3]|].
      split; [|exact H4].
      rewrite H1, H2. unfold newTurn. cbn [turn_start turn_label].
      apply andb_false_iff in E. destruct E as [E|E].
      * left. intros Heq. rewrite <- Heq, String.eqb_refl in E. discriminate.
      * right. destruct (leb_spec (word_t w - turn_end c) (dec 6 10)) as [L|L];
          [discriminate|].
        pose proof (Math_max_r segStart (word_t w)) as M. revert L M.
        generalize (Math_max segStart (word_t w)) (word_t w) (turn_end c).
        intros. qc2q'. lra.
Qed.

(** X18.  Every turn that buildSpeakerTurns returns starts at or after
    segStart, ends at or before segEnd and is labelled with the non-empty
    speaker of one of the words; two consecutive turns differ in speaker or
    are more than 0.6 s apart. *)
Theorem buildSpeakerTurns_within_segment (words : list TranscriptWord)
    (segStart segEnd : Qc) :
  Forall (fun u =>
            segStart <= turn_start u /\ turn_end u <= segEnd
            /\ turn_label u <> EmptyString
            /\ exists w, In w words
                         /\ word_speaker w = Some (turn_label u))
    (buildSpeakerTurns words segStart segEnd)
  /\ turnsSeparated (buildSpeakerTurns words segStart segEnd).
Proof.
  unfold buildSpeakerTurns.
  set (keep := fun w : TranscriptWord =>
         match truthy (word_speaker w) with
         | Some _ => (word_end w >=? segStart) && (word_t w <=? segEnd)
         | None => false
         end).
  set (all := filter keep words).
  assert (Hall : forall w, In w (sortWords all) ->
            In w all /\ exists s, word_speaker w = Some s).
  { intros w Hw. apply sortWords_In in Hw. split; [exact Hw|].
    apply filter_In in Hw. destruct Hw as [_ Hk]. unfold keep in Hk.
    destruct (word_speaker w) as [s|]; [exists s; reflexivity|discriminate]. }
  assert (Hlabel : forall u, turnFrom segStart segEnd all u ->
            segStart <= turn_start u /\ turn_end u <= segEnd
            /\ turn_label u <> EmptyString
            /\ exists w, In w words /\ word_speaker w = Some (turn_label u)).
  { intros u [H1 [H2 [w [Hw Hs]]]]. split; [exact H1|]. split; [exact H2|].
    apply filter_In in Hw. destruct Hw as [Hw Hk]. unfold keep in Hk.
    rewrite Hs in Hk. cbn [truthy] in Hk. split.
    - intros E. rewrite E in Hk. cbn in Hk. discriminate.
    - exists w. split; assumption. }
  destruct (sortWords all) as [|w ws] eqn:Es; [split; [constructor|exact I]|].
  cbn [turnsLoop].
  destruct (Hall w (or_introl eq_refl)) as [Hw [s Hs]]. rewrite Hs.
  destruct (turnsLoop_open segStart segEnd all ws (newTurn segStart segEnd w s))
    as [c' [rest [E' [_ [_ [H3 H4]]]]]].
  - intros v Hv. apply Hall. right. exact Hv.
  - unfold turnFrom, newTurn. cbn [turn_start turn_end turn_label].
    split; [apply Math_max_l|]. split; [apply Math_min_l|].
    exists w. split; [exact Hw|exact Hs].
  - rewrite E'. split; [|exact H4].
    eapply Forall_impl; [|exact H3]. exact Hlabel.
Qed.



(* ------------------------------------------------------------------ *)
(** ** Validation of the computed keyframes *)

Lemma evenTargetWidth_le (h : Z) : (Expr.evenTargetWidth h <= h * 9 / 16)%Z.
Proof.
  unfold Expr.evenTargetWidth. cbv zeta.
  pose proof (Z.mul_div_le (h * 9 / 16) 2 ltac:(lia)). lia.
Qed.

Lemma staticZMin_1 (cw bW : Qc) : 0 < bW -> cw <= bW -> staticZMin cw bW = 1.
Proof.
  intros Hb Hc. unfold staticZMin. cbv zeta.
  rewrite (Math_max_eq_r (cw / bW) 1).
  - apply Math_max_eq_l. qc2q'. lra.
  - qc2q. apply Qle_shift_div_r; lra.
Qed.

(** A keyframe at zoom 1 whose origin leaves room for the even target
    width passes. *)
Lemma unit_zoom_fits (w h : Z) (k : CropKF) :
  (h * 9 / 16 <= w)%Z ->
  kf_z k = 1 -> 0 <= kf_x k -> kf_y k = 0 ->
  kf_x k + ofZ (Expr.evenTargetWidth h) <= ofZ w ->
  ~ outOfBounds w h k.
Proof.
  intros Hland Hz Hx Hy Hxw. unfold outOfBounds. cbv zeta.
  rewrite Hz, !Qc_div_1, !Math_round_ofZ, Hy.
  pose proof (ofZ_le _ _ (Z.le_trans _ _ _ (evenTargetWidth_le h) Hland)) as He.
  revert He Hx Hxw.
  generalize (ofZ (Expr.evenTargetWidth h)) (ofZ w) (ofZ h) (kf_x k).
  intros e bw bh x He Hx Hxw H. qc2q.
  destruct H as [H|[H|[H|[H|[H|H]]]]]; lra.
Qed.

Lemma single_passes (w h : Z) (k : CropKF) :
  ~ outOfBounds w h k -> passesValidation w h [k].
Proof.
  intros H. apply buildFFmpegFilter_validation_passes.
  intros i k' _ Hn. destruct i as [|[|i]]; cbn in Hn; try discriminate.
  injection Hn as <-. exact H.
Qed.

Lemma Math_floor_le_round (a : Qc) : Math_floor a <= Math_round a.
Proof.
  unfold Math_floor, Math_round, roundZ. apply ofZ_le, Qfloor_resp_le.
  qc2q'. lra.
Qed.

Lemma global_keyframe_passes (Math_hypot : Qc -> Qc -> Qc)
    (snaps : outcome (list PersonSnapshot)) (w h : Z) (segStart segEnd : Qc)
    (transcript : list TranscriptWord) (constraints : Constraints)
    (pool : list FaceDetection) (kfs : list CropKF) :
  (0 < w)%Z -> (h * 9 / 16 <= w)%Z ->
  computeCropMapPersonStatic Math_hypot snaps
    (mkInput (ofZ w) (ofZ h) segStart segEnd transcript) constraints
    (Some (globalCropOf (ofZ w) (ofZ h) pool))
  = Returned (Some kfs) ->
  passesValidation w h kfs.
Proof.
  intros Hw Hland H. cbn [computeCropMapPersonStatic] in H.
  injection H as <-. apply single_passes.
  destruct (calculateCrop_in_frame (ofZ w) (ofZ h) pool)
    as [Hx [Hxw [Hcw [Hy _]]]].
  assert (Hwpos : 0 < ofZ w) by (apply (ofZ_lt 0 w), Hw).
  assert (Hfl : ofZ (h * 9 / 16) <= cropWidth (calculateCrop (ofZ w) (ofZ h) pool)).
  { rewrite Hcw, <- Math_floor_ratio. unfold gtb.
    destruct (ltb_spec (ofZ w) (Math_round (ofZ h * ofZ 9 / ofZ 16))).
    - rewrite Math_floor_ratio. apply ofZ_le, Hland.
    - apply Math_floor_le_round. }
  assert (Hcw' : cropWidth (calculateCrop (ofZ w) (ofZ h) pool) <= ofZ w).
  { revert Hx Hxw. generalize (cropX (calculateCrop (ofZ w) (ofZ h) pool))
                              (cropWidth (calculateCrop (ofZ w) (ofZ h) pool)).
    intros. qc2q. lra. }
  apply unit_zoom_fits; cbn [kf_z kf_x kf_y globalCropOf gc_cropX gc_cropY
                                  gc_cropW gc_zMin];
    [exact Hland| |exact Hx|exact Hy|].
  - apply staticZMin_1; [exact Hwpos|].
    eapply Qcle_trans; [apply floor_half_twice_le|exact Hcw'].
  - pose proof (ofZ_le _ _ (evenTargetWidth_le h)) as He.
    revert He Hfl Hxw.
    generalize (ofZ (Expr.evenTargetWidth h)) (ofZ (h * 9 / 16))
               (cropX (calculateCrop (ofZ w) (ofZ h) pool))
               (cropWidth (calculateCrop (ofZ w) (ofZ h) pool)) (ofZ w).
    intros. qc2q. lra.
Qed.

Lemma staticTargetW_landscape (w h : Z) :
  (h * 9 / 16 <= w)%Z ->
  staticTargetW (ofZ w) (ofZ h) = ofZ (Expr.evenTargetWidth h).
Proof.
  intros Hland. unfold staticTargetW. cbv zeta. rewrite Math_floor_ratio.
  replace (Math_min (ofZ (h * 9 / 16)) (ofZ w)) with (ofZ (h * 9 / 16)).
  2:{ unfold Math_min. destruct (ltb_spec (ofZ w) (ofZ (h * 9 / 16))) as [H|H];
        [|reflexivity].
      apply ofZ_le in Hland. exfalso. clear - H Hland. qc2q. lra. }
  unfold Expr.evenTargetWidth. cbv zeta. unfold Math_floor.
  assert (E : Qfloor ((ofZ (h * 9 / 16) / ofZ 2)%Qc) = (h * 9 / 16 / 2)%Z).
  { rewrite (Zdiv_Qdiv (h * 9 / 16) 2). apply Qfloor_comp. qc2q. reflexivity. }
  rewrite E. apply Qc_is_canon. qc2q. rewrite inject_Z_mult. reflexivity.
Qed.

Lemma segment_keyframe_passes (Math_hypot : Qc -> Qc -> Qc)
    (snaps : outcome (list PersonSnapshot)) (w h : Z) (segStart segEnd : Qc)
    (transcript : list TranscriptWord) (constraints : Constraints)
    (kfs : list CropKF) :
  (0 < w)%Z -> (h * 9 / 16 <= w)%Z ->
  computeCropMapPersonStatic Math_hypot snaps
    (mkInput (ofZ w) (ofZ h) segStart segEnd transcript) constraints None
  = Returned (Some kfs) ->
  passesValidation w h kfs.
Proof.
  intros Hw Hland H. apply static_segment_keyframe in H.
  destruct H as [k [-> [Hx [Hxw [Hy [_ [Hkw Hz]]]]]]].
  cbn [baseW baseH] in *. rewrite staticTargetW_landscape in Hkw by exact Hland.
  apply single_passes, unit_zoom_fits; try assumption.
  - rewrite Hz. apply staticZMin_1; [apply (ofZ_lt 0 w), Hw|].
    rewrite Hkw. apply ofZ_le.
    exact (Z.le_trans _ _ _ (evenTargetWidth_le h) Hland).
  - rewrite <- Hkw. exact Hxw.
Qed.

Lemma dynamic_keyframes_pass (env : Env) (Math_hypot : Qc -> Qc -> Qc)
    (snaps : outcome (list PersonSnapshot)) (w h : Z) (segStart segEnd : Qc)
    (transcript : list TranscriptWord) (constraints : Constraints)
    (kfs : list CropKF) :
  (0 < w)%Z -> (0 <= h)%Z -> (h * 9 / 16 <= w)%Z ->
  computeCropMapPerson env Math_hypot snaps
    (mkInput (ofZ w) (ofZ h) segStart segEnd transcript) constraints
  = Returned (Some kfs) ->
  passesValidation w h kfs.
Proof.
  intros Hw Hh Hland H.
  pose proof (dynamic_keyframes_inFrame env Math_hypot snaps w h segStart
                segEnd transcript constraints kfs ltac:(lia) Hh H) as Hin.
  assert (Hshape : Forall (fun k => kf_z k = 1 /\ kf_w k = ofZ (h * 9 / 16)
                                    /\ kf_h k = ofZ h) kfs).
  { apply computeCropMapPerson_Some in H. destruct H as [ss [_ ->]].
    cbn [baseW baseH].
    eapply Forall_incl; [apply compressCropMap_incl|].
    eapply Forall_incl; [apply dedupeByTime_incl|].
    unfold scaledChain. cbn [baseW baseH].
    apply applyScaledCoords_landscape; [exact Hland|].
    apply easeSegmentEdges_unitZoom, applyAccelLimits_unitZoom,
      applyPanLimits_unitZoom, applyDeadzone_unitZoom,
      smoothKeyframes_unitZoom.
    eapply Forall_impl; [|apply raw_keyframes_landscape; eassumption].
    intros k [Hz _]. exact Hz. }
  apply buildFFmpegFilter_validation_passes. intros i k _ Hn.
  apply nth_error_In in Hn.
  destruct (proj1 (Forall_forall _ _) Hin k Hn) as [[Hx [Hy [Hxw Hyh]]] _].
  destruct (proj1 (Forall_forall _ _) Hshape k Hn) as [Hz [Hkw Hkh]].
  rewrite Hkw in Hxw. rewrite Hkh in Hyh.
  apply unit_zoom_fits; try assumption.
  - apply Qcle_antisym; [|exact Hy]. revert Hyh.
    generalize (kf_y k) (ofZ h). intros. qc2q. lra.
  - pose proof (ofZ_le _ _ (evenTargetWidth_le h)) as He. revert He Hxw.
    generalize (ofZ (Expr.evenTargetWidth h)) (ofZ (h * 9 / 16)) (kf_x k)
               (ofZ w). intros. qc2q. lra.
Qed.

(** X20.  On a source of width w > 0 and height h >= 0 with floor(h * 9 /
    16) <= w, every list of keyframes that computeCropMap returns, and the
    keyframe that computeCropMapPersonStatic returns for a global crop,
    passes the bounds check of buildFFmpegFilter. *)
Theorem landscape_keyframes_pass_validation (env : Env)
    (Math_hypot : Qc -> Qc -> Qc) (w h : Z) (segStart segEnd : Qc)
    (transcript : list TranscriptWord) (constraints : Constraints) :
  (0 < w)%Z -> (0 <= h)%Z -> (h * 9 / 16 <= w)%Z ->
  let input := mkInput (ofZ w) (ofZ h) segStart segEnd transcript in
  (forall dynSnaps staticSnaps kfs,
     computeCropMap env Math_hypot dynSnaps staticSnaps input constraints
     = Returned (Some kfs) ->
     passesValidation w h kfs)
  /\ (forall snaps pool kfs,
        computeCropMapPersonStatic Math_hypot snaps input constraints
          (Some (globalCropOf (ofZ w) (ofZ h) pool))
        = Returned (Some kfs) ->
        passesValidation w h kfs).
Proof.
  intros Hw Hh Hland. cbv zeta. split.
  - intros dynSnaps staticSnaps kfs H. unfold computeCropMap in H.
    assert (Static :
      (second <- try_catch
         (staticKf <- computeCropMapPersonStatic Math_hypot staticSnaps
                        (mkInput (ofZ w) (ofZ h) segStart segEnd transcript)
                        constraints None ;;
          Returned (nonEmpty staticKf))
         (fun _ => Returned None) ;;
       match second with
       | Some kf => Returned (Some kf)
       | None => Returned None
       end) = Returned (Some kfs) ->
      passesValidation w h kfs).
    { clear H. intros H.
      destruct (computeCropMapPersonStatic Math_hypot staticSnaps _
                  constraints None) as [s|e'] eqn:Es;
        cbn [bind try_catch] in H; [|discriminate].
      destruct s as [[|k' l']|]; cbn [nonEmpty] in H; try discriminate.
      injection H as <-. eapply segment_keyframe_passes; eassumption. }
    destruct (computeCropMapPerson env Math_hypot dynSnaps _ constraints)
      as [d|e] eqn:Ed; cbn [bind try_catch] in H; [|exact (Static H)].
    destruct d as [[|k l]|]; cbn [nonEmpty] in H;
      try exact (Static H).
    injection H as <-. eapply dynamic_keyframes_pass; eassumption.
  - intros snaps pool kfs H. eapply global_keyframe_passes; eassumption.
Qed.

Lemma landscape_keyframes_pass_validation_witness :
  (0 < 1920)%Z /\ (0 <= 1080)%Z /\ (1080 * 9 / 16 <= 1920)%Z
  /\ exists kfs,
       computeCropMapPersonStatic (fun _ _ => 0) (Returned emptySnaps)
         (mkInput (ofZ 1920) (ofZ 1080) 0 1 []) testConstraints
         (Some (globalCropOf (ofZ 1920) (ofZ 1080) dominantPool))
       = Returned (Some kfs)
       /\ passesValidation 1920 1080 kfs.
Proof.
  assert (Hw : (0 < 1920)%Z) by lia.
  assert (Hh : (0 <= 1080)%Z) by lia.
  assert (Hland : (1080 * 9 / 16 <= 1920)%Z) by (vm_compute; discriminate).
  split; [exact Hw|]. split; [exact Hh|]. split; [exact Hland|].
  eexists. split; [reflexivity|].
  apply (proj2 (landscape_keyframes_pass_validation default_env
                  (fun _ _ => 0) 1920 1080 0 1 [] testConstraints
                  Hw Hh Hland) (Returned emptySnaps) dominantPool).
  reflexivity.
Defined.

(** X21.  On a source whose width is below the even 9:16 target width of its
    height, buildFFmpegFilter throws for the keyframe that
    computeCropMapPersonStatic returns, with a global crop and without one. *)
Theorem static_keyframe_rejected_on_narrow_source
    (Math_hypot : Qc -> Qc -> Qc) (w h : Z) (segStart segEnd : Qc)
    (transcript : list TranscriptWord) (constraints : Constraints)
    (snaps : outcome (list PersonSnapshot)) :
  (0 < w)%Z -> (w < Expr.evenTargetWidth h)%Z ->
  (forall pool kfs,
     computeCropMapPersonStatic Math_hypot snaps
       (mkInput (ofZ w) (ofZ h) segStart segEnd transcript) constraints
       (Some (globalCropOf (ofZ w) (ofZ h) pool))
     = Returned (Some kfs) ->
     exists msg, Expr.buildFFmpegFilter w h kfs = Thrown msg)
  /\ (forall kfs,
        computeCropMapPersonStatic Math_hypot snaps
          (mkInput (ofZ w) (ofZ h) segStart segEnd transcript) constraints
          None
        = Returned (Some kfs) ->
        exists msg, Expr.buildFFmpegFilter w h kfs = Thrown msg).
Proof.
  intros Hw Hnarrow.
  assert (Hwpos : 0 < ofZ w) by (apply (ofZ_lt 0 w), Hw).
  assert (Rejected : forall k, kf_z k = 1 ->
            exists msg, Expr.buildFFmpegFilter w h [k] = Thrown msg).
  { intros k Hz. unfold Expr.buildFFmpegFilter. cbv zeta.
    replace (Expr.hasInvalidCrop w h (Expr.evenTargetWidth h) [k]) with true;
      [eexists; reflexivity|].
    symmetry. apply hasInvalidCrop_iff. exists 0%nat, k.
    split; [lia|]. split; [reflexivity|].
    unfold outOfBounds. cbv zeta. left.
    rewrite Hz, Qc_div_1, Math_round_ofZ. apply ofZ_lt, Hnarrow. }
  split.
  - intros pool kfs H. cbn [computeCropMapPersonStatic] in H.
    injection H as <-. apply Rejected. cbn [kf_z globalCropOf gc_zMin].
    apply staticZMin_1; [exact Hwpos|].
    eapply Qcle_trans; [apply floor_half_twice_le|].
    destruct (calculateCrop_in_frame (ofZ w) (ofZ h) pool) as [Hx [Hxw _]].
    revert Hx Hxw. generalize (cropX (calculateCrop (ofZ w) (ofZ h) pool))
                              (cropWidth (calculateCrop (ofZ w) (ofZ h) pool)).
    intros. qc2q. lra.
  - intros kfs H. apply static_segment_keyframe in H.
    destruct H as [k [-> [Hx [Hxw [_ [_ [_ Hz]]]]]]]. apply Rejected.
    rewrite Hz. cbn [baseW] in *.
    apply staticZMin_1; [exact Hwpos|].
    revert Hx Hxw. generalize (kf_x k) (kf_w k). intros. qc2q. lra.
Qed.

Lemma static_keyframe_rejected_on_narrow_source_witness :
  (0 < 1080)%Z /\ (1080 < Expr.evenTargetWidth 2400)%Z
  /\ exists kfs msg,
       computeCropMapPersonStatic (fun _ _ => 0) (Returned emptySnaps)
         portraitInput testConstraints
         (Some (globalCropOf (ofZ 1080) (ofZ 2400) dominantPool))
       = Returned (Some kfs)
       /\ Expr.buildFFmpegFilter 1080 2400 kfs = Thrown msg.
Proof.
  assert (Hw : (0 < 1080)%Z) by lia.
  assert (Hn : (1080 < Expr.evenTargetWidth 2400)%Z)
    by (vm_compute; reflexivity).
  split; [exact Hw|]. split; [exact Hn|].
  destruct (proj1 (static_keyframe_rejected_on_narrow_source (fun _ _ => 0)
                     1080 2400 0 1 [] testConstraints (Returned emptySnaps)
                     Hw Hn) dominantPool _ eq_refl) as [msg Hmsg].
  eexists. exists msg. split; [reflexivity|exact Hmsg].
Defined.

(* ------------------------------------------------------------------ *)
(** ** Audio chunk plan *)

Lemma ofNat_S (n : nat) : ofNat (S n) = ofNat n + 1.
Proof.
  apply Qc_is_canon. unfold ofNat. rewrite Nat2Z.inj_succ. unfold Z.succ.
  qc2q. rewrite inject_Z_plus. reflexivity.
Qed.

Lemma ofNat_add (a b : nat) : ofNat (a + b) = ofNat a + ofNat b.
Proof.
  apply Qc_is_canon. unfold ofNat. rewrite Nat2Z.inj_add.
  qc2q. rewrite inject_Z_plus. reflexivity.
Qed.

Lemma ofNat_0 : ofNat 0 = 0.
Proof. apply Qc_is_canon. reflexivity. Qed.

Lemma planLoop_facts (todo i : nat) (base rem cursor : Qc) :
  0 <= base ->
  contiguous cursor (planLoop todo i base rem cursor)
  /\ Forall (fun c => 0 <= chunk_duration c
                      /\ (chunk_duration c = base
                          \/ chunk_duration c = base + 1))
       (planLoop todo i base rem cursor)
  /\ List.length (planLoop todo i base rem cursor) = todo
  /\ planned (planLoop todo i base rem cursor)
     = ofNat todo * base + ofNat (extras todo i rem).
Proof.
  intros Hb. revert i cursor. induction todo as [|todo IH]; intros i cursor.
  - cbn [planLoop contiguous List.length planned fold_right extras].
    repeat split; constructor.
  - destruct (IH (S i) (cursor + (if ofNat i <? rem then base + 1 else base)))
      as [H1 [H2 [H3 H4]]].
    cbn [planLoop]. cbv zeta. cbn [contiguous chunk_start chunk_duration].
    split; [split; [reflexivity|exact H1]|].
    split; [constructor; [|exact H2]|].
    { cbn [chunk_duration]. destruct (ofNat i <? rem).
      - split; [|right; reflexivity]. revert Hb. generalize base.
        intros. qc2q. lra.
      - split; [exact Hb|left; reflexivity]. }
    split; [cbn [List.length]; f_equal; exact H3|].
    cbn [planned fold_right chunk_duration]. fold (planned (planLoop todo (S i)
      base rem (cursor + (if ofNat i <? rem then base + 1 else base)))).
    rewrite H4. cbn [extras]. rewrite ofNat_S.
    destruct (ofNat i <? rem).
    + change (1 + extras todo (S i) rem)%nat with (S (extras todo (S i) rem)).
      rewrite ofNat_S. ring.
    + cbn [Nat.add]. ring.
Qed.

Lemma Math_min_eq_l' (a b : Qc) : a <= b -> Math_min a b = a.
Proof.
  intros H. unfold Math_min. destruct (ltb_spec b a) as [L|L]; [|reflexivity].
  apply Qc_is_canon. qc2q. lra.
Qed.

Lemma Math_min_eq_r' (a b : Qc) : b <= a -> Math_min a b = b.
Proof.
  intros H. unfold Math_min. destruct (ltb_spec b a) as [L|L]; [reflexivity|].
  apply Qc_is_canon. qc2q. lra.
Qed.

Lemma extras_filter (todo i : nat) (rem : Qc) :
  extras todo i rem
  = List.length (filter (fun j => ofNat j <? rem) (seq i todo)).
Proof.
  revert i. induction todo as [|todo IH]; intros i; [reflexivity|].
  cbn [extras seq filter]. rewrite IH.
  destruct (ofNat i <? rem); reflexivity.
Qed.

Lemma extras_last (n : nat) (rem : Qc) :
  extras (S n) 0 rem
  = (extras n 0 rem + (if (ofNat n <? rem)%Qc then 1 else 0))%nat.
Proof.
  rewrite !extras_filter, seq_S, filter_app, length_app. cbn [Nat.add filter].
  destruct (ofNat n <? rem); reflexivity.
Qed.

Lemma extras_bounds (n : nat) (rem : Qc) :
  0 <= rem ->
  (extras n 0 rem <= n)%nat
  /\ Math_min (ofNat n) rem <= ofNat (extras n 0 rem)
  /\ ofNat (extras n 0 rem) < rem + 1.
Proof.
  intros Hr. induction n as [|n [H1 [H2 H3]]].
  - cbn [extras]. rewrite ofNat_0. split; [apply le_n|].
    split; [apply Math_min_l|]. revert Hr. generalize rem. intros.
    qc2q. lra.
  - rewrite extras_last. destruct (ltb_spec (ofNat n) rem) as [L|L].
    + replace (extras n 0 rem + 1)%nat with (S (extras n 0 rem)) by lia.
      rewrite !ofNat_S. split; [lia|].
      assert (Hc : ofNat (extras n 0 rem) <= ofNat n)
        by (unfold ofNat; apply ofZ_le; lia).
      rewrite (Math_min_eq_l' (ofNat n) rem) in H2 by (apply Qclt_le_weak, L).
      split.
      * eapply Qcle_trans; [apply Math_min_l|]. revert H2.
        generalize (ofNat n) (ofNat (extras n 0 rem)). intros. qc2q. lra.
      * revert Hc L. generalize (ofNat n) (ofNat (extras n 0 rem)). intros.
        qc2q. lra.
    + rewrite Nat.add_0_r. split; [lia|]. split; [|exact H3].
      eapply Qcle_trans; [apply Math_min_r|].
      eapply Qcle_trans; [|exact H2].
      apply Math_min_glb; [exact L|apply Qcle_refl].
Qed.

Lemma ceil_ratio_pos (a b : Z) :
  (0 <= a)%Z -> (0 < b)%Z -> (0 <= Qceiling (ofZ a / ofZ b))%Z.
Proof.
  intros Ha Hb.
  assert (H : (0 <= ofZ a / ofZ b)%Q).
  { qc2q. apply Qle_shift_div_l.
    - change 0%Q with (inject_Z 0). rewrite <- Zlt_Qlt. exact Hb.
    - rewrite Qmult_0_l. change 0%Q with (inject_Z 0). rewrite <- Zle_Qle.
      exact Ha. }
  change 0%Z with (Qceiling 0). apply Qceiling_resp_le. exact H.
Qed.

Lemma floor_rem (d c : Qc) :
  0 < c -> 0 <= d - Math_floor (d / c) * c /\ d - Math_floor (d / c) * c < c.
Proof.
  intros Hc. unfold Math_floor.
  pose proof (Qfloor_le ((d / c)%Qc)) as F1.
  pose proof (Qlt_floor ((d / c)%Qc)) as F2.
  assert (E : d = d / c * c).
  { apply Qc_is_canon. qc2q. field. intros E0. rewrite E0 in Hc.
    apply (Qlt_irrefl 0). exact Hc. }
  rewrite inject_Z_plus in F2. change (inject_Z 1) with 1%Q in F2.
  revert E F1 F2. generalize (d / c). intros q E F1 F2. subst d.
  assert (G : forall f : Q, (f <= q)%Q -> (q < f + 1)%Q ->
                0 <= q * c - Q2Qc f * c /\ q * c - Q2Qc f * c < c).
  { intros f G1 G2. qc2q. split; nra. }
  apply (G (inject_Z (Qfloor q))); assumption.
Qed.

(** X22.  For a positive TARGET_BYTES, a non-negative file size and a non-
    negative duration, planAudioChunksBySize returns max(1, ceil(size /
    TARGET_BYTES)) chunks that start at 0, follow one another without gap or
    overlap, have non-negative durations, and together last at least the
    duration and less than one second more. *)
Theorem planAudioChunksBySize_tiles (TARGET_BYTES sizeBytes : Z)
    (durationSec : Qc) :
  (0 < TARGET_BYTES)%Z -> (0 <= sizeBytes)%Z -> 0 <= durationSec ->
  let plan := planAudioChunksBySize TARGET_BYTES sizeBytes durationSec in
  plan <> []
  /\ List.length plan
     = Z.to_nat (Z.max 1 (Qceiling (ofZ sizeBytes / ofZ TARGET_BYTES)))
  /\ contiguous 0 plan
  /\ Forall (fun c => 0 <= chunk_duration c) plan
  /\ durationSec <= planned plan
  /\ planned plan < durationSec + 1.
Proof.
  intros Ht Hs Hd. cbv zeta. unfold planAudioChunksBySize. cbv zeta.
  pose proof (ceil_ratio_pos sizeBytes TARGET_BYTES Hs Ht) as Hc0.
  set (c0 := Qceiling (ofZ sizeBytes / ofZ TARGET_BYTES)) in *.
  assert (Ec : (if (c0 <? 1)%Z then 1%Z else c0) = Z.max 1 c0).
  { destruct (Z.ltb_spec c0 1); lia. }
  rewrite Ec. set (c := Z.max 1 c0). assert (Hc : (1 <= c)%Z) by lia.
  clearbody c. clear Ec.
  assert (Hcq : 0 < ofZ c) by (apply (ofZ_lt 0 c); lia).
  set (base := Math_floor (durationSec / ofZ c)).
  assert (Hb : 0 <= base).
  { unfold base, Math_floor. apply (ofZ_le 0).
    change 0%Z with (Qfloor 0). apply Qfloor_resp_le.
    qc2q. apply Qle_shift_div_l; [exact Hcq|]. rewrite Qmult_0_l. exact Hd. }
  destruct (floor_rem durationSec (ofZ c) Hcq) as [R0 R1]. fold base in R0, R1.
  set (rem := durationSec - base * ofZ c) in *.
  destruct (planLoop_facts (Z.to_nat c) 0 base rem 0 Hb) as [P1 [P2 [P3 P4]]].
  destruct (extras_bounds (Z.to_nat c) rem R0) as [_ [E1 E2]].
  assert (Hn : ofNat (Z.to_nat c) = ofZ c)
    by (unfold ofNat; rewrite Z2Nat.id by lia; reflexivity).
  split; [intros E; rewrite E in P3; cbn in P3; lia|].
  split; [exact P3|]. split; [exact P1|].
  split; [eapply Forall_impl; [|exact P2]; intros ch [H _]; exact H|].
  rewrite P4, Hn. rewrite Hn in E1.
  rewrite (Math_min_eq_r' (ofZ c) rem) in E1 by (apply Qclt_le_weak, R1).
  assert (Ed : durationSec = ofZ c * base + rem) by (unfold rem; ring).
  revert E1 E2 Ed. generalize (ofNat (extras (Z.to_nat c) 0 rem))
                              (ofZ c * base) rem.
  intros e cb r E1 E2 Ed. rewrite Ed. clear - E1 E2. split; qc2q; lra.
Qed.

Lemma planAudioChunksBySize_tiles_witness :
  (0 < 100)%Z /\ (0 <= 250)%Z /\ 0 <= ofZ 10
  /\ List.length (planAudioChunksBySize 100 250 (ofZ 10)) = 3%nat
  /\ contiguous 0 (planAudioChunksBySize 100 250 (ofZ 10))
  /\ ofZ 10 <= planned (planAudioChunksBySize 100 250 (ofZ 10)).
Proof.
  assert (Ht : (0 < 100)%Z) by lia.
  assert (Hs : (0 <= 250)%Z) by lia.
  assert (Hd : 0 <= ofZ 10) by (vm_compute; discriminate).
  split; [exact Ht|]. split; [exact Hs|]. split; [exact Hd|].
  pose proof (planAudioChunksBySize_tiles 100 250 (ofZ 10) Ht Hs Hd)
    as [_ [H2 [H3 [_ [H5 _]]]]].
  split; [exact H2|]. split; [exact H3|exact H5].
Defined.

(* ------------------------------------------------------------------ *)
(** ** Retries *)

Lemma backoff_S (n : nat) :
  backoff (S n) = backoff n ++ [(1000 * 2 ^ Z.of_nat n)%Z].
Proof. unfold backoff. rewrite seq_S, map_app. reflexivity. Qed.

Lemma retryLoop_run {T} (MAX_RETRIES : Z) (fn : nat -> T + JsError)
    (fuel calls : nat) :
  (Z.to_nat (MAX_RETRIES - Z.of_nat calls) < fuel)%nat ->
  (calls = 0%nat \/ Z.of_nat calls <= MAX_RETRIES)%Z ->
  (forall k, (k < calls)%nat -> failedTransiently (fn k)) ->
  exists run,
    retryLoop fuel MAX_RETRIES fn calls (Z.of_nat calls)
      (1000 * 2 ^ Z.of_nat calls)%Z (backoff calls) = Some run
    /\ retryOutcome MAX_RETRIES fn run.
Proof.
  revert calls. induction fuel as [|fuel IH]; intros calls Hf Hc Hp; [lia|].
  cbn [retryLoop].
  assert (Done : forall r, fn calls = r ->
            (failedTransiently r -> MAX_RETRIES < Z.of_nat calls + 1)%Z ->
            retryOutcome MAX_RETRIES fn (mkRun r (S calls) (backoff calls))).
  { intros r Er Hr. unfold retryOutcome. cbn [run_calls run_result run_sleeps].
    replace (S calls - 1)%nat with calls by lia.
    split; [lia|]. split; [lia|]. split; [symmetry; exact Er|].
    split; [exact Hp|]. split; [reflexivity|].
    intros Ht. specialize (Hr Ht). lia. }
  destruct (fn calls) as [res|err] eqn:Ef.
  - eexists. split; [reflexivity|]. apply Done; [reflexivity|].
    intros [].
  - cbv zeta. destruct (Z.gtb_spec (Z.of_nat calls + 1) MAX_RETRIES) as [G|G].
    { eexists. split; [reflexivity|]. apply Done; [reflexivity|].
      intros _. lia. }
    destruct (isTransient err) eqn:Et; cbn [negb].
    2:{ eexists. split; [reflexivity|]. apply Done; [reflexivity|].
        cbn [failedTransiently]. rewrite Et. discriminate. }
    replace (Z.of_nat calls + 1)%Z with (Z.of_nat (S calls)) by lia.
    replace (1000 * 2 ^ Z.of_nat calls * 2)%Z
      with (1000 * 2 ^ Z.of_nat (S calls))%Z.
    2:{ rewrite Nat2Z.inj_succ, Z.pow_succ_r by lia. ring. }
    rewrite <- backoff_S. apply IH.
    + lia.
    + right. lia.
    + intros k Hk. destruct (Nat.eq_dec k calls) as [->|Hne].
      * rewrite Ef. exact Et.
      * apply Hp. lia.
Qed.

(** X23.  withRetries calls fn at least once and at most max(0, MAX_RETRIES)
    + 1 times and ends with the outcome of its last call; every earlier call
    failed with a transient status or code (429, 408, 500, 502, 503, 504);
    the waits are 1000, 2000, 4000, ... ms; a transient failure is passed on
    only after the last permitted call. *)
Theorem withRetries_gives_up_in_time {T} (MAX_RETRIES : Z)
    (fn : nat -> T + JsError) :
  exists run,
    withRetries MAX_RETRIES fn = Some run
    /\ (1 <= run_calls run)%nat
    /\ (Z.of_nat (run_calls run) <= Z.max 0 MAX_RETRIES + 1)%Z
    /\ run_result run = fn (run_calls run - 1)%nat
    /\ (forall k, (k < run_calls run - 1)%nat -> failedTransiently (fn k))
    /\ run_sleeps run = backoff (run_calls run - 1)
    /\ (failedTransiently (run_result run) ->
        Z.of_nat (run_calls run) = (Z.max 0 MAX_RETRIES + 1)%Z).
Proof.
  unfold withRetries.
  apply (retryLoop_run MAX_RETRIES fn (S (Z.to_nat MAX_RETRIES)) 0).
  - cbn [Z.of_nat]. rewrite Z.sub_0_r. lia.
  - left. reflexivity.
  - intros k Hk. lia.
Qed.

(* ------------------------------------------------------------------ *)
(** ** Line wrapping *)

Lemma SPACE_isSpace : isSpace SPACE = true.
Proof. reflexivity. Qed.

Lemma tokensFrom_app (cur t : jstring) (s : jstring) :
  Forall (fun c => isSpace c = false) t ->
  tokensFrom cur (t ++ s) = tokensFrom (cur ++ t) s.
Proof.
  intros Ht. revert cur. induction Ht as [|c t Hc _ IH]; intros cur.
  - rewrite app_nil_r. reflexivity.
  - cbn [app tokensFrom]. rewrite Hc, IH, <- app_assoc. reflexivity.
Qed.

Lemma tokensFrom_tokens (cur s : jstring) :
  Forall (fun c => isSpace c = false) cur ->
  Forall isToken (tokensFrom cur s)
  /\ (cur = [] -> tokensFrom cur s = tokens s).
Proof.
  revert cur. induction s as [|c s IH]; intros cur Hcur.
  - cbn [tokensFrom]. split; [|intros ->; reflexivity].
    destruct cur as [|a cur]; [constructor|].
    constructor; [|constructor]. split; [discriminate|exact Hcur].
  - split; [|intros ->; reflexivity]. cbn [tokensFrom].
    destruct (isSpace c) eqn:Ec.
    + destruct cur as [|a cur]; [apply IH; constructor|].
      constructor; [split; [discriminate|exact Hcur]|].
      apply IH. constructor.
    + apply IH. apply Forall_app. split; [exact Hcur|].
      constructor; [exact Ec|constructor].
Qed.

Lemma tokens_are_tokens (s : jstring) : Forall isToken (tokens s).
Proof. apply tokensFrom_tokens. constructor. Qed.

Lemma tokens_cons (t : jstring) (s : jstring) :
  isToken t -> tokens (t ++ SPACE :: s) = t :: tokens s.
Proof.
  intros [Hne Ht]. unfold tokens. rewrite tokensFrom_app by exact Ht.
  cbn [app tokensFrom]. rewrite SPACE_isSpace.
  destruct t; [contradiction|reflexivity].
Qed.

Lemma tokens_single (t : jstring) : isToken t -> tokens t = [t].
Proof.
  intros [Hne Ht]. unfold tokens.
  rewrite <- (app_nil_r t) at 1. rewrite tokensFrom_app by exact Ht.
  cbn [app tokensFrom]. destruct t; [contradiction|reflexivity].
Qed.

(** Splitting what [join] built from words gives the words back. *)
Lemma tokens_join (ts : list jstring) :
  Forall isToken ts -> tokens (join [SPACE] ts) = ts.
Proof.
  destruct ts as [|t0 ts]; [reflexivity|]. intros H.
  inversion H as [|? ? Ht Hts]; subst. cbn [join]. clear H. revert t0 Ht.
  induction Hts as [|u ts Hu _ IH]; intros t0 Ht.
  - cbn [flat_map]. rewrite app_nil_r. apply tokens_single, Ht.
  - cbn [flat_map]. cbn [app]. rewrite tokens_cons by exact Ht.
    f_equal. apply IH, Hu.
Qed.

Lemma join_snoc (ts : list jstring) (t : jstring) :
  ts <> [] -> join [SPACE] (ts ++ [t]) = join [SPACE] ts ++ [SPACE] ++ t.
Proof.
  destruct ts as [|u ts]; [contradiction|]. intros _.
  cbn [app join]. rewrite flat_map_app. cbn [flat_map].
  rewrite app_nil_r, <- app_assoc. reflexivity.
Qed.

Lemma join_nonempty (g : list jstring) :
  g <> [] -> Forall isToken g -> join [SPACE] g <> [].
Proof.
  destruct g as [|t0 g]; [contradiction|]. intros _ H.
  inversion H as [|? ? [Hne _] _]; subst. cbn [join].
  destruct t0; [contradiction|discriminate].
Qed.

(** The lines of [wrapLoop] are the words of [current] and [toks], in
    order, grouped; [group] holds the words of [current]. *)
Lemma wrapLoop_groups (toks : list jstring) (group : list jstring)
    (maxLen : nat) :
  Forall isToken toks ->
  group = [] \/ lineGroup maxLen group ->
  exists groups,
    wrapLoop toks (join [SPACE] group) maxLen = map (join [SPACE]) groups
    /\ List.concat groups = group ++ toks
    /\ Forall (lineGroup maxLen) groups.
Proof.
  intros Htoks. revert group.
  induction Htoks as [|token toks Htok Htoks IH]; intros group Hgroup.
  - cbn [wrapLoop]. destruct Hgroup as [->|Hg].
    + exists []. cbn. repeat split; constructor.
    + destruct Hg as [Hne [Hall Hfit]].
      pose proof (join_nonempty group Hne Hall) as Hj.
      replace (0 <? List.length (join [SPACE] group))%nat with true.
      2:{ symmetry. apply Nat.ltb_lt. destruct (join [SPACE] group);
          [contradiction|cbn [List.length]; lia]. }
      exists [group]. cbn [map List.concat]. rewrite !app_nil_r.
      split; [reflexivity|]. split; [reflexivity|].
      constructor; [|constructor]. repeat split; assumption.
  - cbn [wrapLoop]. cbv zeta.
    assert (Single : lineGroup maxLen [token]).
    { split; [discriminate|]. split; [constructor; [exact Htok|constructor]|].
      right. exists token. reflexivity. }
    destruct Hgroup as [->|Hg].
    + cbn [join List.length Nat.ltb Nat.leb Nat.eqb]. rewrite orb_true_r.
      destruct (IH [token] (or_intror Single)) as [groups [E [C F]]].
      exists groups. cbn [join flat_map] in E. rewrite app_nil_r in E.
      split; [exact E|]. split; [exact C|exact F].
    + destruct Hg as [Hne [Hall Hfit]].
      pose proof (join_nonempty group Hne Hall) as Hj.
      replace (0 <? List.length (join [SPACE] group))%nat with true.
      2:{ symmetry. apply Nat.ltb_lt. destruct (join [SPACE] group);
          [contradiction|cbn [List.length]; lia]. }
      replace (List.length (join [SPACE] group) =? 0)%nat with false.
      2:{ symmetry. apply Nat.eqb_neq. destruct (join [SPACE] group);
          [contradiction|cbn [List.length]; lia]. }
      rewrite orb_false_r. rewrite <- (join_snoc group token Hne).
      destruct (Nat.leb_spec (List.length (join [SPACE] (group ++ [token])))
                  maxLen) as [Hle|Hgt].
      * destruct (IH (group ++ [token])) as [groups [E [C F]]].
        { right. split; [destruct group; discriminate|].
          split; [apply Forall_app; split;
                  [exact Hall|constructor; [exact Htok|constructor]]|].
          left. exact Hle. }
        exists groups. split; [exact E|]. split; [|exact F].
        rewrite C, <- app_assoc. reflexivity.
      * destruct (IH [token] (or_intror Single)) as [groups [E [C F]]].
        cbn [join flat_map] in E. rewrite app_nil_r in E.
        exists (group :: groups). cbn [map List.concat].
        split; [rewrite E; reflexivity|]. split; [rewrite C; reflexivity|].
        constructor; [|exact F]. repeat split; assumption.
Qed.

(** The words of the lines are the words of the text. *)
Lemma wrapText_tokens (text : jstring) (maxLen : nat) :
  flat_map tokens (wrapText text maxLen) = tokens text.
Proof.
  unfold wrapText.
  destruct (wrapLoop_groups (tokens text) [] maxLen (tokens_are_tokens text)
              (or_introl eq_refl)) as [groups [E [C F]]].
  cbn [join] in E. rewrite E. cbn [app] in C.
  rewrite <- C. clear E C. induction F as [|g groups [_ [Hg _]] _ IH];
    [reflexivity|].
  cbn [map flat_map List.concat]. rewrite IH, tokens_join by exact Hg.
  reflexivity.
Qed.

(** X24.  wrapText returns the words of the text in their order, none lost
    and none split; no line is empty, and a line longer than maxLen consists
    of a single word. *)
Theorem wrapText_keeps_words (text : jstring) (maxLen : nat) :
  flat_map tokens (wrapText text maxLen) = tokens text
  /\ Forall (fun line =>
               line <> []
               /\ ((List.length line <= maxLen)%nat \/ tokens line = [line]))
       (wrapText text maxLen).
Proof.
  split; [apply wrapText_tokens|].
  unfold wrapText.
  destruct (wrapLoop_groups (tokens text) [] maxLen (tokens_are_tokens text)
              (or_introl eq_refl)) as [groups [E [C F]]].
  cbn [join] in E. rewrite E.
  apply Forall_forall. intros line Hline. apply in_map_iff in Hline.
  destruct Hline as [g [<- Hg]].
  destruct (proj1 (Forall_forall _ _) F g Hg) as [Hne [Hall Hfit]].
  split; [apply join_nonempty; assumption|].
  destruct Hfit as [Hfit|[t ->]]; [left; exact Hfit|right].
  cbn [join flat_map]. rewrite app_nil_r. apply tokens_single.
  inversion Hall; assumption.
Qed.

(* ------------------------------------------------------------------ *)
(** ** Cue lines *)

Lemma trimStart_head (s : jstring) :
  match trimStart s with
  | [] => True
  | c :: _ => isSpace c = false
  end.
Proof.
  induction s as [|c s IH]; [exact I|]. cbn [trimStart].
  destruct (isSpace c) eqn:E; [exact IH|exact E].
Qed.

Lemma trimStart_snoc (s : jstring) (c : N) :
  isSpace c = false -> exists u, trimStart (s ++ [c]) = u ++ [c].
Proof.
  intros Hc. induction s as [|a s [u IH]].
  - exists []. cbn. rewrite Hc. reflexivity.
  - cbn [app trimStart]. destruct (isSpace a).
    + exists u. exact IH.
    + exists (a :: s). reflexivity.
Qed.

(** What [trim] returns starts with a unit that is not white space. *)
Lemma trim_head (s : jstring) :
  match trim s with
  | [] => True
  | c :: _ => isSpace c = false
  end.
Proof.
  unfold trim. pose proof (trimStart_head s) as H.
  destruct (trimStart s) as [|c t]; [exact I|].
  cbn [rev]. destruct (trimStart_snoc (rev t) c H) as [u ->].
  rewrite rev_app_distr. cbn [rev app]. exact H.
Qed.

Lemma tokensFrom_nonempty (cur s : jstring) :
  cur <> [] -> tokensFrom cur s <> [].
Proof.
  revert cur. induction s as [|c s IH]; intros cur Hcur; cbn [tokensFrom].
  - destruct cur; [contradiction|discriminate].
  - destruct (isSpace c).
    + destruct cur; [contradiction|discriminate].
    + apply IH. destruct cur; discriminate.
Qed.

Lemma tokens_of_trimmed (s : jstring) : trim s <> [] -> tokens (trim s) <> [].
Proof.
  intros Hne. pose proof (trim_head s) as H.
  destruct (trim s) as [|c t]; [contradiction|].
  unfold tokens. cbn [tokensFrom]. rewrite H.
  apply tokensFrom_nonempty. discriminate.
Qed.

Lemma wrapText_nonempty (text : jstring) (maxLen : nat) :
  tokens text <> [] -> wrapText text maxLen <> [].
Proof.
  intros Hne E.
  pose proof (wrapText_tokens text maxLen) as H.
  rewrite E in H. cbn in H. symmetry in H. contradiction.
Qed.

Lemma filter_length_le {A} (f : A -> bool) (l : list A) :
  (List.length (filter f l) <= List.length l)%nat.
Proof.
  induction l as [|a l IH]; [apply le_n|]. cbn [filter].
  destruct (f a); cbn [List.length]; lia.
Qed.

Lemma wrapText_groups (text : jstring) (maxLen : nat) :
  exists groups,
    wrapText text maxLen = map (join [SPACE]) groups
    /\ List.concat groups = tokens text
    /\ Forall (lineGroup maxLen) groups.
Proof.
  destruct (wrapLoop_groups (tokens text) [] maxLen (tokens_are_tokens text)
              (or_introl eq_refl)) as [groups [E [C F]]].
  exists groups. split; [exact E|]. split; [exact C|exact F].
Qed.

Lemma join_app (a b : list jstring) :
  a <> [] -> b <> [] ->
  join [SPACE] (a ++ b) = join [SPACE] a ++ [SPACE] ++ join [SPACE] b.
Proof.
  destruct a as [|x a]; [contradiction|]. destruct b as [|y b];
    [contradiction|]. intros _ _.
  cbn [app join]. rewrite flat_map_app. cbn [flat_map].
  rewrite <- !app_assoc. reflexivity.
Qed.

Lemma concat_nonempty (groups : list (list jstring)) :
  groups <> [] -> Forall (fun g => g <> []) groups ->
  List.concat groups <> [].
Proof.
  destruct groups as [|g groups]; [contradiction|]. intros _ H.
  inversion H as [|? ? Hg _]; subst. cbn [List.concat].
  destruct g; [contradiction|discriminate].
Qed.

(** Joining lines that are themselves joined words joins the words. *)
Lemma join_lines (groups : list (list jstring)) :
  Forall (fun g => g <> []) groups ->
  join [SPACE] (map (join [SPACE]) groups) = join [SPACE] (List.concat groups).
Proof.
  induction 1 as [|g groups Hg Hgs IH]; [reflexivity|].
  destruct groups as [|g' groups].
  - cbn [map List.concat join flat_map]. rewrite !app_nil_r. reflexivity.
  - cbn [List.concat]. rewrite join_app;
      [|exact Hg|apply (concat_nonempty (g' :: groups)); [discriminate|exact Hgs]].
    cbn [List.concat] in IH. rewrite <- IH. reflexivity.
Qed.

Lemma trimStart_clean (s : jstring) :
  match s with [] => True | c :: _ => isSpace c = false end ->
  trimStart s = s.
Proof. destruct s as [|c s]; [reflexivity|]. cbn. intros ->. reflexivity. Qed.

Lemma isToken_ends (t : jstring) :
  isToken t ->
  exists c u, t = c :: u /\ isSpace c = false
              /\ exists d v, t = v ++ [d] /\ isSpace d = false.
Proof.
  intros [Hne Hall]. destruct t as [|c u]; [contradiction|].
  exists c, u. split; [reflexivity|].
  split; [inversion Hall; assumption|].
  destruct (exists_last (l := c :: u)) as [v [d E]]; [discriminate|].
  exists d, v. split; [exact E|]. rewrite E in Hall.
  apply Forall_app in Hall. destruct Hall as [_ Hd]. inversion Hd; assumption.
Qed.

(** A text made of words joined by single spaces is its own trim. *)
Lemma trim_join (ts : list jstring) :
  Forall isToken ts -> trim (join [SPACE] ts) = join [SPACE] ts.
Proof.
  intros H. destruct ts as [|t0 ts]; [reflexivity|].
  assert (Hhead : exists c u, join [SPACE] (t0 :: ts) = c :: u
                              /\ isSpace c = false).
  { inversion H as [|? ? Ht _]; subst.
    destruct (isToken_ends t0 Ht) as [c [u [-> [Hc _]]]].
    cbn [join app]. eexists _, _. split; [reflexivity|exact Hc]. }
  assert (Hlast : exists d v, join [SPACE] (t0 :: ts) = v ++ [d]
                              /\ isSpace d = false).
  { destruct (exists_last (l := t0 :: ts)) as [body [tl E]]; [discriminate|].
    rewrite E in *. apply Forall_app in H. destruct H as [_ Htl].
    inversion Htl as [|? ? Ht _]; subst.
    destruct (isToken_ends tl Ht) as [_ [_ [_ [_ [d [v [-> Hd]]]]]]].
    destruct body as [|b body].
    - cbn [app join flat_map]. rewrite app_nil_r. exists d, v.
      split; [reflexivity|exact Hd].
    - rewrite join_snoc by discriminate. exists d.
      eexists. rewrite !app_assoc. split; [reflexivity|exact Hd]. }
  destruct Hhead as [c [u [E1 Hc]]]. destruct Hlast as [d [v [E2 Hd]]].
  unfold trim. rewrite (trimStart_clean (join [SPACE] (t0 :: ts)))
    by (rewrite E1; exact Hc).
  rewrite (trimStart_clean (rev (join [SPACE] (t0 :: ts)))).
  - apply rev_involutive.
  - rewrite E2, rev_app_distr. cbn [rev app]. exact Hd.
Qed.

Lemma bestSplitLoop_split (toks : list jstring) (todo i : nat)
    (bestLines : jstring * jstring) (bestScore : nat) :
  (exists k, bestLines = (join [SPACE] (firstn k toks),
                          join [SPACE] (skipn k toks))) ->
  exists k, bestSplitLoop toks todo i bestLines bestScore
            = (join [SPACE] (firstn k toks), join [SPACE] (skipn k toks)).
Proof.
  revert i bestLines bestScore. induction todo as [|todo IH];
    intros i bestLines bestScore H; cbn [bestSplitLoop]; [exact H|].
  cbv zeta. destruct (_ && _); apply IH; [exists i; reflexivity|exact H].
Qed.

Lemma flat_map_filter_nonempty (lines : list jstring) :
  flat_map tokens (filter (fun line => (0 <? List.length line)%nat) lines)
  = flat_map tokens lines.
Proof.
  induction lines as [|l lines IH]; [reflexivity|].
  destruct l as [|c l].
  - change (filter (fun line => (0 <? List.length line)%nat) ([] :: lines))
      with (filter (fun line => (0 <? List.length line)%nat) lines).
    rewrite IH. reflexivity.
  - change (filter (fun line => (0 <? List.length line)%nat)
              ((c :: l) :: lines))
      with ((c :: l)
            :: filter (fun line => (0 <? List.length line)%nat) lines).
    cbn [flat_map]. rewrite IH. reflexivity.
Qed.

Lemma Forall_firstn {A} (P : A -> Prop) (n : nat) (l : list A) :
  Forall P l -> Forall P (firstn n l).
Proof.
  intros H. apply Forall_forall. intros x Hx.
  apply (proj1 (Forall_forall P l) H). revert Hx. apply firstn_incl.
Qed.

Lemma Forall_skipn {A} (P : A -> Prop) (n : nat) (l : list A) :
  Forall P l -> Forall P (skipn n l).
Proof.
  intros H. apply Forall_forall. intros x Hx.
  apply (proj1 (Forall_forall P l) H). revert Hx. apply skipn_incl.
Qed.

(** X25.  formatCueLines returns one or two lines, and the words of these
    lines, in order, are exactly the words of the text of the cue. *)
Theorem formatCueLines_one_or_two_lines (words : list TimedWord) :
  (1 <= List.length (formatCueLines words) <= 2)%nat
  /\ flat_map tokens (formatCueLines words) = tokens (buildCueText words).
Proof.
  unfold formatCueLines. cbv zeta.
  destruct (Nat.eqb_spec (List.length (buildCueText words)) 0) as [E|E].
  { split; [cbn; lia|]. destruct (buildCueText words); [reflexivity|].
    discriminate E. }
  assert (Htext : buildCueText words <> [])
    by (intros E'; rewrite E' in E; apply E; reflexivity).
  assert (Htok : tokens (buildCueText words) <> [])
    by (apply tokens_of_trimmed; exact Htext).
  pose proof (wrapText_nonempty _ MAX_LINE_LENGTH Htok) as Hw.
  destruct (Nat.ltb_spec MAX_LINES_PER_CUE
              (List.length (wrapText (buildCueText words) MAX_LINE_LENGTH)))
    as [Hmany|Hfew].
  2:{ split; [|apply wrapText_tokens].
      unfold MAX_LINES_PER_CUE in Hfew.
      destruct (wrapText (buildCueText words) MAX_LINE_LENGTH);
        [contradiction|cbn [List.length] in *; lia]. }
  unfold rebalanceLines. cbv zeta.
  pose proof (tokens_are_tokens (buildCueText words)) as Hall.
  destruct (tokens (buildCueText words)) as [|t0 toks] eqn:Et;
    [contradiction|].
  set (ts := t0 :: toks) in *.
  destruct (bestSplitLoop_split ts (List.length ts - 1) 1
              (join [SPACE] (firstn ((List.length ts + 1) / 2) ts),
               join [SPACE] (skipn ((List.length ts + 1) / 2) ts))
              (scoreOf
                 (fst (join [SPACE] (firstn ((List.length ts + 1) / 2) ts),
                       join [SPACE] (skipn ((List.length ts + 1) / 2) ts)))
                 (snd (join [SPACE] (firstn ((List.length ts + 1) / 2) ts),
                       join [SPACE] (skipn ((List.length ts + 1) / 2) ts)))))
    as [k Ek]; [eexists; reflexivity|].
  rewrite Ek. cbn [fst snd].
  destruct (_ && _).
  { split; [cbn; lia|]. cbn [flat_map]. rewrite app_nil_r.
    rewrite !tokens_join by (try apply Forall_firstn; try apply Forall_skipn;
                             exact Hall).
    apply firstn_skipn. }
  destruct (wrapText_groups (join [SPACE] ts) MAX_LINE_LENGTH)
    as [groups [Eg [Cg Fg]]].
  rewrite tokens_join in Cg by exact Hall.
  set (wrapped := wrapText (join [SPACE] ts) MAX_LINE_LENGTH) in *.
  assert (Hkeep : flat_map tokens wrapped = ts).
  { unfold wrapped.
    rewrite (wrapText_tokens (join [SPACE] ts) MAX_LINE_LENGTH).
    apply tokens_join, Hall. }
  destruct (Nat.leb_spec (List.length wrapped) MAX_LINES_PER_CUE) as [H2|H2].
  { split; [|exact Hkeep]. unfold MAX_LINES_PER_CUE in H2.
    assert (wrapped <> []).
    { intros Ew. rewrite Ew in Hkeep. discriminate Hkeep. }
    destruct wrapped; [contradiction|cbn [List.length] in *; lia]. }
  unfold MAX_LINES_PER_CUE in *. cbn [Nat.sub].
  destruct groups as [|g0 groups']; [rewrite Eg in H2; cbn in H2; lia|].
  rewrite Eg. cbn [map firstn skipn app].
  inversion Fg as [|? ? [Hg0 [Hg0t _]] Fg']; subst.
  assert (Hne' : Forall (fun g => g <> []) groups')
    by (eapply Forall_impl; [|exact Fg']; intros g [H _]; exact H).
  assert (Htok' : Forall isToken (List.concat groups')).
  { apply Forall_forall. intros x Hx. apply in_concat in Hx.
    destruct Hx as [g [Hg Hx]].
    destruct (proj1 (Forall_forall _ _) Fg' g Hg) as [_ [Ht _]].
    exact (proj1 (Forall_forall _ _) Ht x Hx). }
  rewrite join_lines by exact Hne'. rewrite trim_join by exact Htok'.
  split.
  - pose proof (join_nonempty g0 Hg0 Hg0t) as Hj.
    assert (Ha : (0 <? List.length (join [SPACE] g0))%nat = true).
    { apply Nat.ltb_lt. destruct (join [SPACE] g0); [contradiction|].
      cbn [List.length]. lia. }
    cbn [filter]. rewrite Ha.
    destruct (0 <? List.length (join [SPACE] (List.concat groups')))%nat;
      cbn [List.length]; lia.
  - rewrite flat_map_filter_nonempty. cbn [flat_map]. rewrite app_nil_r.
    rewrite !tokens_join by assumption. rewrite <- Cg. reflexivity.
Qed.

(* ------------------------------------------------------------------ *)
(** ** Binary64 numbers *)

Lemma pow2_pos (e : Z) : 0 < pow2 e.
Proof. unfold pow2. qc2q. apply Qpower_0_lt. reflexivity. Qed.

Lemma pow2_add (a b : Z) : pow2 (a + b) = pow2 a * pow2 b.
Proof.
  apply Qc_is_canon. unfold pow2. qc2q. apply Qpower_plus.
  intros H. discriminate H.
Qed.

Lemma pow2_ofZ (e : Z) : (0 <= e)%Z -> pow2 e = ofZ (2 ^ e).
Proof.
  intros H. apply Qc_is_canon. unfold pow2. qc2q.
  rewrite Zpower_Qpower by exact H. reflexivity.
Qed.

Lemma ofZ_mul (a b : Z) : ofZ (a * b) = ofZ a * ofZ b.
Proof. apply Qc_is_canon. qc2q. rewrite inject_Z_mult. reflexivity. Qed.

Lemma ofZ_add (a b : Z) : ofZ (a + b) = ofZ a + ofZ b.
Proof. apply Qc_is_canon. qc2q. rewrite inject_Z_plus. reflexivity. Qed.

Lemma ofZ_sub (a b : Z) : ofZ (a - b) = ofZ a - ofZ b.
Proof.
  apply Qc_is_canon. qc2q. unfold Z.sub.
  rewrite inject_Z_plus, inject_Z_opp. reflexivity.
Qed.

Lemma ofZ_lt_inv (a b : Z) : ofZ a < ofZ b -> (a < b)%Z.
Proof.
  intros H. destruct (Z_lt_le_dec a b) as [L|L]; [exact L|].
  exfalso. apply ofZ_le in L. qc2q. lra.
Qed.

Lemma ofZ_le_inv (a b : Z) : ofZ a <= ofZ b -> (a <= b)%Z.
Proof.
  intros H. destruct (Z_le_gt_dec a b) as [L|L]; [exact L|].
  exfalso. apply Z.gt_lt, ofZ_lt in L. qc2q. lra.
Qed.

Lemma pow2_shift (a q : Z) :
  (q <= a)%Z -> pow2 a = ofZ (2 ^ (a - q)) * pow2 q.
Proof.
  intros H. replace a with ((a - q) + q)%Z at 1 by ring.
  rewrite pow2_add, pow2_ofZ by lia. reflexivity.
Qed.

Lemma pow2_le (a b : Z) : (a <= b)%Z -> pow2 a <= pow2 b.
Proof.
  intros H. rewrite (pow2_shift b a H).
  assert (H1 : 1 <= ofZ (2 ^ (b - a))).
  { apply (ofZ_le 1). pose proof (Z.pow_pos_nonneg 2 (b - a)). lia. }
  pose proof (pow2_pos a) as P. revert H1 P.
  generalize (ofZ (2 ^ (b - a))) (pow2 a). intros u p H1 P. qc2q. nra.
Qed.

Lemma mul_lt_inv (a b p : Qc) : 0 < p -> a * p < b * p -> a < b.
Proof. intros. qc2q. nra. Qed.

Lemma mul_le_compat (a b p : Qc) : 0 < p -> a <= b -> a * p <= b * p.
Proof. intros. qc2q. nra. Qed.

(** A double that is at least [2^(q+52)] is a multiple of [2^q]. *)
Lemma double_grid (d : Qc) (q : Z) :
  isDouble d -> pow2 (q + 52) <= d -> exists z, d = ofZ z * pow2 q.
Proof.
  intros [m [e [Hm [He ->]]]] Hd.
  destruct (Z_le_gt_dec q e) as [L|L].
  - exists (m * 2 ^ (e - q))%Z.
    rewrite (pow2_shift e q L), ofZ_mul. ring.
  - exfalso.
    assert (H1 : ofZ m < ofZ (2 ^ 53)) by (apply ofZ_lt; lia).
    assert (H2 : ofZ (2 ^ 53) * pow2 e <= pow2 (q + 52)).
    { rewrite <- (pow2_ofZ 53), <- pow2_add by lia. apply pow2_le. lia. }
    pose proof (pow2_pos e) as P. revert Hd H1 H2 P.
    generalize (ofZ m) (ofZ (2 ^ 53)) (pow2 e) (pow2 (q + 52)).
    intros a b p t Hd H1 H2 P. qc2q. nra.
Qed.

(** Below a number [B] of the grid [2^q] that lies above [2^(q+52)], the
    doubles stop at [B - 2^q]. *)
Lemma double_below (d : Qc) (b q : Z) :
  isDouble d -> pow2 (q + 52) < ofZ b * pow2 q -> d < ofZ b * pow2 q ->
  d <= ofZ b * pow2 q - pow2 q.
Proof.
  intros Hd HB Hlt. pose proof (pow2_pos q) as P.
  replace (ofZ b * pow2 q - pow2 q) with (ofZ (b - 1) * pow2 q)
    by (rewrite ofZ_sub; change (ofZ 1) with (Q2Qc 1); ring).
  destruct (Qclt_le_dec d (pow2 (q + 52))) as [Hsmall|Hbig].
  - apply Qclt_le_weak. eapply Qclt_le_trans; [exact Hsmall|].
    rewrite (pow2_shift (q + 52) q), Z.add_simpl_l in * by lia.
    apply mul_le_compat; [exact P|]. apply ofZ_le.
    apply mul_lt_inv, ofZ_lt_inv in HB; [lia|exact P].
  - destruct (double_grid d q Hd Hbig) as [z ->].
    apply mul_le_compat; [exact P|]. apply ofZ_le.
    apply mul_lt_inv, ofZ_lt_inv in Hlt; [lia|exact P].
Qed.

(** An integer below [2^53] is a double. *)
Lemma isDouble_ofZ (n : Z) : (Z.abs n < 2 ^ 53)%Z -> isDouble (ofZ n).
Proof.
  intros H. exists n, 0%Z. split; [exact H|]. split; [lia|].
  rewrite pow2_ofZ by lia. change (ofZ (2 ^ 0)) with (Q2Qc 1). ring.
Qed.

(** Rounding does not cross an integer. *)
Lemma nearest_ge_int (x q : Qc) (n : Z) :
  nearestDouble x q -> (Z.abs n < 2 ^ 53)%Z -> ofZ n <= x -> ofZ n <= q.
Proof.
  intros [_ Hn] Hb Hx. specialize (Hn (ofZ n) (isDouble_ofZ n Hb)).
  revert Hn Hx. generalize (ofZ n). intros k Hn Hx.
  unfold Math_abs in Hn. revert Hn. cases_cmp; intros Hn; qc2q; lra.
Qed.

Lemma nearest_le_int (x q : Qc) (n : Z) :
  nearestDouble x q -> (Z.abs n < 2 ^ 53)%Z -> x <= ofZ n -> q <= ofZ n.
Proof.
  intros [_ Hn] Hb Hx. specialize (Hn (ofZ n) (isDouble_ofZ n Hb)).
  revert Hn Hx. generalize (ofZ n). intros k Hn Hx.
  unfold Math_abs in Hn. revert Hn. cases_cmp; intros Hn; qc2q; lra.
Qed.

(** Rounding does not reach the integer [k <= 2^c] from more than half a
    unit in the last place below it. *)
Lemma nearest_lt_int (x q : Qc) (k c : Z) :
  nearestDouble x q ->
  (1 <= k <= 2 ^ c)%Z -> (0 <= c <= 53)%Z ->
  pow2 (c - 54) < ofZ k - x ->
  q < ofZ k.
Proof.
  intros [_ Hn] Hk Hc Hx.
  assert (Hd : isDouble (ofZ (k * 2 ^ (53 - c) - 1) * pow2 (c - 53))).
  { exists (k * 2 ^ (53 - c) - 1)%Z, (c - 53)%Z.
    split; [|split; [lia|reflexivity]].
    assert (H1 : (0 < 2 ^ (53 - c))%Z) by (apply Z.pow_pos_nonneg; lia).
    assert (H2 : (2 ^ c * 2 ^ (53 - c) = 2 ^ 53)%Z).
    { rewrite <- Z.pow_add_r by lia. f_equal. lia. }
    assert (H3 : (k * 2 ^ (53 - c) <= 2 ^ 53)%Z) by nia.
    nia. }
  specialize (Hn _ Hd).
  assert (E : ofZ (k * 2 ^ (53 - c) - 1) * pow2 (c - 53)
              = ofZ k - pow2 (c - 53)).
  { rewrite ofZ_sub, ofZ_mul. change (ofZ 1) with (Q2Qc 1).
    assert (H1 : ofZ (2 ^ (53 - c)) * pow2 (c - 53) = 1).
    { rewrite <- pow2_ofZ, <- pow2_add by lia.
      replace (53 - c + (c - 53))%Z with 0%Z by ring.
      apply Qc_is_canon. reflexivity. }
    transitivity (ofZ k * (ofZ (2 ^ (53 - c)) * pow2 (c - 53))
                  - pow2 (c - 53)); [ring|].
    rewrite H1. ring. }
  rewrite E in Hn.
  assert (H2 : pow2 (c - 53) = pow2 (c - 54) + pow2 (c - 54)).
  { replace (c - 53)%Z with (1 + (c - 54))%Z by ring.
    rewrite pow2_add, pow2_ofZ by lia. change (ofZ (2 ^ 1)) with (ofZ 2).
    apply Qc_is_canon. qc2q'. ring. }
  rewrite H2 in Hn. pose proof (pow2_pos (c - 54)) as P.
  revert Hn Hx P. generalize (ofZ k) (pow2 (c - 54)). intros K h Hn Hx P.
  unfold Math_abs in Hn. revert Hn. cases_cmp; intros Hn; qc2q; lra.
Qed.

(** Taking an integer off a double below [2^53] leaves a double. *)
Lemma isDouble_sub_int (s : Qc) (n : Z) :
  isDouble s -> s < ofZ (2 ^ 53) -> 0 <= ofZ n -> ofZ n <= s ->
  isDouble (s - ofZ n).
Proof.
  intros [m [e [Hm [He ->]]]] Hs Hn0 Hn.
  pose proof (pow2_pos e) as P.
  destruct (Z_le_gt_dec 0 e) as [L|L].
  - rewrite pow2_ofZ, <- ofZ_mul, <- ofZ_sub in * by exact L.
    apply isDouble_ofZ.
    apply ofZ_lt_inv in Hs. apply ofZ_le_inv in Hn, Hn0. lia.
  - assert (E : ofZ n = ofZ (n * 2 ^ (- e)) * pow2 e).
    { rewrite ofZ_mul, <- Qcmult_assoc, <- pow2_ofZ, <- pow2_add by lia.
      replace (- e + e)%Z with 0%Z by ring.
      change (pow2 0) with (Q2Qc 1). ring. }
    rewrite E in Hn, Hn0 |- *. clear E. set (N := (n * 2 ^ (- e))%Z) in *.
    assert (H0 : (0 <= N)%Z).
    { apply ofZ_le_inv. change (ofZ 0) with (Q2Qc 0).
      revert Hn0 P. generalize (ofZ N) (pow2 e). intros. qc2q. nra. }
    assert (H1 : (N <= m)%Z).
    { apply ofZ_le_inv.
      revert Hn P. generalize (ofZ N) (ofZ m) (pow2 e). intros. qc2q. nra. }
    exists (m - N)%Z, e. split; [lia|]. split; [exact He|].
    rewrite ofZ_sub. ring.
Qed.

(** The quotient of a double [s < y * k] by [y] is not rounded up to the
    integer [k]; [p] and [c] are the binary orders of [y * k] and [k]. *)
Lemma quotient_lt_int (y k p c : Z) (s q : Qc) :
  (0 < y)%Z -> (1 <= k <= 2 ^ c)%Z -> (0 <= c <= 53)%Z -> (0 <= p <= 52)%Z ->
  (2 ^ p < y * k)%Z -> (c <= p + 2)%Z -> (y < 2 ^ (p + 2 - c))%Z ->
  isDouble s -> s < ofZ (y * k) -> nearestDouble (s / ofZ y) q ->
  q < ofZ k.
Proof.
  intros Hy Hk Hc Hp Hpk Hcp Hyp Hs Hlt Hq.
  assert (EB : ofZ (y * k) = ofZ (y * k * 2 ^ (52 - p)) * pow2 (p - 52)).
  { rewrite (ofZ_mul (y * k)), <- Qcmult_assoc, <- pow2_ofZ, <- pow2_add
      by lia.
    replace (52 - p + (p - 52))%Z with 0%Z by ring.
    change (pow2 0) with (Q2Qc 1). ring. }
  assert (Hbelow : s <= ofZ (y * k) - pow2 (p - 52)).
  { rewrite EB. apply double_below; [exact Hs| |rewrite <- EB; exact Hlt].
    rewrite <- EB. replace (p - 52 + 52)%Z with p by ring.
    rewrite pow2_ofZ by lia. apply ofZ_lt, Hpk. }
  apply (nearest_lt_int _ _ k c Hq Hk Hc).
  assert (Ep : pow2 (p - 52) = ofZ (2 ^ (p + 2 - c)) * pow2 (c - 54)).
  { rewrite <- pow2_ofZ, <- pow2_add by lia. f_equal. ring. }
  assert (Hyq : ofZ y < ofZ (2 ^ (p + 2 - c))) by (apply ofZ_lt, Hyp).
  assert (Hy0 : 0 < ofZ y) by (apply (ofZ_lt 0), Hy).
  assert (Ex : s = s / ofZ y * ofZ y).
  { field. intros E. rewrite E in Hy0. revert Hy0. clear. intros H.
    qc2q. lra. }
  rewrite Ep in Hbelow. rewrite ofZ_mul in Hbelow.
  pose proof (pow2_pos (c - 54)) as P.
  revert Hbelow Hyq Hy0 Ex P.
  generalize (s / ofZ y) (ofZ y) (ofZ k) (ofZ (2 ^ (p + 2 - c)))
             (pow2 (c - 54)).
  intros x Y K T h Hbelow Hyq Hy0 Ex P. rewrite Ex in Hbelow.
  clear Ex. qc2q. nra.
Qed.

(** A double is its own nearest double. *)
Lemma nearest_exact (x : Qc) : isDouble x -> nearestDouble x x.
Proof.
  intros H. split; [exact H|]. intros d _.
  replace (x - x) with (Q2Qc 0) by ring.
  unfold Math_abs. cases_cmp; qc2q; lra.
Qed.

(** A double with a full significand that lies within half a unit in the
    last place of [x] is a nearest double of [x]. *)
Lemma nearest_within_half_ulp (x : Qc) (z e : Z) :
  (2 ^ 52 < z < 2 ^ 53)%Z -> (-1074 <= e <= 971)%Z ->
  Math_abs (ofZ z * pow2 e - x) <= pow2 (e - 1) ->
  nearestDouble x (ofZ z * pow2 e).
Proof.
  intros Hz He Hx. split; [exists z, e; split; [lia|split; [exact He|reflexivity]]|].
  intros d Hd. pose proof (pow2_pos (e - 1)) as P.
  assert (E2 : pow2 e = pow2 (e - 1) + pow2 (e - 1)).
  { replace e with (1 + (e - 1))%Z at 1 by ring.
    rewrite pow2_add, pow2_ofZ by lia. change (ofZ (2 ^ 1)) with (ofZ 2).
    apply Qc_is_canon. qc2q'. ring. }
  assert (Far : d = ofZ z * pow2 e
                \/ d <= ofZ z * pow2 e - pow2 e
                \/ ofZ z * pow2 e + pow2 e <= d).
  { destruct (Qclt_le_dec d (pow2 (e + 52))) as [Hsmall|Hbig].
    - right. left.
      rewrite (pow2_shift (e + 52) e), Z.add_simpl_l in Hsmall by lia.
      assert (H1 : ofZ (2 ^ 52) + 1 <= ofZ z).
      { change (Q2Qc 1) with (ofZ 1). rewrite <- ofZ_add. apply ofZ_le. lia. }
      pose proof (pow2_pos e) as Pe. revert Hsmall H1 Pe.
      generalize (ofZ (2 ^ 52)) (ofZ z) (pow2 e). intros. qc2q. nra.
    - destruct (double_grid d e Hd Hbig) as [z' ->].
      destruct (Z.lt_trichotomy z' z) as [L|[L|L]].
      + right. left.
        replace (ofZ z * pow2 e - pow2 e) with (ofZ (z - 1) * pow2 e)
          by (rewrite ofZ_sub; change (ofZ 1) with (Q2Qc 1); ring).
        apply mul_le_compat; [apply pow2_pos|apply ofZ_le; lia].
      + left. subst z'. reflexivity.
      + right. right.
        replace (ofZ z * pow2 e + pow2 e) with (ofZ (z + 1) * pow2 e)
          by (rewrite ofZ_add; change (ofZ 1) with (Q2Qc 1); ring).
        apply mul_le_compat; [apply pow2_pos|apply ofZ_le; lia]. }
  clear Hd. revert Hx Far. generalize (ofZ z * pow2 e). intros q Hx Far.
  rewrite E2 in Far. clear E2. revert Hx Far P.
  generalize (pow2 (e - 1)). intros h Hx Far P.
  unfold Math_abs in *. revert Hx.
  destruct Far as [->|[Far|Far]]; cases_cmp; intros Hx; qc2q; lra.
Qed.

(* ------------------------------------------------------------------ *)
(** ** Timestamps *)

Lemma pad_fields_small (size : nat) (bound : nat) :
  forallb (fun k => fieldOk size (Z.of_nat k)) (seq 0 bound) = true ->
  forall n, (0 <= n < Z.of_nat bound)%Z -> fieldOf n size (pad n size).
Proof.
  intros H n Hn. rewrite forallb_forall in H.
  specialize (H (Z.to_nat n)). rewrite Z2Nat.id in H by lia.
  assert (Hin : In (Z.to_nat n) (seq 0 bound)) by (apply in_seq; lia).
  specialize (H Hin). unfold fieldOk in H.
  apply andb_true_iff in H. destruct H as [H H3].
  apply andb_true_iff in H. destruct H as [H1 H2].
  split; [apply Nat.eqb_eq, H1|]. split; [exact H2|apply Z.eqb_eq, H3].
Qed.

Lemma pad2 (n : Z) : (0 <= n < 100)%Z -> fieldOf n 2 (pad n 2).
Proof.
  apply (pad_fields_small 2 100). vm_compute. reflexivity.
Qed.

Lemma pad3 (n : Z) : (0 <= n < 1000)%Z -> fieldOf n 3 (pad n 3).
Proof.
  apply (pad_fields_small 3 1000). vm_compute. reflexivity.
Qed.

Lemma pad1 (n : Z) : (0 <= n < 10)%Z -> fieldOf n 1 (pad n 1).
Proof.
  apply (pad_fields_small 1 10). vm_compute. reflexivity.
Qed.

(** The floor of [(a + f) / k] for an integer [a], a fraction [f] and a
    positive integer [k]. *)
Lemma floor_shift_div (a k : Z) (f : Qc) :
  (0 < k)%Z -> 0 <= f -> f < 1 ->
  Qfloor ((ofZ a + f) / ofZ k)%Qc = (a / k)%Z.
Proof.
  intros Hk Hf0 Hf1. apply Qfloor_unique.
  - qc2q. apply Qle_shift_div_l.
    + change 0%Q with (inject_Z 0). rewrite <- Zlt_Qlt. exact Hk.
    + pose proof (Z.mul_div_le a k Hk) as H. rewrite Zle_Qle in H.
      rewrite inject_Z_mult in H. lra.
  - qc2q. apply Qlt_shift_div_r.
    + change 0%Q with (inject_Z 0). rewrite <- Zlt_Qlt. exact Hk.
    + assert (H : (a + 1 <= (a / k + 1) * k)%Z).
      { pose proof (Z.mod_pos_bound a k Hk). pose proof (Z.div_mod a k).
        nia. }
      rewrite Zle_Qle in H. rewrite inject_Z_mult, !inject_Z_plus in H.
      rewrite inject_Z_plus. change (inject_Z 1) with 1%Q in *. lra.
Qed.

(** A non-negative number is its floor plus a fraction. *)
Lemma floor_frac (s : Qc) :
  0 <= s ->
  (0 <= Qfloor s)%Z
  /\ exists f, s = ofZ (Qfloor s) + f /\ 0 <= f /\ f < 1.
Proof.
  intros Hs. split.
  - change 0%Z with (Qfloor 0). apply Qfloor_resp_le. exact Hs.
  - exists (s - ofZ (Qfloor s)). split; [ring|].
    pose proof (Qfloor_le s) as F1. pose proof (Qlt_floor s) as F2.
    rewrite inject_Z_plus in F2. change (inject_Z 1) with 1%Q in F2.
    split; qc2q; lra.
Qed.

Lemma truncZ_nonneg (a : Qc) : 0 <= a -> truncZ a = Qfloor a.
Proof.
  intros H. unfold truncZ. rewrite ltb_false by exact H. reflexivity.
Qed.

Lemma Math_rem_nonneg (n k : Z) (f : Qc) :
  (0 <= n)%Z -> (0 < k)%Z -> 0 <= f -> f < 1 ->
  Math_rem (ofZ n + f) (ofZ k) = ofZ (n mod k) + f.
Proof.
  intros Hn Hk Hf0 Hf1. unfold Math_rem.
  rewrite truncZ_nonneg.
  - rewrite floor_shift_div by assumption.
    rewrite (Z.mod_eq n k) by lia.
    apply Qc_is_canon. qc2q.
    unfold Zminus. rewrite inject_Z_plus, inject_Z_opp, inject_Z_mult. ring.
  - assert (H0 : 0 <= ofZ n) by (apply (ofZ_le 0 n), Hn).
    assert (Hkq : 0 < ofZ k) by (apply (ofZ_lt 0 k), Hk).
    revert H0 Hkq Hf0. generalize (ofZ n) (ofZ k). intros a b H0 Hkq Hf0.
    qc2q. apply Qle_shift_div_l; [exact Hkq|]. lra.
Qed.

Lemma floor_scaled_fraction (f : Qc) (u : Z) :
  (0 < u)%Z -> 0 <= f -> f < 1 -> (0 <= Qfloor (f * ofZ u)%Qc < u)%Z.
Proof.
  intros Hu Hf0 Hf1.
  pose proof (Qfloor_le (f * ofZ u)%Qc) as F1.
  pose proof (Qlt_floor (f * ofZ u)%Qc) as F2.
  set (z := Qfloor (f * ofZ u)%Qc) in *. clearbody z.
  rewrite inject_Z_plus in F2. change (inject_Z 1) with 1%Q in F2.
  assert (Hq : 0 < ofZ u) by (apply (ofZ_lt 0), Hu).
  split.
  - destruct (Z_lt_le_dec z 0) as [L|L]; [|exact L]. exfalso.
    assert (L' : (z + 1 <= 0)%Z) by lia.
    rewrite Zle_Qle, inject_Z_plus in L'. change (inject_Z 1) with 1%Q in L'.
    change (inject_Z 0) with 0%Q in L'. qc2q. nra.
  - destruct (Z_lt_le_dec z u) as [L|L]; [exact L|]. exfalso.
    rewrite Zle_Qle in L. qc2q. nra.
Qed.

Lemma ofZ_plus_0 (a : Z) (f : Qc) : ofZ a + f = (ofZ a + f) / ofZ 1.
Proof. apply Qc_is_canon. qc2q'. field. Qed.

(** The four numbers printed for a time: they are in range and add up to
    the time, cut to the unit of the last field. *)
Lemma time_fields (seconds : Qc) (unitsPerSecond : Z) (last : Qc -> Qc) :
  0 <= seconds -> (0 < unitsPerSecond)%Z ->
  (forall f, last f = f * ofZ unitsPerSecond) ->
  let hours := Qfloor (seconds / ofZ 3600)%Qc in
  let minutes := Qfloor (Math_rem seconds (ofZ 3600) / ofZ 60)%Qc in
  let secs := Qfloor (Math_rem seconds (ofZ 60)) in
  let sub := Qfloor (last (Math_rem seconds 1)) in
  (0 <= hours)%Z /\ (0 <= minutes < 60)%Z /\ (0 <= secs < 60)%Z
  /\ (0 <= sub < unitsPerSecond)%Z
  /\ (((hours * 3600 + minutes * 60 + secs) * unitsPerSecond + sub)%Z
      = Qfloor (seconds * ofZ unitsPerSecond)%Qc)
  /\ (hours = Qfloor seconds / 3600)%Z.
Proof.
  intros Hs Hu Hlast. cbv zeta.
  destruct (floor_frac seconds Hs) as [Hn [f [E [Hf0 Hf1]]]].
  set (n := Qfloor seconds) in *. rewrite E.
  rewrite floor_shift_div by (try lia; assumption).
  rewrite !Math_rem_nonneg by (try lia; assumption).
  rewrite floor_shift_div
    by (try lia; try assumption).
  rewrite (ofZ_plus_0 (n mod 60) f), floor_shift_div by (try lia; assumption).
  rewrite Z.div_1_r.
  change (Q2Qc 1) with (ofZ 1). rewrite Math_rem_nonneg
    by (try lia; assumption).
  rewrite Z.mod_1_r.
  replace (ofZ 0 + f) with f by (apply Qc_is_canon; qc2q'; ring).
  rewrite Hlast.
  pose proof (floor_scaled_fraction f unitsPerSecond Hu Hf0 Hf1) as Hsub.
  pose proof (Z.mod_pos_bound n 3600 ltac:(lia)) as M1.
  pose proof (Z.mod_pos_bound n 60 ltac:(lia)) as M2.
  pose proof (Z.div_mod n 3600 ltac:(lia)) as D1.
  pose proof (Z.div_mod (n mod 3600) 60 ltac:(lia)) as D2.
  assert (M3 : ((n mod 3600) mod 60 = n mod 60)%Z).
  { rewrite D1 at 2.
    replace (3600 * (n / 3600) + n mod 3600)%Z
      with (n mod 3600 + 60 * (n / 3600) * 60)%Z by ring.
    symmetry. apply Z_mod_plus_full. }
  pose proof (Z.mod_pos_bound (n mod 3600) 60 ltac:(lia)) as M4.
  split; [apply Z.div_pos; lia|].
  split; [split; [apply Z.div_pos; lia|apply Z.div_lt_upper_bound; lia]|].
  split; [exact M2|]. split; [exact Hsub|]. split; [|reflexivity].
  assert (Hsum : (n / 3600 * 3600 + n mod 3600 / 60 * 60 + n mod 60 = n)%Z)
    by lia.
  rewrite Hsum.
  pose proof (Qfloor_le (f * ofZ unitsPerSecond)%Qc) as F1.
  pose proof (Qlt_floor (f * ofZ unitsPerSecond)%Qc) as F2.
  set (z := Qfloor (f * ofZ unitsPerSecond)%Qc) in *. clearbody z.
  rewrite inject_Z_plus in F2. change (inject_Z 1) with 1%Q in F2.
  symmetry. apply Qfloor_unique.
  - rewrite inject_Z_plus, inject_Z_mult. qc2q. nra.
  - rewrite !inject_Z_plus, inject_Z_mult. change (inject_Z 1) with 1%Q.
    qc2q. nra.
Qed.

Lemma floor_le_self (q : Qc) : ofZ (Qfloor q) <= q.
Proof. pose proof (Qfloor_le q) as H. qc2q. exact H. Qed.

Lemma lt_floor_succ (q : Qc) : q < ofZ (Qfloor q + 1).
Proof. pose proof (Qlt_floor q) as H. qc2q. exact H. Qed.

Lemma floor_between (q : Qc) (a b : Z) :
  ofZ a <= q -> q <= ofZ b -> (a <= Qfloor q <= b)%Z.
Proof.
  intros Ha Hb. split.
  - rewrite <- (Qfloor_ofZ a). apply Qfloor_resp_le. exact Ha.
  - rewrite <- (Qfloor_ofZ b). apply Qfloor_resp_le. exact Hb.
Qed.

Lemma floor_lt (q : Qc) (k : Z) : q < ofZ k -> (Qfloor q < k)%Z.
Proof.
  intros H. apply ofZ_lt_inv. pose proof (floor_le_self q) as F.
  revert F H. generalize (ofZ (Qfloor q)) (ofZ k). intros a b F H.
  qc2q. lra.
Qed.

Lemma quotientOrders_spec (y k : Z) :
  quotientOrders y k = true ->
  exists p c : Z,
    (1 <= k <= 2 ^ c)%Z /\ (0 <= c <= 53)%Z /\ (0 <= p <= 52)%Z
    /\ (2 ^ p < y * k)%Z /\ (c <= p + 2)%Z /\ (y < 2 ^ (p + 2 - c))%Z.
Proof.
  unfold quotientOrders. cbv zeta. intros H.
  repeat (apply andb_true_iff in H; destruct H as [H ?]).
  exists (Z.log2 (y * k - 1)), (Z.log2_up k). lia.
Qed.

(** Rounding the quotient of a double by [y] does not change its floor,
    for the quotients below [bound]. *)
Lemma floor_rounded_quotient (y bound : Z) (s q : Qc) :
  forallb (fun k => quotientOrders y (Z.of_nat k)) (seq 1 (Z.to_nat bound))
  = true ->
  (0 < y)%Z -> isDouble s -> 0 <= s -> s < ofZ (y * bound) ->
  nearestDouble (s / ofZ y) q ->
  Qfloor q = Qfloor (s / ofZ y)%Qc.
Proof.
  intros Hall Hy Hd Hs0 Hlt Hq.
  assert (Hy0 : 0 < ofZ y) by (apply (ofZ_lt 0), Hy).
  assert (Ex : s = s / ofZ y * ofZ y).
  { field. intros E. rewrite E in Hy0. revert Hy0. clear. intros H.
    qc2q. lra. }
  pose proof (floor_le_self (s / ofZ y)) as F1.
  pose proof (lt_floor_succ (s / ofZ y)) as F2.
  assert (F0 : (0 <= Qfloor (s / ofZ y)%Qc)%Z).
  { change 0%Z with (Qfloor 0). apply Qfloor_resp_le.
    revert Hs0 Hy0 Ex. generalize (s / ofZ y) (ofZ y). intros x Y Hs0 Hy0 Ex.
    rewrite Ex in Hs0. clear Ex. qc2q. nra. }
  assert (F3 : (Qfloor (s / ofZ y)%Qc < bound)%Z).
  { apply floor_lt. rewrite ofZ_mul in Hlt.
    revert Hlt Hy0 Ex. generalize (s / ofZ y) (ofZ y) (ofZ bound).
    intros x Y B Hlt Hy0 Ex. rewrite Ex in Hlt. clear Ex. qc2q. nra. }
  set (k0 := Qfloor (s / ofZ y)%Qc) in *.
  rewrite forallb_forall in Hall. specialize (Hall (Z.to_nat (k0 + 1))).
  rewrite Z2Nat.id in Hall by lia.
  assert (Hin : In (Z.to_nat (k0 + 1)) (seq 1 (Z.to_nat bound)))
    by (apply in_seq; lia).
  destruct (quotientOrders_spec _ _ (Hall Hin))
    as [p [c [Hk [Hc [Hp [Hpk [Hcp Hyp]]]]]]].
  assert (Hpow : (2 ^ c <= 2 ^ 53)%Z) by (apply Z.pow_le_mono_r; lia).
  assert (Hlo : ofZ k0 <= q) by (apply (nearest_ge_int _ _ _ Hq); [lia|exact F1]).
  assert (Hhi : q < ofZ (k0 + 1)).
  { apply (quotient_lt_int y (k0 + 1) p c s q); try assumption.
    rewrite ofZ_mul. revert F2 Hy0 Ex.
    generalize (s / ofZ y) (ofZ y) (ofZ (k0 + 1)).
    intros x Y K F2 Hy0 Ex. rewrite Ex. clear Ex. qc2q. nra. }
  apply Qfloor_unique.
  - revert Hlo. clear. intros Hlo. qc2q. exact Hlo.
  - revert Hhi. clear. intros Hhi. qc2q. exact Hhi.
Qed.

(** The remainder of a non-negative double by a positive integer is a
    double below that integer. *)
Lemma Math_rem_double (s : Qc) (k : Z) :
  isDouble s -> 0 <= s -> s < ofZ (2 ^ 53) -> (0 < k)%Z ->
  isDouble (Math_rem s (ofZ k)) /\ 0 <= Math_rem s (ofZ k)
  /\ Math_rem s (ofZ k) < ofZ k.
Proof.
  intros Hd Hs Hlt Hk.
  destruct (floor_frac s Hs) as [Hn [f [E [Hf0 Hf1]]]].
  set (n := Qfloor s) in *.
  assert (R : Math_rem s (ofZ k) = ofZ (n mod k) + f).
  { rewrite E at 1. apply Math_rem_nonneg; assumption. }
  pose proof (Z.mod_pos_bound n k Hk) as M.
  pose proof (Z.mod_le n k Hn Hk) as M'.
  assert (R' : Math_rem s (ofZ k) = s - ofZ (n - n mod k)).
  { rewrite R, ofZ_sub. rewrite E at 1. ring. }
  split; [|split].
  - rewrite R'. apply isDouble_sub_int; [exact Hd|exact Hlt| |].
    + apply (ofZ_le 0). lia.
    + assert (H1 : ofZ (n - n mod k) <= ofZ n) by (apply ofZ_le; lia).
      revert H1 Hf0 E. generalize (ofZ (n - n mod k)) (ofZ n).
      intros a b H1 Hf0 E. rewrite E. clear E. qc2q. lra.
  - rewrite R. assert (H1 : 0 <= ofZ (n mod k)) by (apply (ofZ_le 0); lia).
    revert H1 Hf0. generalize (ofZ (n mod k)). intros a H1 Hf0. qc2q. lra.
  - rewrite R.
    assert (H1 : ofZ (n mod k) <= ofZ (k - 1)) by (apply ofZ_le; lia).
    rewrite ofZ_sub in H1. change (ofZ 1) with (Q2Qc 1) in H1.
    revert H1 Hf1. generalize (ofZ (n mod k)) (ofZ k). intros a b H1 Hf1.
    qc2q. lra.
Qed.

(** Rounding moves the floor up by at most one. *)
Lemma floor_rounded_near (x q : Qc) :
  nearestDouble x q -> (Z.abs (Qfloor x) + 1 < 2 ^ 53)%Z ->
  (Qfloor x <= Qfloor q <= Qfloor x + 1)%Z.
Proof.
  intros Hq Hb. apply floor_between.
  - apply (nearest_ge_int _ _ _ Hq); [lia|apply floor_le_self].
  - apply (nearest_le_int _ _ _ Hq); [lia|].
    apply Qclt_le_weak, lt_floor_succ.
Qed.

(** The milliseconds of a fraction [f]: the rounded product is a double
    below 1000. *)
Lemma rounded_milliseconds (f q : Qc) :
  isDouble f -> 0 <= f -> f < 1 -> nearestDouble (f * ofZ 1000) q ->
  0 <= q /\ q < ofZ 1000
  /\ (Qfloor (f * ofZ 1000)%Qc <= Qfloor q <= Qfloor (f * ofZ 1000)%Qc + 1)%Z.
Proof.
  intros Hd Hf0 Hf1 Hq.
  pose proof (floor_scaled_fraction f 1000 ltac:(lia) Hf0 Hf1) as Hms.
  split; [|split].
  - apply (nearest_ge_int _ _ 0 Hq); [reflexivity|].
    change (ofZ 0) with (Q2Qc 0). revert Hf0. clear. intros Hf0.
    qc2q'. lra.
  - apply (nearest_lt_int _ _ 1000 10 Hq); [lia|lia|].
    assert (E1 : ofZ (2 ^ 53) * pow2 (-53) = 1)
      by (apply Qc_is_canon; reflexivity).
    assert (Hb : f <= ofZ (2 ^ 53) * pow2 (-53) - pow2 (-53)).
    { apply double_below; [exact Hd| |rewrite E1; exact Hf1].
      rewrite E1. reflexivity. }
    rewrite E1 in Hb.
    assert (E2 : pow2 (10 - 54) = ofZ 512 * pow2 (-53))
      by (apply Qc_is_canon; reflexivity).
    rewrite E2. pose proof (pow2_pos (-53)) as P.
    revert Hb P. generalize (pow2 (-53)). intros h Hb P. qc2q'. lra.
  - apply floor_rounded_near; [exact Hq|]. lia.
Qed.

(** The centiseconds: the rounded tenth of the rounded milliseconds is
    below 100 and at most one above the exact centiseconds. *)
Lemma rounded_centiseconds (f q3 q4 : Qc) :
  isDouble f -> 0 <= f -> f < 1 ->
  nearestDouble (f * ofZ 1000) q3 -> nearestDouble (q3 / ofZ 10) q4 ->
  (0 <= Qfloor q4 < 100)%Z
  /\ (Qfloor (f * ofZ 100)%Qc <= Qfloor q4 <= Qfloor (f * ofZ 100)%Qc + 1)%Z.
Proof.
  intros Hd Hf0 Hf1 H3 H4.
  destruct (rounded_milliseconds f q3 Hd Hf0 Hf1 H3) as [Q0 [Q1 _]].
  pose proof (floor_scaled_fraction f 100 ltac:(lia) Hf0 Hf1) as Hcs.
  pose proof (floor_le_self (f * ofZ 100)) as F1.
  pose proof (lt_floor_succ (f * ofZ 100)) as F2.
  set (c0 := Qfloor (f * ofZ 100)%Qc) in *.
  assert (L3 : ofZ (10 * c0) <= q3).
  { apply (nearest_ge_int _ _ _ H3); [lia|]. rewrite ofZ_mul.
    revert F1. generalize (ofZ c0). intros a F1. qc2q'. lra. }
  assert (U3 : q3 <= ofZ (10 * (c0 + 1))).
  { apply (nearest_le_int _ _ _ H3); [lia|]. rewrite ofZ_mul.
    revert F2. generalize (ofZ (c0 + 1)). intros a F2. qc2q'. lra. }
  assert (L4 : ofZ c0 <= q4).
  { apply (nearest_ge_int _ _ _ H4); [lia|]. rewrite ofZ_mul in L3.
    revert L3. generalize (ofZ c0). intros a L3. qc2q'.
    apply Qle_shift_div_l; lra. }
  assert (U4 : q4 <= ofZ (c0 + 1)).
  { apply (nearest_le_int _ _ _ H4); [lia|]. rewrite ofZ_mul in U3.
    revert U3. generalize (ofZ (c0 + 1)). intros a U3. qc2q'.
    apply Qle_shift_div_r; lra. }
  assert (T4 : q4 < ofZ 100).
  { apply (nearest_lt_int _ _ 100 7 H4); [lia|lia|].
    assert (E1 : ofZ (1000 * 2 ^ 43) * pow2 (-43) = ofZ 1000)
      by (apply Qc_is_canon; reflexivity).
    assert (Hb : q3 <= ofZ (1000 * 2 ^ 43) * pow2 (-43) - pow2 (-43)).
    { apply double_below; [exact (proj1 H3)| |rewrite E1; exact Q1].
      rewrite E1. reflexivity. }
    rewrite E1 in Hb.
    assert (E2 : pow2 (-43) = ofZ 16 * pow2 (7 - 54))
      by (apply Qc_is_canon; reflexivity).
    rewrite E2 in Hb. pose proof (pow2_pos (7 - 54)) as P.
    revert Hb P. generalize (pow2 (7 - 54)). intros h Hb P. qc2q'.
    assert (Hdiv : (q3 / (10 # 1) <= (100 # 1) - (16 # 10) * h)%Q).
    { apply Qle_shift_div_r; lra. }
    unfold Qdiv in Hdiv. lra. }
  pose proof (floor_between q4 c0 (c0 + 1) L4 U4) as B.
  pose proof (floor_lt q4 100 T4) as T. lia.
Qed.

(** X26.  For a binary64 number seconds with 0 <= seconds < 36000, every
    division and multiplication being rounded to a nearest binary64 number
    (% and Math.floor are exact), formatSrtTime prints HH:MM:SS,mmm in 12
    characters and formatAssTime prints H:MM:SS.cc in 10 characters; every
    field is a zero-padded decimal number, minutes and seconds are below 60,
    milliseconds below 1000 and centiseconds below 100; hours, minutes and
    seconds add up to floor(seconds); with the milliseconds the fields give
    floor(seconds * 1000) or one more, and with the centiseconds
    floor(seconds * 100) or one more, the extra unit coming from the
    rounding (the double nearest to 0.623 lies below 0.623 and is printed as
    00:00:00,623). *)
Theorem timestamps_well_formed (fl : Qc -> Qc) (seconds : Qc) :
  isDouble seconds -> 0 <= seconds -> seconds < ofZ 36000 ->
  roundsTimeOf fl seconds ->
  exists h m s ms cs,
    (0 <= h < 10)%Z /\ (0 <= m < 60)%Z /\ (0 <= s < 60)%Z
    /\ (0 <= ms < 1000)%Z /\ (0 <= cs < 100)%Z
    /\ (h * 3600 + m * 60 + s = Qfloor seconds)%Z
    /\ (Qfloor (seconds * ofZ 1000)%Qc
        <= (h * 3600 + m * 60 + s) * 1000 + ms
        <= Qfloor (seconds * ofZ 1000)%Qc + 1)%Z
    /\ (Qfloor (seconds * ofZ 100)%Qc
        <= (h * 3600 + m * 60 + s) * 100 + cs
        <= Qfloor (seconds * ofZ 100)%Qc + 1)%Z
    /\ formatSrtTime fl seconds
       = pad h 2 ++ lit ":" ++ pad m 2 ++ lit ":" ++ pad s 2 ++ lit ","
           ++ pad ms 3
    /\ formatAssTime fl seconds
       = pad h 1 ++ lit ":" ++ pad m 2 ++ lit ":" ++ pad s 2 ++ lit "."
           ++ pad cs 2
    /\ fieldOf h 2 (pad h 2) /\ fieldOf h 1 (pad h 1)
    /\ fieldOf m 2 (pad m 2) /\ fieldOf s 2 (pad s 2)
    /\ fieldOf ms 3 (pad ms 3) /\ fieldOf cs 2 (pad cs 2)
    /\ List.length (formatSrtTime fl seconds) = 12%nat
    /\ List.length (formatAssTime fl seconds) = 10%nat.
Proof.
  intros Hd Hs Hlt [R1 [R2 [R3 R4]]].
  destruct (time_fields seconds 1000 (fun f => f * ofZ 1000) Hs ltac:(lia)
              (fun f => eq_refl)) as [H1 [H2 [H3 [H4 [H5 H6]]]]].
  destruct (time_fields seconds 100 (fun f => f * ofZ 100) Hs ltac:(lia)
              (fun f => eq_refl)) as [_ [_ [_ [C4 [C5 _]]]]].
  destruct (time_fields seconds 1 (fun f => f * ofZ 1) Hs ltac:(lia)
              (fun f => eq_refl)) as [_ [_ [_ [U4 [U5 _]]]]].
  replace (seconds * ofZ 1) with seconds in U5
    by (apply Qc_is_canon; qc2q'; ring).
  assert (Hbig : seconds < ofZ (2 ^ 53)).
  { assert (L : ofZ 36000 < ofZ (2 ^ 53)) by (apply ofZ_lt; reflexivity).
    revert Hlt L. generalize (ofZ 36000) (ofZ (2 ^ 53)). intros a b Hlt L.
    qc2q. lra. }
  destruct (Math_rem_double seconds 3600 Hd Hs Hbig ltac:(lia))
    as [D1 [D2 D3]].
  destruct (Math_rem_double seconds 1 Hd Hs Hbig ltac:(lia))
    as [F1 [F2 F3]].
  change (ofZ 1) with (Q2Qc 1) in F1, F2, F3.
  assert (Eh : Qfloor (fl (seconds / ofZ 3600))
               = Qfloor (seconds / ofZ 3600)%Qc).
  { apply (floor_rounded_quotient 3600 10); try assumption;
      [vm_compute; reflexivity|lia]. }
  assert (Em : Qfloor (fl (Math_rem seconds (ofZ 3600) / ofZ 60))
               = Qfloor (Math_rem seconds (ofZ 3600) / ofZ 60)%Qc).
  { apply (floor_rounded_quotient 60 60); try assumption;
      [vm_compute; reflexivity|lia]. }
  destruct (rounded_milliseconds _ _ F1 F2 F3 R3) as [_ [M1 M2]].
  apply floor_lt in M1.
  destruct (rounded_centiseconds _ _ _ F1 F2 F3 R3 R4) as [N1 N2].
  set (h := Qfloor (seconds / ofZ 3600)%Qc) in *.
  set (m := Qfloor (Math_rem seconds (ofZ 3600) / ofZ 60)%Qc) in *.
  set (s := Qfloor (Math_rem seconds (ofZ 60))) in *.
  set (ms := Qfloor (fl (Math_rem seconds 1 * ofZ 1000))) in *.
  set (cs := Qfloor (fl (fl (Math_rem seconds 1 * ofZ 1000) / ofZ 10))) in *.
  assert (Hh : (h < 10)%Z).
  { rewrite H6. apply Z.div_lt_upper_bound; [lia|].
    destruct (Z_lt_le_dec (Qfloor seconds) (3600 * 10)) as [L|L]; [exact L|].
    exfalso. pose proof (Qfloor_le seconds) as F. rewrite Zle_Qle in L.
    change (inject_Z (3600 * 10)) with (36000 # 1)%Q in L.
    clear - F L Hlt. qc2q'. lra. }
  pose proof (pad2 h ltac:(lia)) as P1. pose proof (pad1 h ltac:(lia)) as P1'.
  pose proof (pad2 m ltac:(lia)) as P2. pose proof (pad2 s ltac:(lia)) as P3.
  pose proof (pad3 ms ltac:(lia)) as P4.
  pose proof (pad2 cs ltac:(lia)) as P5.
  assert (Es : formatSrtTime fl seconds
               = pad h 2 ++ lit ":" ++ pad m 2 ++ lit ":" ++ pad s 2
                   ++ lit "," ++ pad ms 3).
  { unfold formatSrtTime. cbv zeta. rewrite Eh, Em. reflexivity. }
  assert (Ea : formatAssTime fl seconds
               = pad h 1 ++ lit ":" ++ pad m 2 ++ lit ":" ++ pad s 2
                   ++ lit "." ++ pad cs 2).
  { unfold formatAssTime. cbv zeta. rewrite Eh, Em. reflexivity. }
  exists h, m, s, ms, cs.
  split; [lia|]. split; [exact H2|]. split; [exact H3|]. split; [lia|].
  split; [lia|]. split; [lia|]. split; [lia|]. split; [lia|].
  split; [exact Es|]. split; [exact Ea|].
  split; [exact P1|]. split; [exact P1'|]. split; [exact P2|].
  split; [exact P3|]. split; [exact P4|]. split; [exact P5|].
  rewrite Es, Ea, !length_app.
  destruct P1 as [-> _], P1' as [-> _], P2 as [-> _], P3 as [-> _],
           P4 as [-> _], P5 as [-> _].
  split; reflexivity.
Qed.

Lemma timestamps_well_formed_witness :
  isDouble time623 /\ 0 <= time623 /\ time623 < ofZ 36000
  /\ roundsTimeOf fl623 time623
  /\ exists h m s ms cs,
    (0 <= h < 10)%Z /\ (0 <= m < 60)%Z /\ (0 <= s < 60)%Z
    /\ (0 <= ms < 1000)%Z /\ (0 <= cs < 100)%Z
    /\ (h * 3600 + m * 60 + s = Qfloor time623)%Z
    /\ (Qfloor (time623 * ofZ 1000)%Qc
        <= (h * 3600 + m * 60 + s) * 1000 + ms
        <= Qfloor (time623 * ofZ 1000)%Qc + 1)%Z
    /\ (Qfloor (time623 * ofZ 100)%Qc
        <= (h * 3600 + m * 60 + s) * 100 + cs
        <= Qfloor (time623 * ofZ 100)%Qc + 1)%Z
    /\ formatSrtTime fl623 time623
       = pad h 2 ++ lit ":" ++ pad m 2 ++ lit ":" ++ pad s 2 ++ lit ","
           ++ pad ms 3
    /\ formatAssTime fl623 time623
       = pad h 1 ++ lit ":" ++ pad m 2 ++ lit ":" ++ pad s 2 ++ lit "."
           ++ pad cs 2
    /\ fieldOf h 2 (pad h 2) /\ fieldOf h 1 (pad h 1)
    /\ fieldOf m 2 (pad m 2) /\ fieldOf s 2 (pad s 2)
    /\ fieldOf ms 3 (pad ms 3) /\ fieldOf cs 2 (pad cs 2)
    /\ List.length (formatSrtTime fl623 time623) = 12%nat
    /\ List.length (formatAssTime fl623 time623) = 10%nat.
Proof.
  assert (H0 : isDouble time623).
  { exists 5611485135703638%Z, (-53)%Z.
    split; [reflexivity|]. split; [lia|reflexivity]. }
  assert (H1 : 0 <= time623) by (vm_compute; discriminate).
  assert (H2 : time623 < ofZ 36000) by (vm_compute; reflexivity).
  assert (H3 : roundsTimeOf fl623 time623).
  { assert (E1 : fl623 (time623 / ofZ 3600)
                 = ofZ 6384623087733917 * pow2 (-65))
      by (apply Qc_is_canon; vm_compute; reflexivity).
    assert (E2 : fl623 (Math_rem time623 (ofZ 3600) / ofZ 60)
                 = ofZ 5985584144750547 * pow2 (-59))
      by (apply Qc_is_canon; vm_compute; reflexivity).
    assert (E3 : fl623 (Math_rem time623 1 * ofZ 1000)
                 = ofZ 5479965952835584 * pow2 (-43))
      by (apply Qc_is_canon; vm_compute; reflexivity).
    assert (E4 : fl623 (ofZ 5479965952835584 * pow2 (-43) / ofZ 10)
                 = ofZ 8767945524536934 * pow2 (-47))
      by (apply Qc_is_canon; vm_compute; reflexivity).
    unfold roundsTimeOf. rewrite E3, E4, E1, E2.
    split; [|split; [|split]];
      (apply nearest_within_half_ulp;
       [split; reflexivity|lia|vm_compute; discriminate]). }
  split; [exact H0|]. split; [exact H1|]. split; [exact H2|].
  split; [exact H3|].
  exact (timestamps_well_formed fl623 time623 H0 H1 H2 H3).
Defined.

(** The double nearest to 0.623 lies below 0.623; its product by 1000 is
    rounded to 623, and this is what is printed. *)
Example formatSrtTime_example :
  formatSrtTime fl623 time623 = lit "00:00:00,623"
  /\ formatAssTime fl623 time623 = lit "0:00:00.62"
  /\ Qfloor (time623 * ofZ 1000)%Qc = 622%Z.
Proof. repeat split; vm_compute; reflexivity. Qed.

(* ------------------------------------------------------------------ *)
(** ** Subtitle cues *)






(* ------------------------------------------------------------------ *)
(** ** Transcript segments *)






(* ------------------------------------------------------------------ *)
(** ** Word-by-word subtitles and escaping *)

Lemma collapseSpaces_plain (inRun : bool) (s : jstring) :
  plainSpaces (collapseSpaces inRun s).
Proof.
  revert inRun. induction s as [|c s IH]; intros inRun; [constructor|].
  cbn [collapseSpaces]. destruct (isSpace c) eqn:E.
  - destruct inRun; [apply IH|]. constructor; [reflexivity|apply IH].
  - constructor; [rewrite E; discriminate|apply IH].
Qed.

Lemma trimStart_Forall (P : N -> Prop) (s : jstring) :
  Forall P s -> Forall P (trimStart s).
Proof.
  induction 1 as [|c s Hc Hs IH]; [constructor|].
  cbn [trimStart]. destruct (isSpace c); [exact IH|].
  constructor; assumption.
Qed.

Lemma trim_Forall (P : N -> Prop) (s : jstring) :
  Forall P s -> Forall P (trim s).
Proof.
  intros H. unfold trim.
  apply Forall_rev, trimStart_Forall, Forall_rev, trimStart_Forall, H.
Qed.

Lemma sanitizeWords_plain (words : list TimedWord) :
  Forall (fun w => plainSpaces (tw_word w)) (sanitizeWords words).
Proof.
  unfold sanitizeWords. apply Forall_forall. intros w Hw.
  apply filter_In in Hw. destruct Hw as [Hw _].
  apply in_map_iff in Hw. destruct Hw as [x [<- _]]. cbn [tw_word].
  apply trim_Forall, collapseSpaces_plain.
Qed.

Lemma join_plain (parts : list jstring) :
  Forall plainSpaces parts -> plainSpaces (join [SPACE] parts).
Proof.
  intros H. unfold join. destruct H as [|p parts Hp H]; [constructor|].
  apply Forall_app. split; [exact Hp|].
  induction H as [|q parts Hq _ IH]; [constructor|].
  cbn [flat_map]. apply Forall_app. split; [|exact IH].
  constructor; [reflexivity|exact Hq].
Qed.

Lemma replaceAll_Forall (P : N -> Prop) (c : N) (by_ s : jstring) :
  Forall P by_ -> Forall (fun u => u <> c -> P u) s ->
  Forall P (replaceAll c by_ s).
Proof.
  intros Hb. induction 1 as [|u s Hu _ IH]; [constructor|].
  unfold replaceAll. cbn [flat_map]. apply Forall_app. split; [|exact IH].
  destruct (N.eqb_spec u c); [exact Hb|]. constructor; [auto|constructor].
Qed.

Lemma assText_plain (group : list TimedWord) :
  Forall (fun w => plainSpaces (tw_word w)) group -> plainText (assText group).
Proof.
  intros H. unfold assText, plainText.
  apply replaceAll_Forall.
  { constructor; [|constructor]. repeat split; try discriminate. }
  apply replaceAll_Forall.
  { constructor; [|constructor]. intros _. repeat split; try discriminate. }
  assert (J : plainSpaces (join [SPACE] (map tw_word group))).
  { apply join_plain. apply Forall_map. exact H. }
  eapply Forall_impl; [|exact J]. cbn beta. intros u Hu H1 H2.
  repeat split; assumption.
Qed.

Lemma firstn_add (i n : nat) (l : list TimedWord) :
  firstn (i + n) l = firstn i l ++ slice i n l.
Proof.
  unfold slice. revert l. induction i as [|i IH]; intros l; [reflexivity|].
  destruct l as [|x l]; [cbn; rewrite firstn_nil; reflexivity|].
  cbn [Nat.add firstn skipn app]. f_equal. apply IH.
Qed.

Lemma slice_length (i n : nat) (l : list TimedWord) :
  List.length (slice i n l) = Nat.min n (List.length l - i).
Proof. unfold slice. rewrite length_firstn, length_skipn. reflexivity. Qed.

Lemma removelast_snoc {A : Type} (l : list A) (x : A) :
  removelast (l ++ [x]) = l.
Proof. rewrite removelast_app by discriminate. cbn. apply app_nil_r. Qed.

Lemma assLoop_groups (fl : Qc -> Qc) (sanitized : list TimedWord)
    (k fuel i : nat) (groups : list (list TimedWord)) :
  (List.length sanitized - i < fuel)%nat ->
  List.concat groups = firstn i sanitized ->
  Forall (fun g => (1 <= List.length g <= S k)%nat) groups ->
  ((i < List.length sanitized)%nat ->
   Forall (fun g => List.length g = S k) groups) ->
  Forall (fun g => List.length g = S k) (removelast groups) ->
  exists groups',
    assLoop fl fuel sanitized (S k) i (map (assDialogue fl) groups)
    = Some (map (assDialogue fl) groups')
    /\ List.concat groups' = sanitized
    /\ Forall (fun g => (1 <= List.length g <= S k)%nat) groups'
    /\ Forall (fun g => List.length g = S k) (removelast groups').
Proof.
  revert i groups. induction fuel as [|fuel IH]; intros i groups Hf Hc Hl Hfull Hrm;
    [lia|].
  cbn [assLoop]. destruct (Nat.ltb_spec i (List.length sanitized)) as [Hi|Hi].
  - pose proof (slice_length i (S k) sanitized) as Hlen.
    destruct (slice i (S k) sanitized) as [|g0 group] eqn:Eg;
      [cbn [List.length] in Hlen; lia|].
    rewrite <- Eg in *. clear Eg g0 group.
    replace (map (assDialogue fl) groups
               ++ [assDialogue fl (slice i (S k) sanitized)])
      with (map (assDialogue fl) (groups ++ [slice i (S k) sanitized]))
      by (rewrite map_app; reflexivity).
    apply IH.
    + lia.
    + rewrite concat_app. cbn [List.concat]. rewrite app_nil_r, Hc.
      symmetry. apply firstn_add.
    + apply Forall_app. split; [exact Hl|]. constructor; [lia|constructor].
    + intros Hi'. apply Forall_app. split; [apply Hfull, Hi|].
      constructor; [lia|constructor].
    + rewrite removelast_snoc. apply Hfull, Hi.
  - exists groups. split; [reflexivity|]. split; [|split; assumption].
    rewrite Hc. apply firstn_all2. exact Hi.
Qed.

Lemma assLoop_stuck (fl : Qc -> Qc) (sanitized : list TimedWord)
    (fuel i : nat) (lines : list jstring) :
  (i < List.length sanitized)%nat ->
  assLoop fl fuel sanitized 0 i lines = None.
Proof.
  intros Hi. induction fuel as [|fuel IH]; [reflexivity|].
  cbn [assLoop]. destruct (Nat.ltb_spec i (List.length sanitized)); [|lia].
  unfold slice. cbn [firstn]. rewrite Nat.add_0_r. exact IH.
Qed.

(** X29.  For wordsPerSubtitle >= 1, createAssWordByWordFile ends and writes
    the header followed by one Dialogue line per group of words; the groups
    hold the sanitized non-empty words in order, every group but the last
    has exactly wordsPerSubtitle words, and the text of a line holds no
    brace and no white space other than plain spaces. For wordsPerSubtitle =
    0 and at least one word the loop never ends. *)
Theorem createAssWordByWordFile_groups_words (fl : Qc -> Qc)
    (words : list TimedWord) (k fuel : nat) :
  (exists groups,
     createAssWordByWordFile fl
       (S (List.length (sanitizeWords words)) + fuel) words (S k)
     = Some (join NEWLINE (assHeader ++ map (assDialogue fl) groups)
               ++ NEWLINE)
     /\ List.concat groups = sanitizeWords words
     /\ Forall (fun g => (1 <= List.length g <= S k)%nat) groups
     /\ Forall (fun g => List.length g = S k) (removelast groups)
     /\ Forall (fun g => plainText (assText g)) groups)
  /\ (sanitizeWords words <> [] ->
      createAssWordByWordFile fl fuel words 0 = None).
Proof.
  split.
  - destruct (assLoop_groups fl (sanitizeWords words) k
                (S (List.length (sanitizeWords words)) + fuel) 0 [])
      as [groups [E [Hc [Hl Hr]]]];
      [lia|reflexivity|constructor|constructor|constructor|].
    exists groups. unfold createAssWordByWordFile. cbn [map] in E. rewrite E.
    split; [reflexivity|]. split; [exact Hc|]. split; [exact Hl|].
    split; [exact Hr|].
    pose proof (sanitizeWords_plain words) as Hp. rewrite <- Hc in Hp.
    clear - Hp. induction groups as [|g groups IH]; [constructor|].
    cbn [List.concat] in Hp. apply Forall_app in Hp. destruct Hp as [Hg Hp].
    constructor; [apply assText_plain, Hg|apply IH, Hp].
  - intros Hne. unfold createAssWordByWordFile.
    rewrite assLoop_stuck; [reflexivity|].
    destruct (sanitizeWords words); [contradiction|cbn; lia].
Qed.

Lemma replaceAll_flat_map (c : N) (by_ : jstring) (f : N -> jstring)
    (s : jstring) :
  replaceAll c by_ (flat_map f s)
  = flat_map (fun u => replaceAll c by_ (f u)) s.
Proof.
  induction s as [|u s IH]; [reflexivity|].
  cbn [flat_map]. unfold replaceAll in *. rewrite flat_map_app, IH.
  reflexivity.
Qed.

Lemma escape_one_pass (text : jstring) :
  replaceAll RIGHT_BRACKET [BACKSLASH; RIGHT_BRACKET]
    (replaceAll LEFT_BRACKET [BACKSLASH; LEFT_BRACKET]
       (replaceAll COLON [BACKSLASH; COLON]
          (replaceAll QUOTE [BACKSLASH; QUOTE]
             (replaceAll BACKSLASH [BACKSLASH; BACKSLASH] text))))
  = flat_map escapeUnit text.
Proof.
  unfold replaceAll at 5. rewrite !replaceAll_flat_map.
  apply flat_map_ext. intros u. unfold escapeUnit. cbn [existsb].
  destruct (N.eqb_spec u BACKSLASH) as [->|H1]; [reflexivity|].
  destruct (N.eqb_spec u QUOTE) as [->|H2]; [reflexivity|].
  destruct (N.eqb_spec u COLON) as [->|H3]; [reflexivity|].
  destruct (N.eqb_spec u LEFT_BRACKET) as [->|H4]; [reflexivity|].
  destruct (N.eqb_spec u RIGHT_BRACKET) as [->|H5]; [reflexivity|].
  unfold replaceAll. cbn [flat_map app orb].
  apply N.eqb_neq in H1, H2, H3, H4, H5.
  rewrite H2. cbn [flat_map app]. rewrite H3. cbn [flat_map app].
  rewrite H4. cbn [flat_map app]. rewrite H5. reflexivity.
Qed.

Lemma unescape_escape (text : jstring) :
  unescape (flat_map escapeUnit text) = text.
Proof.
  unfold unescape. induction text as [|u text IH]; [reflexivity|].
  cbn [flat_map]. unfold escapeUnit at 1. cbn [existsb].
  destruct (N.eqb_spec u BACKSLASH) as [->|H1].
  { cbn. f_equal. exact IH. }
  cbn [orb].
  match goal with |- context [if ?b then _ else _] => destruct b end;
    cbn [app unescapeFrom].
  - change (BACKSLASH =? BACKSLASH)%N with true. cbn iota. f_equal. exact IH.
  - apply N.eqb_neq in H1. rewrite H1. f_equal. exact IH.
Qed.

(** X30.  escapeDrawtext puts one backslash before every backslash, quote,
    colon and square bracket of the text and changes nothing else, so that
    no character is escaped twice and removing the escaping backslashes
    gives the text back; escapeSubtitlesPath is the same function. *)
Theorem escapeDrawtext_escapes_once (text : jstring) :
  escapeDrawtext text = flat_map escapeUnit text
  /\ escapeSubtitlesPath text = escapeDrawtext text
  /\ unescape (escapeDrawtext text) = text.
Proof.
  unfold escapeSubtitlesPath, escapeDrawtext. rewrite escape_one_pass.
  split; [reflexivity|]. split; [reflexivity|apply unescape_escape].
Qed.
